(** * EchoPro / echopop: strata-based biomass estimation and apportionment

    A shallow embedding of the numerical core of
    [EchoPro/computation/biomass_density.py], [EchoPro/survey.py] and
    [echopop/analysis.py], together with the properties their
    specification states about them.

    Numeric model.  A NumPy [float64] is modelled by [float]: an exact
    rational, or one of the IEEE-754 special values [+inf], [-inf], [NaN].
    Finite arithmetic is exact (no rounding, no overflow, no signed zero);
    the special values follow IEEE-754: [0/0 = NaN], [x/0 = +-inf],
    every comparison with [NaN] is false except [!=].  Equality of finite
    values is equality of rationals ([Qeq]). *)

From Stdlib Require Import String.
From Stdlib Require Import QArith Qround ZArith List Bool Lia Lqa Arith PeanoNat
  Setoid Morphisms Permutation.
Import ListNotations.

Open Scope Q_scope.

(** ** Python exceptions and results *)

Inductive exn : Type :=
| IndexError
| ValueError
| KeyError
| ZeroDivisionError
| AttributeError
| TypeError.

Inductive result (A : Type) : Type :=
| Ok (a : A)
| Raise (e : exn).

Arguments Ok {A} a.
Arguments Raise {A} e.

Definition bind {A B : Type} (r : result A) (k : A -> result B) : result B :=
  match r with
  | Ok a => k a
  | Raise e => Raise e
  end.

Notation "x <- r ;; k" := (bind r (fun x => k))
  (at level 61, r at next level, right associativity).

Fixpoint mapM {A B : Type} (f : A -> result B) (l : list A)
  : result (list B) :=
  match l with
  | [] => Ok []
  | a :: t => b <- f a ;; bs <- mapM f t ;; Ok (b :: bs)
  end.

Definition is_ok {A : Type} (r : result A) : bool :=
  match r with Ok _ => true | Raise _ => false end.

(** ** Floating-point values *)

Inductive float : Type :=
| Fin (q : Q)
| PInf
| NInf
| NaN.

Definition Qlt_bool (a b : Q) : bool := negb (Qle_bool b a).

Definition isnan (x : float) : bool :=
  match x with NaN => true | _ => false end.

Definition isfinite (x : float) : bool :=
  match x with Fin _ => true | _ => false end.

(** [x <= y] on floats. *)
Definition fle_b (x y : float) : bool :=
  match x, y with
  | NaN, _ | _, NaN => false
  | NInf, _ => true
  | _, PInf => true
  | Fin a, Fin b => Qle_bool a b
  | _, _ => false
  end.

(** [x < y] on floats. *)
Definition flt_b (x y : float) : bool :=
  match x, y with
  | NaN, _ | _, NaN => false
  | PInf, _ => false
  | _, NInf => false
  | Fin a, Fin b => Qlt_bool a b
  | _, _ => true
  end.

(** [x == y] on floats. *)
Definition feq_b (x y : float) : bool :=
  match x, y with
  | Fin a, Fin b => Qeq_bool a b
  | PInf, PInf => true
  | NInf, NInf => true
  | _, _ => false
  end.

(** [x != y] on floats: true as soon as one side is [NaN]. *)
Definition fne_b (x y : float) : bool := negb (feq_b x y).

Definition fopp (x : float) : float :=
  match x with
  | Fin a => Fin (- a)
  | PInf => NInf
  | NInf => PInf
  | NaN => NaN
  end.

Definition fadd (x y : float) : float :=
  match x, y with
  | NaN, _ | _, NaN => NaN
  | Fin a, Fin b => Fin (a + b)
  | PInf, NInf | NInf, PInf => NaN
  | PInf, _ | _, PInf => PInf
  | NInf, _ | _, NInf => NInf
  end.

Definition fsub (x y : float) : float := fadd x (fopp y).

(** Sign of a rational as a comparison with zero. *)
Definition Qsgn (a : Q) : comparison := a ?= 0.

Definition inf_of_sign (c : comparison) : float :=
  match c with
  | Gt => PInf
  | Lt => NInf
  | Eq => NaN
  end.

Definition fmul (x y : float) : float :=
  match x, y with
  | NaN, _ | _, NaN => NaN
  | Fin a, Fin b => Fin (a * b)
  | Fin a, PInf | PInf, Fin a => inf_of_sign (Qsgn a)
  | Fin a, NInf | NInf, Fin a => inf_of_sign (CompOpp (Qsgn a))
  | PInf, PInf | NInf, NInf => PInf
  | PInf, NInf | NInf, PInf => NInf
  end.

Definition fdiv (x y : float) : float :=
  match x, y with
  | NaN, _ | _, NaN => NaN
  | Fin a, Fin b =>
      if Qeq_bool b 0 then inf_of_sign (Qsgn a) else Fin (a / b)
  | Fin _, PInf | Fin _, NInf => Fin 0
  | PInf, Fin b => if Qlt_bool b 0 then NInf else PInf
  | NInf, Fin b => if Qlt_bool b 0 then PInf else NInf
  | _, _ => NaN
  end.

(** Equality of floats up to equality of rationals; [NaN] is related to
    itself, so that two tables can be compared cell by cell. *)
Definition feq (x y : float) : Prop :=
  match x, y with
  | Fin a, Fin b => a == b
  | PInf, PInf | NInf, NInf | NaN, NaN => True
  | _, _ => False
  end.

(** [Series.fillna(v)] on one cell. *)
Definition fillna (v : float) (x : float) : float :=
  if isnan x then v else x.

(** [np.sum] of a list of floats. *)
Definition fsum (l : list float) : float := fold_left fadd l (Fin 0).

(** [np.sum] of a list of finite values. *)
Definition Qsum (l : list Q) : Q := fold_left Qplus l 0.

(** ** BinIndexer: [ComputeBiomassDensity._get_bin_ind] *)

(** [np.diff]. *)
Fixpoint np_diff (l : list Q) : list Q :=
  match l with
  | a :: (b :: _) as t => (b - a) :: np_diff t
  | _ => []
  end.

(** [np.argwhere(mask).flatten()] for a one-dimensional boolean mask. *)
Fixpoint argwhere_from (i : nat) (mask : list bool) : list nat :=
  match mask with
  | [] => []
  | b :: t => if b then i :: argwhere_from (S i) t else argwhere_from (S i) t
  end.

Definition argwhere (mask : list bool) : list nat := argwhere_from 0 mask.

(** [l[i]] for [0 <= i < len(l)]. *)
Definition getQ (l : list Q) (i : nat) : Q := nth i l 0.

(** [l[-k]] for [1 <= k <= len(l)]. *)
Definition getQ_neg (l : list Q) (k : nat) : Q := nth (length l - k) l 0.

Definition _get_bin_ind (input_data : list float) (centered_bins : list Q)
  : result (list (list nat)) :=
  (* get the distance between bin centers *)
  let bin_diff := map (fun d => d / 2) (np_diff centered_bins) in
  match centered_bins, bin_diff with
  | c0 :: _, d0 :: _ =>
      (* fill the first bin *)
      let first :=
        argwhere (map (fun v => fle_b v (Fin (c0 + d0))) input_data) in
      let middle :=
        map (fun i =>
               argwhere
                 (map (fun v =>
                         (* values greater than the lower bound *)
                         flt_b (Fin (getQ centered_bins i + getQ bin_diff i)) v
                         (* values less than or equal to the upper bound *)
                         && fle_b v (Fin (getQ centered_bins (i + 1)
                                          + getQ bin_diff (i + 1))))
                      input_data))
            (seq 0 (length centered_bins - 2)) in
      (* fill in the last bin *)
      let last :=
        argwhere
          (map (fun v => flt_b (Fin (getQ_neg centered_bins 2
                                     + getQ_neg bin_diff 1)) v)
               input_data) in
      Ok (first :: middle ++ [last])
  | _, _ => Raise IndexError
  end.

(** ** StrataGapFiller: [ComputeBiomassDensity._fill_missing_strata_indices] *)

(** A per-stratum table: the rows in their positional order, each a
    stratum id (the index label) and its value.  A table with several
    columns is filled column by column in the same way. *)
Definition dataframe : Type := list (Z * float).

Definition index (df : dataframe) : list Z := map fst df.

Definition mem_Z (k : Z) (l : list Z) : bool := existsb (Z.eqb k) l.

(** [df.loc[k]] *)
Fixpoint loc (df : dataframe) (k : Z) : result float :=
  match df with
  | [] => Raise KeyError
  | (k', v) :: t => if Z.eqb k k' then Ok v else loc t k
  end.

(** [df.iloc[i]] *)
Definition iloc (df : dataframe) (i : nat) : result float :=
  match nth_error df i with
  | Some (_, v) => Ok v
  | None => Raise IndexError
  end.

(** [df.loc[k] = v]: overwrites the row labelled [k], or appends a new row
    at the end when the label is new. *)
Fixpoint loc_set (df : dataframe) (k : Z) (v : float) : dataframe :=
  match df with
  | [] => [(k, v)]
  | (k', v') :: t =>
      if Z.eqb k k' then (k', v) :: t else (k', v') :: loc_set t k v
  end.

(** [df.index.max()] and [df.index.min()]; an empty index has neither. *)
Definition index_max (df : dataframe) : option Z :=
  match index df with
  | [] => None
  | k :: t => Some (fold_left Z.max t k)
  end.

Definition index_min (df : dataframe) : option Z :=
  match index df with
  | [] => None
  | k :: t => Some (fold_left Z.min t k)
  end.

(** *** [np.argpartition]

    NumPy's selection ([introselect]) handles [kth < 3] by the plain
    selection loop below: for each position [0..kth] it moves the first
    strict minimum of the remaining candidates to that position by a swap.
    Which of several equal elements comes first is an artefact of that
    loop; NumPy promises only the partition property. *)

(** Position, counted from [pos], of the first strict minimum of [v] over
    the candidates [l]; [best_pos] and [best] are the running minimum. *)
Fixpoint first_min_pos (v : nat -> Z) (pos best_pos : nat) (best : Z)
  (l : list nat) : nat :=
  match l with
  | [] => best_pos
  | t :: l' =>
      if Z.ltb (v t) best
      then first_min_pos v (S pos) pos (v t) l'
      else first_min_pos v (S pos) best_pos best l'
  end.

(** Replace the element at position [m]. *)
Fixpoint set_nth {A : Type} (m : nat) (x : A) (l : list A) : list A :=
  match l, m with
  | [], _ => []
  | _ :: t, O => x :: t
  | h :: t, S m' => h :: set_nth m' x t
  end.

(** Swap the head of [tosort] with the element at position [m]. *)
Definition swap_head (tosort : list nat) (m : nat) : list nat :=
  match tosort, m with
  | [], _ => []
  | _, O => tosort
  | h :: t, S m' => nth m' t h :: set_nth m' h t
  end.

Fixpoint dumb_select (v : nat -> Z) (left : nat) (tosort : list nat)
  : list nat :=
  match tosort with
  | [] => []
  | h :: t =>
      let minidx := first_min_pos v 1 0 (v h) t in
      match swap_head tosort minidx with
      | [] => []
      | x :: r =>
          x :: match left with
               | O => r
               | S left' => dumb_select v left' r
               end
      end
  end.

(** [np.argpartition(a, kth)] for [kth >= 0]; [kth] must be a valid
    position of [a]. *)
Definition argpartition (a : list Z) (kth : nat) : result (list nat) :=
  if Nat.ltb kth (length a)
  then Ok (dumb_select (fun i => nth i a 0%Z) kth (seq 0 (length a)))
  else Raise ValueError.

(** [idx[i]] on the array returned by [argpartition]. *)
Definition get_idx (idx : list nat) (i : nat) : result nat :=
  match nth_error idx i with
  | Some j => Ok j
  | None => Raise IndexError
  end.

(** [strata > max_known_strata] where the bound of an empty index is [nan]:
    the comparison is then false. *)
Definition gt_opt (s : Z) (bound : option Z) : bool :=
  match bound with Some b => Z.gtb s b | None => false end.

Definition lt_opt (s : Z) (bound : option Z) : bool :=
  match bound with Some b => Z.ltb s b | None => false end.

Definition loc_opt (df : dataframe) (k : option Z) : result float :=
  match k with Some k => loc df k | None => Raise KeyError end.

(** The body of the loop over [missing_strata]. *)
Definition fill_one (fill_w_one_val : bool)
  (max_known_strata min_known_strata : option Z)
  (df : dataframe) (strata : Z) : result dataframe :=
  if fill_w_one_val then
    (* fill all missing strata with the only known value *)
    v <- loc_opt df max_known_strata ;;
    Ok (loc_set df strata v)
  else if gt_opt strata max_known_strata then
    (* fill value with the value at the largest known stratum *)
    v <- loc_opt df max_known_strata ;;
    Ok (loc_set df strata v)
  else if lt_opt strata min_known_strata then
    (* fill value with the value at the smallest known stratum *)
    v <- loc_opt df min_known_strata ;;
    Ok (loc_set df strata v)
  else
    (* get the two indices of df.index that are closest to strata *)
    let strata_ind_diff := map (fun k => Z.abs (strata - k)) (index df) in
    idx <- argpartition strata_ind_diff 2 ;;
    (* get values at two smallest indices *)
    i0 <- get_idx idx 0 ;;
    i1 <- get_idx idx 1 ;;
    val_1 <- iloc df i0 ;;
    val_2 <- iloc df i1 ;;
    (* average two closest values *)
    let average_vals := fdiv (fadd val_1 val_2) (Fin 2) in
    Ok (loc_set df strata average_vals).

Fixpoint fill_loop (fill_w_one_val : bool)
  (max_known_strata min_known_strata : option Z)
  (missing_strata : list Z) (df : dataframe) : result dataframe :=
  match missing_strata with
  | [] => Ok df
  | strata :: rest =>
      df' <- fill_one fill_w_one_val max_known_strata min_known_strata
                      df strata ;;
      fill_loop fill_w_one_val max_known_strata min_known_strata rest df'
  end.

(** The Python set [set(nasc_df.stratum_num.unique()) - set(df.index)].
    [nasc_strata] lists the distinct stratum ids of [nasc_df] in the order
    in which the set yields them (CPython yields small non-negative
    integers in increasing order); the difference keeps that order. *)
Definition set_difference (nasc_strata : list Z) (df : dataframe) : list Z :=
  filter (fun s => negb (mem_Z s (index df))) (nodup Z.eq_dec nasc_strata).

Definition _fill_missing_strata_indices (nasc_strata : list Z)
  (df : dataframe) : result dataframe :=
  (* all strata indices that are missing *)
  let missing_strata := set_difference nasc_strata df in
  (* if there are no missing strata then do nothing *)
  if Nat.eqb (length missing_strata) 0 then Ok df
  else
    let max_known_strata := index_max df in
    let min_known_strata := index_min df in
    (* if there is only 1 stratum with a value, fill all missing
       strata with the only known value *)
    let fill_w_one_val := Nat.eqb (length (index df)) 1 in
    fill_loop fill_w_one_val max_known_strata min_known_strata
              missing_strata df.

(** ** StrataGapFiller, second implementation: [Survey.impute_missing_sigma_bs] *)

(** [Series.mean()]: the mean of the non-missing cells, [NaN] when there
    is none. *)
Definition fnansum (l : list float) : float :=
  fsum (filter (fun x => negb (isnan x)) l).

Definition count_notnan (l : list float) : nat :=
  length (filter (fun x => negb (isnan x)) l).

Definition Qnat (n : nat) : Q := inject_Z (Z.of_nat n).

Definition series_mean (l : list float) : float :=
  fdiv (fnansum l) (Fin (Qnat (count_notnan l))).

(** [np.max] / [np.min] of an integer array, [None] for an empty one. *)
Definition max_list (l : list Z) : option Z :=
  match l with [] => None | k :: t => Some (fold_left Z.max t k) end.

Definition min_list (l : list Z) : option Z :=
  match l with [] => None | k :: t => Some (fold_left Z.min t k) end.

(** [x in [a, b]] where [a], [b] may be [None]. *)
Definition isin_opt (x : Z) (a b : option Z) : bool :=
  match a with Some a => Z.eqb x a | None => false end
  || match b with Some b => Z.eqb x b | None => false end.

(** A row of [strata_mean]: the mean [sigma_bs] of one species in one
    stratum. *)
Record strata_mean_row : Type := {
  sm_stratum_num : Z;
  sm_species_id : Z;
  mean_sigma_bs : float
}.

(** Insertion into a list sorted by [key], after the rows with the same
    key. *)
Fixpoint insert_by {A : Type} (key : A -> Z) (x : A) (l : list A) : list A :=
  match l with
  | [] => [x]
  | y :: t => if Z.ltb (key x) (key y) then x :: l
              else y :: insert_by key x t
  end.

(** [DataFrame.sort_values(key)].  Rows with equal keys keep their
    order, which NumPy's default sort does not promise. *)
Definition sort_values {A : Type} (key : A -> Z) (l : list A) : list A :=
  fold_left (fun acc x => insert_by key x acc) l [].

(** [np.unique]: the distinct values, in increasing order. *)
Definition np_unique (l : list Z) : list Z :=
  sort_values (fun k => k) (nodup Z.eq_dec l).

(** One pass of the loop: the value given to the missing stratum [i]. *)
Definition impute_value (present_strata : list Z)
  (sigma_bs_impute : list strata_mean_row) (i : Z) : float :=
  let strata_floor := filter (fun p => Z.ltb p i) present_strata in
  let strata_ceil := filter (fun p => Z.gtb p i) present_strata in
  let new_stratum_below := max_list strata_floor in
  let new_stratum_above := min_list strata_ceil in
  let sigma_bs_indexed :=
    filter (fun r => isin_opt (sm_stratum_num r)
                              new_stratum_below new_stratum_above)
           sigma_bs_impute in
  series_mean (map mean_sigma_bs sigma_bs_indexed).

(** [sigma_bs_impute.loc[sigma_bs_impute.stratum_num == i, col] = v] *)
Definition assign_where (df : list strata_mean_row) (i : Z) (v : float)
  : list strata_mean_row :=
  map (fun r => if Z.eqb (sm_stratum_num r) i
                then {| sm_stratum_num := sm_stratum_num r;
                        sm_species_id := sm_species_id r;
                        mean_sigma_bs := v |}
                else r) df.

(** [strata_df_stratum_num] is the [stratum_num] column of the
    stratification table, [strata_mean] the table of per-stratum means;
    the result is the table stored in [acoustics['sigma_bs']
    ['strata_mean']] afterwards.  The frame of the missing strata is built
    from two arrays ([missing_strata] and the distinct species) and a
    scalar: pandas refuses arrays of different lengths. *)
Definition impute_missing_sigma_bs (strata_df_stratum_num : list Z)
  (strata_mean : list strata_mean_row) : result (list strata_mean_row) :=
  (* Collect all possible strata values *)
  let strata_options := np_unique strata_df_stratum_num in
  (* impute missing strata values *)
  let present_strata := np_unique (map sm_stratum_num strata_mean) in
  let missing_strata :=
    filter (fun s => negb (mem_Z s present_strata)) strata_options in
  if Nat.ltb 0 (length missing_strata) then
    let species := np_unique (map sm_species_id strata_mean) in
    if negb (Nat.eqb (length missing_strata) (length species))
    then Raise ValueError
    else
      let sigma_bs_impute :=
        sort_values sm_stratum_num
          (strata_mean
           ++ map (fun p => {| sm_stratum_num := fst p;
                               sm_species_id := snd p;
                               mean_sigma_bs := NaN |})
                  (combine missing_strata species)) in
      (* Find strata intervals to impute over *)
      Ok (fold_left
            (fun acc i =>
               assign_where acc i (impute_value present_strata acc i))
            missing_strata sigma_bs_impute)
  else Ok strata_mean.

(** ** CrossSectionEstimator *)

(** Station 2: one row per fish. *)
Record specimen_row : Type := {
  sp_haul_num : Z;
  sp_species_id : Z;
  sp_region : Z;
  sp_length : float;
  sp_weight : float;
  sp_sex : Z;
  sp_age : float
}.

(** Station 1: one row per (haul, length, sex) with the number of fish. *)
Record length_row : Type := {
  ln_haul_num : Z;
  ln_species_id : Z;
  ln_region : Z;
  ln_length : float;
  ln_length_count : float;
  ln_sex : Z
}.

(** [Index.unique()]: first occurrences, in order. *)
Fixpoint unique (l : list Z) : list Z :=
  match l with
  | [] => []
  | k :: t => k :: filter (fun x => negb (Z.eqb x k)) (unique t)
  end.

Section CrossSection.

(** The target-strength relation, in the linear domain:
    [sigma length = 10 ** ((20 * log10 length - 68) / 10)] in
    [_get_strata_sig_b], and [to_linear (ts_length_regression length
    slope intercept)] in [strata_mean_sigma_bs].  [log10] and [**] have
    no exact rational model, so the relation on finite lengths is a
    parameter. *)
Variable sigma : Q -> Q.

(** The relation on a cell that may be missing. *)
Definition sigma_bs_of (len : float) : float :=
  match len with
  | Fin q => Fin (sigma q)
  | PInf => PInf
  | NInf | NaN => NaN
  end.

(** *** [ComputeBiomassDensity._get_strata_sig_b], per haul *)

(** [specimen_df[["length", "weight"]].dropna(how="any")] *)
Definition spec_dropna (specimen_df : list specimen_row)
  : list specimen_row :=
  filter (fun r => negb (isnan (sp_length r)) && negb (isnan (sp_weight r)))
         specimen_df.

(** The value stored in [strata_df.loc[haul_num, "sig_bs_haul"]].  A
    haul with one station-1 row only is selected by [.loc] as a Series,
    its ["length"] is one cell, and a cell has no [values]. *)
Definition sig_bs_haul (spec_df : list specimen_row)
  (length_df : list length_row) (haul_num : Z) : result float :=
  (* lengths from specimen file associated with index haul_num *)
  let spec_len :=
    map sp_length
        (filter (fun r => Z.eqb (sp_haul_num r) haul_num) spec_df) in
  let in_length_df :=
    existsb (fun r => Z.eqb (ln_haul_num r) haul_num) length_df in
  let rows :=
    filter (fun r => Z.eqb (ln_haul_num r) haul_num) length_df in
  (* add lengths from length file associated with index haul_num *)
  _ <- (if in_length_df
        then match rows with
             | [_] => Raise AttributeError
             | _ => Ok tt
             end
        else Ok tt) ;;
  (* sum of target strengths *)
  let sum_TS0j_length :=
    if in_length_df
    then fnansum (map (fun r => fmul (sigma_bs_of (ln_length r))
                                     (ln_length_count r)) rows)
    else Fin 0 in
  (* total number of values used to calculate sum_TS0j_length *)
  let num_length :=
    if in_length_df then fnansum (map ln_length_count rows) else Fin 0 in
  (* sum of target strengths *)
  let sum_TS0j_spec := fnansum (map sigma_bs_of spec_len) in
  (* mean differential backscattering cross-section for each haul *)
  Ok (fdiv (fadd sum_TS0j_spec sum_TS0j_length)
           (fadd num_length (Fin (Qnat (length spec_len))))).

(** The loop of [_get_strata_sig_b]: the hauls that receive a value, and
    that value.  Every other haul keeps the initial [NaN]. *)
Definition _get_strata_sig_b (specimen_df : list specimen_row)
  (length_df : list length_row) : result (list (Z * float)) :=
  let spec_df := spec_dropna specimen_df in
  mapM (fun haul_num =>
          v <- sig_bs_haul spec_df length_df haul_num ;;
          Ok (haul_num, v))
       (unique (map sp_haul_num spec_df)).

(** *** [Survey.strata_mean_sigma_bs], per haul *)

(** A row of [all_length_df]. *)
Record all_length_row : Type := {
  al_haul_num : Z;
  al_species_id : Z;
  al_region : Z;
  al_length : float;
  al_length_count : float
}.

Definition key4 : Type := (Z * Z * Z * float)%type.

Definition key4_eqb (a b : key4) : bool :=
  match a, b with
  | (h, s, g, len), (h', s', g', len') =>
      Z.eqb h h' && Z.eqb s s' && Z.eqb g g' && feq_b len len'
  end.

Definition spec_key (r : specimen_row) : key4 :=
  (sp_haul_num r, sp_species_id r, sp_region r, sp_length r).

(** The distinct group keys, first occurrences in order. *)
Fixpoint unique_keys (l : list key4) : list key4 :=
  match l with
  | [] => []
  | k :: t => k :: filter (fun x => negb (key4_eqb x k)) (unique_keys t)
  end.

(** The groups of [specimen_df.groupby(['haul_num', 'species_id',
    'region', 'length'])] with the number of specimens in each: one row
    per distinct key; rows whose length is missing form no group. *)
Definition spec_groups (specimen_df : list specimen_row)
  : list all_length_row :=
  let rows := filter (fun r => negb (isnan (sp_length r))) specimen_df in
  map (fun k : key4 =>
         match k with
         | (h, s, g, len) =>
             {| al_haul_num := h;
                al_species_id := s;
                al_region := g;
                al_length := len;
                al_length_count :=
                  Fin (Qnat (length
                    (filter (fun r => key4_eqb (spec_key r) k) rows))) |}
         end)
      (unique_keys (map spec_key rows)).

(** [specimen_df.groupby([...]).apply(lambda x: len(x['length']))
    .reset_index(name='length_count')].  Over no group [apply] returns an
    empty DataFrame instead of a Series, and [DataFrame.reset_index] has
    no parameter [name]. *)
Definition spec_df_reframed (specimen_df : list specimen_row)
  : result (list all_length_row) :=
  match spec_groups specimen_df with
  | [] => Raise TypeError
  | rows => Ok rows
  end.

Definition of_length_row (r : length_row) : all_length_row :=
  {| al_haul_num := ln_haul_num r;
     al_species_id := ln_species_id r;
     al_region := ln_region r;
     al_length := ln_length r;
     al_length_count := ln_length_count r |}.

(** [np.average(a, weights=w)] *)
Definition np_average (a w : list float) : result float :=
  let scl := fsum w in
  if feq_b scl (Fin 0) then Raise ZeroDivisionError
  else Ok (fdiv (fsum (map (fun p => fmul (fst p) (snd p)) (combine a w)))
                scl).

Definition key3 : Type := (Z * Z * Z)%type.

Definition key3_eqb (a b : key3) : bool :=
  match a, b with
  | (h, s, g), (h', s', g') => Z.eqb h h' && Z.eqb s s' && Z.eqb g g'
  end.

Definition al_key (r : all_length_row) : key3 :=
  (al_haul_num r, al_species_id r, al_region r).

Fixpoint unique_key3 (l : list key3) : list key3 :=
  match l with
  | [] => []
  | k :: t => k :: filter (fun x => negb (key3_eqb x k)) (unique_key3 t)
  end.

(** [all_length_df] after the concatenation and the species filter;
    [reframed] is [spec_df_reframed]. *)
Definition all_length_df (reframed : list all_length_row)
  (length_df : list length_row) (species_id : Z) : list all_length_row :=
  filter (fun r => Z.eqb (al_species_id r) species_id)
         (reframed ++ map of_length_row length_df).

(** The weighted mean [sigma_bs] of one group of [all_length_df]. *)
Definition haul_mean (all_df : list all_length_row) (k : key3)
  : result float :=
  let x := filter (fun r => key3_eqb (al_key r) k) all_df in
  np_average (map (fun r => sigma_bs_of (al_length r)) x)
             (map al_length_count x).

(** [mean_haul_sigma_bs]: one row per (haul, species, region).  Over no
    group [apply] returns an empty DataFrame instead of a Series, and a
    DataFrame has no [to_frame]. *)
Definition mean_haul_sigma_bs (specimen_df : list specimen_row)
  (length_df : list length_row) (species_id : Z)
  : result (list (key3 * float)) :=
  reframed <- spec_df_reframed specimen_df ;;
  let all_df := all_length_df reframed length_df species_id in
  match unique_key3 (map al_key all_df) with
  | [] => Raise AttributeError
  | keys => mapM (fun k => v <- haul_mean all_df k ;; Ok (k, v)) keys
  end.

End CrossSection.

(** ** CompositionEstimator *)

(** [arr[ind]] for an index array [ind]. *)
Definition take (arr : list float) (ind : list nat) : list float :=
  map (fun i => nth i arr NaN) ind.

(** *** Selection by an index label that may repeat *)

(** What [df.loc[label]] returns for a table whose index labels may
    repeat: the row itself, as a Series, when the label occurs once, and a
    table of the rows when it occurs several times. *)
Inductive loc_rows (A : Type) : Type :=
| Series (row : A)
| DataFrame (rows : list A).

Arguments Series {A} row.
Arguments DataFrame {A} rows.

(** The rows of [df] with index label [label]. *)
Definition stratum_rows {A : Type} (df : list (Z * A)) (label : Z) : list A :=
  map snd (filter (fun p => Z.eqb (fst p) label) df).

(** [df.loc[label]]: a label that does not occur raises [KeyError]. *)
Definition df_loc {A : Type} (df : list (Z * A)) (label : Z)
  : result (loc_rows A) :=
  match stratum_rows df label with
  | [] => Raise KeyError
  | [row] => Ok (Series row)
  | rows => Ok (DataFrame rows)
  end.

(** [x[x[col] == k]].  On a Series [x[col]] is one cell, the comparison
    one boolean, and [x[True]] or [x[False]] looks that boolean up among
    the labels of the row, the column names, where it is not found. *)
Definition where_eq {A : Type} (col : A -> Z) (x : loc_rows A) (k : Z)
  : result (list A) :=
  match x with
  | Series _ => Raise KeyError
  | DataFrame rows => Ok (filter (fun r => Z.eqb (col r) k) rows)
  end.

Definition rows_of {A : Type} (x : loc_rows A) : list A :=
  match x with
  | Series row => [row]
  | DataFrame rows => rows
  end.

Section Composition.

(** [self.bio_hake_len_bin]: the centers of the length bins. *)
Variable bio_hake_len_bin : list Q.

Definition _get_distribution_lengths_station_1 (df : list length_row)
  : result (list float) :=
  (* get numpy arrays of the length and length_count columns *)
  let length_arr := map ln_length df in
  let length_count_arr := map ln_length_count df in
  (* binned length indices *)
  len_ind <- _get_bin_ind length_arr bio_hake_len_bin ;;
  (* total number of lengths in a bin *)
  let len_bin_cnt := map (fun i => fsum (take length_count_arr i)) len_ind in
  Ok (map (fun c => fdiv c (fsum len_bin_cnt)) len_bin_cnt).

Definition _get_distribution_lengths_station_2 (df : list specimen_row)
  : result (list float) :=
  (* numpy array of length column *)
  let length_arr := map sp_length df in
  (* binned length indices *)
  len_bin_ind <- _get_bin_ind length_arr bio_hake_len_bin ;;
  (* total number of lengths in a bin *)
  let len_bin_cnt := map (fun i => Fin (Qnat (length i))) len_bin_ind in
  Ok (map (fun c => fdiv c (fsum len_bin_cnt)) len_bin_cnt).

(** The four lists returned by [_compute_proportions]; each list has a
    male and a female entry, [tot_prop] a station-1 and a station-2
    entry. *)
Record proportions : Type := {
  gender_prop : float * float;
  fac1 : float * float;
  fac2 : float * float;
  tot_prop : float * float
}.

(** [df.shape[0]] *)
Definition shape0 {A : Type} (df : list A) : float := Fin (Qnat (length df)).

(** [df.length_count.sum()] *)
Definition length_count_sum (df : list length_row) : float :=
  fnansum (map ln_length_count df).

Definition _compute_proportions
  (spec_strata_m spec_strata_f : list specimen_row)
  (len_strata len_strata_m len_strata_f : list length_row) : proportions :=
  (* total number of sexed fish at stations 1 and 2 *)
  let total_n :=
    fadd (fadd (shape0 spec_strata_m) (shape0 spec_strata_f))
         (length_count_sum len_strata) in
  (* proportion of males/females in station 2 *)
  let spec_m_prop := fdiv (shape0 spec_strata_m) total_n in
  let spec_f_prop := fdiv (shape0 spec_strata_f) total_n in
  (* proportion of males/females in station 1 *)
  let len_m_prop := fdiv (length_count_sum len_strata_m) total_n in
  let len_f_prop := fdiv (length_count_sum len_strata_f) total_n in
  (* total proportion of sexed fish in station 2 *)
  let tot_prop2 := fadd spec_m_prop spec_f_prop in
  (* total proportion of sexed fish in station 1 *)
  let tot_prop1 := fsub (Fin 1) tot_prop2 in
  (* fraction of males and females in station 1 *)
  let fac1_m := fmul tot_prop1 (Fin 1) in
  let fac1_f := fmul tot_prop1 (Fin 1) in
  (* average fraction of males and females from station 1? *)
  let fac1_m := fdiv fac1_m (fadd fac1_m spec_m_prop) in
  let fac1_f := fdiv fac1_f (fadd fac1_f spec_f_prop) in
  (* average fraction of males and females from station 2? *)
  let fac2_m := fdiv spec_m_prop (fadd fac1_m spec_m_prop) in
  let fac2_f := fdiv spec_f_prop (fadd fac1_f spec_f_prop) in
  (* average of total proportion of sexed fish pertaining to station 1 *)
  let tot_prop1 := fdiv tot_prop1 (fadd tot_prop1 tot_prop2) in
  (* average of total proportion of sexed fish pertaining to station 2 *)
  let tot_prop2 := fdiv tot_prop2 (fadd tot_prop1 tot_prop2) in
  {| gender_prop := (fadd spec_m_prop len_m_prop, fadd spec_f_prop len_f_prop);
     fac1 := (fac1_m, fac1_f);
     fac2 := (fac2_m, fac2_f);
     tot_prop := (tot_prop1, tot_prop2) |}.

(** One row of [bio_param_df]. *)
Record bio_param : Type := {
  M_prop : float;
  F_prop : float;
  averaged_weight : float;
  averaged_weight_M : float;
  averaged_weight_F : float
}.

(** [a * x + b * y] on arrays, then [np.dot] with [key]. *)
Definition blend (a : float) (x : list float) (b : float) (y : list float)
  : list float :=
  map (fun p => fadd (fmul a (fst p)) (fmul b (snd p))) (combine x y).

Definition np_dot (x y : list float) : float :=
  fsum (map (fun p => fmul (fst p) (snd p)) (combine x y)).

(** [_fill_averaged_weight]: [spec_drop_df] and [length_drop_df] are the
    specimen and length tables with missing values dropped, indexed by
    stratum; the result is the row written into [bio_param_df]. *)
Definition _fill_averaged_weight (stratum : Z)
  (spec_drop_df : list (Z * specimen_row))
  (length_drop_df : list (Z * length_row))
  (length_to_weight_conversion : list float)
  : result bio_param :=
  (* get specimen in the stratum and split into males and females *)
  spec_stratum <- df_loc spec_drop_df stratum ;;
  spec_strata_m <- where_eq sp_sex spec_stratum 1 ;;
  spec_strata_f <- where_eq sp_sex spec_stratum 2 ;;
  (* get lengths in the stratum and split into males and females *)
  len_strata <- df_loc length_drop_df stratum ;;
  len_strata_m <- where_eq ln_sex len_strata 1 ;;
  len_strata_f <- where_eq ln_sex len_strata 2 ;;
  let len_strata := rows_of len_strata in
  (* get the distribution lengths for station 1 *)
  distribution_length_s1 <- _get_distribution_lengths_station_1 len_strata ;;
  distribution_length_m_s1 <-
    _get_distribution_lengths_station_1 len_strata_m ;;
  distribution_length_f_s1 <-
    _get_distribution_lengths_station_1 len_strata_f ;;
  (* get the distribution lengths for station 2 *)
  let spec_stratum_mf := spec_strata_m ++ spec_strata_f in
  distribution_length_s2 <-
    _get_distribution_lengths_station_2 spec_stratum_mf ;;
  distribution_length_m_s2 <-
    _get_distribution_lengths_station_2 spec_strata_m ;;
  distribution_length_f_s2 <-
    _get_distribution_lengths_station_2 spec_strata_f ;;
  let p := _compute_proportions spec_strata_m spec_strata_f
                                len_strata len_strata_m len_strata_f in
  (* fill df with bio parameters needed for biomass density calc *)
  Ok {| M_prop := fst (gender_prop p);
        F_prop := snd (gender_prop p);
        averaged_weight :=
          np_dot (blend (fst (tot_prop p)) distribution_length_s1
                        (snd (tot_prop p)) distribution_length_s2)
                 length_to_weight_conversion;
        averaged_weight_M :=
          np_dot (blend (fst (fac1 p)) distribution_length_m_s1
                        (fst (fac2 p)) distribution_length_m_s2)
                 length_to_weight_conversion;
        averaged_weight_F :=
          np_dot (blend (snd (fac1 p)) distribution_length_f_s1
                        (snd (fac2 p)) distribution_length_f_s2)
                 length_to_weight_conversion |}.

End Composition.

(** ** DensityConverter: [ComputeBiomassDensity._get_tot_biomass_density] *)

(** [np.round] on a finite value: to the nearest integer, halves to the
    even neighbour. *)
Definition round_half_even (q : Q) : Z :=
  let f := Qfloor q in
  match ((q - inject_Z f) ?= (1 # 2))%Q with
  | Lt => f
  | Gt => (f + 1)%Z
  | Eq => if Z.even f then f else (f + 1)%Z
  end.

Definition np_round (x : float) : float :=
  match x with
  | Fin q => Fin (inject_Z (round_half_even q))
  | _ => x
  end.

(** The per-interval quantities computed by [_get_tot_biomass_density]. *)
Record interval_density : Type := {
  numerical_density_male : float;
  numerical_density_female : float;
  numerical_density_unsexed : float;
  biomass_density_male : float;
  biomass_density_female : float;
  biomass_density_unsexed : float;
  biomass_density : float
}.

(** [bio_param_df.loc[stratum]] *)
Fixpoint bio_param_loc (bio_param_df : list (Z * bio_param)) (k : Z)
  : result bio_param :=
  match bio_param_df with
  | [] => Raise KeyError
  | (k', v) :: t => if Z.eqb k k' then Ok v else bio_param_loc t k
  end.

(** The computation for one interval, given the row of [bc_expanded_df]
    that corresponds to it. *)
Definition interval_biomass_density (numerical_density : float)
  (bc : bio_param) : interval_density :=
  (* compute the areal numerical density for males and females *)
  let male := np_round (fmul numerical_density (M_prop bc)) in
  let female := np_round (fmul numerical_density (F_prop bc)) in
  let unsexed := fsub (fsub numerical_density male) female in
  (* compute the areal biomass density for males, females, and unsexed *)
  let b_male := fmul male (averaged_weight_M bc) in
  let b_female := fmul female (averaged_weight_F bc) in
  let b_unsexed := fmul unsexed (averaged_weight bc) in
  {| numerical_density_male := male;
     numerical_density_female := female;
     numerical_density_unsexed := unsexed;
     biomass_density_male := b_male;
     biomass_density_female := b_female;
     biomass_density_unsexed := b_unsexed;
     (* compute the total areal biomass density *)
     biomass_density := fadd (fadd b_male b_female) b_unsexed |}.

(** NumPy's broadcasting of two one-dimensional arrays in an elementwise
    operation: equal lengths pair up, an array of length one is stretched,
    any other pair of lengths raises [ValueError]. *)
Definition broadcast {A B : Type} (a : list A) (b : list B)
  : result (list (A * B)) :=
  if Nat.eqb (length a) (length b) then Ok (combine a b)
  else match a, b with
       | [x], _ => Ok (map (fun y => (x, y)) b)
       | _, [y] => Ok (map (fun x => (x, y)) a)
       | _, _ => Raise ValueError
       end.

(** [nasc_stratum_num] holds the stratum of every interval,
    [numerical_density] its areal numerical density. *)
Definition interval_densities (bio_param_df : list (Z * bio_param))
  (nasc_stratum_num : list Z) (numerical_density : list float)
  : result (list interval_density) :=
  (* expand the bio parameters dataframe so that it corresponds to nasc_df *)
  bc_expanded_df <- mapM (bio_param_loc bio_param_df) nasc_stratum_num ;;
  rows <- broadcast numerical_density bc_expanded_df ;;
  Ok (map (fun p => interval_biomass_density (fst p) (snd p)) rows).

Definition _get_tot_biomass_density (bio_param_df : list (Z * bio_param))
  (nasc_stratum_num : list Z) (numerical_density : list float)
  : result (list float) :=
  d <- interval_densities bio_param_df nasc_stratum_num numerical_density ;;
  Ok (map biomass_density d).

(** ** ApportionmentEngine: [apportion_kriged_values] *)

(** The key columns of the proportion tables are categorical: [sex] over
    the three labels below, [length_bin] and [age_bin] over the interval
    lists of the survey, identified here with their positions
    [0 .. n_length - 1] and [0 .. n_age - 1].  With [observed = False] a
    pivot has one cell per combination of categories, and a cell without
    rows holds the sum of nothing, [0]. *)
Inductive sex : Type := male | female | unsexed.

Definition sex_eqb (a b : sex) : bool :=
  match a, b with
  | male, male | female, female | unsexed, unsexed => true
  | _, _ => false
  end.

Definition sexes : list sex := [female; male; unsexed].

(** The [sex] column of the returned table, which has the extra label
    ['all']. *)
Inductive sex_label : Type :=
| Sex (s : sex)
| all.

(** One node of the kriged mesh: its stratum and its kriged value. *)
Record mesh_row : Type := {
  m_stratum : Z;
  m_biomass : Q
}.

(** Modelled from the spec: the schema of the three proportion tables,
    which [echopop.biology.weight_proportions] builds (not part of the
    sources at hand): aged fish by sex, length bin and age bin, unaged
    fish by sex and length bin, and the overall unaged share by sex, each
    per stratum. *)
Record aged_row : Type := {
  a_stratum : Z;
  a_sex : sex;
  a_length_bin : nat;
  a_age_bin : nat;
  weight_proportion_overall : Q
}.

Record unaged_row : Type := {
  u_stratum : Z;
  u_sex : sex;
  u_length_bin : nat;
  weight_proportion : Q
}.

Record sex_proportion_row : Type := {
  s_stratum : Z;
  s_sex : sex;
  weight_proportion_overall_unaged : Q
}.

(** A row of [unaged_proportions.merge(aged_unaged_sex_proportions)]. *)
Record merged_row : Type := {
  mr_stratum : Z;
  mr_sex : sex;
  mr_length_bin : nat;
  mr_weight_proportion : Q;
  mr_weight_proportion_overall_unaged : Q
}.

Record apportion_input : Type := {
  kriged_mesh : list mesh_row;
  aged_proportions : list aged_row;
  unaged_proportions : list unaged_row;
  aged_unaged_sex_proportions : list sex_proportion_row;
  n_length : nat;
  n_age : nat
}.

Record full_row : Type := {
  f_length_bin : nat;
  f_age_bin : nat;
  f_sex : sex_label;
  f_apportioned : float
}.

Record apportion_output : Type := {
  out_aged_pivot : sex -> nat -> nat -> float;
  out_unaged_pivot : nat -> sex -> float;
  out_kriged_full_table : list full_row;
  warned : bool
}.

(** [np.argmin] of a one-dimensional array: the first position of the
    minimum. *)
Fixpoint argmin_from (pos best_pos : nat) (best : Z) (l : list Z) : nat :=
  match l with
  | [] => best_pos
  | x :: t =>
      if Z.ltb x best then argmin_from (S pos) pos x t
      else argmin_from (S pos) best_pos best t
  end.

Definition argmin_row (l : list Z) : nat :=
  match l with
  | [] => O
  | x :: t => argmin_from 1 0 x t
  end.

(** [np.argmin(m, axis=1)] for a matrix with [ncols] columns: an empty
    reduction axis is an error, whatever the number of rows. *)
Definition argmin_axis1 (m : list (list Z)) (ncols : nat)
  : result (list nat) :=
  if Nat.eqb ncols 0 then Raise ValueError else Ok (map argmin_row m).

(** [arr[mask]] for a boolean mask. *)
Fixpoint mask_select (arr : list nat) (mask : list bool) : list nat :=
  match arr, mask with
  | x :: t, b :: m => if b then x :: mask_select t m else mask_select t m
  | _, _ => []
  end.

Fixpoint assoc_nat (l : list (nat * nat)) (k : nat) : option nat :=
  match l with
  | [] => None
  | (k', v) :: t => if Nat.eqb k k' then Some v else assoc_nat t k
  end.

Section Apportion.

Variable inp : apportion_input.

(** [kriged_mesh.groupby([stratum_col])[biology_col].sum()] *)
Definition kriged_strata : list (Z * float) :=
  map (fun st =>
         (st, fnansum (map (fun r => Fin (m_biomass r))
                           (filter (fun r => Z.eqb (m_stratum r) st)
                                   (kriged_mesh inp)))))
      (unique (map m_stratum (kriged_mesh inp))).

(** The cell of [kriged_strata] a row of stratum [st] is aligned with;
    [NaN] when the mesh has no such stratum. *)
Definition kriged_at (st : Z) : float :=
  match find (fun p => Z.eqb (fst p) st) kriged_strata with
  | Some p => snd p
  | None => NaN
  end.

(** [unaged_proportions.merge(aged_unaged_sex_proportions)]: an inner
    join on the shared columns, stratum and sex. *)
Definition unaged_sexed_apportioned : list merged_row :=
  flat_map
    (fun u =>
       map (fun s =>
              {| mr_stratum := u_stratum u;
                 mr_sex := u_sex u;
                 mr_length_bin := u_length_bin u;
                 mr_weight_proportion := weight_proportion u;
                 mr_weight_proportion_overall_unaged :=
                   weight_proportion_overall_unaged s |})
           (filter (fun s => Z.eqb (s_stratum s) (u_stratum u)
                             && sex_eqb (s_sex s) (u_sex u))
                   (aged_unaged_sex_proportions inp)))
    (unaged_proportions inp).

(** Column [biology_col + "_apportioned_unaged"] of a merged row. *)
Definition apportioned_unaged (r : merged_row) : float :=
  fmul (fmul (Fin (mr_weight_proportion r))
             (Fin (mr_weight_proportion_overall_unaged r)))
       (kriged_at (mr_stratum r)).

(** Column [biology_col + "_apportioned"] of an aged row. *)
Definition apportioned_aged (r : aged_row) : float :=
  fillna (Fin 0)
         (fmul (Fin (weight_proportion_overall r)) (kriged_at (a_stratum r))).

(** [aged_pivot]: index (sex, length_bin), columns age_bin. *)
Definition aged_pivot (s : sex) (l a : nat) : float :=
  fnansum
    (map apportioned_aged
         (filter (fun r => sex_eqb (a_sex r) s
                           && Nat.eqb (a_length_bin r) l
                           && Nat.eqb (a_age_bin r) a)
                 (aged_proportions inp))).

(** [aged_pivot.sum(axis = 1).unstack('sex')] *)
Definition aged_length_totals (l : nat) (s : sex) : float :=
  fnansum (map (aged_pivot s l) (seq 0 (n_age inp))).

(** [unaged_pivot]: index length_bin, columns sex. *)
Definition unaged_pivot (l : nat) (s : sex) : float :=
  fnansum
    (map apportioned_unaged
         (filter (fun r => sex_eqb (mr_sex r) s
                           && Nat.eqb (mr_length_bin r) l)
                 unaged_sexed_apportioned)).

(** A table indexed by length bin, with columns (age_bin, sex). *)
Definition table3 : Type := nat -> nat -> sex -> float.

(** The new unaged biological values distributed over age. *)
Definition unaged_apportioned_values : table3 :=
  fun l a s =>
    fillna (Fin 0)
           (fdiv (fmul (unaged_pivot l s) (aged_pivot s l a))
                 (aged_length_totals l s)).

(** [aged_pivot.T.sum()] *)
Definition summed_aged_length_totals (s : sex) (l : nat) : float :=
  fnansum (map (aged_pivot s l) (seq 0 (n_age inp))).

(** [np.where(summed_aged_length_totals.loc[s] == 0.0)[0]] *)
Definition zero_aged (s : sex) : list nat :=
  argwhere (map (fun l => feq_b (summed_aged_length_totals s l) (Fin 0))
                (seq 0 (n_length inp))).

(** [np.where(summed_aged_length_totals.loc[s] != 0.0)[0]] *)
Definition nonzero_aged (s : sex) : list nat :=
  argwhere (map (fun l => fne_b (summed_aged_length_totals s l) (Fin 0))
                (seq 0 (n_length inp))).

(** [unaged_pivot[s].iloc[zero_aged] != 0.0]: one boolean per zero-aged
    length bin. *)
Definition nonzero_unaged (s : sex) : list bool :=
  map (fun l => fne_b (unaged_pivot l s) (Fin 0)) (zero_aged s).

Definition nonzero_unaged_idx (s : sex) : list nat :=
  mask_select (zero_aged s) (nonzero_unaged s).

(** The closest indices that can be used for nearest-neighbours
    imputation. *)
Definition imputed (s : sex) : result (list nat) :=
  pos <- argmin_axis1
           (map (fun i =>
                   map (fun d => Z.abs (Z.of_nat i - Z.of_nat d))
                       (nonzero_aged s))
                (mask_select (zero_aged s) (nonzero_unaged s)))
           (length (nonzero_aged s)) ;;
  Ok (map (fun j => nth j (nonzero_aged s) O) pos).

(** The assignment into the columns of sex [s] at the rows
    [nonzero_unaged_idx s] (distinct positions), row by row from the
    donors [imp]. *)
Definition update_values (tbl : table3) (s : sex) (imp : list nat) : table3 :=
  fun l a s' =>
    if sex_eqb s' s then
      match assoc_nat (combine (nonzero_unaged_idx s) imp) l with
      | Some d =>
          fdiv (fmul (unaged_pivot l s) (aged_pivot s d a))
               (aged_length_totals d s)
      | None => tbl l a s'
      end
    else tbl l a s'.

Definition impute_sex (tbl : table3) (s : sex) : result table3 :=
  if Nat.ltb 0 (length (nonzero_unaged s)) then
    imp <- imputed s ;;
    Ok (update_values tbl s imp)
  else Ok tbl.

(** The table after the imputation block. *)
Definition imputed_values : result table3 :=
  if Nat.ltb 0 (length (nonzero_unaged male))
     || Nat.ltb 0 (length (nonzero_unaged female))
  then
    t <- impute_sex unaged_apportioned_values male ;;
    impute_sex t female
  else Ok unaged_apportioned_values.

(** All cells (length_bin, age_bin) of a pivot. *)
Definition cells : list (nat * nat) :=
  flat_map (fun l => map (fun a => (l, a)) (seq 0 (n_age inp)))
           (seq 0 (n_length inp)).

(** [kriged_table]: the aged and unaged estimates summed together. *)
Definition kriged_table (t : table3) : table3 :=
  fun l a s => fadd (t l a s) (aged_pivot s l a).

(** The rows of [kriged_table] after [unstack] and [reset_index]: one
    row per age bin, sex and length bin, in that order. *)
Definition kriged_table_rows (t : table3) : list full_row :=
  flat_map
    (fun a =>
       flat_map
         (fun s =>
            map (fun l =>
                   {| f_length_bin := l;
                      f_age_bin := a;
                      f_sex := Sex s;
                      f_apportioned := kriged_table t l a s |})
                (seq 0 (n_length inp)))
         sexes)
    (seq 0 (n_age inp)).

(** [kriged_table[biology_col + "_apportioned"].sum()] *)
Definition kriged_table_sum (t : table3) : float :=
  fnansum (map f_apportioned (kriged_table_rows t)).

(** [kriged_strata.sum()] *)
Definition kriged_strata_sum : float := fnansum (map snd kriged_strata).

(** [kriged_full_table]: the rows of [kriged_table], then a copy of
    every row under the sex ['all']. *)
Definition kriged_full_table (t : table3) : list full_row :=
  kriged_table_rows t
  ++ map (fun r => {| f_length_bin := f_length_bin r;
                      f_age_bin := f_age_bin r;
                      f_sex := all;
                      f_apportioned := f_apportioned r |})
         (kriged_table_rows t).

Definition apportion_kriged_values : result apportion_output :=
  t <- imputed_values ;;
  (* check equality between original kriged estimates and (imputed)
     apportioned estimates; if not equal, generate warning *)
  let warning := fne_b (kriged_table_sum t) kriged_strata_sum in
  Ok {| out_aged_pivot := aged_pivot;
        out_unaged_pivot := unaged_pivot;
        out_kriged_full_table := kriged_full_table t;
        warned := warning |}.

End Apportion.

(** ** Vocabulary of the specification *)

(** Bin centers are strictly increasing. *)
Fixpoint increasing (l : list Q) : Prop :=
  match l with
  | a :: (b :: _) as t => a < b /\ increasing t
  | _ => True
  end.


(** The boundary between bin [i] and bin [i + 1]: the midpoint of their
    centers. *)
Definition boundary (centers : list Q) (i : nat) : Q :=
  (getQ centers i + getQ centers (i + 1)) / 2.

(** Input position [idx] is listed in bin [b]. *)
Definition in_bin (hist_ind : list (list nat)) (b idx : nat) : Prop :=
  In idx (nth b hist_ind []).

(** The number of fish a count cell stands for. *)
Definition fish_count (c : float) : nat :=
  match c with
  | Fin q => Z.to_nat (Qfloor q)
  | _ => O
  end.

(** A count cell holds a non-negative integer. *)
Definition is_count (c : float) : Prop := exists n : nat, c = Fin (Qnat n).

(** The linear [sigma_bs] of every fish of a haul, one entry per fish:
    a station-1 row stands for as many fish as its count, a station-2
    specimen for one. *)
Definition per_fish_sigma_bs (sigma : Q -> Q) (spec_df : list specimen_row)
  (length_df : list length_row) (haul_num : Z) : list float :=
  flat_map (fun r => repeat (sigma_bs_of sigma (ln_length r))
                            (fish_count (ln_length_count r)))
           (filter (fun r => Z.eqb (ln_haul_num r) haul_num) length_df)
  ++ map (fun r => sigma_bs_of sigma (sp_length r))
         (filter (fun r => Z.eqb (sp_haul_num r) haul_num) spec_df).

(** The sum of the per-fish values that exist, divided by the number of
    fish. *)
Definition sample_mean (fish : list float) : float :=
  fdiv (fnansum fish) (Fin (Qnat (length fish))).

(** The same for [strata_mean_sigma_bs], whose groups are (haul, species,
    region) and which keeps every specimen that has a length. *)
Definition spec_key3 (r : specimen_row) : key3 :=
  (sp_haul_num r, sp_species_id r, sp_region r).

Definition len_key3 (r : length_row) : key3 :=
  (ln_haul_num r, ln_species_id r, ln_region r).

Definition survey_fish_sigma_bs (sigma : Q -> Q)
  (specimen_df : list specimen_row) (length_df : list length_row)
  (k : key3) : list float :=
  map (fun r => sigma_bs_of sigma (sp_length r))
      (filter (fun r => key3_eqb (spec_key3 r) k)
              (filter (fun r => negb (isnan (sp_length r))) specimen_df))
  ++ flat_map (fun r => repeat (sigma_bs_of sigma (ln_length r))
                               (fish_count (ln_length_count r)))
              (filter (fun r => key3_eqb (len_key3 r) k) length_df).

(** The part of a group key that names the haul. *)
Definition key3_of (u : key4) : key3 :=
  match u with (h', s', g', _) => (h', s', g') end.

(** [1] for a test that holds, [0] otherwise. *)
Definition ind (b : bool) : Q := if b then 1 else 0.

(** The finite value of a cell, [0] for a cell that holds none. *)
Definition toQ (x : float) : Q :=
  match x with
  | Fin q => q
  | _ => 0
  end.

(** The sum of a list of rationals. *)
Definition Qsum_r (l : list Q) : Q := fold_right Qplus 0 l.

(** A cell that is finite or missing. *)
Definition fin_or_nan (x : float) : Prop := (exists q, x = Fin q) \/ x = NaN.

(** The kriged value a row of stratum [st] is multiplied with, [0] when
    the mesh has no such stratum. *)
Definition kriged_value (inp : apportion_input) (st : Z) : Q :=
  toQ (kriged_at inp st).

(** The finite values of the pivots. *)
Definition aged_value (inp : apportion_input) (s : sex) (l a : nat) : Q :=
  toQ (aged_pivot inp s l a).

Definition aged_total_value (inp : apportion_input) (l : nat) (s : sex) : Q :=
  toQ (aged_length_totals inp l s).

Definition unaged_value (inp : apportion_input) (l : nat) (s : sex) : Q :=
  toQ (unaged_pivot inp l s).

(** The length bin sex [s] borrows its age shape from at length bin
    [l]: the nearest one with aged mass, the lower one of two equally
    near. *)
Definition donor_of (inp : apportion_input) (s : sex) (l : nat) : nat :=
  nth (argmin_row (map (fun d => Z.abs (Z.of_nat l - Z.of_nat d))
                       (nonzero_aged inp s)))
      (nonzero_aged inp s) O.

(** The unaged mass of sex [s] at length bin [l] spread over age bins
    with the age shape of length bin [d]. *)
Definition borrowed_shape (inp : apportion_input) (s : sex) (l d a : nat)
  : float :=
  fdiv (fmul (unaged_pivot inp l s) (aged_pivot inp s d a))
       (aged_length_totals inp d s).

(** Length bin [l] of sex [s] is imputed: a male or female bin without
    aged mass but with unaged mass. *)
Definition needs_imputation (inp : apportion_input) (s : sex) (l : nat)
  : bool :=
  match s with
  | unsexed => false
  | _ => existsb (Nat.eqb l) (nonzero_unaged_idx inp s)
  end.

(** The strata of the mesh, as [kriged_strata] lists them. *)
Definition mesh_strata_of (inp : apportion_input) : list Z :=
  unique (map m_stratum (kriged_mesh inp)).

(** The share of the kriged total of stratum [st] that the proportion
    tables hand out: the overall aged proportions of the stratum, plus its
    unaged proportions weighted by the overall unaged share of their
    sex. *)
Definition stratum_share (inp : apportion_input) (st : Z) : Q :=
  Qsum_r (map weight_proportion_overall
              (filter (fun r => Z.eqb (a_stratum r) st)
                      (aged_proportions inp)))
  + Qsum_r (map (fun r => mr_weight_proportion r
                          * mr_weight_proportion_overall_unaged r)
                (filter (fun r => Z.eqb (mr_stratum r) st)
                        (unaged_sexed_apportioned inp))).

(** The proportion tables are weight proportions: within every stratum of
    the mesh they add up to one. *)
Definition normalised (inp : apportion_input) : Prop :=
  forall st, In st (map m_stratum (kriged_mesh inp)) ->
             stratum_share inp st == 1.

(** Every row of the proportion tables lies in a length and age category
    of the survey. *)
Definition rows_in_range (inp : apportion_input) : Prop :=
  (forall r, In r (aged_proportions inp) ->
             (a_length_bin r < n_length inp)%nat
             /\ (a_age_bin r < n_age inp)%nat)
  /\ (forall r, In r (unaged_proportions inp) ->
                (u_length_bin r < n_length inp)%nat).

(** No imputation is required: every length bin with nonzero unaged mass
    also has nonzero aged mass, for every sex. *)
Definition no_imputation_required (inp : apportion_input) : Prop :=
  forall s l,
    (l < n_length inp)%nat ->
    fne_b (unaged_pivot inp l s) (Fin 0) = true ->
    fne_b (aged_length_totals inp l s) (Fin 0) = true.

(** Sex [s] has nonzero aged mass in at least one length bin. *)
Definition has_aged_mass (inp : apportion_input) (s : sex) : Prop :=
  exists l, (l < n_length inp)%nat
            /\ fne_b (aged_length_totals inp l s) (Fin 0) = true.

Definition is_all (lab : sex_label) : bool :=
  match lab with all => true | Sex _ => false end.

(** The sum of the returned table over all entries whose sex is not
    ['all']. *)
Definition apportioned_total (tbl : list full_row) : float :=
  fnansum (map f_apportioned (filter (fun r => negb (is_all (f_sex r))) tbl)).

(** A row of the returned table is the entry of length bin [l], age bin
    [a] and sex [s]. *)
Definition is_entry (r : full_row) (l a : nat) (s : sex) : Prop :=
  f_length_bin r = l /\ f_age_bin r = a /\ f_sex r = Sex s.


(** Selection of a bin by a monotone family of tests: [P i] reads "the
    value is at most boundary [i]", for the boundaries [0 .. m]. *)
Definition selects (P : nat -> bool) (m j : nat) : Prop :=
  (j = 0%nat /\ P 0%nat = true)
  \/ ((0 < j <= m)%nat /\ P (j - 1)%nat = false /\ P j = true)
  \/ (j = S m /\ P m = false).

(** ** Fixtures *)

Definition specimen (haul : Z) (len wgt : Q) (sx : Z) : specimen_row :=
  {| sp_haul_num := haul; sp_species_id := 22500; sp_region := 0;
     sp_length := Fin len; sp_weight := Fin wgt; sp_sex := sx;
     sp_age := Fin 3 |}.

Definition measured (haul : Z) (len : Q) (cnt : nat) (sx : Z) : length_row :=
  {| ln_haul_num := haul; ln_species_id := 22500; ln_region := 0;
     ln_length := Fin len; ln_length_count := Fin (Qnat cnt); ln_sex := sx |}.

(** One male and one female specimen at station 2, one male and one
    female fish measured at station 1. *)
Definition balanced_spec_m : list specimen_row := [specimen 1 30 1 1].
Definition balanced_spec_f : list specimen_row := [specimen 1 40 2 2].
Definition balanced_len_m : list length_row := [measured 1 30 1 1].
Definition balanced_len_f : list length_row := [measured 1 40 1 2].
Definition balanced_len : list length_row := balanced_len_m ++ balanced_len_f.

(** The mean [sigma_bs] of Pacific hake in stratum [st]. *)
Definition strata_mean_of (st : Z) (v : float) : strata_mean_row :=
  {| sm_stratum_num := st; sm_species_id := 22500; mean_sigma_bs := v |}.

(** Three known strata 1, 10 and 20 with values 0, 4 and 7. *)
Definition three_known : dataframe :=
  [(1%Z, Fin 0); (10%Z, Fin 4); (20%Z, Fin 7)].

(** Haul 1 has two specimens and a station-1 row of three fish; haul 2
    has one specimen and no station-1 row. *)
Definition two_hauls_spec : list specimen_row :=
  [specimen 1 30 1 1; specimen 1 40 2 2; specimen 2 50 3 1].
Definition two_hauls_len : list length_row := [measured 1 20 3 1].

Definition aged (st : Z) (sx : sex) (l a : nat) (w : Q) : aged_row :=
  {| a_stratum := st; a_sex := sx; a_length_bin := l; a_age_bin := a;
     weight_proportion_overall := w |}.

Definition unaged (st : Z) (sx : sex) (l : nat) (w : Q) : unaged_row :=
  {| u_stratum := st; u_sex := sx; u_length_bin := l;
     weight_proportion := w |}.

Definition unaged_share (st : Z) (sx : sex) (w : Q) : sex_proportion_row :=
  {| s_stratum := st; s_sex := sx; weight_proportion_overall_unaged := w |}.

Definition mesh (st : Z) (b : Q) : mesh_row :=
  {| m_stratum := st; m_biomass := b |}.

(** One stratum with kriged biomass 10, one length bin and one age bin.
    All the fish are female: half of the weight is aged, half unaged.  The
    male rows of the tables are all zero. *)
Definition females_only : apportion_input :=
  {| kriged_mesh := [mesh 1 10];
     aged_proportions := [aged 1 female 0 0 (1 # 2); aged 1 male 0 0 0];
     unaged_proportions := [unaged 1 female 0 1; unaged 1 male 0 0];
     aged_unaged_sex_proportions :=
       [unaged_share 1 female (1 # 2); unaged_share 1 male 0];
     n_length := 1;
     n_age := 1 |}.

(** Two length bins and two age bins.  Males: aged fish in length bin 1
    only, unaged fish in length bin 0 only, so that bin 0 needs the age
    shape of bin 1.  Females: no fish at all. *)
Definition males_only : apportion_input :=
  {| kriged_mesh := [mesh 1 10];
     aged_proportions :=
       [aged 1 male 1 0 (1 # 4); aged 1 male 1 1 (1 # 4);
        aged 1 female 0 0 0; aged 1 female 1 0 0];
     unaged_proportions := [unaged 1 male 0 1; unaged 1 female 0 0];
     aged_unaged_sex_proportions :=
       [unaged_share 1 male (1 # 2); unaged_share 1 female 0];
     n_length := 2;
     n_age := 2 |}.

(** One length bin and one age bin.  Aged fish are all female, unaged
    fish all male: the male unaged mass has no aged length bin to borrow
    an age shape from. *)
Definition no_aged_males : apportion_input :=
  {| kriged_mesh := [mesh 1 10];
     aged_proportions := [aged 1 female 0 0 (1 # 2); aged 1 male 0 0 0];
     unaged_proportions := [unaged 1 male 0 1; unaged 1 female 0 0];
     aged_unaged_sex_proportions :=
       [unaged_share 1 male (1 # 2); unaged_share 1 female 0];
     n_length := 1;
     n_age := 1 |}.

(** One stratum surveyed by two mesh nodes, two length bins and one age
    bin; males have aged and unaged fish in length bin 0, females in
    length bin 1. *)
Definition both_sexes_aged : apportion_input :=
  {| kriged_mesh := [mesh 1 6; mesh 1 4];
     aged_proportions :=
       [aged 1 male 0 0 (1 # 4); aged 1 female 1 0 (1 # 4)];
     unaged_proportions := [unaged 1 male 0 1; unaged 1 female 1 1];
     aged_unaged_sex_proportions :=
       [unaged_share 1 male (1 # 4); unaged_share 1 female (1 # 4)];
     n_length := 2;
     n_age := 1 |}.

(** Two strata, two length bins, two age bins; males have aged fish in
    length bin 1 only and unaged fish in both bins, females have aged fish
    in both length bins. *)
Definition two_strata : apportion_input :=
  {| kriged_mesh := [mesh 1 6; mesh 1 4; mesh 2 20];
     aged_proportions :=
       [aged 1 male 1 0 (1 # 8); aged 1 male 1 1 (1 # 8);
        aged 1 female 0 0 (1 # 8); aged 1 female 1 1 (1 # 8);
        aged 2 male 1 0 (1 # 4); aged 2 female 0 1 (1 # 4);
        aged 2 female 1 0 (1 # 4)];
     unaged_proportions :=
       [unaged 1 male 0 1; unaged 1 female 1 1;
        unaged 2 male 0 (1 # 2); unaged 2 male 1 (1 # 2)];
     aged_unaged_sex_proportions :=
       [unaged_share 1 male (1 # 4); unaged_share 1 female (1 # 4);
        unaged_share 2 male (1 # 4); unaged_share 2 female 0];
     n_length := 2;
     n_age := 2 |}.


(** A stratum whose two specimens are of neither sex and whose two
    station-1 rows count no fish. *)
Definition neither_sex_spec : list (Z * specimen_row) :=
  [(1%Z, specimen 1 30 1 3); (1%Z, specimen 1 40 2 3)].
Definition no_fish_len : list (Z * length_row) :=
  [(1%Z, measured 1 30 0 3); (1%Z, measured 1 40 0 3)].
(** ** Further vocabulary *)

(** Every value of the table is finite and lies between [lo] and [hi]. *)
Definition within (lo hi : Q) (df : dataframe) : Prop :=
  forall k v, In (k, v) df -> exists q, v = Fin q /\ lo <= q <= hi.

(** The strata [impute_missing_sigma_bs] has to impute: those of the
    stratification table without a row in [strata_mean]. *)
Definition missing_strata_of (strata_df_stratum_num : list Z)
  (strata_mean : list strata_mean_row) : list Z :=
  filter (fun s => negb (mem_Z s (np_unique (map sm_stratum_num strata_mean))))
         (np_unique strata_df_stratum_num).

(** The strata with a row in [strata_mean]. *)
Definition present_strata_of (strata_mean : list strata_mean_row) : list Z :=
  np_unique (map sm_stratum_num strata_mean).

(** The number of fish the station-1 rows [rows] stand for. *)
Definition station1_count (rows : list length_row) : Q :=
  Qsum_r (map (fun r => toQ (ln_length_count r)) rows).

(** The rows and specimens of one sex, as [_fill_averaged_weight] selects
    them, and the station-1 rows of neither sex. *)
Definition rows_of_sex (sx : Z) (rows : list length_row) : list length_row :=
  filter (fun r => Z.eqb (ln_sex r) sx) rows.

Definition specimens_of_sex (sx : Z) (spec : list specimen_row)
  : list specimen_row :=
  filter (fun r => Z.eqb (sp_sex r) sx) spec.



(** ** Transect intervals: [ComputeBiomassDensity._get_interval] *)

(** A row of [nasc_df]: one interval of a transect. *)
Record nasc_row : Type := {
  n_haul_num : Z;
  n_stratum_num : Z;
  vessel_log_start : float;
  vessel_log_end : float;
  NASC : float;
  transect_spacing : float
}.

(** [np.abs] *)
Definition fabs (x : float) : float :=
  match x with
  | Fin q => Fin (if Qlt_bool q 0 then - q else q)
  | NInf => PInf
  | _ => x
  end.

Fixpoint insert_float (x : float) (l : list float) : list float :=
  match l with
  | [] => [x]
  | y :: t => if fle_b x y then x :: l else y :: insert_float x t
  end.

(** [np.sort] of an array without NaN. *)
Definition sort_float (l : list float) : list float :=
  fold_right insert_float [] l.

(** [np.median] of a one-dimensional array: NaN as soon as one entry is,
    else the middle entry of the sorted array, or the mean of the two
    middle entries. *)
Definition np_median (a : list float) : float :=
  if existsb isnan a then NaN
  else
    let s := sort_float a in
    let n := length a in
    if Nat.even n
    then fdiv (fadd (nth (n / 2 - 1) s NaN) (nth (n / 2) s NaN)) (Fin 2)
    else nth (n / 2) s NaN.

(** [series.iloc[-1]] *)
Definition iloc_last (l : list float) : result float :=
  match l with
  | [] => Raise IndexError
  | _ => Ok (last l NaN)
  end.

(** [arr[ind] = vals] for an index array [ind] within bounds. *)
Definition put (arr : list float) (ind : list nat) (vals : list float)
  : list float :=
  fold_left (fun a p => set_nth (fst p) (snd p) a) (combine ind vals) arr.

(** [a - b] on arrays of equal length. *)
Definition sub_arrays (a b : list float) : list float :=
  map (fun p => fsub (fst p) (snd p)) (combine a b).

Definition _get_interval (nasc_df : list nasc_row) : result (list float) :=
  let starts := map vessel_log_start nasc_df in
  let ends := map vessel_log_end nasc_df in
  (* calculate interval for all values except for the last interval *)
  let interval := sub_arrays (tl starts) (removelast starts) in
  (* calculate last interval *)
  e <- iloc_last ends ;;
  s <- iloc_last starts ;;
  let last_interval := fsub e s in
  (* combines all intervals *)
  let interval := interval ++ [last_interval] in
  (* get median interval, so we can use it to remove outliers *)
  let median_interval := np_median interval in
  (* remove outliers at the end of the transect *)
  let ind_outliers :=
    argwhere (map (fun x => flt_b (Fin (5 # 100))
                                  (fabs (fsub x median_interval)))
                  interval) in
  Ok (put interval ind_outliers
          (sub_arrays (take ends ind_outliers) (take starts ind_outliers))).

(** The quantities [_construct_biomass_table] adds to a row of
    [nasc_df]. *)
Record biomass_row : Type := {
  biomass_density_adult : float;
  interval_area_nmi2 : float;
  biomass : float
}.

Definition _construct_biomass_table (nasc_df : list nasc_row)
  (biomass_density_adult : list float) : result (list biomass_row) :=
  (* final_df["biomass_density_adult"] = biomass_density_adult: a column
     takes an array of the length of the table only *)
  if negb (Nat.eqb (length biomass_density_adult) (length nasc_df))
  then Raise ValueError
  else
  (* calculates the interval for the area calculation *)
  interval <- _get_interval nasc_df ;;
  Ok (map (fun p =>
             match p with
             | (d, i, r) =>
                 (* calculate the area corresponding to the NASC value *)
                 let area := fmul i (transect_spacing r) in
                 {| biomass_density_adult := d;
                    interval_area_nmi2 := area;
                    (* calculate the biomass *)
                    biomass := fmul d area |}
             end)
          (combine (combine biomass_density_adult interval) nasc_df)).

(** The step between the starts of rows [i] and [i + 1], and the length
    of row [i] itself. *)
Definition step_to_next (nasc_df : list nasc_row) (i : nat) : float :=
  fsub (nth (S i) (map vessel_log_start nasc_df) NaN)
       (nth i (map vessel_log_start nasc_df) NaN).

Definition own_length (r : nasc_row) : float :=
  fsub (vessel_log_end r) (vessel_log_start r).

(** The intervals before the outliers are replaced: the steps between
    consecutive starts, and the length of the last row. *)
Definition raw_intervals (nasc_df : list nasc_row) : list float :=
  sub_arrays (tl (map vessel_log_start nasc_df))
             (removelast (map vessel_log_start nasc_df))
  ++ [fsub (last (map vessel_log_end nasc_df) NaN)
           (last (map vessel_log_start nasc_df) NaN)].

(** Row [i] is an outlier: its raw interval is more than 0.05 away from
    the median of the raw intervals. *)
Definition is_outlier (nasc_df : list nasc_row) (i : nat) : bool :=
  flt_b (Fin (5 # 100))
        (fabs (fsub (nth i (raw_intervals nasc_df) NaN)
                    (np_median (raw_intervals nasc_df)))).

(** Three rows of a contiguous log, and three rows with a gap after the
    second one. *)
Definition log_row (s e : Q) : nasc_row :=
  {| n_haul_num := 1; n_stratum_num := 1;
     vessel_log_start := Fin s; vessel_log_end := Fin e;
     NASC := Fin 100; transect_spacing := Fin 10 |}.

Definition contiguous_log : list nasc_row :=
  [log_row 0 (1 # 2); log_row (1 # 2) 1; log_row 1 (3 # 2)].

Definition gapped_log : list nasc_row :=
  [log_row 0 (1 # 2); log_row (1 # 2) 1; log_row 3 (7 # 2)].

(** ** Adult weight fraction: [_get_age_weight_conversion] and
    [_get_weight_fraction_adult] *)

(** [ind[i]] for an index array [i] into the index array [ind]. *)
Definition take_nat (ind : list nat) (i : list nat) : list nat :=
  map (fun k => nth k ind O) i.

Section AgeWeight.

Variable bio_hake_len_bin : list Q.
Variable bio_hake_age_bin : list Q.

(** [df] holds the specimens of one stratum; a single row, which pandas
    hands over as a Series, is the list of one row. *)
Definition _get_age_weight_conversion (df : list specimen_row)
  : result float :=
  (* get numpy arrays of length, age, and weight *)
  let input_arr_len := map sp_length df in
  let input_arr_age := map sp_age df in
  let input_arr_wgt := map sp_weight df in
  (* bin the ages *)
  age_bins_ind <- _get_bin_ind input_arr_age bio_hake_age_bin ;;
  let age_bin_0 := nth 0 age_bins_ind [] in
  (* bin those lengths that correspond to the lengths in the first age bin *)
  len_bin_ind <- _get_bin_ind (take input_arr_len age_bin_0)
                              bio_hake_len_bin ;;
  (* weight for the first age bin *)
  Ok (fdiv (fsum (map (fun i => fsum (take input_arr_wgt
                                           (take_nat age_bin_0 i)))
                      len_bin_ind))
           (fsum input_arr_wgt)).

(** [specimen_df.dropna(how="any")], over the columns carried here. *)
Definition dropna_any (specimen_df : list (Z * specimen_row))
  : list (Z * specimen_row) :=
  filter (fun p => negb (isnan (sp_length (snd p)))
                   && negb (isnan (sp_weight (snd p)))
                   && negb (isnan (sp_age (snd p))))
         specimen_df.

(** [specimen_df] is indexed by stratum (the first component); the result
    is [weight_fraction_adult_df]. *)
Definition _get_weight_fraction_adult (specimen_df : list (Z * specimen_row))
  : result (list (Z * float)) :=
  let spec_drop := dropna_any specimen_df in
  (* each stratum's multiplier once areal biomass density has been
     calculated *)
  let stratum_ind := unique (map fst spec_drop) in
  mapM (fun i =>
          c <- _get_age_weight_conversion
                 (map snd (filter (fun p => Z.eqb (fst p) i) spec_drop)) ;;
          Ok (i, fsub (Fin 1) c))
       stratum_ind.

End AgeWeight.

(** The weight of the specimens of [df] in the first age bin, and of all
    of them. *)
Definition first_age_weight (bio_hake_age_bin : list Q)
  (df : list specimen_row) : Q :=
  Qsum_r (map (fun r => toQ (sp_weight r))
              (filter (fun r => fle_b (sp_age r)
                                      (Fin (boundary bio_hake_age_bin 0)))
                      df)).

Definition total_weight (df : list specimen_row) : Q :=
  Qsum_r (map (fun r => toQ (sp_weight r)) df).

(** The specimens of stratum [i] that [_get_weight_fraction_adult] hands
    to [_get_age_weight_conversion]. *)
Definition stratum_specimens (specimen_df : list (Z * specimen_row)) (i : Z)
  : list specimen_row :=
  map snd (filter (fun p => Z.eqb (fst p) i) (dropna_any specimen_df)).

(** A young and an old fish of one stratum: age 1 with weight 1, age 3
    with weight 3. *)
Definition aged_specimen (len wgt age : Q) : specimen_row :=
  {| sp_haul_num := 1; sp_species_id := 22500; sp_region := 0;
     sp_length := Fin len; sp_weight := Fin wgt; sp_sex := 1;
     sp_age := Fin age |}.

Definition young_and_old : list specimen_row :=
  [aged_specimen 25 1 1; aged_specimen 45 3 3].

(** ** Survey: configuration and bins ([EchoPro/survey.py]) *)

Section Configuration.

(** The values of the configuration files are not inspected. *)
Variable value : Type.

(** A Python [dict] with string keys: the items in insertion order, no
    key twice. *)
Definition py_dict : Type := list (string * value).

Fixpoint dict_get (d : py_dict) (k : string) : option value :=
  match d with
  | [] => None
  | (k', v) :: t => if String.eqb k k' then Some v else dict_get t k
  end.

(** [d[k] = v] *)
Fixpoint dict_set (d : py_dict) (k : string) (v : value) : py_dict :=
  match d with
  | [] => [(k, v)]
  | (k', v') :: t =>
      if String.eqb k k' then (k', v) :: t else (k', v') :: dict_set t k v
  end.

Definition dict_keys (d : py_dict) : list string := map fst d.

Definition mem_string (k : string) (l : list string) : bool :=
  existsb (String.eqb k) l.

(** [{**a, **b}] *)
Definition dict_merge (a b : py_dict) : py_dict :=
  fold_left (fun d kv => dict_set d (fst kv) (snd kv)) b a.

Inductive load_result : Type :=
| Loaded (config : py_dict)
| FileNotFoundError (missing_config : list string)
| RuntimeError (config_intersect : list string).

(** [path_exists] is the file system ([Path.exists]), [safe_load] the
    parsed content of a file ([yaml.safe_load(path.read_text())], a
    mapping). *)
Definition load_configuration (path_exists : string -> bool)
  (safe_load : string -> py_dict)
  (init_config_path survey_year_config_path : string) : load_result :=
  (* Build the full configuration file paths and verify they exist *)
  let config_files := [init_config_path; survey_year_config_path] in
  let config_existence :=
    [path_exists init_config_path; path_exists survey_year_config_path] in
  (* Error evaluation and print message (if applicable) *)
  if negb (forallb (fun b => b) config_existence) then
    FileNotFoundError
      (map fst (filter (fun p => negb (snd p))
                       (combine config_files config_existence)))
  else
    (* Read configuration files *)
    let init_config_params := safe_load init_config_path in
    let survey_year_config_params := safe_load survey_year_config_path in
    (* Validate that initialization and survey year configuration
       parameters do not intersect *)
    let config_intersect :=
      filter (fun k => mem_string k (dict_keys survey_year_config_params))
             (dict_keys init_config_params) in
    match config_intersect with
    | _ :: _ => RuntimeError config_intersect
    | [] => Loaded (dict_merge init_config_params survey_year_config_params)
    end.

End Configuration.

Arguments Loaded {value} config.
Arguments FileNotFoundError {value} missing_config.
Arguments RuntimeError {value} config_intersect.

(** [np.linspace(start, stop, num)] in exact arithmetic. *)
Definition np_linspace (start stop : Q) (num : Z) : result (list Q) :=
  if Z.ltb num 0 then Raise ValueError
  else
    let n := Z.to_nat num in
    let div := (n - 1)%nat in
    let delta := stop - start in
    let y := map Qnat (seq 0 n) in
    let y :=
      if Nat.ltb 0 div then
        let step := delta / Qnat div in
        if Qeq_bool step 0
        then map (fun v => v / Qnat div * delta) y
        else map (fun v => v * step) y
      else map (fun v => v * delta) y in
    let y := map (fun v => v + start) y in
    (* y[-1] = stop *)
    Ok (if Nat.ltb 1 n then removelast y ++ [stop] else y).

(** [np.linspace(..., dtype = np.int64)]: the grid, rounded down
    (NumPy 1.20 and later). *)
Definition np_linspace_int64 (start stop : Q) (num : Z) : result (list Z) :=
  y <- np_linspace start stop num ;;
  Ok (map Qfloor y).

(** A bin parameter of the configuration: [start, stop, num]. *)
Record bin_parameter : Type := {
  bin_start : Q;
  bin_stop : Q;
  bin_num : Z
}.

(** The arrays [biology['distributions']] receives. *)
Record biometrics : Type := {
  length_bins_arr : list Z;
  age_bins_arr : list Q
}.

(** [bio_hake_len_bin] and [bio_hake_age_bin] are the two entries of the
    configuration. *)
Definition biometric_distributions (bio_hake_len_bin bio_hake_age_bin
                                    : bin_parameter)
  : result biometrics :=
  len <- np_linspace_int64 (bin_start bio_hake_len_bin)
                           (bin_stop bio_hake_len_bin)
                           (bin_num bio_hake_len_bin) ;;
  age <- np_linspace (bin_start bio_hake_age_bin)
                     (bin_stop bio_hake_age_bin)
                     (bin_num bio_hake_age_bin) ;;
  Ok {| length_bins_arr := len; age_bins_arr := age |}.

(** Point [i] of the grid of [num] points from [start] to [stop]. *)
Definition grid_point (start stop : Q) (num : Z) (i : nat) : Q :=
  start + Qnat i * ((stop - start) / Qnat (Z.to_nat num - 1)).

(** ** Survey: stratum means and [transect_analysis] *)

(** A row of the stratification table [spatial['strata_df']]. *)
Record strata_row : Type := {
  st_haul_num : Z;
  st_stratum_num : Z;
  fraction_hake : float
}.

Definition pair_eq_dec (a b : Z * Z) : {a = b} + {a <> b}.
Proof. decide equality; apply Z.eq_dec. Defined.

(** [mean_haul_sigma_bs.merge(strata_df, on = 'haul_num', how = 'left')]:
    one row per matching row of the stratification table; a haul without
    a match keeps one row, whose stratum is missing. *)
Definition merge_strata (hauls : list (key3 * float))
  (strata_df : list strata_row) : list (option Z * Z * float) :=
  flat_map
    (fun h =>
       match h with
       | ((haul, species, _), v) =>
           match filter (fun s => Z.eqb (st_haul_num s) haul) strata_df with
           | [] => [(None, species, v)]
           | ms => map (fun s => (Some (st_stratum_num s), species, v)) ms
           end
       end)
    hauls.

(** The rows of the merged table that [groupby] keeps: those with a
    stratum. *)
Definition merged_rows (hauls : list (key3 * float))
  (strata_df : list strata_row) : list ((Z * Z) * float) :=
  flat_map (fun r => match r with
                     | (Some st, sp, v) => [((st, sp), v)]
                     | (None, _, _) => []
                     end)
           (merge_strata hauls strata_df).

(** [.groupby(['stratum_num', 'species_id'])['mean_sigma_bs'].mean()
    .reset_index()]: one row per (stratum, species), in the order of the
    keys, holding the mean of the haul means of the group. *)
Definition mean_strata_sigma_bs (hauls : list (key3 * float))
  (strata_df : list strata_row) : list strata_mean_row :=
  let rows := merged_rows hauls strata_df in
  let keys :=
    sort_values fst (sort_values snd (nodup pair_eq_dec (map fst rows))) in
  map (fun k =>
         {| sm_stratum_num := fst k;
            sm_species_id := snd k;
            mean_sigma_bs :=
              series_mean
                (map snd (filter (fun r => Z.eqb (fst (fst r)) (fst k)
                                           && Z.eqb (snd (fst r)) (snd k))
                                 rows)) |})
      keys.

(** [Survey.transect_analysis]: the stratum means, then the imputation of
    the strata without one. *)
Definition transect_analysis (sigma : Q -> Q)
  (specimen_df : list specimen_row) (length_df : list length_row)
  (strata_df : list strata_row) (species_id : Z)
  : result (list strata_mean_row) :=
  (* Calculate sigma_bs per stratum *)
  hauls <- mean_haul_sigma_bs sigma specimen_df length_df species_id ;;
  let strata_mean := mean_strata_sigma_bs hauls strata_df in
  (* Fill in missing sigma_bs values *)
  impute_missing_sigma_bs (map st_stratum_num strata_df) strata_mean.

(** The sum of the counts of the rows of [all_length_df] with key [k]:
    the weights [np.average] normalises by. *)
Definition group_count (all_df : list all_length_row) (k : key3) : float :=
  fsum (map al_length_count (filter (fun r => key3_eqb (al_key r) k) all_df)).

(** Stratum [s] holds a haul that has a mean. *)
Definition sampled (hauls : list (key3 * float))
  (strata_df : list strata_row) (s : Z) : Prop :=
  exists haul species region v row,
    In ((haul, species, region), v) hauls
    /\ In row strata_df
    /\ st_haul_num row = haul
    /\ st_stratum_num row = s.

Definition stratum_of_haul (haul stratum : Z) : strata_row :=
  {| st_haul_num := haul; st_stratum_num := stratum;
     fraction_hake := Fin 1 |}.

(** A stratum with as many males as females and one average weight. *)
Definition even_sexes : bio_param :=
  {| M_prop := Fin (1 # 2); F_prop := Fin (1 # 2);
     averaged_weight := Fin 2; averaged_weight_M := Fin 2;
     averaged_weight_F := Fin 2 |}.

(** ** [ComputeBiomassDensity._generate_length_val_conversion] *)

(** [np.mean] of an array. *)
Definition np_mean (l : list float) : float :=
  fdiv (fsum l) (Fin (Qnat (length l))).

Section LengthValConversion.

(** The regression curve [reg_w0 * bio_hake_len_bin ** reg_p], one value
    per bin, for the line [np.polyfit] fits to the logarithms of the
    lengths and of the values. *)
Variable len_val_reg_of :
  list float -> list float -> list Q -> result (list float).

(** [df] holds the length and the value column of the table. *)
Definition _generate_length_val_conversion (df : list (float * float))
  (bio_hake_len_bin : list Q) : result (list float) :=
  (* select the indices that do not have nan in either length or value *)
  let df_no_null :=
    filter (fun r => negb (isnan (fst r)) && negb (isnan (snd r))) df in
  let L := map fst df_no_null in
  let V := map snd df_no_null in
  (* binned length indices *)
  len_bin_ind <- _get_bin_ind L bio_hake_len_bin ;;
  (* total number of lengths in a bin *)
  let len_bin_cnt := map (fun i : list nat => length i) len_bin_ind in
  (* length-value regression *)
  len_val_reg <- len_val_reg_of L V bio_hake_len_bin ;;
  (* set length-value key to the mean of the values in the bin *)
  let len_val_key :=
    map (fun ind : list nat =>
           if Nat.ltb 0 (length ind) then np_mean (take V ind) else Fin 0)
        len_bin_ind in
  (* replace those bins with less than 5 samples with the regression value *)
  let less_five_ind := argwhere (map (fun c => Nat.ltb c 5) len_bin_cnt) in
  Ok (put len_val_key less_five_ind (take len_val_reg less_five_ind)).

End LengthValConversion.

(** A regression curve that is constant, for the examples. *)
Definition flat_curve (c : Q) (L V : list float) (bins : list Q)
  : result (list float) :=
  Ok (map (fun _ => Fin c) bins).

(** Five samples of length [a] with the values 1 to 5 and one sample of
    length [b] with the value 9. *)
Definition five_and_one (a b : Q) : list (float * float) :=
  [(Fin a, Fin 1); (Fin a, Fin 2); (Fin a, Fin 3); (Fin a, Fin 4);
   (Fin a, Fin 5); (Fin b, Fin 9)].


(** A table all of whose rows carry the index label [k]. *)
Definition indexed_by {A : Type} (k : Z) (rows : list A) : list (Z * A) :=
  map (fun r => (k, r)) rows.
(** * Properties *)

(** ** Floats *)

Lemma Qlt_bool_iff (a b : Q) : Qlt_bool a b = true <-> a < b.
Proof.
  unfold Qlt_bool. rewrite negb_true_iff.
  split; intro H.
  - apply Qnot_le_lt. intro Hle. apply Qle_bool_iff in Hle. congruence.
  - destruct (Qle_bool b a) eqn:E; [|reflexivity].
    apply Qle_bool_iff in E. exfalso. apply (Qlt_not_le _ _ H E).
Qed.

Lemma Qle_bool_compat (a b b' : Q) : b == b' -> Qle_bool a b = Qle_bool a b'.
Proof.
  intro H. destruct (Qle_bool a b) eqn:E1, (Qle_bool a b') eqn:E2; try reflexivity.
  - apply Qle_bool_iff in E1. rewrite H in E1. apply Qle_bool_iff in E1. congruence.
  - apply Qle_bool_iff in E2. rewrite <- H in E2. apply Qle_bool_iff in E2. congruence.
Qed.

Lemma Qle_bool_compat_l (a a' b : Q) : a == a' -> Qle_bool a b = Qle_bool a' b.
Proof.
  intro H. destruct (Qle_bool a b) eqn:E1, (Qle_bool a' b) eqn:E2; try reflexivity.
  - apply Qle_bool_iff in E1. rewrite H in E1. apply Qle_bool_iff in E1. congruence.
  - apply Qle_bool_iff in E2. rewrite <- H in E2. apply Qle_bool_iff in E2. congruence.
Qed.

Lemma fle_b_compat (v : float) (b b' : Q) :
  b == b' -> fle_b v (Fin b) = fle_b v (Fin b').
Proof. intro H. destruct v; simpl; auto using Qle_bool_compat. Qed.

Lemma flt_b_compat (v : float) (b b' : Q) :
  b == b' -> flt_b (Fin b) v = flt_b (Fin b') v.
Proof.
  intro H. destruct v; simpl; auto. unfold Qlt_bool.
  f_equal. apply Qle_bool_compat. exact H.
Qed.

(** Against a finite bound, [>] is the negation of [<=] for every value
    that is not [NaN]. *)
Lemma flt_b_negb_fle_b (v : float) (b : Q) :
  isnan v = false -> flt_b (Fin b) v = negb (fle_b v (Fin b)).
Proof. destruct v; simpl; try reflexivity; discriminate. Qed.

Lemma fle_b_mono (v : float) (b b' : Q) :
  b <= b' -> fle_b v (Fin b) = true -> fle_b v (Fin b') = true.
Proof.
  intros H. destruct v; simpl; auto.
  intro E. apply Qle_bool_iff in E. apply Qle_bool_iff.
  eapply Qle_trans; eauto.
Qed.

(** [feq] is an equivalence that the arithmetic respects. *)

Lemma feq_refl (x : float) : feq x x.
Proof. destruct x; simpl; auto. reflexivity. Qed.

Lemma feq_sym (x y : float) : feq x y -> feq y x.
Proof. destruct x, y; simpl; auto. intro H. symmetry. exact H. Qed.

Lemma feq_trans (x y z : float) : feq x y -> feq y z -> feq x z.
Proof.
  destruct x, y, z; simpl; auto; try tauto.
  intros H1 H2. rewrite H1. exact H2.
Qed.

#[export] Instance feq_Equivalence : Equivalence feq.
Proof.
  constructor.
  - exact feq_refl.
  - exact feq_sym.
  - exact feq_trans.
Qed.

#[export] Instance fadd_Proper : Proper (feq ==> feq ==> feq) fadd.
Proof.
  intros x x' Hx y y' Hy.
  destruct x, x'; simpl in Hx; try contradiction;
    destruct y, y'; simpl in Hy; try contradiction; simpl; auto.
  rewrite Hx, Hy. reflexivity.
Qed.

Lemma Qsgn_compat (a b : Q) : a == b -> Qsgn a = Qsgn b.
Proof. intro H. unfold Qsgn. rewrite H. reflexivity. Qed.

#[export] Instance fmul_Proper : Proper (feq ==> feq ==> feq) fmul.
Proof.
  intros x x' Hx y y' Hy.
  destruct x, x'; simpl in Hx; try contradiction;
    destruct y, y'; simpl in Hy; try contradiction; simpl; auto;
    try (rewrite Hx, Hy; reflexivity);
    try (rewrite (Qsgn_compat _ _ Hx); apply feq_refl);
    try (rewrite (Qsgn_compat _ _ Hy); apply feq_refl).
Qed.

Lemma Qeq_bool_compat (a b c : Q) : a == b -> Qeq_bool a c = Qeq_bool b c.
Proof.
  intro H. destruct (Qeq_bool a c) eqn:E1, (Qeq_bool b c) eqn:E2;
    try reflexivity.
  - apply Qeq_bool_iff in E1. rewrite H in E1. apply Qeq_bool_iff in E1.
    congruence.
  - apply Qeq_bool_iff in E2. rewrite <- H in E2. apply Qeq_bool_iff in E2.
    congruence.
Qed.

Lemma Qlt_bool_compat_l (a b c : Q) : a == b -> Qlt_bool a c = Qlt_bool b c.
Proof.
  intro H. unfold Qlt_bool. f_equal. apply Qle_bool_compat. exact H.
Qed.

#[export] Instance fdiv_Proper : Proper (feq ==> feq ==> feq) fdiv.
Proof.
  intros x x' Hx y y' Hy.
  destruct x, x'; simpl in Hx; try contradiction;
    destruct y, y'; simpl in Hy; try contradiction; simpl; auto;
    try reflexivity.
  - rewrite (Qeq_bool_compat _ _ 0 Hy).
    destruct (Qeq_bool q2 0) eqn:E.
    + rewrite (Qsgn_compat _ _ Hx). apply feq_refl.
    + simpl. rewrite Hx, Hy. reflexivity.
  - rewrite (Qlt_bool_compat_l _ _ 0 Hy). apply feq_refl.
  - rewrite (Qlt_bool_compat_l _ _ 0 Hy). apply feq_refl.
Qed.

Lemma fadd_comm (x y : float) : feq (fadd x y) (fadd y x).
Proof. destruct x, y; simpl; auto. ring. Qed.

Lemma fadd_assoc (x y z : float) :
  feq (fadd (fadd x y) z) (fadd x (fadd y z)).
Proof. destruct x, y, z; simpl; auto. ring. Qed.

Lemma fadd_0_l (x : float) : feq (fadd (Fin 0) x) x.
Proof. destruct x; simpl; auto. ring. Qed.

Lemma fadd_0_r (x : float) : feq (fadd x (Fin 0)) x.
Proof. destruct x; simpl; auto. ring. Qed.

Lemma fold_fadd_acc (l : list float) :
  forall a, feq (fold_left fadd l a) (fadd a (fold_left fadd l (Fin 0))).
Proof.
  induction l as [|x t IH]; intro a; cbn [fold_left].
  - symmetry. apply fadd_0_r.
  - rewrite (IH (fadd a x)), (IH (fadd (Fin 0) x)).
    rewrite fadd_0_l. apply fadd_assoc.
Qed.

Lemma fsum_cons (x : float) (l : list float) :
  feq (fsum (x :: l)) (fadd x (fsum l)).
Proof.
  unfold fsum. cbn [fold_left]. rewrite fold_fadd_acc.
  rewrite fadd_0_l. reflexivity.
Qed.

Lemma fsum_app (l1 l2 : list float) :
  feq (fsum (l1 ++ l2)) (fadd (fsum l1) (fsum l2)).
Proof.
  induction l1 as [|x t IH]; cbn [app].
  - change (fsum []) with (Fin 0). symmetry. apply fadd_0_l.
  - rewrite !fsum_cons, IH. symmetry. apply fadd_assoc.
Qed.

Lemma fnansum_app (l1 l2 : list float) :
  feq (fnansum (l1 ++ l2)) (fadd (fnansum l1) (fnansum l2)).
Proof. unfold fnansum. rewrite filter_app. apply fsum_app. Qed.

Lemma fnansum_cons_nan (l : list float) : fnansum (NaN :: l) = fnansum l.
Proof. reflexivity. Qed.

Lemma fnansum_cons (x : float) (l : list float) :
  isnan x = false -> feq (fnansum (x :: l)) (fadd x (fnansum l)).
Proof.
  intro H. unfold fnansum. cbn [filter]. rewrite H. cbn [negb].
  apply fsum_cons.
Qed.

(** ** BinIndexer *)

Lemma argwhere_from_spec (mask : list bool) :
  forall k i,
    In i (argwhere_from k mask)
    <-> (k <= i)%nat /\ nth_error mask (i - k) = Some true.
Proof.
  induction mask as [|b t IH]; intros k i; simpl.
  - split; [tauto|]. intros [_ H]. destruct (i - k)%nat; discriminate.
  - assert (Hstep : In i (argwhere_from (S k) t)
                    <-> (k < i)%nat /\ nth_error t (i - S k) = Some true).
    { rewrite IH. reflexivity. }
    destruct b; simpl; rewrite Hstep; clear Hstep IH.
    + split.
      * intros [<- | [Hlt H]].
        -- rewrite Nat.sub_diag. auto.
        -- split; [lia|]. replace (i - k)%nat with (S (i - S k)) by lia. exact H.
      * intros [Hle H]. destruct (Nat.eq_dec k i) as [->|Hne]; [auto|].
        right. split; [lia|].
        replace (i - k)%nat with (S (i - S k)) in H by lia. exact H.
    + split.
      * intros [Hlt H]. split; [lia|].
        replace (i - k)%nat with (S (i - S k)) by lia. exact H.
      * intros [Hle H]. destruct (Nat.eq_dec k i) as [->|Hne].
        -- rewrite Nat.sub_diag in H. discriminate.
        -- split; [lia|].
           replace (i - k)%nat with (S (i - S k)) in H by lia. exact H.
Qed.

Lemma argwhere_map_spec {A : Type} (f : A -> bool) (l : list A) (i : nat) :
  In i (argwhere (map f l))
  <-> exists v, nth_error l i = Some v /\ f v = true.
Proof.
  unfold argwhere. rewrite argwhere_from_spec, Nat.sub_0_r, nth_error_map.
  split.
  - intros [_ H]. destruct (nth_error l i) as [v|]; [|discriminate].
    exists v. simpl in H. split; congruence.
  - intros [v [-> Hv]]. simpl. split; [lia|congruence].
Qed.

Lemma argwhere_from_lt (mask : list bool) :
  forall k i, In i (argwhere_from k mask) -> (k <= i)%nat.
Proof. intros k i H. apply argwhere_from_spec in H. tauto. Qed.

Lemma argwhere_from_NoDup (mask : list bool) :
  forall k, NoDup (argwhere_from k mask).
Proof.
  induction mask as [|b t IH]; intro k; simpl; [constructor|].
  destruct b; [|apply IH].
  constructor; [|apply IH].
  intro H. apply argwhere_from_lt in H. lia.
Qed.

Lemma np_diff_length (l : list Q) : length (np_diff l) = (length l - 1)%nat.
Proof.
  induction l as [|a [|b t] IH]; simpl in *; try reflexivity.
  rewrite IH. lia.
Qed.

Lemma np_diff_nth (l : list Q) :
  forall i, (S i < length l)%nat ->
            nth i (np_diff l) 0 = getQ l (S i) - getQ l i.
Proof.
  unfold getQ.
  induction l as [|a [|b t] IH]; intros i Hi; simpl in Hi; try lia.
  destruct i as [|i].
  - reflexivity.
  - change (np_diff (a :: b :: t)) with ((b - a) :: np_diff (b :: t)).
    cbn [nth]. apply IH. simpl. lia.
Qed.

Lemma increasing_adjacent (l : list Q) :
  increasing l ->
  forall i, (S i < length l)%nat -> getQ l i < getQ l (S i).
Proof.
  unfold getQ.
  induction l as [|a [|b t] IH]; intros H i Hi; simpl in Hi; try lia.
  destruct H as [Hab Ht]. destruct i as [|i].
  - exact Hab.
  - cbn [nth]. apply IH; [exact Ht|simpl; lia].
Qed.

Lemma nth_map_in {A B : Type} (f : A -> B) (l : list A) (i : nat)
  (d : B) (d' : A) :
  (i < length l)%nat -> nth i (map f l) d = f (nth i l d').
Proof.
  revert i. induction l as [|a t IH]; intros i Hi; simpl in *; [lia|].
  destruct i; [reflexivity|]. apply IH. lia.
Qed.

(** The bound the code computes for position [i], [centers[i] +
    bin_diff[i]], is the midpoint of centers [i] and [i + 1]. *)
Lemma code_bound_is_boundary (centers : list Q) (i : nat) :
  (S i < length centers)%nat ->
  getQ centers i + getQ (map (fun d => d / 2) (np_diff centers)) i
  == boundary centers i.
Proof.
  intro Hi. unfold boundary, getQ at 2.
  rewrite (nth_map_in (fun d => d / 2) (np_diff centers) i 0 0)
    by (rewrite np_diff_length; lia).
  rewrite (np_diff_nth centers i Hi).
  replace (i + 1)%nat with (S i) by lia. field.
Qed.

Lemma boundary_increasing (centers : list Q) (i : nat) :
  increasing centers ->
  (S (S i) < length centers)%nat ->
  boundary centers i < boundary centers (S i).
Proof.
  intros Hinc Hi. unfold boundary.
  pose proof (increasing_adjacent centers Hinc i ltac:(lia)) as H1.
  pose proof (increasing_adjacent centers Hinc (S i) ltac:(lia)) as H2.
  replace (i + 1)%nat with (S i) by lia.
  replace (S i + 1)%nat with (S (S i)) by lia.
  apply Qlt_shift_div_l; [reflexivity|].
  field_simplify. lra.
Qed.

Lemma monotone_test (P : nat -> bool) (m : nat) :
  (forall i, (i < m)%nat -> P i = true -> P (S i) = true) ->
  forall i j, (i <= j <= m)%nat -> P i = true -> P j = true.
Proof.
  intros Hstep i j [Hij Hjm] Hi.
  induction j as [|j IH].
  - replace i with 0%nat in Hi by lia. exact Hi.
  - destruct (Nat.eq_dec i (S j)) as [->|Hne]; [exact Hi|].
    apply Hstep; [lia|]. apply IH; lia.
Qed.

Lemma selects_exists (P : nat -> bool) (m : nat) :
  exists j, (j <= S m)%nat /\ selects P m j.
Proof.
  induction m as [|m [j [Hj Hsel]]].
  - destruct (P 0%nat) eqn:E.
    + exists 0%nat. split; [lia|]. left. auto.
    + exists 1%nat. split; [lia|]. right. right. auto.
  - destruct Hsel as [[-> H0] | [[[Hj1 Hj2] [Ha Hb]] | [-> Hm]]].
    + exists 0%nat. split; [lia|]. left. auto.
    + exists j. split; [lia|]. right. left. repeat split; auto; lia.
    + destruct (P (S m)) eqn:E.
      * exists (S m). split; [lia|]. right. left.
        replace (S m - 1)%nat with m by lia. repeat split; auto; lia.
      * exists (S (S m)). split; [lia|]. right. right. auto.
Qed.

Lemma selects_unique (P : nat -> bool) (m : nat) :
  (forall i, (i < m)%nat -> P i = true -> P (S i) = true) ->
  forall j j', selects P m j -> selects P m j' -> j = j'.
Proof.
  intros Hstep.
  pose proof (monotone_test P m Hstep) as Hmono.
  assert (Hlt : forall j j', (j < j')%nat -> selects P m j -> selects P m j'
                             -> False).
  { intros j j' Hjj' Hs Hs'.
    assert (Hj : P j = true /\ (j <= m)%nat).
    { destruct Hs as [[-> H0] | [[[Hj1 Hj2] [Ha Hb]] | [-> Hm]]].
      - split; [exact H0|lia].
      - split; [exact Hb|lia].
      - destruct Hs' as [[-> _] | [[[? ?] _] | [-> _]]]; lia. }
    destruct Hj as [Hj Hjm].
    assert (Hj' : P (j' - 1)%nat = false /\ (j' - 1 <= m)%nat).
    { destruct Hs' as [[-> _] | [[[Hj1 Hj2] [Ha Hb]] | [-> Hm]]].
      - lia.
      - split; [exact Ha|lia].
      - simpl. rewrite Nat.sub_0_r. split; [exact Hm|lia]. }
    destruct Hj' as [Hj' Hjm'].
    rewrite (Hmono j (j' - 1)%nat) in Hj'; [discriminate|lia|exact Hj]. }
  intros j j' Hs Hs'.
  destruct (Nat.lt_trichotomy j j') as [H | [H | H]]; [|exact H|].
  - exfalso. eapply Hlt; eauto.
  - exfalso. eapply (Hlt j' j); eauto.
Qed.

Lemma get_bin_ind_unfold (input_data : list float) (centered_bins : list Q) :
  (2 <= length centered_bins)%nat ->
  let bin_diff := map (fun d => d / 2) (np_diff centered_bins) in
  _get_bin_ind input_data centered_bins
  = Ok (argwhere (map (fun v => fle_b v (Fin (getQ centered_bins 0
                                              + getQ bin_diff 0)))
                      input_data)
        :: map (fun i =>
                  argwhere
                    (map (fun v =>
                            flt_b (Fin (getQ centered_bins i
                                        + getQ bin_diff i)) v
                            && fle_b v (Fin (getQ centered_bins (i + 1)
                                             + getQ bin_diff (i + 1))))
                         input_data))
               (seq 0 (length centered_bins - 2))
        ++ [argwhere
              (map (fun v => flt_b (Fin (getQ_neg centered_bins 2
                                         + getQ_neg bin_diff 1)) v)
                   input_data)]).
Proof.
  intro Hn. destruct centered_bins as [|c0 [|c1 t]]; simpl in Hn; try lia.
  reflexivity.
Qed.

(** The output of [_get_bin_ind], bin by bin. *)
Lemma get_bin_ind_shape (input_data : list float) (centered_bins : list Q) :
  (2 <= length centered_bins)%nat ->
  exists hist_ind,
    _get_bin_ind input_data centered_bins = Ok hist_ind
    /\ length hist_ind = length centered_bins
    /\ (forall b, NoDup (nth b hist_ind []))
    /\ (forall idx,
          in_bin hist_ind 0 idx
          <-> exists v, nth_error input_data idx = Some v
                        /\ fle_b v (Fin (boundary centered_bins 0)) = true)
    /\ (forall i idx,
          (0 < i < length centered_bins - 1)%nat ->
          in_bin hist_ind i idx
          <-> exists v, nth_error input_data idx = Some v
                        /\ flt_b (Fin (boundary centered_bins (i - 1))) v = true
                        /\ fle_b v (Fin (boundary centered_bins i)) = true)
    /\ (forall idx,
          in_bin hist_ind (length centered_bins - 1) idx
          <-> exists v, nth_error input_data idx = Some v
                        /\ flt_b (Fin (boundary centered_bins
                                         (length centered_bins - 2))) v
                           = true).
Proof.
  intro Hn. rewrite (get_bin_ind_unfold input_data centered_bins Hn).
  cbv zeta.
  set (bin_diff := map (fun d => d / 2) (np_diff centered_bins)).
  assert (Hbd : length bin_diff = (length centered_bins - 1)%nat).
  { unfold bin_diff. rewrite length_map, np_diff_length. reflexivity. }
  assert (Hcode : forall i, (S i < length centered_bins)%nat ->
                            getQ centered_bins i + getQ bin_diff i
                            == boundary centered_bins i).
  { intros i Hi. apply code_bound_is_boundary. exact Hi. }
  eexists. split; [reflexivity|].
  set (middle := map _ (seq 0 (length centered_bins - 2))).
  assert (Hmid : length middle = (length centered_bins - 2)%nat).
  { unfold middle. rewrite length_map, length_seq. reflexivity. }
  split; [|split; [|split; [|split]]].
  - simpl. rewrite length_app, Hmid. simpl. lia.
  - intro b. destruct b as [|b]; [apply argwhere_from_NoDup|].
    cbn [nth].
    destruct (Nat.lt_ge_cases b (length middle)) as [Hb|Hb].
    + rewrite app_nth1 by exact Hb. unfold middle.
      rewrite (nth_map_in _ _ _ _ 0%nat) by (rewrite length_seq; lia).
      apply argwhere_from_NoDup.
    + rewrite app_nth2 by exact Hb.
      destruct (b - length middle)%nat as [|[|k]]; simpl;
        try apply argwhere_from_NoDup; constructor.
  - intro idx. unfold in_bin. cbn [nth]. rewrite argwhere_map_spec.
    pose proof (Hcode 0%nat ltac:(lia)) as Hfirst.
    split; intros [v [Hv H]]; exists v; split; auto.
    + rewrite <- (fle_b_compat v _ _ Hfirst). exact H.
    + rewrite (fle_b_compat v _ _ Hfirst). exact H.
  - intros i idx Hi. unfold in_bin.
    destruct i as [|i]; [lia|]. cbn [nth].
    rewrite app_nth1 by lia. unfold middle.
    rewrite (nth_map_in _ _ _ _ 0%nat) by (rewrite length_seq; lia).
    rewrite seq_nth by lia. cbn [Nat.add].
    rewrite argwhere_map_spec.
    replace (S i - 1)%nat with i by lia.
    pose proof (Hcode i ltac:(lia)) as H1.
    pose proof (Hcode (S i) ltac:(lia)) as H2.
    replace (i + 1)%nat with (S i) by lia.
    split; intros [v [Hv H]]; exists v; split; auto.
    + apply andb_true_iff in H. destruct H as [Ha Hb].
      rewrite <- (flt_b_compat v _ _ H1), <- (fle_b_compat v _ _ H2). auto.
    + destruct H as [Ha Hb]. apply andb_true_iff.
      rewrite (flt_b_compat v _ _ H1), (fle_b_compat v _ _ H2). auto.
  - intro idx. unfold in_bin.
    replace (length centered_bins - 1)%nat with (S (length middle)) by lia.
    cbn [nth]. rewrite app_nth2 by lia. rewrite Nat.sub_diag. cbn [nth].
    rewrite argwhere_map_spec.
    assert (H1 : getQ_neg centered_bins 2 + getQ_neg bin_diff 1
                 == boundary centered_bins (length centered_bins - 2)).
    { unfold getQ_neg. rewrite Hbd.
      replace (length centered_bins - 1 - 1)%nat
        with (length centered_bins - 2)%nat by lia.
      apply Hcode. lia. }
    split; intros [v [Hv H]]; exists v; split; auto.
    + rewrite <- (flt_b_compat v _ _ H1). exact H.
    + rewrite (flt_b_compat v _ _ H1). exact H.
Qed.

Lemma get_bin_ind_bound (input_data : list float) (centered_bins : list Q)
  (hist_ind : list (list nat)) :
  (2 <= length centered_bins)%nat ->
  _get_bin_ind input_data centered_bins = Ok hist_ind ->
  forall b idx, in_bin hist_ind b idx -> (idx < length input_data)%nat.
Proof.
  intros Hn Hrun b idx Hin.
  destruct (get_bin_ind_shape input_data centered_bins Hn)
    as [h [Hrun' [Hlen [_ [Hfirst [Hmid Hlast]]]]]].
  assert (h = hist_ind) by congruence. subst h.
  assert (Hv : exists v, nth_error input_data idx = Some v).
  { destruct (Nat.eq_dec b 0) as [->|Hb0].
    { apply Hfirst in Hin. destruct Hin as [v [Hv _]]. eauto. }
    destruct (Nat.lt_ge_cases b (length centered_bins - 1)) as [Hb|Hb].
    { apply Hmid in Hin; [|lia]. destruct Hin as [v [Hv _]]. eauto. }
    destruct (Nat.eq_dec b (length centered_bins - 1)) as [->|Hbn].
    { apply Hlast in Hin. destruct Hin as [v [Hv _]]. eauto. }
    unfold in_bin in Hin. rewrite nth_overflow in Hin by lia.
    destruct Hin. }
  destruct Hv as [v Hv]. apply nth_error_Some. congruence.
Qed.




(** ** DensityConverter *)

Lemma mapM_ok {A B : Type} (f : A -> result B) (l : list A) :
  (forall a, In a l -> exists b, f a = Ok b) ->
  exists bs, mapM f l = Ok bs
             /\ length bs = length l
             /\ forall i b, nth_error bs i = Some b ->
                            exists a, nth_error l i = Some a /\ f a = Ok b.
Proof.
  induction l as [|a t IH]; intro H.
  - exists []. simpl. repeat split; auto. intros [|i] b; discriminate.
  - destruct (H a (or_introl eq_refl)) as [b Hb].
    destruct IH as [bs [Hbs [Hlen Hnth]]].
    { intros a' Ha'. apply H. right. exact Ha'. }
    exists (b :: bs). simpl. rewrite Hb. simpl. rewrite Hbs. simpl.
    repeat split; auto.
    intros [|i] b' Hi; simpl in *.
    + exists a. split; congruence.
    + apply Hnth. exact Hi.
Qed.

Lemma nth_error_combine {A B : Type} (l : list A) (l' : list B) :
  forall i p, nth_error (combine l l') i = Some p ->
              nth_error l i = Some (fst p) /\ nth_error l' i = Some (snd p).
Proof.
  revert l'. induction l as [|a t IH]; intros [|b t'] [|i] p H;
    simpl in *; try discriminate.
  - inversion H. auto.
  - apply IH. exact H.
Qed.

(** The identity on one interval with finite inputs. *)
Lemma interval_sexes_sum (t pm pf : Q) (bc : bio_param) :
  M_prop bc = Fin pm ->
  F_prop bc = Fin pf ->
  let d := interval_biomass_density (Fin t) bc in
  numerical_density_male d = Fin (inject_Z (round_half_even (t * pm)))
  /\ numerical_density_female d = Fin (inject_Z (round_half_even (t * pf)))
  /\ numerical_density_unsexed d
     = fsub (fsub (Fin t) (numerical_density_male d))
            (numerical_density_female d)
  /\ feq (fadd (fadd (numerical_density_male d) (numerical_density_female d))
               (numerical_density_unsexed d))
         (Fin t).
Proof.
  intros Hm Hf. unfold interval_biomass_density. cbn [numerical_density_male
    numerical_density_female numerical_density_unsexed].
  rewrite Hm, Hf. simpl. repeat split; try reflexivity. ring.
Qed.

Lemma broadcast_same_length {A B : Type} (a : list A) (b : list B) :
  length a = length b -> broadcast a b = Ok (combine a b).
Proof. intro H. unfold broadcast. rewrite H, Nat.eqb_refl. reflexivity. Qed.

Lemma nth_error_combine_Some {A B : Type} (l : list A) (l' : list B) :
  forall i x y, nth_error l i = Some x -> nth_error l' i = Some y ->
                nth_error (combine l l') i = Some (x, y).
Proof.
  revert l'. induction l as [|a t IH]; intros [|b t'] [|i] x y Hx Hy;
    simpl in *; try discriminate.
  - congruence.
  - apply IH; assumption.
Qed.

(** What one interval receives, whatever the values are. *)
Lemma interval_sexes_nan (total : float) (bc : bio_param) :
  isnan total = true \/ isnan (M_prop bc) = true
  \/ isnan (F_prop bc) = true ->
  let d := interval_biomass_density total bc in
  numerical_density_unsexed d = NaN
  /\ feq_b (fadd (fadd (numerical_density_male d)
                       (numerical_density_female d))
                 (numerical_density_unsexed d))
           total = false.
Proof.
  intro H. unfold interval_biomass_density.
  cbn [numerical_density_male numerical_density_female
       numerical_density_unsexed].
  destruct total as [t| | |], (M_prop bc) as [pm| | |],
    (F_prop bc) as [pf| | |];
    destruct H as [H | [H | H]]; try discriminate H;
    cbn [fmul np_round];
    repeat match goal with
      | |- context [inf_of_sign ?c] => destruct c; cbn [inf_of_sign np_round]
      end;
    split; reflexivity.
Qed.

(** C8, as the code has it.  The density array has one entry per transect
    interval and every stratum has biological parameters.  Then the
    converter returns one entry per interval: the male and the female
    numerical density are the total multiplied by the stratum's male,
    respectively female, proportion, each rounded on its own, and the
    unsexed density is the total minus both.  When the total and both
    proportions are finite the three add up to the total exactly; when one
    of them is NaN the unsexed density is NaN and the three do not add up
    to the total.  The unsexed density can be negative: a total of 3 with
    proportions 1/2 and 1/2 rounds to 2 males and 2 females and leaves
    -1. *)
Theorem sexed_densities_sum_to_total :
  (forall (bio_param_df : list (Z * bio_param)) (nasc_stratum_num : list Z)
          (numerical_density : list float),
      length numerical_density = length nasc_stratum_num ->
      (forall s, In s nasc_stratum_num ->
                 exists bc, bio_param_loc bio_param_df s = Ok bc) ->
      exists ds,
        interval_densities bio_param_df nasc_stratum_num numerical_density
        = Ok ds
        /\ length ds = length nasc_stratum_num
        /\ forall i total s,
             nth_error numerical_density i = Some total ->
             nth_error nasc_stratum_num i = Some s ->
             exists bc d,
               bio_param_loc bio_param_df s = Ok bc
               /\ nth_error ds i = Some d
               /\ numerical_density_male d = np_round (fmul total (M_prop bc))
               /\ numerical_density_female d
                  = np_round (fmul total (F_prop bc))
               /\ numerical_density_unsexed d
                  = fsub (fsub total (numerical_density_male d))
                         (numerical_density_female d)
               /\ (isfinite total = true ->
                   isfinite (M_prop bc) = true ->
                   isfinite (F_prop bc) = true ->
                   feq_b (fadd (fadd (numerical_density_male d)
                                     (numerical_density_female d))
                               (numerical_density_unsexed d))
                         total = true)
               /\ (isnan total = true \/ isnan (M_prop bc) = true
                   \/ isnan (F_prop bc) = true ->
                   numerical_density_unsexed d = NaN
                   /\ feq_b (fadd (fadd (numerical_density_male d)
                                        (numerical_density_female d))
                                  (numerical_density_unsexed d))
                            total = false))
  /\ (exists bc,
        M_prop bc = Fin (1 # 2) /\ F_prop bc = Fin (1 # 2)
        /\ feq (numerical_density_unsexed
                  (interval_biomass_density (Fin 3) bc))
               (Fin (-1))).
Proof.
  split.
  - intros bio_param_df nasc_stratum_num numerical_density Hlen Hbio.
    unfold interval_densities.
    destruct (mapM_ok (bio_param_loc bio_param_df) nasc_stratum_num Hbio)
      as [bcs [Hrun [Hl Hnth]]].
    rewrite Hrun. cbn [bind].
    rewrite broadcast_same_length by congruence. cbn [bind].
    eexists. split; [reflexivity|].
    split; [rewrite length_map, length_combine; lia|].
    intros i total s Ht Hs.
    destruct (nth_error bcs i) as [bc|] eqn:Hb.
    2:{ apply nth_error_None in Hb.
        assert (i < length nasc_stratum_num)%nat
          by (apply nth_error_Some; congruence). lia. }
    destruct (Hnth i bc Hb) as [s' [Hs' Hloc]].
    assert (s' = s) by congruence. subst s'.
    exists bc, (interval_biomass_density total bc).
    split; [exact Hloc|]. split.
    { rewrite nth_error_map,
        (nth_error_combine_Some numerical_density bcs i total bc Ht Hb).
      reflexivity. }
    split; [reflexivity|]. split; [reflexivity|]. split; [reflexivity|].
    split.
    + intros Hft Hfm Hff.
      destruct total as [t| | |]; try discriminate.
      destruct (M_prop bc) as [pm| | |] eqn:Em; try discriminate.
      destruct (F_prop bc) as [pf| | |] eqn:Ef; try discriminate.
      destruct (interval_sexes_sum t pm pf bc Em Ef) as [H1 [H2 [H3 H4]]].
      cbv zeta in H1, H2, H3, H4. rewrite H3, H1, H2 in *.
      cbn [fsub fadd fopp feq feq_b] in *.
      apply Qeq_bool_iff. exact H4.
    + intro Hnan. apply (interval_sexes_nan total bc Hnan).
  - exists {| M_prop := Fin (1 # 2); F_prop := Fin (1 # 2);
              averaged_weight := Fin 1; averaged_weight_M := Fin 1;
              averaged_weight_F := Fin 1 |}.
    repeat split.
Qed.

Lemma sexed_densities_sum_to_total_witness :
  exists ds,
    interval_densities
      [(1%Z, {| M_prop := Fin (1 # 2); F_prop := Fin (1 # 2);
                averaged_weight := Fin 1; averaged_weight_M := Fin 1;
                averaged_weight_F := Fin 1 |})]
      [1%Z; 1%Z] [Fin 3; Fin 4]
    = Ok ds
    /\ length ds = 2%nat.
Proof.
  destruct sexed_densities_sum_to_total as [H _].
  destruct (H [(1%Z, {| M_prop := Fin (1 # 2); F_prop := Fin (1 # 2);
                        averaged_weight := Fin 1; averaged_weight_M := Fin 1;
                        averaged_weight_F := Fin 1 |})]
              [1%Z; 1%Z] [Fin 3; Fin 4]) as [ds [Hds [Hlen _]]].
  - reflexivity.
  - intros s [<- | [<- | []]]; eexists; reflexivity.
  - exists ds. split; [exact Hds|exact Hlen].
Defined.

(** C8, as stated, fails on a stratum whose sex proportions are NaN.  The
    composition step leaves them so for a stratum whose specimens are of
    neither sex and whose station-1 rows count no fish; a total of 3 then
    gives NaN for the male, the female and the unsexed density, and their
    sum is not equal to 3. *)
Lemma nan_proportion_breaks_density_sum :
  exists bp d,
    _fill_averaged_weight [20; 30; 40] 1 neither_sex_spec no_fish_len
                          [Fin 1; Fin 2; Fin 3] = Ok bp
    /\ M_prop bp = NaN /\ F_prop bp = NaN
    /\ interval_densities [(1%Z, bp)] [1%Z] [Fin 3] = Ok [d]
    /\ numerical_density_male d = NaN
    /\ numerical_density_female d = NaN
    /\ numerical_density_unsexed d = NaN
    /\ feq_b (fadd (fadd (numerical_density_male d)
                         (numerical_density_female d))
                   (numerical_density_unsexed d))
             (Fin 3) = false.
Proof.
  eexists. eexists. split; [vm_compute; reflexivity|]. repeat split.
Qed.

(** ** CompositionEstimator *)

(** C7. With one male and one female specimen at station 2 and one male
    and one female fish at station 1, each sex has one fish at either
    station, so a blend by sample-size share would weigh both stations
    1/2.  [_compute_proportions] returns 2/3 for station 1 and 3/11 for
    station 2, for either sex; they add up to 31/33, not to 1. *)
Theorem blending_coefficients_not_convex :
  let p := _compute_proportions balanced_spec_m balanced_spec_f
                                balanced_len balanced_len_m balanced_len_f in
  feq (fst (fac1 p)) (Fin (2 # 3))
  /\ feq (fst (fac2 p)) (Fin (3 # 11))
  /\ feq (snd (fac1 p)) (Fin (2 # 3))
  /\ feq (snd (fac2 p)) (Fin (3 # 11))
  /\ feq (fadd (fst (fac1 p)) (fst (fac2 p))) (Fin (31 # 33))
  /\ ~ feq (fadd (fst (fac1 p)) (fst (fac2 p))) (Fin 1)
  /\ ~ feq (fadd (snd (fac1 p)) (snd (fac2 p))) (Fin 1).
Proof.
  vm_compute. repeat split; try reflexivity; intro H; discriminate H.
Qed.

Lemma fsum_from_zero (l : list float) :
  (forall x, In x l -> feq x (Fin 0)) ->
  forall q, q == 0 -> exists q', fold_left fadd l (Fin q) = Fin q' /\ q' == 0.
Proof.
  induction l as [|x t IH]; intros H q Hq; simpl.
  - exists q. auto.
  - pose proof (H x (or_introl eq_refl)) as Hx.
    destruct x as [a| | |]; simpl in Hx; try contradiction.
    simpl. apply IH.
    + intros y Hy. apply H. right. exact Hy.
    + rewrite Hq, Hx. reflexivity.
Qed.

Lemma fsum_zero (l : list float) :
  (forall x, In x l -> feq x (Fin 0)) ->
  exists q, fsum l = Fin q /\ q == 0.
Proof. intro H. apply fsum_from_zero; [exact H|reflexivity]. Qed.

Lemma fnansum_zero (l : list float) :
  (forall x, In x l -> feq x (Fin 0)) ->
  exists q, fnansum l = Fin q /\ q == 0.
Proof.
  intro H. unfold fnansum. apply fsum_zero.
  intros x Hx. apply filter_In in Hx. apply H. tauto.
Qed.

Lemma fdiv_zero_zero (a b : Q) : a == 0 -> b == 0 -> fdiv (Fin a) (Fin b) = NaN.
Proof.
  intros Ha Hb. simpl.
  assert (E : Qeq_bool b 0 = true) by (apply Qeq_bool_iff; exact Hb).
  rewrite E. unfold Qsgn.
  assert (C : (a ?= 0) = Eq) by (apply Qeq_alt; exact Ha).
  rewrite C. reflexivity.
Qed.

Lemma get_bin_ind_ok (input_data : list float) (centered_bins : list Q) :
  (2 <= length centered_bins)%nat ->
  exists hist_ind,
    _get_bin_ind input_data centered_bins = Ok hist_ind
    /\ length hist_ind = length centered_bins.
Proof.
  intro Hn.
  destruct (get_bin_ind_shape input_data centered_bins Hn)
    as [h [Hrun [Hlen _]]].
  eauto.
Qed.

(** A distribution whose bin counts are all zero: every entry is the
    quotient [0 / 0]. *)
Lemma zero_counts_distribution (cnt : list float) :
  (forall c, In c cnt -> feq c (Fin 0)) ->
  forall x, In x (map (fun c => fdiv c (fsum cnt)) cnt) -> x = NaN.
Proof.
  intros H x Hx. apply in_map_iff in Hx. destruct Hx as [c [<- Hc]].
  destruct (fsum_zero cnt H) as [q [-> Hq]].
  pose proof (H c Hc) as Hc0.
  destruct c as [a| | |]; simpl in Hc0; try contradiction.
  apply fdiv_zero_zero; assumption.
Qed.

(** C9, as stated, fails: the length distribution of a stratum without
    any specimen is NaN in every bin, not 0.0, and the sex proportions of
    a stratum without any fish are NaN, not 0.0. *)
Lemma zero_count_ratio_not_zero :
  _get_distribution_lengths_station_2 [2; 4; 6] [] = Ok [NaN; NaN; NaN]
  /\ _get_distribution_lengths_station_1 [2; 4; 6] [] = Ok [NaN; NaN; NaN]
  /\ gender_prop (_compute_proportions [] [] [] [] []) = (NaN, NaN)
  /\ ~ feq NaN (Fin 0).
Proof. repeat split. intro H. exact H. Qed.

(** ** StrataGapFiller *)

Lemma set_nth_length {A : Type} (m : nat) (x : A) (l : list A) :
  length (set_nth m x l) = length l.
Proof.
  revert m. induction l as [|a t IH]; intros [|m]; simpl; auto.
Qed.

Lemma set_nth_In {A : Type} (m : nat) (x y : A) (l : list A) :
  In y (set_nth m x l) -> y = x \/ In y l.
Proof.
  revert m. induction l as [|a t IH]; intros [|m] H; simpl in *; auto.
  - destruct H as [H | H]; auto.
  - destruct H as [H | H]; auto.
    destruct (IH m H); auto.
Qed.

Lemma swap_head_length (l : list nat) (m : nat) :
  length (swap_head l m) = length l.
Proof.
  destruct l as [|h t]; destruct m as [|m]; simpl; auto.
  rewrite set_nth_length. reflexivity.
Qed.

Lemma swap_head_In (l : list nat) (m : nat) (x : nat) :
  In x (swap_head l m) -> In x l.
Proof.
  destruct l as [|h t]; destruct m as [|m]; simpl; auto.
  intros [<- | H].
  - destruct (nth_in_or_default m t h) as [Hin | ->]; auto.
  - destruct (set_nth_In _ _ _ _ H) as [-> | Hin]; auto.
Qed.

Lemma dumb_select_length (v : nat -> Z) (left : nat) :
  forall tosort, length (dumb_select v left tosort) = length tosort.
Proof.
  induction left as [|left IH]; intros [|h t]; try reflexivity;
    cbn [dumb_select];
    pose proof (swap_head_length (h :: t) (first_min_pos v 1 0 (v h) t)) as E;
    destruct (swap_head (h :: t) (first_min_pos v 1 0 (v h) t)) as [|x r];
    cbn [length] in *; congruence.
Qed.

Lemma dumb_select_In (v : nat -> Z) (left : nat) :
  forall tosort x, In x (dumb_select v left tosort) -> In x tosort.
Proof.
  induction left as [|left IH]; intros [|h t] x; try (simpl; tauto);
    cbn [dumb_select];
    pose proof (swap_head_In (h :: t) (first_min_pos v 1 0 (v h) t)) as E;
    destruct (swap_head (h :: t) (first_min_pos v 1 0 (v h) t)) as [|y r];
    try (simpl; tauto).
  - intro H. apply E. exact H.
  - intros [<- | H]; [apply E; left; reflexivity|].
    apply E. right. apply IH. exact H.
Qed.

(** [np.argpartition(a, 2)] succeeds exactly on arrays of at least three
    elements, and then returns valid positions. *)
Lemma argpartition_2_ok (a : list Z) :
  (3 <= length a)%nat ->
  exists i0 i1 rest,
    argpartition a 2 = Ok (i0 :: i1 :: rest)
    /\ (i0 < length a)%nat /\ (i1 < length a)%nat.
Proof.
  intro Hn. unfold argpartition.
  destruct (Nat.ltb_spec 2 (length a)) as [_|H]; [|lia].
  pose proof (dumb_select_length (fun i => nth i a 0%Z) 2
                (seq 0 (length a))) as Hlen.
  pose proof (dumb_select_In (fun i => nth i a 0%Z) 2
                (seq 0 (length a))) as Hin.
  rewrite length_seq in Hlen.
  destruct (dumb_select _ 2 (seq 0 (length a))) as [|i0 [|i1 rest]];
    simpl in Hlen; try lia.
  exists i0, i1, rest. split; [reflexivity|].
  split.
  - assert (H : In i0 (seq 0 (length a))) by (apply Hin; simpl; auto).
    apply in_seq in H. lia.
  - assert (H : In i1 (seq 0 (length a))) by (apply Hin; simpl; auto).
    apply in_seq in H. lia.
Qed.

Lemma argpartition_2_short (a : list Z) :
  (length a < 3)%nat -> argpartition a 2 = Raise ValueError.
Proof.
  intro Hn. unfold argpartition.
  destruct (Nat.ltb_spec 2 (length a)) as [H|_]; [lia|reflexivity].
Qed.

Lemma loc_In (df : dataframe) (k : Z) :
  In k (index df) -> exists v, loc df k = Ok v.
Proof.
  induction df as [|[k' v'] t IH]; simpl; [tauto|].
  intros [-> | H].
  - rewrite Z.eqb_refl. eauto.
  - destruct (Z.eqb k k'); eauto.
Qed.

Lemma loc_set_index (df : dataframe) (k : Z) (v : float) :
  forall x, In x (index df) -> In x (index (loc_set df k v)).
Proof.
  induction df as [|[k' v'] t IH]; simpl; [tauto|].
  intros x [<- | H]; destruct (Z.eqb k k'); simpl; auto.
Qed.

Lemma loc_set_length (df : dataframe) (k : Z) (v : float) :
  (length df <= length (loc_set df k v))%nat.
Proof.
  induction df as [|[k' v'] t IH]; simpl; [lia|].
  destruct (Z.eqb k k'); simpl; lia.
Qed.

(** A new label is appended as the last row. *)
Lemma loc_set_new (df : dataframe) (k : Z) (v : float) :
  ~ In k (index df) -> loc_set df k v = df ++ [(k, v)].
Proof.
  induction df as [|[k' v'] t IH]; simpl; intro H; [reflexivity|].
  destruct (Z.eqb_spec k k') as [->|Hne]; [tauto|].
  rewrite IH; tauto.
Qed.

Lemma iloc_ok (df : dataframe) (i : nat) :
  (i < length df)%nat -> exists v, iloc df i = Ok v.
Proof.
  intro H. unfold iloc.
  destruct (nth_error df i) as [[k v]|] eqn:E; eauto.
  apply nth_error_None in E. lia.
Qed.

(** One step of the loop succeeds as soon as the bounds it copies from are
    labels of the table and, for the averaging branch, the table has
    three rows. *)
Lemma fill_one_ok (one : bool) (kmax kmin : Z) (df : dataframe) (s : Z) :
  In kmax (index df) -> In kmin (index df) ->
  one = true \/ (3 <= length df)%nat ->
  exists v, fill_one one (Some kmax) (Some kmin) df s
            = Ok (loc_set df s v).
Proof.
  intros Hmax Hmin Hcase. unfold fill_one.
  destruct (loc_In df kmax Hmax) as [vmax Evmax].
  destruct (loc_In df kmin Hmin) as [vmin Evmin].
  destruct one.
  { simpl. rewrite Evmax. simpl. eauto. }
  destruct (gt_opt s (Some kmax)).
  { simpl. rewrite Evmax. simpl. eauto. }
  destruct (lt_opt s (Some kmin)).
  { simpl. rewrite Evmin. simpl. eauto. }
  destruct Hcase as [Hc | Hlen]; [discriminate|].
  destruct (argpartition_2_ok (map (fun k => Z.abs (s - k)) (index df)))
    as [i0 [i1 [rest [E [H0 H1]]]]].
  { unfold index. rewrite !length_map. exact Hlen. }
  rewrite E. simpl. unfold index in H0, H1. rewrite !length_map in H0, H1.
  destruct (iloc_ok df i0 H0) as [v0 E0].
  destruct (iloc_ok df i1 H1) as [v1 E1].
  rewrite E0, E1. simpl. eauto.
Qed.

(** Outside the known range one step copies a bound, whatever the number
    of rows. *)
Lemma fill_one_exterior (kmax kmin : Z) (df : dataframe) (s : Z) :
  In kmax (index df) -> In kmin (index df) ->
  (kmax < s \/ s < kmin)%Z ->
  exists v, fill_one false (Some kmax) (Some kmin) df s
            = Ok (loc_set df s v).
Proof.
  intros Hmax Hmin Hout. unfold fill_one, gt_opt, lt_opt.
  destruct (loc_In df kmax Hmax) as [vmax Evmax].
  destruct (loc_In df kmin Hmin) as [vmin Evmin].
  destruct (Z.gtb_spec s kmax) as [H|H].
  { unfold loc_opt. rewrite Evmax. simpl. eauto. }
  destruct (Z.ltb_spec s kmin) as [H'|H'].
  { unfold loc_opt. rewrite Evmin. simpl. eauto. }
  lia.
Qed.

Lemma fill_loop_ok (one : bool) (kmax kmin : Z) (missing : list Z) :
  forall df,
    In kmax (index df) -> In kmin (index df) ->
    one = true \/ (3 <= length df)%nat ->
    exists df', fill_loop one (Some kmax) (Some kmin) missing df = Ok df'.
Proof.
  induction missing as [|s rest IH]; intros df Hmax Hmin Hcase; simpl.
  - eauto.
  - destruct (fill_one_ok one kmax kmin df s Hmax Hmin Hcase) as [v E].
    rewrite E. simpl. apply IH.
    + apply loc_set_index. exact Hmax.
    + apply loc_set_index. exact Hmin.
    + destruct Hcase as [Hc | Hlen]; [auto|].
      right. pose proof (loc_set_length df s v). lia.
Qed.

Lemma set_difference_not_in (nasc_strata : list Z) (df : dataframe) (s : Z) :
  In s (set_difference nasc_strata df) -> ~ In s (index df).
Proof.
  unfold set_difference. intro H. apply filter_In in H.
  destruct H as [_ H]. apply negb_true_iff in H.
  intro Hin. unfold mem_Z in H.
  assert (E : existsb (Z.eqb s) (index df) = true).
  { apply existsb_exists. exists s. split; [exact Hin|apply Z.eqb_refl]. }
  congruence.
Qed.

Lemma fill_missing_unfold (nasc_strata : list Z) (df : dataframe)
  (s : Z) (rest : list Z) :
  set_difference nasc_strata df = s :: rest ->
  _fill_missing_strata_indices nasc_strata df
  = bind (fill_one (Nat.eqb (length (index df)) 1) (index_max df)
                   (index_min df) df s)
         (fill_loop (Nat.eqb (length (index df)) 1) (index_max df)
                    (index_min df) rest).
Proof.
  intro H. unfold _fill_missing_strata_indices. rewrite H. reflexivity.
Qed.

(** C10, as the code has it.  With exactly two known strata the fill
    fails with [ValueError] if and only if the first missing stratum it
    processes lies strictly between the two known ids: the averaging
    branch then calls [np.argpartition] with [kth = 2] on a distance array
    of two elements.  When a missing stratum outside the known range is
    processed first, the row appended for it makes the table three rows
    long and the whole fill returns. *)
Theorem two_known_strata_fill_fails_iff (nasc_strata : list Z)
  (k1 k2 : Z) (v1 v2 : float) (s : Z) (rest : list Z) :
  k1 <> k2 ->
  set_difference nasc_strata [(k1, v1); (k2, v2)] = s :: rest ->
  (_fill_missing_strata_indices nasc_strata [(k1, v1); (k2, v2)]
   = Raise ValueError
   <-> (Z.min k1 k2 < s < Z.max k1 k2)%Z)
  /\ (~ (Z.min k1 k2 < s < Z.max k1 k2)%Z ->
      exists df', _fill_missing_strata_indices nasc_strata
                    [(k1, v1); (k2, v2)] = Ok df').
Proof.
  intros Hne Hmiss.
  rewrite (fill_missing_unfold _ _ s rest Hmiss).
  assert (Hs : ~ In s (index [(k1, v1); (k2, v2)])).
  { apply (set_difference_not_in nasc_strata). rewrite Hmiss. left.
    reflexivity. }
  change (Nat.eqb (length (index [(k1, v1); (k2, v2)])) 1) with false.
  change (index_max [(k1, v1); (k2, v2)]) with (Some (Z.max k1 k2)).
  change (index_min [(k1, v1); (k2, v2)]) with (Some (Z.min k1 k2)).
  assert (Hmax : In (Z.max k1 k2) (index [(k1, v1); (k2, v2)])).
  { simpl. lia. }
  assert (Hmin : In (Z.min k1 k2) (index [(k1, v1); (k2, v2)])).
  { simpl. lia. }
  assert (Hlen : length [(k1, v1); (k2, v2)] = 2%nat) by reflexivity.
  revert Hs Hmax Hmin Hlen. generalize [(k1, v1); (k2, v2)]. clear Hmiss.
  intros df Hs Hmax Hmin Hlen.
  assert (Hfail : (Z.min k1 k2 < s < Z.max k1 k2)%Z ->
                  bind (fill_one false (Some (Z.max k1 k2))
                                 (Some (Z.min k1 k2)) df s)
                       (fill_loop false (Some (Z.max k1 k2))
                                  (Some (Z.min k1 k2)) rest)
                  = Raise ValueError).
  { intros [Hlo Hhi]. unfold fill_one, gt_opt, lt_opt.
    destruct (Z.gtb_spec s (Z.max k1 k2)) as [H|_]; [lia|].
    destruct (Z.ltb_spec s (Z.min k1 k2)) as [H|_]; [lia|].
    rewrite argpartition_2_short; [reflexivity|].
    unfold index. rewrite !length_map. lia. }
  assert (Hok : ~ (Z.min k1 k2 < s < Z.max k1 k2)%Z ->
                exists df',
                  bind (fill_one false (Some (Z.max k1 k2))
                                 (Some (Z.min k1 k2)) df s)
                       (fill_loop false (Some (Z.max k1 k2))
                                  (Some (Z.min k1 k2)) rest)
                  = Ok df').
  { intro Hout.
    assert (Hsk : s <> Z.max k1 k2 /\ s <> Z.min k1 k2).
    { split; intro; subst; tauto. }
    destruct (fill_one_exterior (Z.max k1 k2) (Z.min k1 k2) df s Hmax Hmin)
      as [v Estep]; [lia|].
    rewrite Estep. cbn [bind].
    apply fill_loop_ok.
    - apply loc_set_index. exact Hmax.
    - apply loc_set_index. exact Hmin.
    - right. rewrite (loc_set_new df s v Hs). rewrite length_app.
      simpl. lia. }
  split; [split|].
  - intro Hraise.
    destruct (Z.lt_ge_cases (Z.min k1 k2) s) as [Hlo|Hlo];
      destruct (Z.lt_ge_cases s (Z.max k1 k2)) as [Hhi|Hhi];
      try (split; assumption);
      (destruct Hok as [df' E]; [lia|]; rewrite E in Hraise; discriminate).
  - exact Hfail.
  - exact Hok.
Qed.

Lemma two_known_strata_fill_fails_iff_witness :
  _fill_missing_strata_indices [2; 3; 5]%Z [(2%Z, Fin 1); (5%Z, Fin 3)]
  = Raise ValueError.
Proof.
  apply (two_known_strata_fill_fails_iff [2; 3; 5]%Z 2 5 (Fin 1) (Fin 3)
           3%Z []).
  - discriminate.
  - reflexivity.
  - simpl. lia.
Defined.

(** C10, as stated, fails: two known strata 2 and 5, the missing stratum 3
    strictly between them, and the fill returns, because the missing
    stratum 1 is processed before it. *)
Lemma two_known_strata_fill_can_succeed :
  length [(2%Z, Fin 1); (5%Z, Fin 3)] = 2%nat
  /\ In 3%Z (set_difference [1; 2; 3; 5]%Z [(2%Z, Fin 1); (5%Z, Fin 3)])
  /\ (2 < 3 < 5)%Z
  /\ _fill_missing_strata_indices [1; 2; 3; 5]%Z [(2%Z, Fin 1); (5%Z, Fin 3)]
     = Ok [(2%Z, Fin 1); (5%Z, Fin 3); (1%Z, Fin 1); (3%Z, Fin (4 # 2))].
Proof.
  repeat split.
  - simpl. auto.
Qed.

(** [np.argmin] returns a position of the least element. *)
Lemma argmin_from_spec (l : list Z) :
  forall (pre : list Z) (best_pos : nat) (best : Z),
    (best_pos < length pre)%nat ->
    nth best_pos (pre ++ l) 0%Z = best ->
    (forall j, (j < length pre)%nat -> (best <= nth j (pre ++ l) 0)%Z) ->
    let r := argmin_from (length pre) best_pos best l in
    (r < length (pre ++ l))%nat
    /\ forall j, (j < length (pre ++ l))%nat ->
                 (nth r (pre ++ l) 0 <= nth j (pre ++ l) 0)%Z.
Proof.
  induction l as [|x t IH]; intros pre best_pos best Hpos Hbest Hmin; simpl.
  - rewrite app_nil_r in *. split; [exact Hpos|].
    intros j Hj. rewrite Hbest. apply Hmin. exact Hj.
  - assert (Eapp : pre ++ x :: t = (pre ++ [x]) ++ t).
    { rewrite <- app_assoc. reflexivity. }
    assert (Ex : nth (length pre) (pre ++ x :: t) 0%Z = x).
    { rewrite app_nth2 by lia. rewrite Nat.sub_diag. reflexivity. }
    assert (Elen : S (length pre) = length (pre ++ [x])).
    { rewrite length_app. simpl. lia. }
    destruct (Z.ltb_spec x best) as [Hlt | Hge].
    + rewrite Eapp, Elen. apply IH.
      * rewrite length_app. simpl. lia.
      * rewrite <- Eapp. exact Ex.
      * intros j Hj. rewrite length_app in Hj. simpl in Hj.
        rewrite <- Eapp.
        destruct (Nat.eq_dec j (length pre)) as [-> | Hne].
        -- rewrite Ex. lia.
        -- specialize (Hmin j ltac:(lia)). lia.
    + rewrite Eapp, Elen. apply IH.
      * rewrite length_app. simpl. lia.
      * rewrite <- Eapp. exact Hbest.
      * intros j Hj. rewrite length_app in Hj. simpl in Hj.
        rewrite <- Eapp.
        destruct (Nat.eq_dec j (length pre)) as [-> | Hne].
        -- rewrite Ex. lia.
        -- apply Hmin. lia.
Qed.

Lemma argmin_row_spec (l : list Z) :
  l <> [] ->
  (argmin_row l < length l)%nat
  /\ forall j, (j < length l)%nat ->
               (nth (argmin_row l) l 0 <= nth j l 0)%Z.
Proof.
  destruct l as [|x t]; [congruence|]. intros _.
  apply (argmin_from_spec t [x] 0%nat x).
  - simpl. lia.
  - reflexivity.
  - intros j Hj. simpl in Hj. replace j with 0%nat by lia. simpl. lia.
Qed.

(** *** The partition returned by [np.argpartition] *)

Lemma first_min_pos_argmin (v : nat -> Z) (l : list nat) :
  forall pos best_pos best,
    first_min_pos v pos best_pos best l
    = argmin_from pos best_pos best (map v l).
Proof.
  induction l as [|x t IH]; intros pos best_pos best; simpl; [reflexivity|].
  destruct (Z.ltb (v x) best); apply IH.
Qed.

Lemma set_nth_Permutation {A : Type} (m : nat) (h d : A) (t : list A) :
  (m < length t)%nat ->
  Permutation (nth m t d :: set_nth m h t) (h :: t).
Proof.
  revert m. induction t as [|a t IH]; intros m Hm; simpl in Hm; [lia|].
  destruct m as [|m]; simpl.
  - apply perm_swap.
  - specialize (IH m ltac:(lia)).
    apply perm_trans with (a :: nth m t d :: set_nth m h t).
    + apply perm_swap.
    + apply perm_trans with (a :: h :: t).
      * apply perm_skip. exact IH.
      * apply perm_swap.
Qed.

Lemma swap_head_Permutation (l : list nat) (m : nat) :
  (m < length l)%nat -> Permutation (swap_head l m) l.
Proof.
  destruct l as [|h t]; destruct m as [|m]; simpl; intro Hm; auto.
  apply set_nth_Permutation. lia.
Qed.

Lemma swap_head_hd (l : list nat) (m : nat) (d : nat) :
  (m < length l)%nat -> hd d (swap_head l m) = nth m l d.
Proof.
  destruct l as [|h t]; destruct m as [|m]; simpl; intro Hm; try lia; auto.
  apply nth_indep. lia.
Qed.

(** One round of the selection: the least candidate comes first. *)
Lemma select_round (v : nat -> Z) (h : nat) (t : list nat) :
  exists x r,
    swap_head (h :: t) (first_min_pos v 1 0 (v h) t) = x :: r
    /\ Permutation (x :: r) (h :: t)
    /\ forall y, In y (h :: t) -> (v x <= v y)%Z.
Proof.
  set (m := first_min_pos v 1 0 (v h) t).
  assert (Em : m = argmin_row (map v (h :: t))).
  { unfold m. rewrite first_min_pos_argmin. reflexivity. }
  destruct (argmin_row_spec (map v (h :: t))) as [Hlt Hmin];
    [discriminate|].
  rewrite <- Em in Hlt, Hmin. rewrite length_map in Hlt, Hmin.
  pose proof (swap_head_Permutation (h :: t) m Hlt) as Hperm.
  pose proof (swap_head_hd (h :: t) m h Hlt) as Hhd.
  destruct (swap_head (h :: t) m) as [|x r] eqn:E.
  { apply Permutation_nil in Hperm. discriminate. }
  exists x, r. split; [reflexivity|]. split; [exact Hperm|].
  simpl in Hhd. subst x.
  intros y Hy. destruct (In_nth (h :: t) y h Hy) as [j [Hj Ej]].
  specialize (Hmin j Hj).
  rewrite (nth_map_in v (h :: t) m 0%Z h) in Hmin by exact Hlt.
  rewrite (nth_map_in v (h :: t) j 0%Z h) in Hmin by exact Hj.
  rewrite Ej in Hmin. exact Hmin.
Qed.

(** After two rounds and more, the first two positions hold the two least
    elements. *)
Lemma dumb_select_two (v : nat -> Z) (left : nat) (tosort : list nat) :
  (2 <= length tosort)%nat ->
  exists i0 i1 rest,
    dumb_select v (S left) tosort = i0 :: i1 :: rest
    /\ Permutation (i0 :: i1 :: rest) tosort
    /\ (v i0 <= v i1)%Z
    /\ forall y, In y rest -> (v i1 <= v y)%Z.
Proof.
  intro Hlen. destruct tosort as [|h t]; [simpl in Hlen; lia|].
  destruct (select_round v h t) as [x [r [E [Hperm Hmin]]]].
  cbn [dumb_select]. rewrite E.
  assert (Hr : (1 <= length r)%nat).
  { apply Permutation_length in Hperm. simpl in *. lia. }
  destruct r as [|h' t']; [simpl in Hr; lia|].
  destruct (select_round v h' t') as [x' [r' [E' [Hperm' Hmin']]]].
  assert (Hx : (v x <= v x')%Z).
  { apply Hmin. apply (Permutation_in _ Hperm). right.
    apply (Permutation_in _ Hperm'). left. reflexivity. }
  destruct left as [|left].
  - cbn [dumb_select]. rewrite E'.
    exists x, x', r'. split; [reflexivity|].
    split; [|split; [exact Hx|]].
    + apply perm_trans with (x :: h' :: t'); [|exact Hperm].
      apply perm_skip. exact Hperm'.
    + intros y Hy. apply Hmin'. apply (Permutation_in _ Hperm').
      right. exact Hy.
  - cbn [dumb_select]. rewrite E'.
    exists x, x'. eexists. split; [reflexivity|].
    assert (Hsub : forall k l y, In y (dumb_select v k l) -> In y l).
    { intros k l y. apply dumb_select_In. }
    assert (Hperm_ds : forall k l, Permutation (dumb_select v k l) l).
    { induction k as [|k IHk]; intros [|a l]; cbn [dumb_select]; auto.
      - destruct (select_round v a l) as [a' [l' [Ea [Hp _]]]].
        rewrite Ea. exact Hp.
      - destruct (select_round v a l) as [a' [l' [Ea [Hp _]]]].
        rewrite Ea. apply perm_trans with (a' :: l'); [|exact Hp].
        apply perm_skip. apply IHk. }
    split; [|split; [exact Hx|]].
    + apply perm_trans with (x :: h' :: t'); [|exact Hperm].
      apply perm_skip.
      apply perm_trans with (x' :: r'); [|exact Hperm'].
      apply perm_skip. apply Hperm_ds.
    + intros y Hy. apply Hmin'. apply (Permutation_in _ Hperm').
      right. apply (Hsub _ _ _ Hy).
Qed.

(** [np.argpartition(a, 2)] on three elements or more: two distinct
    positions come first, and no other position holds a smaller
    element. *)
Lemma argpartition_2_nearest (a : list Z) :
  (3 <= length a)%nat ->
  exists i0 i1 rest,
    argpartition a 2 = Ok (i0 :: i1 :: rest)
    /\ (i0 < length a)%nat /\ (i1 < length a)%nat /\ i0 <> i1
    /\ (nth i0 a 0 <= nth i1 a 0)%Z
    /\ forall j, (j < length a)%nat -> j <> i0 -> j <> i1 ->
                 (nth i1 a 0 <= nth j a 0)%Z.
Proof.
  intro Hn. unfold argpartition.
  destruct (Nat.ltb_spec 2 (length a)) as [_|H]; [|lia].
  destruct (dumb_select_two (fun i => nth i a 0%Z) 1 (seq 0 (length a)))
    as [i0 [i1 [rest [E [Hperm [Hle Hmin]]]]]].
  { rewrite length_seq. lia. }
  rewrite E. exists i0, i1, rest. split; [reflexivity|].
  assert (Hnd : NoDup (i0 :: i1 :: rest)).
  { apply (Permutation_NoDup (Permutation_sym Hperm)). apply seq_NoDup. }
  assert (Hin : forall j, In j (i0 :: i1 :: rest) <-> (j < length a)%nat).
  { intro j. split.
    - intro Hj. apply (Permutation_in _ Hperm) in Hj. apply in_seq in Hj. lia.
    - intro Hj. apply (Permutation_in _ (Permutation_sym Hperm)).
      apply in_seq. lia. }
  split; [apply Hin; simpl; auto|]. split; [apply Hin; simpl; auto|].
  split.
  { inversion Hnd as [|? ? Hnot _]. intro Heq. apply Hnot. left.
    symmetry. exact Heq. }
  split; [exact Hle|].
  intros j Hj H0 H1. apply Hmin.
  apply Hin in Hj. destruct Hj as [Hj | [Hj | Hj]]; congruence.
Qed.

Lemma loc_loc_set (df : dataframe) (s k : Z) (v : float) :
  loc (loc_set df s v) k = if Z.eqb k s then Ok v else loc df k.
Proof.
  induction df as [|[k' v'] t IH]; simpl.
  - destruct (Z.eqb k s); reflexivity.
  - destruct (Z.eqb_spec s k') as [->|Hne]; simpl.
    + destruct (Z.eqb k k'); reflexivity.
    + destruct (Z.eqb_spec k k') as [->|Hne'].
      * destruct (Z.eqb_spec k' s); [congruence|reflexivity].
      * exact IH.
Qed.

(** One step of the loop writes one row, and in the copy cases the value
    it writes is the value at the bound it copies from. *)
Lemma fill_one_writes (one : bool) (kmax kmin : Z) (df df1 : dataframe)
  (s : Z) :
  fill_one one (Some kmax) (Some kmin) df s = Ok df1 ->
  exists v, df1 = loc_set df s v
            /\ (one = true \/ (kmax < s)%Z -> loc df kmax = Ok v)
            /\ (one = false -> ~ (kmax < s)%Z -> (s < kmin)%Z ->
                loc df kmin = Ok v).
Proof.
  unfold fill_one, gt_opt, lt_opt, loc_opt. intro H.
  destruct one.
  { destruct (loc df kmax) as [v|e] eqn:E; simpl in H; [|discriminate].
    inversion H. exists v. repeat split; auto. discriminate. }
  destruct (Z.gtb_spec s kmax) as [Hgt|Hle].
  { destruct (loc df kmax) as [v|e] eqn:E; simpl in H; [|discriminate].
    inversion H. exists v. repeat split; auto. intros _ Hn. lia. }
  destruct (Z.ltb_spec s kmin) as [Hlt|Hge].
  { destruct (loc df kmin) as [v|e] eqn:E; simpl in H; [|discriminate].
    inversion H. exists v. repeat split; auto.
    intros [Hc|Hc]; [discriminate|lia]. }
  destruct (argpartition _ 2) as [idx|e]; simpl in H; [|discriminate].
  destruct (get_idx idx 0) as [i0|e]; simpl in H; [|discriminate].
  destruct (get_idx idx 1) as [i1|e]; simpl in H; [|discriminate].
  destruct (iloc df i0) as [v0|e]; simpl in H; [|discriminate].
  destruct (iloc df i1) as [v1|e]; simpl in H; [|discriminate].
  inversion H. eexists. split; [reflexivity|].
  split; [intros [Hc|Hc]; [discriminate|lia]|]. intros _ _ Hc. lia.
Qed.

Lemma fill_loop_values (one : bool) (kmax kmin : Z) (missing : list Z) :
  forall df df',
    fill_loop one (Some kmax) (Some kmin) missing df = Ok df' ->
    NoDup missing ->
    ~ In kmax missing -> ~ In kmin missing ->
    (forall k, ~ In k missing -> loc df' k = loc df k)
    /\ (forall s, In s missing -> one = true \/ (kmax < s)%Z ->
                  loc df' s = loc df kmax)
    /\ (forall s, In s missing -> one = false -> ~ (kmax < s)%Z ->
                  (s < kmin)%Z -> loc df' s = loc df kmin).
Proof.
  induction missing as [|s rest IH]; intros df df' H Hnd Hmax Hmin.
  - simpl in H. inversion H. subst. repeat split; auto; intros s [].
  - simpl in H.
    destruct (fill_one one (Some kmax) (Some kmin) df s) as [df1|e] eqn:E;
      simpl in H; [|discriminate].
    destruct (fill_one_writes _ _ _ _ _ _ E) as [v [-> [Hcopy1 Hcopy2]]].
    inversion Hnd as [|? ? Hs Hrest]; subst.
    destruct (IH _ _ H Hrest) as [Hkeep [Hup Hlow]].
    { intro Hc. apply Hmax. right. exact Hc. }
    { intro Hc. apply Hmin. right. exact Hc. }
    assert (Hsmax : s <> kmax) by (intro; subst; apply Hmax; left; reflexivity).
    assert (Hsmin : s <> kmin) by (intro; subst; apply Hmin; left; reflexivity).
    assert (Ekmax : loc (loc_set df s v) kmax = loc df kmax).
    { rewrite loc_loc_set.
      destruct (Z.eqb_spec kmax s); [congruence|reflexivity]. }
    assert (Ekmin : loc (loc_set df s v) kmin = loc df kmin).
    { rewrite loc_loc_set.
      destruct (Z.eqb_spec kmin s); [congruence|reflexivity]. }
    split; [|split].
    + intros k Hk. rewrite Hkeep by (intro Hc; apply Hk; right; exact Hc).
      rewrite loc_loc_set.
      destruct (Z.eqb_spec k s) as [->|Hne]; [|reflexivity].
      exfalso. apply Hk. left. reflexivity.
    + intros s' [<- | Hin] Hcase.
      * rewrite Hkeep by exact Hs. rewrite loc_loc_set, Z.eqb_refl.
        symmetry. apply Hcopy1. exact Hcase.
      * rewrite (Hup s' Hin Hcase). exact Ekmax.
    + intros s' [<- | Hin] Hone Hnot Hlt.
      * rewrite Hkeep by exact Hs. rewrite loc_loc_set, Z.eqb_refl.
        symmetry. apply Hcopy2; assumption.
      * rewrite (Hlow s' Hin Hone Hnot Hlt). exact Ekmin.
Qed.

Lemma fold_max_In (t : list Z) :
  forall k, In (fold_left Z.max t k) (k :: t)
            /\ forall x, In x (k :: t) -> (x <= fold_left Z.max t k)%Z.
Proof.
  induction t as [|y t IH]; intro k; simpl.
  - split; [auto|]. intros x [<- | []]. lia.
  - destruct (IH (Z.max k y)) as [Hin Hle]. split.
    + destruct Hin as [E | Hin]; [|auto].
      rewrite <- E. destruct (Z.max_spec k y) as [[_ ->] | [_ ->]]; auto.
    + intros x [E | [E | Hx]].
      * specialize (Hle (Z.max k y) (or_introl eq_refl)). lia.
      * specialize (Hle (Z.max k y) (or_introl eq_refl)). lia.
      * apply Hle. right. exact Hx.
Qed.

Lemma fold_min_In (t : list Z) :
  forall k, In (fold_left Z.min t k) (k :: t)
            /\ forall x, In x (k :: t) -> (fold_left Z.min t k <= x)%Z.
Proof.
  induction t as [|y t IH]; intro k; simpl.
  - split; [auto|]. intros x [<- | []]. lia.
  - destruct (IH (Z.min k y)) as [Hin Hle]. split.
    + destruct Hin as [E | Hin]; [|auto].
      rewrite <- E. destruct (Z.min_spec k y) as [[_ ->] | [_ ->]]; auto.
    + intros x [E | [E | Hx]].
      * specialize (Hle (Z.min k y) (or_introl eq_refl)). lia.
      * specialize (Hle (Z.min k y) (or_introl eq_refl)). lia.
      * apply Hle. right. exact Hx.
Qed.

Lemma set_difference_NoDup (nasc_strata : list Z) (df : dataframe) :
  NoDup (set_difference nasc_strata df).
Proof. unfold set_difference. apply NoDup_filter, NoDup_nodup. Qed.

(** The three copy cases of the policy.  Whenever the fill returns, the
    known rows keep their values; with a single known stratum every
    missing stratum receives its value; with several, a missing stratum
    above the largest known id receives the value at that id and one below
    the smallest known id the value at that id.  The fill does return when
    one stratum is known, and when three or more are. *)
Lemma fill_copy_cases (nasc_strata : list Z) (df : dataframe)
  (kmax kmin : Z) :
  index_max df = Some kmax ->
  index_min df = Some kmin ->
  (forall df',
      _fill_missing_strata_indices nasc_strata df = Ok df' ->
      (forall k, In k (index df) -> loc df' k = loc df k)
      /\ (forall s, In s (set_difference nasc_strata df) ->
                    length df = 1%nat \/ (kmax < s)%Z ->
                    loc df' s = loc df kmax)
      /\ (forall s, In s (set_difference nasc_strata df) ->
                    length df <> 1%nat -> (s < kmin)%Z ->
                    loc df' s = loc df kmin))
  /\ (length df = 1%nat \/ (3 <= length df)%nat ->
      exists df', _fill_missing_strata_indices nasc_strata df = Ok df').
Proof.
  intros Emax Emin.
  assert (Hidx : In kmax (index df) /\ In kmin (index df)
                 /\ (kmin <= kmax)%Z).
  { unfold index_max, index_min in *.
    destruct (index df) as [|k t]; [discriminate|].
    injection Emax as <-. injection Emin as <-.
    destruct (fold_max_In t k) as [Hmx Hmx'].
    destruct (fold_min_In t k) as [Hmn Hmn'].
    split; [exact Hmx|]. split; [exact Hmn|].
    specialize (Hmx' k (or_introl eq_refl)).
    specialize (Hmn' k (or_introl eq_refl)). lia. }
  destruct Hidx as [Hmax [Hmin Hle]].
  assert (Hlen : length (index df) = length df).
  { unfold index. apply length_map. }
  split.
  - intros df' H. unfold _fill_missing_strata_indices in H.
    rewrite Emax, Emin, Hlen in H.
    pose proof (set_difference_NoDup nasc_strata df) as Hnd.
    pose proof (set_difference_not_in nasc_strata df) as Hnot.
    destruct (Nat.eqb (length (set_difference nasc_strata df)) 0) eqn:E0.
    { inversion H. subst df'.
      destruct (set_difference nasc_strata df); [|discriminate].
      repeat split; auto; intros s []. }
    destruct (fill_loop_values _ _ _ _ _ _ H Hnd) as [Hkeep [Hup Hlow]].
    { intro Hc. exact (Hnot _ Hc Hmax). }
    { intro Hc. exact (Hnot _ Hc Hmin). }
    split; [|split].
    + intros k Hk. apply Hkeep. intro Hc. exact (Hnot _ Hc Hk).
    + intros s Hs Hcase. apply Hup; [exact Hs|].
      destruct Hcase as [H1 | Hgt]; [|auto].
      left. rewrite H1. reflexivity.
    + intros s Hs Hn1 Hlt. apply Hlow; auto; [|lia].
      destruct (Nat.eqb_spec (length df) 1); [contradiction|reflexivity].
  - intro Hcase. unfold _fill_missing_strata_indices.
    rewrite Emax, Emin, Hlen.
    destruct (Nat.eqb (length (set_difference nasc_strata df)) 0);
      [eauto|].
    apply fill_loop_ok; auto.
    destruct Hcase as [H1 | H3]; [left; rewrite H1; reflexivity|auto].
Qed.

(** The interior case, for the missing stratum that is processed first.
    With three known strata or more the fill returns, and that stratum
    receives the arithmetic mean of the values of two distinct known
    strata; no other known stratum is closer to it than either of the
    two. *)
Lemma fill_first_interior (nasc_strata : list Z) (df : dataframe)
  (kmax kmin s : Z) (rest : list Z) :
  index_max df = Some kmax ->
  index_min df = Some kmin ->
  set_difference nasc_strata df = s :: rest ->
  (3 <= length df)%nat ->
  (kmin < s < kmax)%Z ->
  exists df' i0 i1 k0 v0 k1 v1,
    _fill_missing_strata_indices nasc_strata df = Ok df'
    /\ loc df' s = Ok (fdiv (fadd v0 v1) (Fin 2))
    /\ nth_error df i0 = Some (k0, v0)
    /\ nth_error df i1 = Some (k1, v1)
    /\ i0 <> i1
    /\ forall j kj vj,
         nth_error df j = Some (kj, vj) -> j <> i0 -> j <> i1 ->
         (Z.abs (s - k0) <= Z.abs (s - kj))%Z
         /\ (Z.abs (s - k1) <= Z.abs (s - kj))%Z.
Proof.
  intros Emax Emin Hmiss Hlen [Hlo Hhi].
  assert (Hidx : In kmax (index df) /\ In kmin (index df)).
  { unfold index_max, index_min in *.
    destruct (index df) as [|k t]; [discriminate|].
    injection Emax as <-. injection Emin as <-.
    split; [apply fold_max_In|apply fold_min_In]. }
  destruct Hidx as [Hmax Hmin].
  assert (Hil : length (index df) = length df) by apply length_map.
  rewrite (fill_missing_unfold _ _ s rest Hmiss), Emax, Emin, Hil.
  assert (E1 : Nat.eqb (length df) 1 = false).
  { apply Nat.eqb_neq. lia. }
  rewrite E1.
  set (dist := map (fun k => Z.abs (s - k)) (index df)).
  assert (Hdl : length dist = length df).
  { unfold dist. rewrite length_map. exact Hil. }
  destruct (argpartition_2_nearest dist) as
    [i0 [i1 [more [Earg [H0 [H1 [Hne [Hle Hnear]]]]]]]]; [lia|].
  rewrite Hdl in H0, H1.
  destruct (nth_error df i0) as [[k0 v0]|] eqn:En0;
    [|apply nth_error_None in En0; lia].
  destruct (nth_error df i1) as [[k1 v1]|] eqn:En1;
    [|apply nth_error_None in En1; lia].
  assert (Hd : forall j kj vj, nth_error df j = Some (kj, vj) ->
                               nth j dist 0%Z = Z.abs (s - kj)).
  { intros j kj vj Hj. unfold dist, index.
    assert (Hjl : (j < length df)%nat).
    { apply nth_error_Some. congruence. }
    rewrite map_map.
    rewrite (nth_map_in _ df j 0%Z (kj, vj)) by exact Hjl.
    rewrite (nth_error_nth df j (kj, vj) Hj). reflexivity. }
  assert (Estep : fill_one false (Some kmax) (Some kmin) df s
                  = Ok (loc_set df s (fdiv (fadd v0 v1) (Fin 2)))).
  { unfold fill_one, gt_opt, lt_opt.
    destruct (Z.gtb_spec s kmax) as [H|_]; [lia|].
    destruct (Z.ltb_spec s kmin) as [H|_]; [lia|].
    fold dist. rewrite Earg. cbn [bind get_idx nth_error].
    unfold iloc. rewrite En0, En1. reflexivity. }
  rewrite Estep. cbn [bind].
  pose proof (set_difference_NoDup nasc_strata df) as Hnd.
  pose proof (set_difference_not_in nasc_strata df) as Hnot.
  rewrite Hmiss in Hnd, Hnot.
  inversion Hnd as [|? ? Hs Hrest]; subst.
  destruct (fill_loop_ok false kmax kmin rest
              (loc_set df s (fdiv (fadd v0 v1) (Fin 2)))) as [df' Edf'].
  { apply loc_set_index. exact Hmax. }
  { apply loc_set_index. exact Hmin. }
  { right. pose proof (loc_set_length df s (fdiv (fadd v0 v1) (Fin 2))).
    lia. }
  destruct (fill_loop_values _ _ _ _ _ _ Edf' Hrest) as [Hkeep _].
  { intro Hc. apply (Hnot kmax); [right; exact Hc|exact Hmax]. }
  { intro Hc. apply (Hnot kmin); [right; exact Hc|exact Hmin]. }
  exists df', i0, i1, k0, v0, k1, v1.
  split; [exact Edf'|]. split.
  { rewrite (Hkeep s Hs), loc_loc_set, Z.eqb_refl. reflexivity. }
  split; [exact En0|]. split; [exact En1|]. split; [exact Hne|].
  intros j kj vj Hj Hj0 Hj1.
  assert (Hjl : (j < length dist)%nat).
  { rewrite Hdl. apply nth_error_Some. congruence. }
  specialize (Hnear j Hjl Hj0 Hj1).
  rewrite (Hd i0 k0 v0 En0) in Hle.
  rewrite (Hd i1 k1 v1 En1) in Hle, Hnear.
  rewrite (Hd j kj vj Hj) in Hnear. lia.
Qed.

(** C5. Strata 1, 10 and 20 are known with values 0, 4 and 7; strata 4
    and 5 are missing, both strictly between 1 and 10, which are the two
    known strata closest to either of them, so both should receive
    (0 + 4) / 2 = 2.  The first one processed does.  The second one is
    averaged with the row just appended for the first: processed in the
    order 4, 5 stratum 5 receives (2 + 0) / 2 = 1, and in the order 5, 4
    stratum 4 receives 1. *)
Theorem interior_fill_uses_filled_strata :
  _fill_missing_strata_indices [1; 4; 5; 10; 20]%Z three_known
  = Ok [(1%Z, Fin 0); (10%Z, Fin 4); (20%Z, Fin 7);
        (4%Z, Fin (4 # 2)); (5%Z, Fin (4 # 4))]
  /\ _fill_missing_strata_indices [1; 5; 4; 10; 20]%Z three_known
     = Ok [(1%Z, Fin 0); (10%Z, Fin 4); (20%Z, Fin 7);
           (5%Z, Fin (4 # 2)); (4%Z, Fin (4 # 4))]
  /\ feq (Fin (4 # 2)) (fdiv (fadd (Fin 0) (Fin 4)) (Fin 2))
  /\ ~ feq (Fin (4 # 4)) (fdiv (fadd (Fin 0) (Fin 4)) (Fin 2)).
Proof.
  repeat split. intro H. discriminate H.
Qed.

(** The second implementation fills a missing stratum from the known
    strata only: it takes the mean over the nearest known stratum below
    and the nearest known stratum above.  The two bracketing strata need
    not be the two closest ones: with strata 1, 2 and 10 known, stratum 3
    receives the mean of the values at 2 and 10, where the first
    implementation takes the values at 2 and 1.  With one species and the
    two strata 4 and 5 missing, the frame of the missing strata cannot be
    built. *)
Example impute_missing_sigma_bs_brackets :
  impute_missing_sigma_bs [1; 2; 3; 10]%Z
    [strata_mean_of 1 (Fin 1); strata_mean_of 2 (Fin 3);
     strata_mean_of 10 (Fin 11)]
  = Ok [strata_mean_of 1 (Fin 1); strata_mean_of 2 (Fin 3);
        strata_mean_of 3 (Fin (14 # 2)); strata_mean_of 10 (Fin 11)]
  /\ _fill_missing_strata_indices [1; 2; 3; 10]%Z
       [(1%Z, Fin 1); (2%Z, Fin 3); (10%Z, Fin 11)]
     = Ok [(1%Z, Fin 1); (2%Z, Fin 3); (10%Z, Fin 11); (3%Z, Fin (4 # 2))]
  /\ impute_missing_sigma_bs [1; 4; 5; 10; 20]%Z
       [strata_mean_of 1 (Fin 0); strata_mean_of 10 (Fin 4);
        strata_mean_of 20 (Fin 7)]
     = Raise ValueError.
Proof.
  repeat split.
Qed.

(** ** CrossSectionEstimator *)

Lemma unique_In (l : list Z) (x : Z) : In x (unique l) <-> In x l.
Proof.
  induction l as [|k t IH]; simpl; [tauto|].
  rewrite filter_In, IH.
  destruct (Z.eqb_spec x k) as [->|Hne]; simpl.
  - split; auto.
  - split.
    + intros [H | [H _]]; auto.
    + intros [H | H]; [auto|]. right. split; [exact H|reflexivity].
Qed.

Lemma existsb_false_filter {A : Type} (f : A -> bool) (l : list A) :
  existsb f l = false -> filter f l = [].
Proof.
  induction l as [|a t IH]; simpl; [reflexivity|].
  destruct (f a); simpl; [discriminate|exact IH].
Qed.

Lemma Qnat_S (n : nat) : Qnat (S n) == Qnat n + 1.
Proof.
  unfold Qnat. rewrite Nat2Z.inj_succ. unfold Z.succ.
  rewrite inject_Z_plus. reflexivity.
Qed.

Lemma Qnat_add (n m : nat) : Qnat (n + m) == Qnat n + Qnat m.
Proof.
  unfold Qnat. rewrite Nat2Z.inj_add, inject_Z_plus. reflexivity.
Qed.

Lemma Qnat_pos (n : nat) : 0 < Qnat (S n).
Proof.
  unfold Qnat, Qlt. simpl. lia.
Qed.

Lemma fish_count_Qnat (n : nat) : fish_count (Fin (Qnat n)) = n.
Proof.
  unfold fish_count, Qnat. rewrite Qfloor_Z. apply Nat2Z.id.
Qed.

(** A station-1 row of [c] fish weighs like [c] single fish. *)
Lemma fnansum_repeat (x : float) (c : nat) :
  feq (fnansum (repeat x c)) (fnansum [fmul x (Fin (Qnat c))]).
Proof.
  destruct x as [q| | |].
  - induction c as [|c IH].
    + simpl. unfold fnansum, fsum. simpl. change (Qnat 0) with 0. ring.
    + cbn [repeat]. rewrite fnansum_cons by reflexivity. rewrite IH.
      unfold fnansum, fsum. simpl. rewrite Qnat_S. ring.
  - destruct c as [|c]; [reflexivity|].
    assert (E : fmul PInf (Fin (Qnat (S c))) = PInf).
    { cbn [fmul]. unfold Qsgn.
      assert (H : (Qnat (S c) ?= 0) = Gt).
      { apply Qgt_alt. apply Qnat_pos. }
      rewrite H. reflexivity. }
    rewrite E. clear E. induction c as [|c IH]; [reflexivity|].
    change (repeat PInf (S (S c))) with (PInf :: repeat PInf (S c)).
    rewrite fnansum_cons by reflexivity. rewrite IH. reflexivity.
  - destruct c as [|c]; [reflexivity|].
    assert (E : fmul NInf (Fin (Qnat (S c))) = NInf).
    { cbn [fmul]. unfold Qsgn.
      assert (H : (Qnat (S c) ?= 0) = Gt).
      { apply Qgt_alt. apply Qnat_pos. }
      rewrite H. reflexivity. }
    rewrite E. clear E. induction c as [|c IH]; [reflexivity|].
    change (repeat NInf (S (S c))) with (NInf :: repeat NInf (S c)).
    rewrite fnansum_cons by reflexivity. rewrite IH. reflexivity.
  - assert (E : filter (fun x => negb (isnan x)) (repeat NaN c) = []).
    { induction c; simpl; auto. }
    unfold fnansum. rewrite E. reflexivity.
Qed.

Lemma fnansum_split (x : float) (l : list float) :
  feq (fnansum (x :: l)) (fadd (fnansum [x]) (fnansum l)).
Proof. apply (fnansum_app [x] l). Qed.

Section CrossSectionProofs.

Variable sigma : Q -> Q.

Lemma station1_sum_per_fish (rows : list length_row) :
  (forall r, In r rows -> is_count (ln_length_count r)) ->
  feq (fnansum (map (fun r => fmul (sigma_bs_of sigma (ln_length r))
                                   (ln_length_count r)) rows))
      (fnansum (flat_map
                  (fun r => repeat (sigma_bs_of sigma (ln_length r))
                                   (fish_count (ln_length_count r)))
                  rows)).
Proof.
  induction rows as [|r t IH]; intro H; [reflexivity|].
  cbn [map flat_map]. rewrite fnansum_split, fnansum_app.
  rewrite IH by (intros r' Hr'; apply H; right; exact Hr').
  destruct (H r (or_introl eq_refl)) as [n Hn].
  rewrite Hn, fish_count_Qnat, fnansum_repeat. reflexivity.
Qed.

Lemma station1_count_per_fish (rows : list length_row) :
  (forall r, In r rows -> is_count (ln_length_count r)) ->
  feq (fnansum (map ln_length_count rows))
      (Fin (Qnat (length
                    (flat_map
                       (fun r => repeat (sigma_bs_of sigma (ln_length r))
                                        (fish_count (ln_length_count r)))
                       rows)))).
Proof.
  induction rows as [|r t IH]; intro H; [reflexivity|].
  cbn [map flat_map]. rewrite fnansum_split.
  rewrite IH by (intros r' Hr'; apply H; right; exact Hr').
  destruct (H r (or_introl eq_refl)) as [n Hn].
  rewrite Hn, fish_count_Qnat, length_app, repeat_length.
  unfold fnansum, fsum. simpl. rewrite Qnat_add. ring.
Qed.

(** The value [_get_strata_sig_b] stores for a haul is the sample mean
    over the fish of both stations, unless the haul has exactly one
    station-1 row: then the selection of that row raises. *)
Lemma sig_bs_haul_cases (spec_df : list specimen_row)
  (length_df : list length_row) (haul_num : Z) :
  let rows :=
    filter (fun r => Z.eqb (ln_haul_num r) haul_num) length_df in
  (length rows = 1%nat ->
   sig_bs_haul sigma spec_df length_df haul_num = Raise AttributeError)
  /\ (length rows <> 1%nat ->
      exists v,
        sig_bs_haul sigma spec_df length_df haul_num = Ok v
        /\ ((forall r, In r length_df -> ln_haul_num r = haul_num ->
                       is_count (ln_length_count r)) ->
            feq v (sample_mean
                     (per_fish_sigma_bs sigma spec_df length_df haul_num)))).
Proof.
  intro rows. unfold sig_bs_haul. fold rows.
  set (specs := filter (fun r => Z.eqb (sp_haul_num r) haul_num) spec_df).
  assert (Hin : existsb (fun r => Z.eqb (ln_haul_num r) haul_num) length_df
                = negb (Nat.eqb (length rows) 0)).
  { destruct (existsb _ length_df) eqn:E.
    - apply existsb_exists in E. destruct E as [r [Hr He]].
      assert (Hf : In r rows) by (apply filter_In; auto).
      destruct rows; [destruct Hf|reflexivity].
    - unfold rows. rewrite (existsb_false_filter _ _ E). reflexivity. }
  split.
  - intro H1. rewrite Hin, H1. cbn [Nat.eqb negb].
    destruct rows as [|r0 [|r1 t]]; try discriminate H1. reflexivity.
  - intro Hne.
    assert (Hguard : (if existsb (fun r => Z.eqb (ln_haul_num r) haul_num)
                                 length_df
                      then match rows with
                           | [_] => Raise AttributeError
                           | _ => Ok tt
                           end
                      else Ok tt) = Ok tt).
    { destruct (existsb _ length_df); [|reflexivity].
      destruct rows as [|r0 [|r1 t]]; try reflexivity.
      exfalso. apply Hne. reflexivity. }
    rewrite Hguard. cbn [bind]. eexists. split; [reflexivity|].
    intro Hcnt. unfold sample_mean, per_fish_sigma_bs.
    fold rows. fold specs.
    assert (Hrows : forall r, In r rows -> is_count (ln_length_count r)).
    { intros r Hr. apply filter_In in Hr. destruct Hr as [Hr He].
      apply Hcnt; [exact Hr|]. apply Z.eqb_eq. exact He. }
    assert (Hsum : (if existsb (fun r => Z.eqb (ln_haul_num r) haul_num)
                                   length_df
                    then fnansum (map (fun r => fmul (sigma_bs_of sigma
                                                        (ln_length r))
                                                     (ln_length_count r)) rows)
                    else Fin 0)
                   = fnansum (map (fun r => fmul (sigma_bs_of sigma
                                                    (ln_length r))
                                                 (ln_length_count r)) rows)).
    { destruct (existsb _ length_df) eqn:E; [reflexivity|].
      unfold rows. rewrite (existsb_false_filter _ _ E). reflexivity. }
    assert (Hnum : (if existsb (fun r => Z.eqb (ln_haul_num r) haul_num)
                                   length_df
                    then fnansum (map ln_length_count rows)
                    else Fin 0)
                   = fnansum (map ln_length_count rows)).
    { destruct (existsb _ length_df) eqn:E; [reflexivity|].
      unfold rows. rewrite (existsb_false_filter _ _ E). reflexivity. }
    rewrite Hsum, Hnum. clear Hsum Hnum.
    rewrite (station1_sum_per_fish rows Hrows).
    rewrite (station1_count_per_fish rows Hrows).
    rewrite map_map, length_map.
    rewrite fnansum_app, length_app, length_map.
    apply fdiv_Proper.
    + apply fadd_comm.
    + simpl. rewrite Qnat_add. reflexivity.
Qed.

End CrossSectionProofs.


(** ** ApportionmentEngine *)

(** C3. Aged fish are all female and unaged fish all male, so the male
    unaged mass cannot be spread over ages and the apportioned total would
    fall short of the kriged total.  The engine does not reach its
    comparison of the two totals: the search for the nearest aged length
    bin takes [np.argmin] over an empty list of candidates and raises
    [ValueError]; no table is returned and no warning is issued. *)
Theorem total_imputation_failure_raises :
  fne_b (unaged_pivot no_aged_males 0 male) (Fin 0) = true
  /\ nonzero_aged no_aged_males male = []
  /\ apportion_kriged_values no_aged_males = Raise ValueError.
Proof. repeat split. Qed.

(** C1. All the fish are female and every length bin with unaged mass has
    aged mass, so no imputation is required, and the proportion tables add
    up to one; the apportioned biomass should add up to the kriged total
    10.  The male rows of the aged pivot are all zero, the engine enters
    its imputation block for them and [np.argmin] over the empty list of
    aged male length bins raises [ValueError]. *)
Theorem no_imputation_needed_still_raises :
  stratum_share females_only 1 == 1
  /\ (forall s l, (l < n_length females_only)%nat ->
                  fne_b (unaged_pivot females_only l s) (Fin 0) = true ->
                  fne_b (aged_length_totals females_only l s) (Fin 0)
                  = true)
  /\ apportion_kriged_values females_only = Raise ValueError.
Proof.
  split; [reflexivity|]. split; [|reflexivity].
  intros s l Hl. assert (l = 0%nat) by (simpl in Hl; lia). subst l.
  destruct s; vm_compute; auto.
Qed.

(** C2. Male length bin 0 has unaged mass and no aged mass, and male
    length bin 1 has aged mass to borrow an age shape from.  There are no
    females: the imputation for males is computed, then the same block
    runs for females, takes [np.argmin] over the empty list of aged female
    length bins and raises [ValueError].  The male entries are never
    returned. *)
Theorem imputation_depends_on_other_sex :
  fne_b (unaged_pivot males_only 0 male) (Fin 0) = true
  /\ feq_b (aged_length_totals males_only 0 male) (Fin 0) = true
  /\ fne_b (aged_length_totals males_only 1 male) (Fin 0) = true
  /\ imputed males_only male = Ok [1%nat]
  /\ apportion_kriged_values males_only = Raise ValueError.
Proof. repeat split. Qed.

(** *** Sums of rationals *)

Lemma Qsum_r_app (l1 l2 : list Q) :
  Qsum_r (l1 ++ l2) == Qsum_r l1 + Qsum_r l2.
Proof.
  induction l1 as [|x t IH]; simpl; [ring|]. rewrite IH. ring.
Qed.

Lemma Qsum_r_ext {A : Type} (f g : A -> Q) (l : list A) :
  (forall x, In x l -> f x == g x) ->
  Qsum_r (map f l) == Qsum_r (map g l).
Proof.
  induction l as [|x t IH]; intro H; simpl; [reflexivity|].
  rewrite IH by (intros y Hy; apply H; right; exact Hy).
  rewrite (H x (or_introl eq_refl)). reflexivity.
Qed.

Lemma Qsum_r_add {A : Type} (f g : A -> Q) (l : list A) :
  Qsum_r (map (fun x => f x + g x) l)
  == Qsum_r (map f l) + Qsum_r (map g l).
Proof.
  induction l as [|x t IH]; simpl; [ring|]. rewrite IH. ring.
Qed.

Lemma Qsum_r_scale {A : Type} (c : Q) (f : A -> Q) (l : list A) :
  Qsum_r (map (fun x => c * f x) l) == c * Qsum_r (map f l).
Proof.
  induction l as [|x t IH]; simpl; [ring|]. rewrite IH. ring.
Qed.

Lemma Qsum_r_zero {A : Type} (f : A -> Q) (l : list A) :
  (forall x, In x l -> f x == 0) -> Qsum_r (map f l) == 0.
Proof.
  induction l as [|x t IH]; intro H; simpl; [reflexivity|].
  rewrite IH by (intros y Hy; apply H; right; exact Hy).
  rewrite (H x (or_introl eq_refl)). ring.
Qed.

Lemma Qsum_r_flat_map {A B : Type} (g : A -> list B) (f : B -> Q)
  (l : list A) :
  Qsum_r (map f (flat_map g l))
  == Qsum_r (map (fun x => Qsum_r (map f (g x))) l).
Proof.
  induction l as [|x t IH]; simpl; [reflexivity|].
  rewrite map_app, Qsum_r_app, IH. reflexivity.
Qed.

(** Exchange of two finite sums. *)
Lemma Qsum_r_swap {A B : Type} (f : A -> B -> Q) (la : list A)
  (lb : list B) :
  Qsum_r (map (fun a => Qsum_r (map (fun b => f a b) lb)) la)
  == Qsum_r (map (fun b => Qsum_r (map (fun a => f a b) la)) lb).
Proof.
  induction la as [|a t IH]; simpl.
  - symmetry. apply Qsum_r_zero. intros; reflexivity.
  - rewrite IH. rewrite <- Qsum_r_add. reflexivity.
Qed.

(** Splitting the rows of a table by a boolean test. *)
Lemma Qsum_r_filter_split {A : Type} (p : A -> bool) (f : A -> Q)
  (l : list A) :
  Qsum_r (map f l)
  == Qsum_r (map f (filter p l))
     + Qsum_r (map f (filter (fun x => negb (p x)) l)).
Proof.
  induction l as [|x t IH]; simpl; [ring|].
  destruct (p x); simpl; rewrite IH; ring.
Qed.

Lemma filter_ext_in_eq {A : Type} (p q : A -> bool) (l : list A) :
  (forall x, In x l -> p x = q x) -> filter p l = filter q l.
Proof.
  induction l as [|x t IH]; intro H; simpl; [reflexivity|].
  rewrite (H x (or_introl eq_refl)).
  rewrite IH by (intros y Hy; apply H; right; exact Hy). reflexivity.
Qed.

(** The rows whose position is below [S n] are those below [n] and those
    at [n]. *)
Lemma Qsum_r_by_position {A : Type} (pos : A -> nat) (f : A -> Q)
  (l : list A) (n : nat) :
  Qsum_r (map (fun i => Qsum_r (map f (filter (fun r => Nat.eqb (pos r) i)
                                              l)))
              (seq 0 n))
  == Qsum_r (map f (filter (fun r => Nat.ltb (pos r) n) l)).
Proof.
  induction n as [|n IH].
  - simpl. rewrite (filter_ext_in_eq _ (fun _ => false)).
    + induction l; simpl; auto. reflexivity.
    + intros; reflexivity.
  - rewrite seq_S, map_app, Qsum_r_app, IH. simpl.
    clear IH. induction l as [|x t IHl]; simpl; [ring|].
    destruct (Nat.ltb_spec (pos x) n) as [H1|H1];
      destruct (Nat.eqb_spec (pos x) n) as [H2|H2];
      destruct (Nat.ltb_spec (pos x) (S n)) as [H3|H3];
      try lia; simpl; lra.
Qed.

Lemma filter_all {A : Type} (p : A -> bool) (l : list A) :
  (forall x, In x l -> p x = true) -> filter p l = l.
Proof.
  induction l as [|x t IH]; intro H; simpl; [reflexivity|].
  rewrite (H x (or_introl eq_refl)).
  rewrite IH by (intros y Hy; apply H; right; exact Hy). reflexivity.
Qed.

Lemma filter_filter {A : Type} (p q : A -> bool) (l : list A) :
  filter p (filter q l) = filter (fun x => q x && p x) l.
Proof.
  induction l as [|x t IH]; simpl; [reflexivity|].
  destruct (q x); simpl; [destruct (p x)|]; rewrite IH; reflexivity.
Qed.

(** The rows of the three sexes make up the table. *)
Lemma Qsum_r_by_sex {A : Type} (sx : A -> sex) (f : A -> Q) (l : list A) :
  Qsum_r (map (fun s => Qsum_r (map f (filter (fun r => sex_eqb (sx r) s)
                                              l)))
              sexes)
  == Qsum_r (map f l).
Proof.
  unfold sexes. simpl.
  induction l as [|x t IH]; simpl; [ring|].
  destruct (sx x); simpl; lra.
Qed.

(** *** Cells that are finite or missing *)

Lemma fold_fadd_fin (l : list float) :
  (forall x, In x l -> exists q, x = Fin q) ->
  forall a, exists q, fold_left fadd l (Fin a) = Fin q
                      /\ q == a + Qsum_r (map toQ l).
Proof.
  induction l as [|x t IH]; intros H a; simpl.
  - exists a. split; [reflexivity|ring].
  - destruct (H x (or_introl eq_refl)) as [qx ->]. simpl.
    destruct (IH (fun y Hy => H y (or_intror Hy)) (a + qx)) as [q [E Hq]].
    exists q. split; [exact E|]. rewrite Hq. ring.
Qed.

Lemma Qsum_r_toQ_filter (l : list float) :
  (forall x, In x l -> fin_or_nan x) ->
  Qsum_r (map toQ (filter (fun x => negb (isnan x)) l))
  == Qsum_r (map toQ l).
Proof.
  induction l as [|x t IH]; intro H; simpl; [reflexivity|].
  pose proof (IH (fun y Hy => H y (or_intror Hy))) as IH'.
  destruct (H x (or_introl eq_refl)) as [[q ->] | ->]; simpl.
  - rewrite IH'. reflexivity.
  - rewrite IH'. ring.
Qed.

(** The sum of finite or missing cells, missing cells skipped, is finite
    and is the sum of their finite values. *)
Lemma fnansum_view (l : list float) :
  (forall x, In x l -> fin_or_nan x) ->
  fnansum l = Fin (toQ (fnansum l))
  /\ toQ (fnansum l) == Qsum_r (map toQ l).
Proof.
  intro H. unfold fnansum, fsum.
  destruct (fold_fadd_fin (filter (fun x => negb (isnan x)) l)) with (a := 0)
    as [q [E Hq]].
  - intros x Hx. apply filter_In in Hx. destruct Hx as [Hin Hn].
    destruct (H x Hin) as [Hf | ->]; [exact Hf|discriminate].
  - rewrite E. simpl. split; [reflexivity|].
    rewrite Hq, Qsum_r_toQ_filter by exact H. ring.
Qed.

Lemma Fin_fin_or_nan (q : Q) : fin_or_nan (Fin q).
Proof. left. eauto. Qed.

Lemma fnansum_fin_or_nan (l : list float) :
  (forall x, In x l -> fin_or_nan x) -> fin_or_nan (fnansum l).
Proof. intro H. left. exists (toQ (fnansum l)). apply fnansum_view, H. Qed.

Lemma fne_b_Fin_0 (q : Q) : fne_b (Fin q) (Fin 0) = true <-> ~ q == 0.
Proof.
  unfold fne_b. simpl. rewrite negb_true_iff.
  split.
  - intros H Hq. apply Qeq_bool_iff in Hq. congruence.
  - intro H. destruct (Qeq_bool q 0) eqn:E; [|reflexivity].
    apply Qeq_bool_iff in E. contradiction.
Qed.



Lemma nth_error_seq0 (n l v : nat) :
  nth_error (seq 0 n) l = Some v <-> v = l /\ (l < n)%nat.
Proof.
  split.
  - intro H.
    assert (Hl : (l < n)%nat).
    { assert (Hs : nth_error (seq 0 n) l <> None) by congruence.
      apply nth_error_Some in Hs. rewrite length_seq in Hs. exact Hs. }
    split; [|exact Hl].
    apply nth_error_nth with (d := 0%nat) in H.
    rewrite seq_nth in H by exact Hl. simpl in H. congruence.
  - intros [-> Hl].
    rewrite (nth_error_nth' (seq 0 n) 0%nat) by (rewrite length_seq; exact Hl).
    rewrite seq_nth by exact Hl. reflexivity.
Qed.



(** *** Groups of specimens *)

Lemma feq_b_sym (x y : float) : feq_b x y = feq_b y x.
Proof.
  destruct x, y; simpl; try reflexivity.
  destruct (Qeq_bool q q0) eqn:E1, (Qeq_bool q0 q) eqn:E2; try reflexivity.
  - apply Qeq_bool_iff in E1. symmetry in E1. apply Qeq_bool_iff in E1.
    congruence.
  - apply Qeq_bool_iff in E2. symmetry in E2. apply Qeq_bool_iff in E2.
    congruence.
Qed.

Lemma feq_b_trans (x y z : float) :
  feq_b x y = true -> feq_b y z = true -> feq_b x z = true.
Proof.
  destruct x, y, z; simpl; try discriminate; auto.
  intros H1 H2. apply Qeq_bool_iff in H1. apply Qeq_bool_iff in H2.
  apply Qeq_bool_iff. rewrite H1. exact H2.
Qed.

Lemma feq_b_refl (x : float) : isnan x = false -> feq_b x x = true.
Proof.
  destruct x; simpl; try reflexivity; try discriminate.
  intros _. apply Qeq_bool_iff. reflexivity.
Qed.

Lemma key4_eqb_sym (a b : key4) : key4_eqb a b = key4_eqb b a.
Proof.
  destruct a as [[[h s] g] x], b as [[[h' s'] g'] x']. simpl.
  rewrite (Z.eqb_sym h h'), (Z.eqb_sym s s'), (Z.eqb_sym g g'),
    (feq_b_sym x x').
  reflexivity.
Qed.

Lemma key4_eqb_trans (a b c : key4) :
  key4_eqb a b = true -> key4_eqb b c = true -> key4_eqb a c = true.
Proof.
  destruct a as [[[h s] g] x], b as [[[h' s'] g'] x'],
    c as [[[h'' s''] g''] x'']. simpl.
  rewrite !andb_true_iff, !Z.eqb_eq.
  intros [[[-> ->] ->] H1] [[[-> ->] ->] H2].
  repeat split; auto. eapply feq_b_trans; eauto.
Qed.

Lemma key4_eqb_refl (a : key4) :
  isnan (snd a) = false -> key4_eqb a a = true.
Proof.
  destruct a as [[[h s] g] x]. simpl. intro H.
  rewrite !Z.eqb_refl, (feq_b_refl x H). reflexivity.
Qed.

Lemma unique_keys_In (ks : list key4) (u : key4) :
  In u (unique_keys ks) -> In u ks.
Proof.
  induction ks as [|a t IH]; simpl; [tauto|].
  intros [<- | H]; [auto|].
  apply filter_In in H. right. apply IH. tauto.
Qed.

Lemma Qsum_r_ind_filter {A : Type} (p q : A -> bool) (l : list A) :
  Qsum_r (map (fun u => ind (p u)) (filter q l))
  == Qsum_r (map (fun u => ind (p u && q u)) l).
Proof.
  induction l as [|x t IH]; simpl; [reflexivity|].
  destruct (q x); simpl; rewrite IH.
  - rewrite andb_true_r. reflexivity.
  - rewrite andb_false_r. unfold ind at 2. ring.
Qed.

(** Every key of the list has exactly one representative among the
    distinct keys. *)
Lemma unique_keys_count (ks : list key4) :
  (forall k, In k ks -> isnan (snd k) = false) ->
  forall k, In k ks ->
            Qsum_r (map (fun u => ind (key4_eqb k u)) (unique_keys ks)) == 1.
Proof.
  induction ks as [|a t IH]; intros Hnan k Hk; [destruct Hk|].
  cbn [unique_keys map Qsum_r fold_right].
  change (fold_right Qplus 0 ?l) with (Qsum_r l).
  rewrite Qsum_r_ind_filter.
  destruct (key4_eqb k a) eqn:Eka.
  - rewrite (Qsum_r_zero _ (unique_keys t)).
    + unfold ind. ring.
    + intros u _. destruct (key4_eqb k u) eqn:Eku; simpl; [|reflexivity].
      assert (Eua : key4_eqb u a = true).
      { apply (key4_eqb_trans u k a); [|exact Eka].
        rewrite key4_eqb_sym. exact Eku. }
      rewrite Eua. reflexivity.
  - assert (Hkt : In k t).
    { destruct Hk as [<- | H]; [|exact H].
      rewrite key4_eqb_refl in Eka; [discriminate|].
      apply Hnan. left. reflexivity. }
    rewrite (Qsum_r_ext _ (fun u => ind (key4_eqb k u))).
    + rewrite (IH (fun k' Hk' => Hnan k' (or_intror Hk')) k Hkt).
      unfold ind. ring.
    + intros u _. destruct (key4_eqb k u) eqn:Eku; simpl; [|reflexivity].
      destruct (key4_eqb u a) eqn:Eua; simpl; [|reflexivity].
      rewrite (key4_eqb_trans k u a Eku Eua) in Eka. discriminate.
Qed.

Lemma Qnat_length_filter {A : Type} (p : A -> bool) (l : list A) :
  Qnat (length (filter p l)) == Qsum_r (map (fun x => ind (p x)) l).
Proof.
  induction l as [|x t IH]; simpl; [reflexivity|].
  destruct (p x); simpl.
  - rewrite Qnat_S, IH. ring.
  - rewrite IH. ring.
Qed.

Lemma Qsum_r_filter_ind {A : Type} (p : A -> bool) (f : A -> Q)
  (l : list A) :
  Qsum_r (map f (filter p l)) == Qsum_r (map (fun x => ind (p x) * f x) l).
Proof.
  induction l as [|x t IH]; simpl; [reflexivity|].
  destruct (p x); simpl; rewrite IH; ring.
Qed.

(** Grouping equal keys and weighting each group by its size leaves a sum
    unchanged. *)
Lemma grouped_sum (F : key4 -> Q) (ks : list key4) :
  (forall k, In k ks -> isnan (snd k) = false) ->
  (forall a b, key4_eqb a b = true -> F a == F b) ->
  Qsum_r (map (fun u => F u * Qnat (length (filter (fun k => key4_eqb k u)
                                                   ks)))
              (unique_keys ks))
  == Qsum_r (map F ks).
Proof.
  intros Hnan Hcompat.
  rewrite (Qsum_r_ext _
             (fun u => Qsum_r (map (fun k => ind (key4_eqb k u) * F k) ks))).
  - rewrite (Qsum_r_swap (fun u k => ind (key4_eqb k u) * F k)).
    apply Qsum_r_ext. intros k Hk.
    rewrite (Qsum_r_ext _ (fun u => F k * ind (key4_eqb k u)))
      by (intros; ring).
    rewrite Qsum_r_scale, (unique_keys_count ks Hnan k Hk). ring.
  - intros u _. rewrite Qnat_length_filter.
    rewrite <- Qsum_r_scale. apply Qsum_r_ext. intros k _.
    destruct (key4_eqb k u) eqn:E; unfold ind; [|ring].
    rewrite (Hcompat k u E). ring.
Qed.

Lemma fsum_view (l : list float) :
  (forall x, In x l -> exists q, x = Fin q) ->
  fsum l = Fin (toQ (fsum l)) /\ toQ (fsum l) == Qsum_r (map toQ l).
Proof.
  intro H. unfold fsum.
  destruct (fold_fadd_fin l H 0) as [q [E Hq]].
  rewrite E. simpl. split; [reflexivity|]. rewrite Hq. ring.
Qed.

Lemma filter_map_swap {A B : Type} (f : A -> B) (p : B -> bool)
  (l : list A) :
  filter p (map f l) = map f (filter (fun x => p (f x)) l).
Proof.
  induction l as [|x t IH]; simpl; [reflexivity|].
  destruct (p (f x)); simpl; rewrite IH; reflexivity.
Qed.

Lemma map_combine_maps {A B C D : Type} (f : A -> B) (g : A -> C)
  (h : B * C -> D) (l : list A) :
  map h (combine (map f l) (map g l)) = map (fun x => h (f x, g x)) l.
Proof.
  induction l as [|x t IH]; simpl; [reflexivity|]. rewrite IH. reflexivity.
Qed.

Lemma Qsum_r_repeat (a : Q) (c : nat) :
  Qsum_r (map toQ (repeat (Fin a) c)) == a * Qnat c.
Proof.
  induction c as [|c IH]; simpl.
  - change (Qnat 0) with 0. ring.
  - rewrite IH, Qnat_S. ring.
Qed.

Lemma Qnat_length_flat_map {A B : Type} (g : A -> list B) (l : list A) :
  Qnat (length (flat_map g l))
  == Qsum_r (map (fun x => Qnat (length (g x))) l).
Proof.
  induction l as [|x t IH]; simpl; [reflexivity|].
  rewrite length_app, Qnat_add, IH. reflexivity.
Qed.

Lemma Qsum_r_ones {A : Type} (l : list A) :
  Qsum_r (map (fun _ => 1) l) == Qnat (length l).
Proof.
  induction l as [|x t IH]; simpl; [reflexivity|].
  rewrite IH, Qnat_S. ring.
Qed.

Lemma Qnat_nonzero (n : nat) : (1 <= n)%nat -> ~ Qnat n == 0.
Proof.
  intros Hn H. destruct n as [|n]; [lia|].
  pose proof (Qnat_pos n) as Hp. rewrite H in Hp.
  apply (Qlt_irrefl 0). exact Hp.
Qed.

Lemma toQ_feq_b (x y : float) : feq_b x y = true -> toQ x == toQ y.
Proof.
  destruct x, y; simpl; try discriminate; try reflexivity.
  apply Qeq_bool_iff.
Qed.

Section SurveyProofs.

Variable sigma : Q -> Q.
Hypothesis sigma_compat : forall a b, a == b -> sigma a == sigma b.

Variable specimen_df : list specimen_row.
Variable length_df : list length_row.
Variables species_id h g : Z.

Notation "'k'" := (h, species_id, g) (at level 0).
Notation "'rows'" :=
  (filter (fun r => negb (isnan (sp_length r))) specimen_df) (at level 0).

Hypothesis Hspec :
  forall r, In r specimen_df -> key3_eqb (spec_key3 r) k = true ->
            fin_or_nan (sp_length r).
Hypothesis Hlen :
  forall r, In r length_df -> key3_eqb (len_key3 r) k = true ->
            (exists q, ln_length r = Fin q) /\ is_count (ln_length_count r).

Lemma key3_of_spec_key (r : specimen_row) : key3_of (spec_key r) = spec_key3 r.
Proof. reflexivity. Qed.

Lemma key4_eqb_key3 (a b : key4) :
  key4_eqb a b = true -> key3_eqb (key3_of a) k = key3_eqb (key3_of b) k.
Proof.
  destruct a as [[[h1 s1] g1] x1], b as [[[h2 s2] g2] x2]. simpl.
  rewrite !andb_true_iff, !Z.eqb_eq. intros [[[-> ->] ->] _]. reflexivity.
Qed.

Lemma rows_key_notnan (u : key4) :
  In u (map spec_key rows) -> isnan (snd u) = false.
Proof.
  intro H. apply in_map_iff in H. destruct H as [r [<- Hr]].
  apply filter_In in Hr. destruct Hr as [_ Hn]. simpl.
  apply negb_true_iff. exact Hn.
Qed.

Lemma rows_key_fin (u : key4) :
  In u (map spec_key rows) -> key3_eqb (key3_of u) k = true ->
  exists q, snd u = Fin q.
Proof.
  intros H Hk. apply in_map_iff in H. destruct H as [r [<- Hr]].
  apply filter_In in Hr. destruct Hr as [Hin Hn]. simpl in *.
  destruct (Hspec r Hin Hk) as [Hf | E]; [exact Hf|].
  rewrite E in Hn. discriminate.
Qed.

(** The rows of the group in [all_length_df]: the specimen groups of the
    haul, then its station-1 rows. *)
Lemma group_rows :
  filter (fun r => key3_eqb (al_key r) k)
         (all_length_df (spec_groups specimen_df) length_df species_id)
  = map (fun u : key4 =>
           {| al_haul_num := fst (fst (fst u));
              al_species_id := snd (fst (fst u));
              al_region := snd (fst u);
              al_length := snd u;
              al_length_count :=
                Fin (Qnat (length (filter (fun r => key4_eqb (spec_key r) u)
                                          rows))) |})
        (filter (fun u => key3_eqb (key3_of u) k)
                (unique_keys (map spec_key rows)))
    ++ map of_length_row
           (filter (fun r => key3_eqb (len_key3 r) k) length_df).
Proof.
  unfold all_length_df. rewrite filter_filter.
  rewrite (filter_ext_in_eq _ (fun r => key3_eqb (al_key r) k)).
  - rewrite filter_app. f_equal.
    + unfold spec_groups. rewrite filter_map_swap.
      rewrite (filter_ext_in_eq _ (fun u => key3_eqb (key3_of u) k)).
      * apply map_ext. intros [[[h' s'] g'] x]. reflexivity.
      * intros [[[h' s'] g'] x] _. reflexivity.
    + rewrite filter_map_swap. reflexivity.
  - intros r _. unfold al_key. simpl.
    destruct (Z.eqb_spec (al_species_id r) species_id) as [E|E];
      simpl; [reflexivity|].
    destruct (Z.eqb (al_haul_num r) h); simpl; [|reflexivity].
    destruct (Z.eqb_spec (al_species_id r) species_id); [contradiction|].
    reflexivity.
Qed.

(** The specimens of the haul that have a length. *)
Notation "'specs'" :=
  (filter (fun r => key3_eqb (spec_key3 r) k) rows) (at level 0).
Notation "'lens'" :=
  (filter (fun r => key3_eqb (len_key3 r) k) length_df) (at level 0).

Lemma specimen_groups_sum (f : float -> Q) :
  (forall x y, feq_b x y = true -> f x == f y) ->
  Qsum_r (map (fun u : key4 =>
                 f (snd u)
                 * Qnat (length (filter (fun r => key4_eqb (spec_key r) u)
                                        rows)))
              (filter (fun u => key3_eqb (key3_of u) k)
                      (unique_keys (map spec_key rows))))
  == Qsum_r (map (fun r => f (sp_length r)) specs).
Proof.
  intro Hf.
  rewrite Qsum_r_filter_ind.
  rewrite (Qsum_r_ext _
             (fun u => (ind (key3_eqb (key3_of u) k) * f (snd u))
                       * Qnat (length (filter (fun k' => key4_eqb k' u)
                                              (map spec_key rows))))).
  - rewrite (grouped_sum (fun u => ind (key3_eqb (key3_of u) k) * f (snd u))).
    + rewrite map_map. symmetry.
      rewrite (Qsum_r_filter_ind (fun r => key3_eqb (spec_key3 r) k)
                 (fun r => f (sp_length r)) rows).
      apply Qsum_r_ext. intros r _. reflexivity.
    + intros u Hu. apply rows_key_notnan. exact Hu.
    + intros a b Hab. rewrite (key4_eqb_key3 a b Hab).
      assert (Hx : feq_b (snd a) (snd b) = true).
      { destruct a as [[[h1 s1] g1] x1], b as [[[h2 s2] g2] x2].
        simpl in *. apply andb_true_iff in Hab. tauto. }
      rewrite (Hf _ _ Hx). reflexivity.
  - intros u _. rewrite filter_map_swap, length_map. ring.
Qed.

Lemma lens_fish_sum :
  Qsum_r (map (fun r => sigma (toQ (ln_length r)) * toQ (ln_length_count r))
              lens)
  == Qsum_r (map toQ
               (flat_map (fun r => repeat (sigma_bs_of sigma (ln_length r))
                                          (fish_count (ln_length_count r)))
                         lens)).
Proof.
  rewrite Qsum_r_flat_map. apply Qsum_r_ext. intros r Hr.
  apply filter_In in Hr. destruct Hr as [Hin Hk].
  destruct (Hlen r Hin Hk) as [[q Eq] [c Ec]].
  rewrite Eq, Ec, fish_count_Qnat. simpl. rewrite Qsum_r_repeat.
  reflexivity.
Qed.

Lemma lens_fish_count :
  Qsum_r (map (fun r => toQ (ln_length_count r)) lens)
  == Qnat (length
             (flat_map (fun r => repeat (sigma_bs_of sigma (ln_length r))
                                        (fish_count (ln_length_count r)))
                       lens)).
Proof.
  rewrite Qnat_length_flat_map. apply Qsum_r_ext. intros r Hr.
  apply filter_In in Hr. destruct Hr as [Hin Hk].
  destruct (Hlen r Hin Hk) as [_ [c Ec]].
  rewrite Ec, fish_count_Qnat, repeat_length. reflexivity.
Qed.

(** In [strata_mean_sigma_bs] the mean of a haul is the sample mean over
    the fish of both stations. *)
Lemma survey_haul_mean_is_sample_mean :
  let fish := survey_fish_sigma_bs sigma specimen_df length_df k in
  (1 <= length fish)%nat ->
  exists v,
    haul_mean sigma
      (all_length_df (spec_groups specimen_df) length_df species_id) k = Ok v
    /\ feq v (sample_mean fish).
Proof.
  intros fish Hfish. unfold haul_mean. rewrite group_rows.
  set (grp := filter (fun u => key3_eqb (key3_of u) k)
                     (unique_keys (map spec_key rows))).
  set (mk := fun u : key4 => _).
  (* the rows of the group are finite *)
  assert (Hgrp : forall u, In u grp -> exists q, snd u = Fin q).
  { intros u Hu. unfold grp in Hu. apply filter_In in Hu.
    destruct Hu as [Hu Hk]. apply rows_key_fin; [|exact Hk].
    apply unique_keys_In. exact Hu. }
  assert (Hw : forall x, In x (map al_length_count
                                   (map mk grp ++ map of_length_row lens)) ->
                         exists q, x = Fin q).
  { intros x Hx. apply in_map_iff in Hx. destruct Hx as [r [<- Hr]].
    apply in_app_iff in Hr. destruct Hr as [Hr | Hr];
      apply in_map_iff in Hr; destruct Hr as [u [<- Hu]].
    - simpl. eauto.
    - apply filter_In in Hu. destruct Hu as [Hin Hk].
      destruct (Hlen u Hin Hk) as [_ [c Ec]]. simpl. rewrite Ec. eauto. }
  assert (Hn : forall x,
             In x (map (fun p => fmul (fst p) (snd p))
                       (combine
                          (map (fun r => sigma_bs_of sigma (al_length r))
                               (map mk grp ++ map of_length_row lens))
                          (map al_length_count
                               (map mk grp ++ map of_length_row lens)))) ->
             exists q, x = Fin q).
  { intros x Hx. rewrite map_combine_maps in Hx.
    apply in_map_iff in Hx. destruct Hx as [r [<- Hr]].
    apply in_app_iff in Hr. destruct Hr as [Hr | Hr];
      apply in_map_iff in Hr; destruct Hr as [u [<- Hu]].
    - destruct (Hgrp u Hu) as [q Eq]. simpl. rewrite Eq. simpl. eauto.
    - apply filter_In in Hu. destruct Hu as [Hin Hk].
      destruct (Hlen u Hin Hk) as [[q Eq] [c Ec]]. simpl.
      rewrite Eq, Ec. simpl. eauto. }
  destruct (fsum_view _ Hw) as [Ew Hwq].
  destruct (fsum_view _ Hn) as [En Hnq].
  (* the fish are finite *)
  assert (Hfin : forall x, In x fish -> fin_or_nan x).
  { intros x Hx. unfold fish, survey_fish_sigma_bs in Hx.
    apply in_app_iff in Hx. destruct Hx as [Hx | Hx].
    - apply in_map_iff in Hx. destruct Hx as [r [<- Hr]].
      apply filter_In in Hr. destruct Hr as [Hr Hk].
      apply filter_In in Hr. destruct Hr as [Hin Hnan].
      destruct (Hspec r Hin Hk) as [[q Eq] | E].
      + rewrite Eq. apply Fin_fin_or_nan.
      + rewrite E in Hnan. discriminate.
    - apply in_flat_map in Hx. destruct Hx as [r [Hr Hx]].
      apply repeat_spec in Hx. subst x.
      apply filter_In in Hr. destruct Hr as [Hin Hk].
      destruct (Hlen r Hin Hk) as [[q Eq] _]. rewrite Eq.
      apply Fin_fin_or_nan. }
  destruct (fnansum_view fish Hfin) as [Ef Hfq].
  (* weights and weighted values against the fish *)
  assert (HW : toQ (fsum (map al_length_count
                              (map mk grp ++ map of_length_row lens)))
               == Qnat (length fish)).
  { rewrite Hwq. unfold fish, survey_fish_sigma_bs.
    rewrite length_app, Qnat_add, length_map, <- lens_fish_count.
    rewrite !map_app, Qsum_r_app, !map_map.
    apply Qplus_comp.
    - rewrite <- (Qsum_r_ones specs).
      rewrite <- (specimen_groups_sum (fun _ => 1)) by reflexivity.
      apply Qsum_r_ext. intros u _. unfold mk. simpl. ring.
    - apply Qsum_r_ext. intros r _. reflexivity. }
  assert (HN : toQ (fsum (map (fun p => fmul (fst p) (snd p))
                              (combine
                                 (map (fun r => sigma_bs_of sigma
                                                  (al_length r))
                                      (map mk grp ++ map of_length_row lens))
                                 (map al_length_count
                                      (map mk grp
                                       ++ map of_length_row lens)))))
               == toQ (fnansum fish)).
  { rewrite Hnq, Hfq. unfold fish, survey_fish_sigma_bs.
    rewrite map_combine_maps, !map_app, !Qsum_r_app, !map_map.
    apply Qplus_comp.
    - rewrite (Qsum_r_ext _ (fun r => sigma (toQ (sp_length r))) specs).
      + rewrite <- (specimen_groups_sum (fun x => sigma (toQ x))).
        * apply Qsum_r_ext. intros u Hu. destruct (Hgrp u Hu) as [q Eq].
          unfold mk. simpl. rewrite Eq. simpl. reflexivity.
        * intros x y Hxy. apply sigma_compat. apply toQ_feq_b. exact Hxy.
      + intros r Hr. apply filter_In in Hr. destruct Hr as [Hr Hk].
        apply filter_In in Hr. destruct Hr as [Hin Hnan].
        destruct (Hspec r Hin Hk) as [[q Eq] | E].
        * rewrite Eq. reflexivity.
        * rewrite E in Hnan. discriminate.
    - rewrite <- lens_fish_sum. apply Qsum_r_ext. intros r Hr.
      apply filter_In in Hr. destruct Hr as [Hin Hk].
      destruct (Hlen r Hin Hk) as [[q Eq] [c Ec]]. simpl.
      rewrite Eq, Ec. simpl. reflexivity. }
  pose proof (Qnat_nonzero (length fish) Hfish) as Hnz.
  unfold np_average. rewrite Ew, En.
  assert (Ez : feq_b (Fin (toQ (fsum (map al_length_count
                                          (map mk grp
                                           ++ map of_length_row lens)))))
                     (Fin 0) = false).
  { simpl. destruct (Qeq_bool _ 0) eqn:E; [|reflexivity].
    apply Qeq_bool_iff in E. rewrite HW in E. contradiction. }
  rewrite Ez. eexists. split; [reflexivity|].
  unfold sample_mean. rewrite Ef.
  apply fdiv_Proper; simpl; assumption.
Qed.

End SurveyProofs.


Section ApportionProofs.

Variable inp : apportion_input.

Notation "'kQ'" := (kriged_value inp) (at level 0).
Notation "'agedQ'" := (aged_value inp) (at level 0).
Notation "'totQ'" := (aged_total_value inp) (at level 0).
Notation "'unQ'" := (unaged_value inp) (at level 0).

Lemma kriged_strata_fin (p : Z * float) :
  In p (kriged_strata inp) -> snd p = Fin (toQ (snd p)).
Proof.
  unfold kriged_strata. intro H. apply in_map_iff in H.
  destruct H as [st [<- _]]. simpl. apply fnansum_view.
  intros x Hx. apply in_map_iff in Hx. destruct Hx as [r [<- _]].
  apply Fin_fin_or_nan.
Qed.

Lemma kriged_at_cases (st : Z) :
  kriged_at inp st = Fin (kQ st) \/ kriged_at inp st = NaN.
Proof.
  unfold kriged_value, kriged_at.
  destruct (find (fun p => Z.eqb (fst p) st) (kriged_strata inp)) as [p|]
    eqn:E; [|right; reflexivity].
  left. apply find_some in E. destruct E as [Hin _].
  apply kriged_strata_fin. exact Hin.
Qed.

Lemma apportioned_aged_view (r : aged_row) :
  apportioned_aged inp r = Fin (toQ (apportioned_aged inp r))
  /\ toQ (apportioned_aged inp r)
     == weight_proportion_overall r * kQ (a_stratum r).
Proof.
  unfold apportioned_aged.
  destruct (kriged_at_cases (a_stratum r)) as [E | E].
  - rewrite E. simpl. split; reflexivity.
  - unfold kriged_value. rewrite E. simpl. split; [reflexivity|ring].
Qed.

Lemma apportioned_unaged_view (r : merged_row) :
  fin_or_nan (apportioned_unaged inp r)
  /\ toQ (apportioned_unaged inp r)
     == mr_weight_proportion r * mr_weight_proportion_overall_unaged r
        * kQ (mr_stratum r).
Proof.
  unfold apportioned_unaged.
  destruct (kriged_at_cases (mr_stratum r)) as [E | E].
  - rewrite E. simpl. split; [apply Fin_fin_or_nan|reflexivity].
  - unfold kriged_value. rewrite E. simpl. split; [right; reflexivity|ring].
Qed.

Lemma aged_pivot_view (s : sex) (l a : nat) :
  aged_pivot inp s l a = Fin (agedQ s l a)
  /\ agedQ s l a
     == Qsum_r (map (fun r => weight_proportion_overall r * kQ (a_stratum r))
                    (filter (fun r => sex_eqb (a_sex r) s
                                      && Nat.eqb (a_length_bin r) l
                                      && Nat.eqb (a_age_bin r) a)
                            (aged_proportions inp))).
Proof.
  unfold aged_value, aged_pivot.
  match goal with |- fnansum ?l = _ /\ _ =>
    destruct (fnansum_view l) as [E Hq] end.
  - intros x Hx. apply in_map_iff in Hx. destruct Hx as [r [<- _]].
    left. eexists. apply apportioned_aged_view.
  - split; [exact E|]. rewrite Hq, map_map.
    apply Qsum_r_ext. intros r _. apply apportioned_aged_view.
Qed.

Lemma aged_length_totals_view (l : nat) (s : sex) :
  aged_length_totals inp l s = Fin (totQ l s)
  /\ totQ l s == Qsum_r (map (agedQ s l) (seq 0 (n_age inp))).
Proof.
  unfold aged_total_value, aged_length_totals.
  match goal with |- fnansum ?l = _ /\ _ =>
    destruct (fnansum_view l) as [E Hq] end.
  - intros x Hx. apply in_map_iff in Hx. destruct Hx as [a [<- _]].
    left. eexists. apply aged_pivot_view.
  - split; [exact E|]. rewrite Hq, map_map. reflexivity.
Qed.

Lemma unaged_pivot_view (l : nat) (s : sex) :
  unaged_pivot inp l s = Fin (unQ l s)
  /\ unQ l s
     == Qsum_r (map (fun r => mr_weight_proportion r
                              * mr_weight_proportion_overall_unaged r
                              * kQ (mr_stratum r))
                    (filter (fun r => sex_eqb (mr_sex r) s
                                      && Nat.eqb (mr_length_bin r) l)
                            (unaged_sexed_apportioned inp))).
Proof.
  unfold unaged_value, unaged_pivot.
  match goal with |- fnansum ?l = _ /\ _ =>
    destruct (fnansum_view l) as [E Hq] end.
  - intros x Hx. apply in_map_iff in Hx. destruct Hx as [r [<- _]].
    apply apportioned_unaged_view.
  - split; [exact E|]. rewrite Hq, map_map.
    apply Qsum_r_ext. intros r _. apply apportioned_unaged_view.
Qed.


Lemma unaged_apportioned_values_view (l a : nat) (s : sex) :
  unaged_apportioned_values inp l a s
  = if Qeq_bool (totQ l s) 0
    then fillna (Fin 0) (inf_of_sign (Qsgn (unQ l s * agedQ s l a)))
    else Fin (unQ l s * agedQ s l a / totQ l s).
Proof.
  unfold unaged_apportioned_values.
  rewrite (proj1 (unaged_pivot_view l s)), (proj1 (aged_pivot_view s l a)),
    (proj1 (aged_length_totals_view l s)).
  simpl. destruct (Qeq_bool (totQ l s) 0); reflexivity.
Qed.

(** Where a length bin with unaged mass has aged mass, the unaged mass is
    spread over the age bins without loss. *)
Lemma unaged_spread_sum (l : nat) (s : sex) :
  (~ unQ l s == 0 -> ~ totQ l s == 0) ->
  (forall a, unaged_apportioned_values inp l a s
             = Fin (toQ (unaged_apportioned_values inp l a s)))
  /\ Qsum_r (map (fun a => toQ (unaged_apportioned_values inp l a s))
                 (seq 0 (n_age inp)))
     == unQ l s.
Proof.
  intro Hni.
  destruct (Qeq_dec (totQ l s) 0) as [Ht | Ht].
  - assert (Hu : unQ l s == 0).
    { destruct (Qeq_dec (unQ l s) 0) as [H | H]; [exact H|].
      exfalso. exact (Hni H Ht). }
    assert (Hcell : forall a, unaged_apportioned_values inp l a s = Fin 0).
    { intro a. rewrite unaged_apportioned_values_view.
      assert (E : Qeq_bool (totQ l s) 0 = true) by (apply Qeq_bool_iff; auto).
      rewrite E. unfold Qsgn.
      assert (C : (unQ l s * agedQ s l a ?= 0) = Eq).
      { apply Qeq_alt. rewrite Hu. ring. }
      rewrite C. reflexivity. }
    split.
    + intro a. rewrite Hcell. reflexivity.
    + rewrite Hu. apply Qsum_r_zero. intros a _. rewrite Hcell. reflexivity.
  - assert (E : Qeq_bool (totQ l s) 0 = false).
    { destruct (Qeq_bool (totQ l s) 0) eqn:E; [|reflexivity].
      apply Qeq_bool_iff in E. contradiction. }
    assert (Hcell : forall a, unaged_apportioned_values inp l a s
                              = Fin (unQ l s * agedQ s l a / totQ l s)).
    { intro a. rewrite unaged_apportioned_values_view, E. reflexivity. }
    split.
    + intro a. rewrite Hcell. reflexivity.
    + rewrite (Qsum_r_ext _ (fun a => (unQ l s / totQ l s) * agedQ s l a)).
      * rewrite Qsum_r_scale.
        rewrite <- (proj2 (aged_length_totals_view l s)).
        field. exact Ht.
      * intros a _. rewrite Hcell. simpl. field. exact Ht.
Qed.

Lemma mask_select_map (f : nat -> bool) (l : list nat) :
  mask_select l (map f l) = filter f l.
Proof.
  induction l as [|x t IH]; simpl; [reflexivity|].
  destruct (f x); rewrite IH; reflexivity.
Qed.

Lemma nonzero_unaged_idx_filter (s : sex) :
  nonzero_unaged_idx inp s
  = filter (fun l => fne_b (unaged_pivot inp l s) (Fin 0)) (zero_aged inp s).
Proof. unfold nonzero_unaged_idx, nonzero_unaged. apply mask_select_map. Qed.

Lemma zero_aged_In (s : sex) (l : nat) :
  In l (zero_aged inp s)
  <-> (l < n_length inp)%nat
      /\ feq_b (aged_length_totals inp l s) (Fin 0) = true.
Proof.
  unfold zero_aged. rewrite argwhere_map_spec. split.
  - intros [v [Hv H]]. apply nth_error_seq0 in Hv. destruct Hv as [-> Hl].
    auto.
  - intros [Hl H]. exists l. split; [|exact H].
    apply nth_error_seq0. auto.
Qed.

Lemma nonzero_aged_In (s : sex) (l : nat) :
  In l (nonzero_aged inp s)
  <-> (l < n_length inp)%nat
      /\ fne_b (aged_length_totals inp l s) (Fin 0) = true.
Proof.
  unfold nonzero_aged. rewrite argwhere_map_spec. split.
  - intros [v [Hv H]]. apply nth_error_seq0 in Hv. destruct Hv as [-> Hl].
    auto.
  - intros [Hl H]. exists l. split; [|exact H].
    apply nth_error_seq0. auto.
Qed.

Lemma nonzero_unaged_idx_In (s : sex) (l : nat) :
  In l (nonzero_unaged_idx inp s)
  <-> (l < n_length inp)%nat
      /\ feq_b (aged_length_totals inp l s) (Fin 0) = true
      /\ fne_b (unaged_pivot inp l s) (Fin 0) = true.
Proof.
  rewrite nonzero_unaged_idx_filter, filter_In, zero_aged_In. tauto.
Qed.

Lemma has_aged_mass_donors (s : sex) :
  has_aged_mass inp s -> nonzero_aged inp s <> [].
Proof.
  intros [l [Hl H]] E.
  assert (Hin : In l (nonzero_aged inp s)) by (apply nonzero_aged_In; auto).
  rewrite E in Hin. destruct Hin.
Qed.

Lemma imputed_ok (s : sex) :
  nonzero_aged inp s <> [] ->
  imputed inp s = Ok (map (donor_of inp s) (nonzero_unaged_idx inp s)).
Proof.
  intro H. unfold imputed, argmin_axis1.
  destruct (nonzero_aged inp s) as [|d ds] eqn:E; [contradiction|].
  cbn [length Nat.eqb bind]. fold (nonzero_unaged_idx inp s).
  rewrite !map_map. unfold donor_of. rewrite E. reflexivity.
Qed.

Lemma assoc_nat_combine_map (g : nat -> nat) (idx : list nat) (l : nat) :
  assoc_nat (combine idx (map g idx)) l
  = if existsb (Nat.eqb l) idx then Some (g l) else None.
Proof.
  induction idx as [|x t IH]; simpl; [reflexivity|].
  destruct (Nat.eqb_spec l x) as [->|Hne]; simpl; [reflexivity|exact IH].
Qed.

(** One sex after the other, the imputation block replaces exactly the
    cells of the male and female length bins that need it. *)
Lemma impute_sex_ok (tbl : table3) (s : sex) :
  nonzero_aged inp s <> [] ->
  exists t, impute_sex inp tbl s = Ok t
            /\ forall l a s',
                 t l a s'
                 = if sex_eqb s' s
                      && existsb (Nat.eqb l) (nonzero_unaged_idx inp s)
                   then borrowed_shape inp s l (donor_of inp s l) a
                   else tbl l a s'.
Proof.
  intro H. unfold impute_sex.
  destruct (Nat.ltb 0 (length (nonzero_unaged inp s))) eqn:E.
  - rewrite (imputed_ok s H). cbn [bind]. eexists. split; [reflexivity|].
    intros l a s'. unfold update_values.
    rewrite assoc_nat_combine_map.
    destruct (sex_eqb s' s); simpl; [|reflexivity].
    destruct (existsb (Nat.eqb l) (nonzero_unaged_idx inp s)); reflexivity.
  - exists tbl. split; [reflexivity|].
    intros l a s'.
    assert (Hnil : nonzero_unaged_idx inp s = []).
    { unfold nonzero_unaged_idx.
      apply Nat.ltb_ge in E.
      destruct (nonzero_unaged inp s) as [|b m]; [|simpl in E; lia].
      destruct (zero_aged inp s); reflexivity. }
    rewrite Hnil. simpl. rewrite andb_false_r. reflexivity.
Qed.

Lemma imputed_values_ok :
  nonzero_aged inp male <> [] ->
  nonzero_aged inp female <> [] ->
  exists t, imputed_values inp = Ok t
            /\ forall l a s,
                 t l a s
                 = if needs_imputation inp s l
                   then borrowed_shape inp s l (donor_of inp s l) a
                   else unaged_apportioned_values inp l a s.
Proof.
  intros Hm Hf. unfold imputed_values.
  destruct (impute_sex_ok (unaged_apportioned_values inp) male Hm)
    as [t1 [E1 H1]].
  destruct (impute_sex_ok t1 female Hf) as [t2 [E2 H2]].
  assert (Hfinal : forall l a s,
             t2 l a s
             = if needs_imputation inp s l
               then borrowed_shape inp s l (donor_of inp s l) a
               else unaged_apportioned_values inp l a s).
  { intros l a s. rewrite H2, H1. destruct s; reflexivity. }
  destruct (Nat.ltb 0 (length (nonzero_unaged inp male))
            || Nat.ltb 0 (length (nonzero_unaged inp female))) eqn:E.
  - rewrite E1. cbn [bind]. rewrite E2. exists t2. split; [reflexivity|].
    exact Hfinal.
  - exists (unaged_apportioned_values inp). split; [reflexivity|].
    intros l a s.
    apply orb_false_iff in E. destruct E as [Em Ef].
    assert (Hnil : forall s', s' = male \/ s' = female ->
                              nonzero_unaged_idx inp s' = []).
    { intros s' Hs'. unfold nonzero_unaged_idx.
      assert (El : Nat.ltb 0 (length (nonzero_unaged inp s')) = false).
      { destruct Hs' as [-> | ->]; assumption. }
      apply Nat.ltb_ge in El.
      destruct (nonzero_unaged inp s') as [|b m]; [|simpl in El; lia].
      destruct (zero_aged inp s'); reflexivity. }
    destruct s; simpl; try reflexivity;
      rewrite Hnil by auto; reflexivity.
Qed.

(** *** Mass balance *)

Lemma unique_NoDup (l : list Z) : NoDup (unique l).
Proof.
  induction l as [|k t IH]; simpl; [constructor|].
  constructor.
  - intro H. apply filter_In in H. destruct H as [_ H].
    rewrite Z.eqb_refl in H. discriminate.
  - apply NoDup_filter. exact IH.
Qed.

Lemma Qsum_r_indicator (F : Z -> Q) (x : Z) (ks : list Z) :
  NoDup ks ->
  Qsum_r (map (fun k => if Z.eqb x k then F k else 0) ks)
  == if mem_Z x ks then F x else 0.
Proof.
  induction ks as [|k t IH]; intro H; simpl; [reflexivity|].
  inversion H as [|? ? Hnotin Ht]; subst.
  rewrite (IH Ht). unfold mem_Z in *.
  destruct (Z.eqb_spec x k) as [->|Hne]; simpl.
  - assert (E : existsb (Z.eqb k) t = false).
    { destruct (existsb (Z.eqb k) t) eqn:E; [|reflexivity].
      apply existsb_exists in E. destruct E as [y [Hy He]].
      apply Z.eqb_eq in He. subst y. contradiction. }
    rewrite E. ring.
  - ring.
Qed.

Notation "'mesh_strata'" := (mesh_strata_of inp) (at level 0).

Lemma kriged_strata_keys :
  exists v : Z -> float,
    kriged_strata inp = map (fun st => (st, v st)) mesh_strata.
Proof.
  eexists (fun st => fnansum _). unfold kriged_strata, mesh_strata_of.
  reflexivity.
Qed.

Lemma find_map_key (v : Z -> float) (ks : list Z) (st : Z) :
  find (fun p => Z.eqb (fst p) st) (map (fun k => (k, v k)) ks)
  = if mem_Z st ks then Some (st, v st) else None.
Proof.
  unfold mem_Z.
  induction ks as [|k t IH]; simpl; [reflexivity|].
  rewrite (Z.eqb_sym st k).
  destruct (Z.eqb_spec k st) as [->|Hne]; simpl; [reflexivity|exact IH].
Qed.

Lemma kQ_outside (st : Z) : mem_Z st mesh_strata = false -> kQ st == 0.
Proof.
  intro H. unfold kriged_value, kriged_at.
  destruct kriged_strata_keys as [v Ev]. rewrite Ev, find_map_key, H.
  reflexivity.
Qed.

(** The kriged total is the sum of the kriged values of the strata. *)
Lemma kriged_strata_sum_view :
  kriged_strata_sum inp = Fin (toQ (kriged_strata_sum inp))
  /\ toQ (kriged_strata_sum inp) == Qsum_r (map kQ mesh_strata).
Proof.
  unfold kriged_strata_sum.
  destruct (fnansum_view (map snd (kriged_strata inp))) as [E Hq].
  - intros x Hx. apply in_map_iff in Hx. destruct Hx as [p [<- Hp]].
    left. eexists. apply kriged_strata_fin. exact Hp.
  - split; [exact E|]. rewrite Hq.
    destruct kriged_strata_keys as [v Ev]. rewrite Ev, !map_map.
    apply Qsum_r_ext. intros st Hst. simpl.
    unfold kriged_value, kriged_at. rewrite Ev, find_map_key.
    assert (Hm : mem_Z st mesh_strata = true).
    { unfold mem_Z. apply existsb_exists. exists st.
      split; [exact Hst|apply Z.eqb_refl]. }
    rewrite Hm. reflexivity.
Qed.

(** Rows weighted by the kriged value of their stratum, regrouped by
    stratum. *)
Lemma regroup_by_stratum {R : Type} (key : R -> Z) (g : R -> Q)
  (rows : list R) :
  Qsum_r (map (fun r => g r * kQ (key r)) rows)
  == Qsum_r (map (fun st => kQ st
                            * Qsum_r (map g (filter
                                               (fun r => Z.eqb (key r) st)
                                               rows)))
                 mesh_strata).
Proof.
  induction rows as [|r t IH]; simpl.
  - symmetry. apply Qsum_r_zero. intros st _. ring.
  - rewrite IH.
    rewrite (Qsum_r_ext
               (fun st => kQ st
                          * Qsum_r (map g (if Z.eqb (key r) st
                                           then r :: filter
                                                  (fun r0 => Z.eqb (key r0) st)
                                                  t
                                           else filter
                                                  (fun r0 => Z.eqb (key r0) st)
                                                  t)))
               (fun st => (if Z.eqb (key r) st then g r * kQ st else 0)
                          + kQ st
                            * Qsum_r (map g (filter
                                               (fun r0 => Z.eqb (key r0) st)
                                               t)))).
    + rewrite Qsum_r_add.
      rewrite (Qsum_r_indicator (fun st => g r * kQ st) (key r) mesh_strata)
        by apply unique_NoDup.
      destruct (mem_Z (key r) mesh_strata) eqn:E; [reflexivity|].
      rewrite (kQ_outside _ E). ring.
    + intros st _. destruct (Z.eqb (key r) st); simpl; ring.
Qed.

Lemma merged_rows_in_range (r : merged_row) :
  rows_in_range inp ->
  In r (unaged_sexed_apportioned inp) ->
  (mr_length_bin r < n_length inp)%nat.
Proof.
  intros [_ Hu] Hr. unfold unaged_sexed_apportioned in Hr.
  apply in_flat_map in Hr. destruct Hr as [u [Hu' Hr]].
  apply in_map_iff in Hr. destruct Hr as [s [<- _]]. simpl.
  apply Hu. exact Hu'.
Qed.

(** The unaged pivot holds the whole unaged table. *)
Lemma unaged_pivot_total :
  rows_in_range inp ->
  Qsum_r (map (fun l => Qsum_r (map (unQ l) sexes)) (seq 0 (n_length inp)))
  == Qsum_r (map (fun r => mr_weight_proportion r
                           * mr_weight_proportion_overall_unaged r
                           * kQ (mr_stratum r))
                 (unaged_sexed_apportioned inp)).
Proof.
  intro Hr.
  set (val := fun r => mr_weight_proportion r
                       * mr_weight_proportion_overall_unaged r
                       * kQ (mr_stratum r)).
  set (rows := unaged_sexed_apportioned inp).
  rewrite (Qsum_r_ext _
             (fun l => Qsum_r (map val (filter
                                          (fun r => Nat.eqb (mr_length_bin r) l)
                                          rows)))).
  - rewrite Qsum_r_by_position.
    rewrite filter_all; [reflexivity|].
    intros r Hin. apply Nat.ltb_lt. apply merged_rows_in_range; assumption.
  - intros l _.
    rewrite <- (Qsum_r_by_sex mr_sex val
                  (filter (fun r => Nat.eqb (mr_length_bin r) l) rows)).
    apply Qsum_r_ext. intros s _.
    rewrite (proj2 (unaged_pivot_view l s)).
    rewrite filter_filter. fold val. fold rows.
    match goal with
    | |- Qsum_r (map _ (filter ?p _)) == Qsum_r (map _ (filter ?q _)) =>
        rewrite (filter_ext_in_eq p q)
    end.
    + reflexivity.
    + intros r _. apply andb_comm.
Qed.

(** The aged pivot holds the whole aged table. *)
Lemma aged_pivot_total :
  rows_in_range inp ->
  Qsum_r (map (fun l =>
                 Qsum_r (map (fun a =>
                                Qsum_r (map (fun s => agedQ s l a) sexes))
                             (seq 0 (n_age inp))))
              (seq 0 (n_length inp)))
  == Qsum_r (map (fun r => weight_proportion_overall r * kQ (a_stratum r))
                 (aged_proportions inp)).
Proof.
  intros [Ha _].
  set (val := fun r => weight_proportion_overall r * kQ (a_stratum r)).
  set (rows := aged_proportions inp).
  rewrite (Qsum_r_ext _
             (fun l => Qsum_r (map val (filter
                                          (fun r => Nat.eqb (a_length_bin r) l)
                                          rows)))).
  - rewrite Qsum_r_by_position.
    rewrite filter_all; [reflexivity|].
    intros r Hin. apply Nat.ltb_lt. apply Ha. exact Hin.
  - intros l _.
    set (rows_l := filter (fun r => Nat.eqb (a_length_bin r) l) rows).
    rewrite (Qsum_r_ext _
               (fun a => Qsum_r (map val (filter
                                            (fun r => Nat.eqb (a_age_bin r) a)
                                            rows_l)))).
    + rewrite Qsum_r_by_position.
      rewrite filter_all; [reflexivity|].
      intros r Hin. apply Nat.ltb_lt. apply Ha.
      unfold rows_l in Hin. apply filter_In in Hin. tauto.
    + intros a _.
      rewrite <- (Qsum_r_by_sex a_sex val
                    (filter (fun r => Nat.eqb (a_age_bin r) a) rows_l)).
      apply Qsum_r_ext. intros s _.
      rewrite (proj2 (aged_pivot_view s l a)).
      unfold rows_l. rewrite !filter_filter. fold val. fold rows.
      match goal with
      | |- Qsum_r (map _ (filter ?p _)) == Qsum_r (map _ (filter ?q _)) =>
          rewrite (filter_ext_in_eq p q)
      end.
      * reflexivity.
      * intros r _.
        destruct (sex_eqb (a_sex r) s), (Nat.eqb (a_length_bin r) l),
          (Nat.eqb (a_age_bin r) a); reflexivity.
Qed.

(** What the proportion tables hand out, stratum by stratum. *)
Lemma handed_out_total :
  Qsum_r (map (fun r => weight_proportion_overall r * kQ (a_stratum r))
              (aged_proportions inp))
  + Qsum_r (map (fun r => mr_weight_proportion r
                          * mr_weight_proportion_overall_unaged r
                          * kQ (mr_stratum r))
                (unaged_sexed_apportioned inp))
  == Qsum_r (map (fun st => kQ st * stratum_share inp st) mesh_strata).
Proof.
  rewrite (regroup_by_stratum a_stratum weight_proportion_overall).
  rewrite (regroup_by_stratum mr_stratum
             (fun r => mr_weight_proportion r
                       * mr_weight_proportion_overall_unaged r)).
  rewrite <- Qsum_r_add. apply Qsum_r_ext. intros st _.
  unfold stratum_share. ring.
Qed.

Lemma normalised_total :
  normalised inp ->
  Qsum_r (map (fun st => kQ st * stratum_share inp st) mesh_strata)
  == toQ (kriged_strata_sum inp).
Proof.
  intro Hn. rewrite (proj2 kriged_strata_sum_view).
  apply Qsum_r_ext. intros st Hst.
  rewrite (Hn st); [ring|].
  unfold mesh_strata_of in Hst. apply (proj1 (unique_In _ _)) in Hst.
  exact Hst.
Qed.

Lemma in_cells (l a : nat) :
  In (l, a) (cells inp) <-> (l < n_length inp)%nat /\ (a < n_age inp)%nat.
Proof.
  unfold cells. rewrite in_flat_map. split.
  - intros [l' [Hl Ha]]. apply in_map_iff in Ha.
    destruct Ha as [a' [E Ha]]. inversion E; subst.
    apply in_seq in Hl. apply in_seq in Ha. lia.
  - intros [Hl Ha]. exists l. split; [apply in_seq; lia|].
    apply in_map_iff. exists a. split; [reflexivity|apply in_seq; lia].
Qed.

Lemma Qsum_r_cells (f : nat -> nat -> Q) :
  Qsum_r (map (fun c => f (fst c) (snd c)) (cells inp))
  == Qsum_r (map (fun l => Qsum_r (map (f l) (seq 0 (n_age inp))))
                 (seq 0 (n_length inp))).
Proof.
  unfold cells. rewrite Qsum_r_flat_map.
  apply Qsum_r_ext. intros l _. rewrite map_map. reflexivity.
Qed.

Lemma in_kriged_table_rows (t : table3) (r : full_row) :
  In r (kriged_table_rows inp t)
  <-> exists l a s, (l < n_length inp)%nat /\ (a < n_age inp)%nat
                    /\ r = {| f_length_bin := l; f_age_bin := a;
                              f_sex := Sex s;
                              f_apportioned := kriged_table inp t l a s |}.
Proof.
  unfold kriged_table_rows. rewrite in_flat_map. split.
  - intros [a [Ha Hr]]. apply in_flat_map in Hr. destruct Hr as [s [_ Hr]].
    apply in_map_iff in Hr. destruct Hr as [l [<- Hl]].
    apply in_seq in Ha. apply in_seq in Hl.
    exists l, a, s. repeat split; lia.
  - intros [l [a [s [Hl [Ha ->]]]]]. exists a.
    split; [apply in_seq; lia|]. apply in_flat_map. exists s.
    split; [unfold sexes; destruct s; simpl; auto|].
    apply in_map_iff. exists l. split; [reflexivity|apply in_seq; lia].
Qed.

(** A sum over the rows of [kriged_table], length bin by length bin. *)
Lemma Qsum_r_kriged_table_rows (t : table3) (g : nat -> nat -> sex -> Q) :
  (forall l a s, (l < n_length inp)%nat ->
                 toQ (kriged_table inp t l a s) == g l a s) ->
  Qsum_r (map (fun r => toQ (f_apportioned r)) (kriged_table_rows inp t))
  == Qsum_r (map (fun l =>
                    Qsum_r (map (fun a => Qsum_r (map (g l a) sexes))
                                (seq 0 (n_age inp))))
                 (seq 0 (n_length inp))).
Proof.
  intro Hg. unfold kriged_table_rows.
  rewrite Qsum_r_flat_map.
  rewrite (Qsum_r_ext _ (fun a =>
             Qsum_r (map (fun l => Qsum_r (map (g l a) sexes))
                         (seq 0 (n_length inp))))).
  - apply (Qsum_r_swap (fun a l => Qsum_r (map (g l a) sexes))).
  - intros a _. rewrite Qsum_r_flat_map.
    rewrite (Qsum_r_ext _ (fun s =>
               Qsum_r (map (fun l => g l a s) (seq 0 (n_length inp))))).
    + apply (Qsum_r_swap (fun s l => g l a s)).
    + intros s _. rewrite map_map. apply Qsum_r_ext.
      intros l Hl. apply in_seq in Hl. cbn [f_apportioned].
      apply Hg. lia.
Qed.

(** The sum the engine compares with the kriged total, for a table of
    finite cells. *)
Lemma kriged_table_sum_view (t : table3) :
  (forall l a s, (l < n_length inp)%nat -> t l a s = Fin (toQ (t l a s))) ->
  kriged_table_sum inp t = Fin (toQ (kriged_table_sum inp t))
  /\ toQ (kriged_table_sum inp t)
     == Qsum_r (map (fun l =>
                       Qsum_r (map (fun a =>
                                      Qsum_r (map (fun s => toQ (t l a s)
                                                            + agedQ s l a)
                                                  sexes))
                                   (seq 0 (n_age inp))))
                    (seq 0 (n_length inp))).
Proof.
  intro Hfin. unfold kriged_table_sum.
  assert (Hcell : forall l a s, (l < n_length inp)%nat ->
                    kriged_table inp t l a s
                    = Fin (toQ (t l a s) + agedQ s l a)).
  { intros l a s Hl. unfold kriged_table.
    rewrite (Hfin l a s Hl), (proj1 (aged_pivot_view s l a)). reflexivity. }
  match goal with |- fnansum ?l = _ /\ _ =>
    destruct (fnansum_view l) as [E Hq] end.
  - intros x Hx. apply in_map_iff in Hx. destruct Hx as [r [<- Hr]].
    apply in_kriged_table_rows in Hr.
    destruct Hr as [l [a [s [Hl [_ ->]]]]]. cbn [f_apportioned].
    rewrite (Hcell l a s Hl). apply Fin_fin_or_nan.
  - split; [exact E|]. rewrite Hq, map_map.
    apply (Qsum_r_kriged_table_rows t
             (fun l a s => toQ (t l a s) + agedQ s l a)).
    intros l a s Hl. rewrite (Hcell l a s Hl). reflexivity.
Qed.

Lemma filter_flat_map {A B : Type} (p : B -> bool) (g : A -> list B)
  (l : list A) :
  filter p (flat_map g l) = flat_map (fun x => filter p (g x)) l.
Proof.
  induction l as [|x t IH]; simpl; [reflexivity|].
  rewrite filter_app, IH. reflexivity.
Qed.

Lemma filter_not_all_rows (t : table3) :
  filter (fun r => negb (is_all (f_sex r))) (kriged_full_table inp t)
  = kriged_table_rows inp t.
Proof.
  unfold kriged_full_table. rewrite filter_app.
  assert (H1 : forall rows : list full_row,
             (forall r, In r rows -> is_all (f_sex r) = false) ->
             filter (fun r => negb (is_all (f_sex r))) rows = rows).
  { intros rows H. apply filter_all. intros r Hr. rewrite (H r Hr).
    reflexivity. }
  assert (H2 : forall rows : list full_row,
             filter (fun r => negb (is_all (f_sex r)))
                    (map (fun r => {| f_length_bin := f_length_bin r;
                                      f_age_bin := f_age_bin r;
                                      f_sex := all;
                                      f_apportioned := f_apportioned r |})
                         rows) = []).
  { induction rows as [|r rows IH]; [reflexivity|]. simpl. exact IH. }
  rewrite H2, app_nil_r. apply H1.
  intros r Hr. apply in_kriged_table_rows in Hr.
  destruct Hr as [l [a [s [_ [_ ->]]]]]. reflexivity.
Qed.

(** The returned table, summed over the entries whose sex is not
    ['all'], is the sum the engine compares with the kriged total. *)
Lemma apportioned_total_view (t : table3) :
  (forall l a s, (l < n_length inp)%nat -> t l a s = Fin (toQ (t l a s))) ->
  apportioned_total (kriged_full_table inp t)
  = Fin (toQ (apportioned_total (kriged_full_table inp t)))
  /\ toQ (apportioned_total (kriged_full_table inp t))
     == toQ (kriged_table_sum inp t).
Proof.
  intro Hfin. unfold apportioned_total. rewrite filter_not_all_rows.
  fold (kriged_table_sum inp t).
  split; [exact (proj1 (kriged_table_sum_view t Hfin))|reflexivity].
Qed.

Lemma no_imputation_Q (l : nat) (s : sex) :
  no_imputation_required inp ->
  (l < n_length inp)%nat ->
  ~ unQ l s == 0 -> ~ totQ l s == 0.
Proof.
  intros Hni Hl Hu.
  apply fne_b_Fin_0. rewrite <- (proj1 (aged_length_totals_view l s)).
  apply Hni; [exact Hl|].
  rewrite (proj1 (unaged_pivot_view l s)). apply fne_b_Fin_0. exact Hu.
Qed.

Lemma no_imputation_none_needed (l : nat) (s : sex) :
  no_imputation_required inp -> needs_imputation inp s l = false.
Proof.
  intro Hni.
  assert (H : forall s', existsb (Nat.eqb l) (nonzero_unaged_idx inp s')
                         = false).
  { intro s'. destruct (existsb _ (nonzero_unaged_idx inp s')) eqn:E;
      [|reflexivity].
    apply existsb_exists in E. destruct E as [l' [Hin He]].
    apply Nat.eqb_eq in He. subst l'.
    apply nonzero_unaged_idx_In in Hin. destruct Hin as [Hl [Hz Hu]].
    pose proof (Hni s' l Hl Hu) as Hnz.
    unfold fne_b in Hnz. rewrite Hz in Hnz. discriminate. }
  destruct s; simpl; auto.
Qed.

(** Mass balance.  With proportion tables that add up to one in every
    stratum and lie within the length and age categories, an input that
    needs no imputation and has aged mass for males and for females
    somewhere is apportioned without loss: the engine returns, the
    entries of its table other than ['all'] add up to the kriged total,
    and no warning is issued. *)
Lemma mass_balance_without_imputation :
  normalised inp ->
  rows_in_range inp ->
  no_imputation_required inp ->
  has_aged_mass inp male ->
  has_aged_mass inp female ->
  exists out,
    apportion_kriged_values inp = Ok out
    /\ feq (apportioned_total (out_kriged_full_table out))
           (kriged_strata_sum inp)
    /\ warned out = false.
Proof.
  intros Hnorm Hrange Hni Hm Hf.
  destruct (imputed_values_ok (has_aged_mass_donors male Hm)
                              (has_aged_mass_donors female Hf))
    as [t [Et Ht]].
  assert (Hcell : forall l a s, t l a s
                                = unaged_apportioned_values inp l a s).
  { intros l a s. rewrite Ht, no_imputation_none_needed by exact Hni.
    reflexivity. }
  assert (Hfin : forall l a s, (l < n_length inp)%nat ->
                               t l a s = Fin (toQ (t l a s))).
  { intros l a s Hl. rewrite Hcell.
    apply (unaged_spread_sum l s). apply no_imputation_Q; assumption. }
  assert (Hsum : toQ (kriged_table_sum inp t)
                 == toQ (kriged_strata_sum inp)).
  { rewrite (proj2 (kriged_table_sum_view t Hfin)).
    rewrite <- (normalised_total Hnorm), <- handed_out_total.
    rewrite <- (aged_pivot_total Hrange), <- (unaged_pivot_total Hrange).
    rewrite <- Qsum_r_add. apply Qsum_r_ext. intros l Hl.
    apply in_seq in Hl.
    rewrite (Qsum_r_ext _
               (fun a => Qsum_r (map (fun s => agedQ s l a) sexes)
                         + Qsum_r (map (fun s => toQ (t l a s)) sexes))).
    - rewrite Qsum_r_add.
      rewrite (Qsum_r_swap (fun a s => toQ (t l a s))).
      rewrite (Qsum_r_ext (fun s => Qsum_r (map (fun a => toQ (t l a s))
                                                (seq 0 (n_age inp))))
                          (unQ l)).
      + reflexivity.
      + intros s _.
        rewrite <- (proj2 (unaged_spread_sum l s
                             (no_imputation_Q l s Hni ltac:(lia)))).
        apply Qsum_r_ext. intros a _. rewrite Hcell. reflexivity.
    - intros a _. rewrite <- Qsum_r_add. apply Qsum_r_ext. intros s _.
      ring. }
  unfold apportion_kriged_values. rewrite Et. cbn [bind].
  eexists. split; [reflexivity|]. cbn [out_kriged_full_table warned].
  split.
  - rewrite (proj1 (apportioned_total_view t Hfin)).
    rewrite (proj1 kriged_strata_sum_view). simpl.
    rewrite (proj2 (apportioned_total_view t Hfin)). exact Hsum.
  - rewrite (proj1 (kriged_table_sum_view t Hfin)).
    rewrite (proj1 kriged_strata_sum_view). unfold fne_b. simpl.
    apply negb_false_iff. apply Qeq_bool_iff. exact Hsum.
Qed.

(** *** Imputation *)





(** The comparison of the totals.  Whenever the imputation block returns
    a table, the engine returns its three results, and it warns exactly
    when the apportioned total differs from the kriged total. *)
Lemma warning_iff_totals_differ (t : table3) :
  imputed_values inp = Ok t ->
  exists out,
    apportion_kriged_values inp = Ok out
    /\ out_kriged_full_table out = kriged_full_table inp t
    /\ warned out = fne_b (kriged_table_sum inp t) (kriged_strata_sum inp).
Proof.
  intro Et. unfold apportion_kriged_values. rewrite Et. cbn [bind].
  eexists. repeat split.
Qed.
End ApportionProofs.

(** The mass balance on a survey with aged fish of both sexes: the kriged
    total 10 is handed out in full. *)
Example mass_balance_both_sexes_aged :
  exists out,
    apportion_kriged_values both_sexes_aged = Ok out
    /\ feq (apportioned_total (out_kriged_full_table out))
           (kriged_strata_sum both_sexes_aged)
    /\ warned out = false.
Proof.
  apply mass_balance_without_imputation.
  - intros st Hin. simpl in Hin.
    destruct Hin as [<- | [<- | []]]; vm_compute; reflexivity.
  - split; intros r Hin; simpl in Hin.
    + destruct Hin as [<- | [<- | []]]; simpl; lia.
    + destruct Hin as [<- | [<- | []]]; simpl; lia.
  - intros s l Hl.
    assert (Hc : l = 0%nat \/ l = 1%nat) by (simpl in Hl; lia).
    destruct s, Hc as [-> | ->]; vm_compute; auto.
  - exists 0%nat. split; [simpl; lia | vm_compute; reflexivity].
  - exists 1%nat. split; [simpl; lia | vm_compute; reflexivity].
Qed.

(** Imputation in the survey of two strata: male length bin 0 has unaged
    mass 5 and no aged mass, its donor is length bin 1 with the age shape
    (25/4, 5/4) out of 15/2, and the engine hands out the kriged total 30
    without a warning. *)
Example imputation_two_strata :
  needs_imputation two_strata male 0 = true
  /\ donor_of two_strata male 0 = 1%nat
  /\ feq (borrowed_shape two_strata male 0 1 0) (Fin (25 # 6))
  /\ feq (borrowed_shape two_strata male 0 1 1) (Fin (5 # 6))
  /\ exists out,
       apportion_kriged_values two_strata = Ok out
       /\ feq (apportioned_total (out_kriged_full_table out)) (Fin 30)
       /\ warned out = false
       /\ forall r a, In r (out_kriged_full_table out) ->
                      is_entry r 0 a male ->
                      feq (f_apportioned r) (borrowed_shape two_strata male 0 1 a).
Proof.
  split; [vm_compute; reflexivity|].
  split; [vm_compute; reflexivity|].
  split; [vm_compute; reflexivity|].
  split; [vm_compute; reflexivity|].
  destruct (apportion_kriged_values two_strata) as [out|e] eqn:E;
    [|vm_compute in E; discriminate].
  exists out. split; [reflexivity|].
  assert (Eout : Ok out = apportion_kriged_values two_strata)
    by (symmetry; exact E).
  clear E.
  split.
  { change (match Ok out with
            | Ok o => feq (apportioned_total (out_kriged_full_table o)) (Fin 30)
            | Raise _ => False end).
    rewrite Eout. vm_compute. reflexivity. }
  split.
  { change (match Ok out with
            | Ok o => warned o = false
            | Raise _ => False end).
    rewrite Eout. vm_compute. reflexivity. }
  assert (Htbl : map (fun r => (f_length_bin r, f_age_bin r, f_sex r,
                                f_apportioned r))
                     (filter (fun r => match f_sex r with
                                       | Sex male => Nat.eqb (f_length_bin r) 0
                                       | _ => false end)
                             (out_kriged_full_table out))
                 = [(0%nat, 0%nat, Sex male, borrowed_shape two_strata male 0 1 0);
                    (0%nat, 1%nat, Sex male, borrowed_shape two_strata male 0 1 1)]).
  { change (match Ok out with
            | Ok o =>
                map (fun r => (f_length_bin r, f_age_bin r, f_sex r,
                               f_apportioned r))
                    (filter (fun r => match f_sex r with
                                      | Sex male => Nat.eqb (f_length_bin r) 0
                                      | _ => false end)
                            (out_kriged_full_table o))
                = [(0%nat, 0%nat, Sex male, borrowed_shape two_strata male 0 1 0);
                   (0%nat, 1%nat, Sex male, borrowed_shape two_strata male 0 1 1)]
            | Raise _ => False end).
    rewrite Eout. vm_compute. reflexivity. }
  intros r a Hr [Hl [Ha Hs]].
  assert (Hin : In (f_length_bin r, f_age_bin r, f_sex r, f_apportioned r)
                   [(0%nat, 0%nat, Sex male, borrowed_shape two_strata male 0 1 0);
                    (0%nat, 1%nat, Sex male, borrowed_shape two_strata male 0 1 1)]).
  { rewrite <- Htbl.
    apply (in_map (fun r => (f_length_bin r, f_age_bin r, f_sex r,
                             f_apportioned r))).
    apply filter_In. split; [exact Hr|]. rewrite Hs, Hl. reflexivity. }
  destruct Hin as [H | [H | []]]; injection H as _ Ha' _ Hv;
    rewrite <- Hv; rewrite <- Ha, <- Ha'; reflexivity.
Qed.

(** * Further properties of the code *)

(** ** ApportionmentEngine: when it returns, and what it hands out *)

Section ApportionOutcomes.

Variable inp : apportion_input.

Notation "'kQ'" := (kriged_value inp) (at level 0).
Notation "'agedQ'" := (aged_value inp) (at level 0).
Notation "'totQ'" := (aged_total_value inp) (at level 0).
Notation "'unQ'" := (unaged_value inp) (at level 0).







End ApportionOutcomes.






(** ** StrataGapFiller: what [_fill_missing_strata_indices] keeps *)

Lemma loc_Ok_In (df : dataframe) (k : Z) (v : float) :
  loc df k = Ok v -> In (k, v) df.
Proof.
  induction df as [|[k' v'] t IH]; simpl; [discriminate|].
  destruct (Z.eqb_spec k k') as [-> | Hne].
  - intro H. injection H as ->. left. reflexivity.
  - intro H. right. apply IH. exact H.
Qed.

Lemma loc_opt_Ok_In (df : dataframe) (k : option Z) (v : float) :
  loc_opt df k = Ok v -> exists k', In (k', v) df.
Proof.
  destruct k as [k|]; simpl; [|discriminate].
  intro H. exists k. apply loc_Ok_In. exact H.
Qed.

Lemma iloc_Ok_In (df : dataframe) (i : nat) (v : float) :
  iloc df i = Ok v -> exists k, In (k, v) df.
Proof.
  unfold iloc. destruct (nth_error df i) as [[k v']|] eqn:E; [|discriminate].
  intro H. injection H as ->. exists k. apply (nth_error_In _ _ E).
Qed.

(** One pass of the loop writes one row: a value of the table, or the
    mean of two values of the table. *)
Lemma fill_one_value (one : bool) (mx mn : option Z) (df df1 : dataframe)
  (s : Z) :
  fill_one one mx mn df s = Ok df1 ->
  exists v, df1 = loc_set df s v
            /\ ((exists k, In (k, v) df)
                \/ exists k1 v1 k2 v2,
                     In (k1, v1) df /\ In (k2, v2) df
                     /\ v = fdiv (fadd v1 v2) (Fin 2)).
Proof.
  unfold fill_one.
  assert (Hcopy : forall k,
             bind (loc_opt df k) (fun v => Ok (loc_set df s v)) = Ok df1 ->
             exists v, df1 = loc_set df s v
                       /\ ((exists k, In (k, v) df)
                           \/ exists k1 v1 k2 v2,
                                In (k1, v1) df /\ In (k2, v2) df
                                /\ v = fdiv (fadd v1 v2) (Fin 2))).
  { intros k H. destruct (loc_opt df k) as [v|e] eqn:E; [|discriminate].
    cbn [bind] in H. injection H as <-. exists v. split; [reflexivity|].
    left. apply (loc_opt_Ok_In df k v E). }
  destruct one; [apply Hcopy|].
  destruct (gt_opt s mx); [apply Hcopy|].
  destruct (lt_opt s mn); [apply Hcopy|].
  destruct (argpartition _ 2) as [idx|e]; [|discriminate].
  cbn [bind].
  destruct (get_idx idx 0) as [i0|e]; [|discriminate]. cbn [bind].
  destruct (get_idx idx 1) as [i1|e]; [|discriminate]. cbn [bind].
  destruct (iloc df i0) as [v1|e] eqn:E0; [|discriminate]. cbn [bind].
  destruct (iloc df i1) as [v2|e] eqn:E1; [|discriminate]. cbn [bind].
  intro H. injection H as <-.
  exists (fdiv (fadd v1 v2) (Fin 2)). split; [reflexivity|]. right.
  destruct (iloc_Ok_In df i0 v1 E0) as [k1 H1].
  destruct (iloc_Ok_In df i1 v2 E1) as [k2 H2].
  exists k1, v1, k2, v2. auto.
Qed.

Lemma map_fst_combine {A B : Type} (l : list A) :
  forall l' : list B, length l = length l' -> map fst (combine l l') = l.
Proof.
  induction l as [|a t IH]; intros [|b t'] H; simpl in *;
    try reflexivity; try discriminate.
  f_equal. apply IH. lia.
Qed.

Lemma index_app (df1 df2 : dataframe) :
  index (df1 ++ df2) = index df1 ++ index df2.
Proof. apply map_app. Qed.

(** The loop appends one row per missing stratum, in the order in which
    the strata are processed. *)
Lemma fill_loop_appends (one : bool) (mx mn : option Z) (missing : list Z) :
  forall df df',
    fill_loop one mx mn missing df = Ok df' ->
    NoDup missing ->
    (forall s, In s missing -> ~ In s (index df)) ->
    exists vals, length vals = length missing
                 /\ df' = df ++ combine missing vals.
Proof.
  induction missing as [|s rest IH]; intros df df' H Hnd Hnew.
  - simpl in H. injection H as <-. exists []. split; [reflexivity|].
    simpl. rewrite app_nil_r. reflexivity.
  - cbn [fill_loop] in H.
    destruct (fill_one one mx mn df s) as [df1|e] eqn:E1; [|discriminate].
    cbn [bind] in H.
    destruct (fill_one_value _ _ _ _ _ _ E1) as [v [-> _]].
    rewrite (loc_set_new df s v) in H by (apply Hnew; left; reflexivity).
    inversion Hnd as [|? ? Hs Hrest]; subst.
    destruct (IH _ _ H Hrest) as [vals [Hlen ->]].
    + intros s' Hs' Hin. rewrite index_app in Hin.
      apply in_app_iff in Hin. destruct Hin as [Hin | [<- | []]].
      * apply (Hnew s'); [right; exact Hs'|exact Hin].
      * exact (Hs Hs').
    + exists (v :: vals). split; [simpl; lia|].
      rewrite <- app_assoc. reflexivity.
Qed.

(** The fill keeps the table and appends to it: the known rows stay where
    they are, one row is added for every missing stratum, and afterwards
    every stratum of the transects has a row. *)
Theorem fill_appends_missing_rows (nasc_strata : list Z)
  (df df' : dataframe) :
  _fill_missing_strata_indices nasc_strata df = Ok df' ->
  exists vals,
    length vals = length (set_difference nasc_strata df)
    /\ df' = df ++ combine (set_difference nasc_strata df) vals
    /\ forall s, In s nasc_strata -> In s (index df').
Proof.
  intro H.
  assert (Happ : exists vals,
             length vals = length (set_difference nasc_strata df)
             /\ df' = df ++ combine (set_difference nasc_strata df) vals).
  { unfold _fill_missing_strata_indices in H.
    destruct (set_difference nasc_strata df) as [|s rest] eqn:Em.
    - simpl in H. injection H as <-. exists []. split; [reflexivity|].
      simpl. rewrite app_nil_r. reflexivity.
    - cbn [length Nat.eqb] in H.
      apply (fill_loop_appends _ _ _ _ _ _ H).
      + rewrite <- Em. apply set_difference_NoDup.
      + intros s' Hs'. apply (set_difference_not_in nasc_strata).
        rewrite Em. exact Hs'. }
  destruct Happ as [vals [Hlen ->]].
  exists vals. split; [exact Hlen|]. split; [reflexivity|].
  intros s Hs. rewrite index_app. apply in_app_iff.
  destruct (mem_Z s (index df)) eqn:Ein.
  - left. unfold mem_Z in Ein. apply existsb_exists in Ein.
    destruct Ein as [x [Hx Hxe]]. apply Z.eqb_eq in Hxe. subst x. exact Hx.
  - right. unfold index. rewrite map_fst_combine by (symmetry; exact Hlen).
    unfold set_difference. apply filter_In. split.
    + apply nodup_In. exact Hs.
    + rewrite Ein. reflexivity.
Qed.

Lemma In_loc_set (df : dataframe) (s : Z) (v : float) (k' : Z) (v' : float) :
  In (k', v') (loc_set df s v) -> In (k', v') df \/ v' = v.
Proof.
  induction df as [|[k0 v0] t IH]; simpl.
  - intros [H | []]. right. congruence.
  - destruct (Z.eqb s k0).
    + intros [H | H]; [right; congruence|left; right; exact H].
    + intros [H | H]; [left; left; exact H|].
      destruct (IH H) as [H' | H']; [left; right; exact H'|right; exact H'].
Qed.

Lemma fill_loop_within (lo hi : Q) (one : bool) (mx mn : option Z)
  (missing : list Z) :
  forall df df',
    within lo hi df ->
    fill_loop one mx mn missing df = Ok df' ->
    within lo hi df'.
Proof.
  induction missing as [|s rest IH]; intros df df' Hw H.
  - simpl in H. injection H as <-. exact Hw.
  - cbn [fill_loop] in H.
    destruct (fill_one one mx mn df s) as [df1|e] eqn:E1; [|discriminate].
    cbn [bind] in H. apply (IH df1 df'); [|exact H].
    destruct (fill_one_value _ _ _ _ _ _ E1) as [v [-> Hv]].
    assert (Hvq : exists q, v = Fin q /\ lo <= q <= hi).
    { destruct Hv as [[k Hk] | [k1 [v1 [k2 [v2 [H1 [H2 ->]]]]]]].
      - apply (Hw k v Hk).
      - destruct (Hw k1 v1 H1) as [q1 [-> [Hl1 Hh1]]].
        destruct (Hw k2 v2 H2) as [q2 [-> [Hl2 Hh2]]].
        exists ((q1 + q2) / 2). split; [reflexivity|].
        assert (E : (q1 + q2) / 2 == (q1 + q2) * (1 # 2)) by field.
        rewrite E. split; lra. }
    intros k' v' Hin. apply In_loc_set in Hin.
    destruct Hin as [Hin | ->]; [apply (Hw k' v' Hin)|exact Hvq].
Qed.

(** The fill never leaves the range of the known values: when every known
    value is finite and lies between [lo] and [hi], so does every value of
    the filled table. *)
Theorem fill_values_within_known_range (lo hi : Q) (nasc_strata : list Z)
  (df df' : dataframe) :
  within lo hi df ->
  _fill_missing_strata_indices nasc_strata df = Ok df' ->
  within lo hi df'.
Proof.
  intros Hw H. unfold _fill_missing_strata_indices in H.
  destruct (Nat.eqb (length (set_difference nasc_strata df)) 0).
  - injection H as <-. exact Hw.
  - apply (fill_loop_within lo hi _ _ _ _ df df' Hw H).
Qed.


Lemma fill_appends_missing_rows_witness :
  exists vals,
    length vals = 2%nat
    /\ [(1%Z, Fin 0); (10%Z, Fin 4); (20%Z, Fin 7);
        (4%Z, Fin (4 # 2)); (5%Z, Fin (4 # 4))]
       = three_known ++ combine [4; 5]%Z vals
    /\ forall s, In s [1; 4; 5; 10; 20]%Z ->
                 In s (index [(1%Z, Fin 0); (10%Z, Fin 4); (20%Z, Fin 7);
                              (4%Z, Fin (4 # 2)); (5%Z, Fin (4 # 4))]).
Proof.
  apply (fill_appends_missing_rows [1; 4; 5; 10; 20]%Z three_known).
  reflexivity.
Defined.

Lemma three_known_within : within 0 7 three_known.
Proof.
  intros k v Hin. simpl in Hin.
  destruct Hin as [H | [H | [H | []]]]; injection H as _ <-;
    eexists; (split; [reflexivity|]); split; discriminate.
Defined.

Lemma fill_values_within_known_range_witness :
  within 0 7 [(1%Z, Fin 0); (10%Z, Fin 4); (20%Z, Fin 7);
              (4%Z, Fin (4 # 2)); (5%Z, Fin (4 # 4))].
Proof.
  apply (fill_values_within_known_range 0 7 [1; 4; 5; 10; 20]%Z three_known).
  - exact three_known_within.
  - reflexivity.
Defined.


Lemma fill_copy_cases_witness :
  exists df',
    _fill_missing_strata_indices [0; 1; 10; 20; 30]%Z three_known = Ok df'
    /\ loc df' 30 = Ok (Fin 7)
    /\ loc df' 0 = Ok (Fin 0)
    /\ loc df' 10 = Ok (Fin 4).
Proof.
  destruct (fill_copy_cases [0; 1; 10; 20; 30]%Z three_known 20 1
              eq_refl eq_refl) as [Hval Hret].
  destruct Hret as [df' E]; [right; simpl; lia|].
  destruct (Hval df' E) as [Hkeep [Hmax Hmin]].
  exists df'. split; [exact E|]. split; [|split].
  - rewrite (Hmax 30%Z); [reflexivity| |right; lia].
    vm_compute. right. left. reflexivity.
  - rewrite (Hmin 0%Z); [reflexivity| | |lia].
    + vm_compute. left. reflexivity.
    + simpl. lia.
  - rewrite (Hkeep 10%Z); [reflexivity|]. simpl. auto.
Defined.

Lemma fill_first_interior_witness :
  exists df' v0 v1,
    _fill_missing_strata_indices [1; 4; 5; 10; 20]%Z three_known = Ok df'
    /\ loc df' 4 = Ok (fdiv (fadd v0 v1) (Fin 2)).
Proof.
  destruct (fill_first_interior [1; 4; 5; 10; 20]%Z three_known 20 1 4 [5]%Z)
    as [df' [i0 [i1 [k0 [v0 [k1 [v1 [E [Hv _]]]]]]]]].
  - reflexivity.
  - reflexivity.
  - reflexivity.
  - simpl. lia.
  - lia.
  - exists df', v0, v1. split; [exact E|exact Hv].
Defined.

(** ** StrataGapFiller, second implementation *)

Lemma insert_by_Permutation {A : Type} (key : A -> Z) (x : A) (l : list A) :
  Permutation (insert_by key x l) (x :: l).
Proof.
  induction l as [|y t IH]; simpl; [apply Permutation_refl|].
  destruct (Z.ltb (key x) (key y)); [apply Permutation_refl|].
  apply Permutation_trans with (y :: x :: t).
  - apply perm_skip. exact IH.
  - apply perm_swap.
Qed.

Lemma sort_values_fold_Permutation {A : Type} (key : A -> Z) (l : list A) :
  forall acc,
    Permutation (fold_left (fun acc x => insert_by key x acc) l acc)
                (acc ++ l).
Proof.
  induction l as [|x t IH]; intro acc; simpl.
  - rewrite app_nil_r. apply Permutation_refl.
  - apply Permutation_trans with (insert_by key x acc ++ t); [apply IH|].
    apply Permutation_trans with ((x :: acc) ++ t).
    + apply Permutation_app_tail. apply insert_by_Permutation.
    + simpl. apply Permutation_middle.
Qed.

Lemma sort_values_Permutation {A : Type} (key : A -> Z) (l : list A) :
  Permutation (sort_values key l) l.
Proof.
  unfold sort_values. apply (sort_values_fold_Permutation key l []).
Qed.

Lemma np_unique_In (l : list Z) (x : Z) : In x (np_unique l) <-> In x l.
Proof.
  unfold np_unique. split; intro H.
  - apply (nodup_In Z.eq_dec).
    apply (Permutation_in x (sort_values_Permutation _ _) H).
  - apply (Permutation_in x (Permutation_sym (sort_values_Permutation _ _))).
    apply nodup_In. exact H.
Qed.

Lemma np_unique_NoDup (l : list Z) : NoDup (np_unique l).
Proof.
  unfold np_unique.
  apply (Permutation_NoDup (Permutation_sym (sort_values_Permutation _ _))).
  apply NoDup_nodup.
Qed.

Lemma np_unique_length (l : list Z) :
  length (np_unique l) = length (nodup Z.eq_dec l).
Proof.
  unfold np_unique. apply Permutation_length. apply sort_values_Permutation.
Qed.

Lemma mem_Z_In (k : Z) (l : list Z) : mem_Z k l = true <-> In k l.
Proof.
  unfold mem_Z. rewrite existsb_exists. split.
  - intros [x [Hx He]]. apply Z.eqb_eq in He. subst x. exact Hx.
  - intro H. exists k. split; [exact H|apply Z.eqb_refl].
Qed.

Lemma impute_missing_unfold (strata_df_stratum_num : list Z)
  (strata_mean : list strata_mean_row) :
  impute_missing_sigma_bs strata_df_stratum_num strata_mean
  = let missing := missing_strata_of strata_df_stratum_num strata_mean in
    let species := np_unique (map sm_species_id strata_mean) in
    if Nat.ltb 0 (length missing) then
      if negb (Nat.eqb (length missing) (length species))
      then Raise ValueError
      else Ok (fold_left
                 (fun acc i =>
                    assign_where acc i
                      (impute_value (present_strata_of strata_mean) acc i))
                 missing
                 (sort_values sm_stratum_num
                    (strata_mean
                     ++ map (fun p => {| sm_stratum_num := fst p;
                                         sm_species_id := snd p;
                                         mean_sigma_bs := NaN |})
                            (combine missing species))))
    else Ok strata_mean.
Proof. reflexivity. Qed.

(** The distinct values of a list with one value only. *)
Lemma nodup_constant (l : list Z) (c : Z) :
  l <> [] -> (forall x, In x l -> x = c) -> nodup Z.eq_dec l = [c].
Proof.
  induction l as [|x t IH]; intros Hne Hc; [congruence|].
  assert (Ex : x = c) by (apply Hc; left; reflexivity). subst x.
  simpl. destruct (in_dec Z.eq_dec c t) as [Hin | Hnin].
  - apply IH.
    + intro E. subst t. destruct Hin.
    + intros y Hy. apply Hc. right. exact Hy.
  - destruct t as [|y t'].
    + reflexivity.
    + exfalso. apply Hnin. left. apply Hc. right. left. reflexivity.
Qed.

(** When the frame of the missing strata can be built.  The imputation
    raises [ValueError] exactly when some stratum is missing and the
    number of missing strata differs from the number of distinct species
    of [strata_mean]; with one species in [strata_mean], exactly when two
    strata or more are missing. *)
Theorem impute_missing_raises_iff (strata_df_stratum_num : list Z)
  (strata_mean : list strata_mean_row) :
  let missing := missing_strata_of strata_df_stratum_num strata_mean in
  let species := np_unique (map sm_species_id strata_mean) in
  (impute_missing_sigma_bs strata_df_stratum_num strata_mean
   = Raise ValueError
   <-> missing <> [] /\ length missing <> length species)
  /\ ((exists out, impute_missing_sigma_bs strata_df_stratum_num strata_mean
                   = Ok out)
      <-> missing = [] \/ length missing = length species)
  /\ (forall sp,
        strata_mean <> [] ->
        (forall r, In r strata_mean -> sm_species_id r = sp) ->
        (impute_missing_sigma_bs strata_df_stratum_num strata_mean
         = Raise ValueError
         <-> (2 <= length missing)%nat)).
Proof.
  intros missing species.
  assert (Hgen : impute_missing_sigma_bs strata_df_stratum_num strata_mean
                 = Raise ValueError
                 <-> missing <> [] /\ length missing <> length species).
  { rewrite impute_missing_unfold. cbv zeta. fold missing. fold species.
    destruct missing as [|m ms] eqn:Em.
    - simpl. split; [discriminate|]. intros [H _]. congruence.
    - cbn [length Nat.ltb Nat.leb].
      destruct (Nat.eqb_spec (S (length ms)) (length species)) as [E | E];
        cbn [negb].
      + split; [discriminate|]. intros [_ H]. contradiction.
      + split; [|reflexivity]. intros _. split; [discriminate|exact E]. }
  split; [exact Hgen|]. split.
  - rewrite impute_missing_unfold. cbv zeta. fold missing. fold species.
    destruct missing as [|m ms] eqn:Em.
    + simpl. split; [intros _; left; reflexivity|].
      intros _. eexists. reflexivity.
    + cbn [length Nat.ltb Nat.leb].
      destruct (Nat.eqb_spec (S (length ms)) (length species)) as [E | E];
        cbn [negb].
      * split; [intros _; right; exact E|]. intros _. eexists. reflexivity.
      * split; [intros [out H]; discriminate|].
        intros [H | H]; [discriminate|contradiction].
  - intros sp Hne Hsp. rewrite Hgen.
    assert (Hone : length species = 1%nat).
    { unfold species. rewrite np_unique_length.
      rewrite (nodup_constant _ sp); [reflexivity| |].
      - destruct strata_mean; [congruence|discriminate].
      - intros x Hx. apply in_map_iff in Hx. destruct Hx as [r [<- Hr]].
        apply Hsp. exact Hr. }
    rewrite Hone. split.
    + intros [Hm Hl]. destruct missing as [|m [|m' ms]]; simpl in *;
        [congruence|lia|lia].
    + intro H. split; [|lia].
      destruct missing; [simpl in H; lia|discriminate].
Qed.

Lemma impute_missing_raises_iff_witness :
  impute_missing_sigma_bs [1; 4; 5; 10; 20]%Z
    [strata_mean_of 1 (Fin 0); strata_mean_of 10 (Fin 4);
     strata_mean_of 20 (Fin 7)]
  = Raise ValueError.
Proof.
  pose proof (impute_missing_raises_iff [1; 4; 5; 10; 20]%Z
                [strata_mean_of 1 (Fin 0); strata_mean_of 10 (Fin 4);
                 strata_mean_of 20 (Fin 7)]) as H.
  cbv zeta in H. destruct H as [_ [_ H]].
  apply (H 22500%Z).
  - discriminate.
  - intros r Hin. simpl in Hin.
    destruct Hin as [<- | [<- | [<- | []]]]; reflexivity.
  - vm_compute. apply le_n.
Defined.

Lemma fsum_Permutation (l l' : list float) :
  Permutation l l' -> feq (fsum l) (fsum l').
Proof.
  induction 1 as [|x l l' _ IH|x y l|l l' l'' _ IH1 _ IH2].
  - reflexivity.
  - rewrite !fsum_cons, IH. reflexivity.
  - rewrite !fsum_cons, <- !fadd_assoc, (fadd_comm y x). reflexivity.
  - rewrite IH1. exact IH2.
Qed.

Lemma filter_Permutation {A : Type} (p : A -> bool) (l l' : list A) :
  Permutation l l' -> Permutation (filter p l) (filter p l').
Proof.
  induction 1 as [|x l l' _ IH|x y l|l l' l'' _ IH1 _ IH2]; simpl.
  - apply perm_nil.
  - destruct (p x); [apply perm_skip|]; exact IH.
  - destruct (p x), (p y); try apply Permutation_refl. apply perm_swap.
  - apply (Permutation_trans IH1 IH2).
Qed.

Lemma series_mean_Permutation (l l' : list float) :
  Permutation l l' -> feq (series_mean l) (series_mean l').
Proof.
  intro H. unfold series_mean, fnansum, count_notnan.
  pose proof (filter_Permutation (fun x => negb (isnan x)) l l' H) as Hf.
  rewrite (Permutation_length Hf), (fsum_Permutation _ _ Hf). reflexivity.
Qed.

Section ImputeProofs.

Variable present : list Z.

(** The rows [impute_value] averages for stratum [i]. *)
Let bracket (i : Z) (r : strata_mean_row) : bool :=
  isin_opt (sm_stratum_num r)
           (max_list (filter (fun p => Z.ltb p i) present))
           (min_list (filter (fun p => Z.gtb p i) present)).

Lemma bracket_present (i : Z) (r : strata_mean_row) :
  bracket i r = true -> In (sm_stratum_num r) present.
Proof.
  unfold bracket, isin_opt, max_list, min_list. intro H.
  apply orb_true_iff in H. destruct H as [H | H].
  - destruct (filter (fun p => Z.ltb p i) present) as [|k t] eqn:E;
      [discriminate|].
    apply Z.eqb_eq in H.
    pose proof (proj1 (fold_max_In t k)) as Hin.
    rewrite <- H in Hin. rewrite <- E in Hin.
    apply filter_In in Hin. tauto.
  - destruct (filter (fun p => Z.gtb p i) present) as [|k t] eqn:E;
      [discriminate|].
    apply Z.eqb_eq in H.
    pose proof (proj1 (fold_min_In t k)) as Hin.
    rewrite <- H in Hin. rewrite <- E in Hin.
    apply filter_In in Hin. tauto.
Qed.

Lemma impute_value_bracket (df : list strata_mean_row) (i : Z) :
  impute_value present df i
  = series_mean (map mean_sigma_bs (filter (bracket i) df)).
Proof. reflexivity. Qed.

Lemma assign_where_bracket (df : list strata_mean_row) (i j : Z) (v : float) :
  ~ In i present ->
  filter (bracket j) (assign_where df i v) = filter (bracket j) df.
Proof.
  intro Hi. unfold assign_where.
  induction df as [|r t IH]; [reflexivity|]. cbn [map filter].
  destruct (Z.eqb_spec (sm_stratum_num r) i) as [E | E].
  - assert (H1 : bracket j r = false).
    { destruct (bracket j r) eqn:B; [|reflexivity].
      apply bracket_present in B. rewrite E in B. contradiction. }
    assert (H2 : bracket j {| sm_stratum_num := sm_stratum_num r;
                              sm_species_id := sm_species_id r;
                              mean_sigma_bs := v |} = false).
    { exact H1. }
    rewrite H1, H2. exact IH.
  - rewrite IH. reflexivity.
Qed.

Lemma In_assign_where (df : list strata_mean_row) (i : Z) (v : float)
  (r : strata_mean_row) :
  In r (assign_where df i v)
  <-> exists r0, In r0 df
                 /\ r = if Z.eqb (sm_stratum_num r0) i
                        then {| sm_stratum_num := sm_stratum_num r0;
                                sm_species_id := sm_species_id r0;
                                mean_sigma_bs := v |}
                        else r0.
Proof.
  unfold assign_where. rewrite in_map_iff. split.
  - intros [r0 [E H]]. exists r0. split; [exact H|symmetry; exact E].
  - intros [r0 [H E]]. exists r0. split; [symmetry; exact E|exact H].
Qed.

(** The loop over the missing strata. *)
Let impute_loop (ms : list Z) (acc : list strata_mean_row)
  : list strata_mean_row :=
  fold_left (fun acc i => assign_where acc i (impute_value present acc i))
            ms acc.

Lemma impute_loop_rows (ms : list Z) :
  (forall i, In i ms -> ~ In i present) ->
  forall acc r,
    In r (impute_loop ms acc) ->
    (In r acc /\ ~ In (sm_stratum_num r) ms)
    \/ (In (sm_stratum_num r) ms
        /\ mean_sigma_bs r = impute_value present acc (sm_stratum_num r)
        /\ exists r0, In r0 acc
                      /\ sm_stratum_num r0 = sm_stratum_num r
                      /\ sm_species_id r0 = sm_species_id r).
Proof.
  induction ms as [|i rest IH]; intros Hms acc r Hin.
  - left. split; [exact Hin|intros []].
  - unfold impute_loop in Hin. cbn [fold_left] in Hin.
    fold (impute_loop rest
            (assign_where acc i (impute_value present acc i))) in Hin.
    assert (Hi : ~ In i present) by (apply Hms; left; reflexivity).
    destruct (IH (fun j Hj => Hms j (or_intror Hj)) _ _ Hin)
      as [[H1 Hn] | [Hs [Hv [r1 [H1 [Es Ep]]]]]].
    + apply In_assign_where in H1. destruct H1 as [r0 [H0 Er]].
      destruct (Z.eqb_spec (sm_stratum_num r0) i) as [E | E].
      * right. subst r. cbn [sm_stratum_num mean_sigma_bs sm_species_id].
        split; [left; symmetry; exact E|]. split; [rewrite E; reflexivity|].
        exists r0. auto.
      * left. subst r. split; [exact H0|].
        intros [Hc | Hc]; [apply E; symmetry; exact Hc|exact (Hn Hc)].
    + right. split; [right; exact Hs|]. split.
      * rewrite Hv, !impute_value_bracket, assign_where_bracket by exact Hi.
        reflexivity.
      * apply In_assign_where in H1. destruct H1 as [r0 [H0 Er]].
        exists r0. split; [exact H0|].
        destruct (Z.eqb (sm_stratum_num r0) i); subst r1;
          cbn [sm_stratum_num sm_species_id] in *; auto.
Qed.

Lemma impute_loop_keeps (ms : list Z) :
  forall acc r,
    In r acc -> ~ In (sm_stratum_num r) ms -> In r (impute_loop ms acc).
Proof.
  induction ms as [|i rest IH]; intros acc r Hin Hn; [exact Hin|].
  unfold impute_loop. cbn [fold_left]. apply IH.
  - apply In_assign_where. exists r. split; [exact Hin|].
    destruct (Z.eqb_spec (sm_stratum_num r) i) as [E | E]; [|reflexivity].
    exfalso. apply Hn. left. symmetry. exact E.
  - intro Hc. apply Hn. right. exact Hc.
Qed.

Lemma impute_loop_covers (ms : list Z) :
  forall acc r0,
    In r0 acc ->
    exists r, In r (impute_loop ms acc)
              /\ sm_stratum_num r = sm_stratum_num r0
              /\ sm_species_id r = sm_species_id r0.
Proof.
  induction ms as [|i rest IH]; intros acc r0 Hin.
  - exists r0. auto.
  - unfold impute_loop. cbn [fold_left].
    set (v := impute_value present acc i).
    set (r1 := if Z.eqb (sm_stratum_num r0) i
               then {| sm_stratum_num := sm_stratum_num r0;
                       sm_species_id := sm_species_id r0;
                       mean_sigma_bs := v |}
               else r0).
    assert (H1 : In r1 (assign_where acc i v)).
    { apply In_assign_where. exists r0. auto. }
    destruct (IH _ r1 H1) as [r [Hr [Es Ep]]].
    exists r. split; [exact Hr|].
    unfold r1 in Es, Ep.
    destruct (Z.eqb (sm_stratum_num r0) i);
      cbn [sm_stratum_num sm_species_id] in *; auto.
Qed.

End ImputeProofs.

Lemma In_combine_exists {A B : Type} (l : list A) :
  forall (l' : list B) (x : A),
    length l = length l' -> In x l -> exists y, In (x, y) (combine l l').
Proof.
  induction l as [|a t IH]; intros [|b t'] x Hlen Hin; simpl in *;
    try contradiction; try discriminate.
  destruct Hin as [-> | Hin].
  - exists b. left. reflexivity.
  - destruct (IH t' x ltac:(lia) Hin) as [y Hy]. exists y. right. exact Hy.
Qed.

(** What the imputation writes.  When it returns, the rows of
    [strata_mean] are kept, every missing stratum has a row, and the value
    of a missing stratum is the mean [impute_value] takes over the rows of
    the original table at the nearest known stratum below and the nearest
    known stratum above: it does not depend on the other missing strata
    nor on the order in which they are processed. *)
Theorem impute_missing_values (strata_df_stratum_num : list Z)
  (strata_mean out : list strata_mean_row) :
  impute_missing_sigma_bs strata_df_stratum_num strata_mean = Ok out ->
  (forall r, In r strata_mean -> In r out)
  /\ (forall s, In s (missing_strata_of strata_df_stratum_num strata_mean) ->
                exists r, In r out /\ sm_stratum_num r = s)
  /\ (forall r, In r out ->
        In r strata_mean
        \/ (In (sm_stratum_num r)
               (missing_strata_of strata_df_stratum_num strata_mean)
            /\ feq (mean_sigma_bs r)
                   (impute_value (present_strata_of strata_mean) strata_mean
                                 (sm_stratum_num r)))).
Proof.
  rewrite impute_missing_unfold. cbv zeta.
  set (missing := missing_strata_of strata_df_stratum_num strata_mean).
  set (species := np_unique (map sm_species_id strata_mean)).
  set (present := present_strata_of strata_mean).
  set (new := map (fun p => {| sm_stratum_num := fst p;
                               sm_species_id := snd p;
                               mean_sigma_bs := NaN |})
                  (combine missing species)).
  set (sigma0 := sort_values sm_stratum_num (strata_mean ++ new)).
  assert (Hmiss : forall i, In i missing -> ~ In i present).
  { intros i Hi Hp. unfold missing, missing_strata_of in Hi.
    apply filter_In in Hi. destruct Hi as [_ Hi].
    apply negb_true_iff in Hi.
    apply mem_Z_In in Hp. unfold present, present_strata_of in Hp.
    congruence. }
  assert (Hpres : forall r, In r strata_mean -> In (sm_stratum_num r) present).
  { intros r Hr. unfold present, present_strata_of. apply np_unique_In.
    apply in_map. exact Hr. }
  assert (Hnew : forall r, In r new -> In (sm_stratum_num r) missing).
  { intros r Hr. unfold new in Hr. apply in_map_iff in Hr.
    destruct Hr as [[s sp] [<- Hp]]. simpl.
    apply (in_combine_l _ _ _ _ Hp). }
  assert (Hperm : Permutation sigma0 (strata_mean ++ new)).
  { apply sort_values_Permutation. }
  destruct (Nat.ltb 0 (length missing)) eqn:El.
  - destruct (Nat.eqb_spec (length missing) (length species)) as [Elen | Elen];
      cbn [negb]; [|discriminate].
    intro H. injection H as <-. split; [|split].
    + intros r Hr. apply impute_loop_keeps.
      * apply (Permutation_in r (Permutation_sym Hperm)).
        apply in_app_iff. left. exact Hr.
      * intro Hc. apply (Hmiss _ Hc). apply Hpres. exact Hr.
    + intros s Hs.
      destruct (In_combine_exists missing species s Elen Hs) as [sp Hp].
      destruct (impute_loop_covers present missing sigma0
                  {| sm_stratum_num := s; sm_species_id := sp;
                     mean_sigma_bs := NaN |}) as [r [Hr [Es _]]].
      * apply (Permutation_in _ (Permutation_sym Hperm)).
        apply in_app_iff. right. unfold new.
        apply in_map_iff. exists (s, sp). auto.
      * exists r. split; [exact Hr|exact Es].
    + intros r Hr.
      destruct (impute_loop_rows present missing Hmiss sigma0 r Hr)
        as [[H0 Hn] | [Hs [Hv _]]].
      * left. apply (Permutation_in r Hperm) in H0.
        apply in_app_iff in H0. destruct H0 as [H0 | H0]; [exact H0|].
        exfalso. apply Hn. apply Hnew. exact H0.
      * right. split; [exact Hs|]. rewrite Hv.
        unfold impute_value. apply series_mean_Permutation.
        apply Permutation_map.
        match goal with |- Permutation (filter ?p _) _ => set (b := p) end.
        apply Permutation_trans with (filter b (strata_mean ++ new)).
        -- apply filter_Permutation. exact Hperm.
        -- rewrite filter_app.
           assert (Hnil : filter b new = []).
           { apply existsb_false_filter.
             destruct (existsb b new) eqn:Ex; [|reflexivity].
             apply existsb_exists in Ex. destruct Ex as [r' [Hr' Hb]].
             exfalso. apply (Hmiss (sm_stratum_num r')).
             - apply Hnew. exact Hr'.
             - apply (bracket_present present (sm_stratum_num r) r'). exact Hb. }
           rewrite Hnil, app_nil_r. apply Permutation_refl.
  - intro H. injection H as <-. split; [|split].
    + auto.
    + intros s Hs. destruct missing; [destruct Hs|discriminate].
    + intros r Hr. left. exact Hr.
Qed.

Lemma impute_missing_values_witness :
  exists r,
    In r [strata_mean_of 1 (Fin 1); strata_mean_of 2 (Fin 3);
          strata_mean_of 3 (Fin (14 # 2)); strata_mean_of 10 (Fin 11)]
    /\ sm_stratum_num r = 3%Z.
Proof.
  destruct (impute_missing_values [1; 2; 3; 10]%Z
              [strata_mean_of 1 (Fin 1); strata_mean_of 2 (Fin 3);
               strata_mean_of 10 (Fin 11)]
              [strata_mean_of 1 (Fin 1); strata_mean_of 2 (Fin 3);
               strata_mean_of 3 (Fin (14 # 2)); strata_mean_of 10 (Fin 11)]
              eq_refl) as [_ [H _]].
  apply (H 3%Z). vm_compute. left. reflexivity.
Defined.

(** ** CompositionEstimator: length distributions *)

(** A value that is not NaN falls into some bin, whatever the bin
    centers. *)
Lemma bin_of_value_exists (input_data : list float) (centered_bins : list Q)
  (hist_ind : list (list nat)) (idx : nat) (v : float) :
  (2 <= length centered_bins)%nat ->
  _get_bin_ind input_data centered_bins = Ok hist_ind ->
  nth_error input_data idx = Some v ->
  isnan v = false ->
  exists b, (b < length centered_bins)%nat /\ in_bin hist_ind b idx.
Proof.
  intros Hn Hrun Hv Hnan.
  destruct (get_bin_ind_shape input_data centered_bins Hn)
    as [hist [Hrun' [Hlen [_ [Hfirst [Hmid Hlast]]]]]].
  assert (E : hist = hist_ind) by congruence. subst hist.
  set (n := length centered_bins) in *.
  set (P := fun i => fle_b v (Fin (boundary centered_bins i))).
  destruct (selects_exists P (n - 2)) as [j [Hj Hsel]].
  exists j. split; [lia|].
  destruct Hsel as [[-> H] | [[Hb [Ha Hc]] | [-> H]]].
  - apply Hfirst. exists v. auto.
  - apply Hmid; [lia|]. exists v. split; [exact Hv|]. split; [|exact Hc].
    rewrite flt_b_negb_fle_b by exact Hnan. unfold P in Ha. rewrite Ha.
    reflexivity.
  - replace (S (n - 2)) with (n - 1)%nat by lia.
    apply Hlast. exists v. split; [exact Hv|].
    rewrite flt_b_negb_fle_b by exact Hnan. unfold P in H. rewrite H.
    reflexivity.
Qed.

Lemma Qsum_r_nonneg (l : list Q) :
  (forall q, In q l -> 0 <= q) -> 0 <= Qsum_r l.
Proof.
  induction l as [|a t IH]; intro H; simpl; [apply Qle_refl|].
  assert (H1 : 0 <= a) by (apply H; left; reflexivity).
  assert (H2 : 0 <= Qsum_r t) by (apply IH; intros q Hq; apply H; right; exact Hq).
  lra.
Qed.

Lemma Qsum_r_ge_elem (l : list Q) (x : Q) :
  (forall q, In q l -> 0 <= q) -> In x l -> x <= Qsum_r l.
Proof.
  induction l as [|a t IH]; intros H Hin; [destruct Hin|]. simpl.
  assert (H1 : 0 <= a) by (apply H; left; reflexivity).
  assert (H2 : 0 <= Qsum_r t)
    by (apply Qsum_r_nonneg; intros q Hq; apply H; right; exact Hq).
  destruct Hin as [-> | Hin].
  - lra.
  - assert (H3 : x <= Qsum_r t)
      by (apply IH; [intros q Hq; apply H; right; exact Hq|exact Hin]).
    lra.
Qed.

(** Counts that are finite, not negative and not all zero, divided by
    their sum, form a distribution: every entry lies between 0 and 1 and
    the entries add up to 1. *)
Lemma normalise_counts (cnt : list float) :
  (forall c, In c cnt -> exists q, c = Fin q /\ 0 <= q) ->
  (exists c, In c cnt /\ ~ toQ c == 0) ->
  (forall x, In x (map (fun c => fdiv c (fsum cnt)) cnt) ->
             exists q, x = Fin q /\ 0 <= q <= 1)
  /\ feq (fsum (map (fun c => fdiv c (fsum cnt)) cnt)) (Fin 1).
Proof.
  intros Hfin [c0 [Hc0 Hnz]].
  assert (Hfin' : forall x, In x cnt -> exists q, x = Fin q).
  { intros x Hx. destruct (Hfin x Hx) as [q [-> _]]. exists q. reflexivity. }
  destruct (fsum_view cnt Hfin') as [ET HT].
  set (T := toQ (fsum cnt)) in *.
  assert (Hnn : forall q, In q (map toQ cnt) -> 0 <= q).
  { intros q Hq. apply in_map_iff in Hq. destruct Hq as [c [<- Hc]].
    destruct (Hfin c Hc) as [q' [-> Hq']]. exact Hq'. }
  assert (Hle : forall c, In c cnt -> toQ c <= T).
  { intros c Hc. rewrite HT. apply Qsum_r_ge_elem; [exact Hnn|].
    apply in_map. exact Hc. }
  assert (HTpos : 0 < T).
  { assert (H0 : 0 <= toQ c0) by (apply Hnn; apply in_map; exact Hc0).
    assert (H1 : toQ c0 <= T) by (apply Hle; exact Hc0).
    destruct (Qlt_le_dec 0 (toQ c0)) as [H | H]; [lra|].
    exfalso. apply Hnz. lra. }
  assert (HTb : Qeq_bool T 0 = false).
  { destruct (Qeq_bool T 0) eqn:E; [|reflexivity].
    apply Qeq_bool_iff in E. lra. }
  assert (Hcell : forall c, In c cnt ->
                            fdiv c (fsum cnt) = Fin (toQ c / T)).
  { intros c Hc. destruct (Hfin c Hc) as [q [-> _]]. rewrite ET.
    simpl. rewrite HTb. reflexivity. }
  split.
  - intros x Hx. apply in_map_iff in Hx. destruct Hx as [c [<- Hc]].
    rewrite (Hcell c Hc). exists (toQ c / T). split; [reflexivity|].
    assert (H0 : 0 <= toQ c) by (apply Hnn; apply in_map; exact Hc).
    pose proof (Hle c Hc) as H1.
    split.
    + apply Qle_shift_div_l; [exact HTpos|]. lra.
    + apply Qle_shift_div_r; [exact HTpos|]. lra.
  - destruct (fsum_view (map (fun c => fdiv c (fsum cnt)) cnt)) as [E Hq].
    { intros x Hx. apply in_map_iff in Hx. destruct Hx as [c [<- Hc]].
      rewrite (Hcell c Hc). eexists. reflexivity. }
    rewrite E. simpl. rewrite Hq, map_map.
    rewrite (Qsum_r_ext _ (fun c => (1 / T) * toQ c)).
    + rewrite Qsum_r_scale, <- HT. field. lra.
    + intros c Hc. rewrite (Hcell c Hc). simpl. field. lra.
Qed.

Lemma take_In (arr : list float) (ind : list nat) (x : float) :
  (forall i, In i ind -> (i < length arr)%nat) ->
  In x (take arr ind) -> In x arr.
Proof.
  intros Hb Hx. unfold take in Hx. apply in_map_iff in Hx.
  destruct Hx as [i [<- Hi]]. apply nth_In. apply Hb. exact Hi.
Qed.

Section DistributionProofs.

Variable bio_hake_len_bin : list Q.
Hypothesis two_bins : (2 <= length bio_hake_len_bin)%nat.

(** The per-bin counts of station 2: finite, not negative, and not all
    zero as soon as one specimen has a length. *)
Lemma station2_counts (df : list specimen_row) (hist : list (list nat)) :
  _get_bin_ind (map sp_length df) bio_hake_len_bin = Ok hist ->
  (exists r, In r df /\ isnan (sp_length r) = false) ->
  (forall c, In c (map (fun i : list nat => Fin (Qnat (length i))) hist) ->
             exists q, c = Fin q /\ 0 <= q)
  /\ (exists c, In c (map (fun i : list nat => Fin (Qnat (length i))) hist)
                /\ ~ toQ c == 0).
Proof.
  intros Hrun [r [Hr Hnan]]. split.
  - intros c Hc. apply in_map_iff in Hc.
    destruct Hc as [i [<- _]]. eexists. split; [reflexivity|].
    unfold Qnat. change 0 with (inject_Z 0). rewrite <- Zle_Qle. lia.
  - destruct (In_nth df r r Hr) as [idx [Hidx Eidx]].
    assert (Hv : nth_error (map sp_length df) idx = Some (sp_length r)).
    { rewrite nth_error_map, (nth_error_nth' df r Hidx), Eidx. reflexivity. }
    destruct (bin_of_value_exists _ _ _ idx _ two_bins Hrun Hv Hnan)
      as [b [Hb Hin]].
    destruct (get_bin_ind_ok (map sp_length df) bio_hake_len_bin two_bins)
      as [hist' [Hrun' Hlen]].
    assert (E : hist' = hist) by congruence. subst hist'.
    exists (Fin (Qnat (length (nth b hist [])))). split.
    + apply (in_map (fun i : list nat => Fin (Qnat (length i)))).
      apply nth_In. lia.
    + simpl. apply Qnat_nonzero. unfold in_bin in Hin.
      destruct (nth b hist []); [destruct Hin|simpl; lia].
Qed.

(** The per-bin counts of station 1, under the analogous conditions. *)
Lemma station1_counts (df : list length_row) (hist : list (list nat)) :
  _get_bin_ind (map ln_length df) bio_hake_len_bin = Ok hist ->
  (forall r, In r df -> exists q, ln_length_count r = Fin q /\ 0 <= q) ->
  (exists r, In r df /\ isnan (ln_length r) = false
             /\ ~ toQ (ln_length_count r) == 0) ->
  (forall c,
      In c (map (fun i => fsum (take (map ln_length_count df) i)) hist) ->
      exists q, c = Fin q /\ 0 <= q)
  /\ (exists c,
        In c (map (fun i => fsum (take (map ln_length_count df) i)) hist)
        /\ ~ toQ c == 0).
Proof.
  intros Hrun Hcnt [r [Hr [Hnan Hnz]]].
  destruct (get_bin_ind_ok (map ln_length df) bio_hake_len_bin two_bins)
    as [hist' [Hrun' Hlen]].
  assert (E : hist' = hist) by congruence. subst hist'.
  set (w := map ln_length_count df).
  assert (Hbound : forall b i, In i (nth b hist []) -> (i < length w)%nat).
  { intros b i Hi. unfold w. rewrite length_map.
    rewrite <- (length_map ln_length).
    apply (get_bin_ind_bound _ _ _ two_bins Hrun b i Hi). }
  assert (Hw : forall x, In x w -> exists q, x = Fin q /\ 0 <= q).
  { intros x Hx. unfold w in Hx. apply in_map_iff in Hx.
    destruct Hx as [r' [<- Hr']]. apply Hcnt. exact Hr'. }
  assert (Hbin : forall b, (b < length hist)%nat ->
             (forall x, In x (take w (nth b hist [])) ->
                        exists q, x = Fin q /\ 0 <= q)).
  { intros b Hb x Hx. apply Hw. apply (take_In w (nth b hist [])).
    - apply (Hbound b).
    - exact Hx. }
  assert (Hsum : forall b, (b < length hist)%nat ->
             fsum (take w (nth b hist []))
             = Fin (toQ (fsum (take w (nth b hist []))))
             /\ 0 <= toQ (fsum (take w (nth b hist [])))
             /\ forall x, In x (take w (nth b hist [])) ->
                          toQ x <= toQ (fsum (take w (nth b hist [])))).
  { intros b Hb.
    destruct (fsum_view (take w (nth b hist []))) as [E Hq].
    { intros x Hx. destruct (Hbin b Hb x Hx) as [q [-> _]]. eexists.
      reflexivity. }
    assert (Hnn : forall q, In q (map toQ (take w (nth b hist []))) -> 0 <= q).
    { intros q Hq'. apply in_map_iff in Hq'. destruct Hq' as [x [<- Hx]].
      destruct (Hbin b Hb x Hx) as [q' [-> H']]. exact H'. }
    split; [exact E|]. split.
    - rewrite Hq. apply Qsum_r_nonneg. exact Hnn.
    - intros x Hx. rewrite Hq. apply Qsum_r_ge_elem; [exact Hnn|].
      apply in_map. exact Hx. }
  split.
  - intros c Hc. apply in_map_iff in Hc. destruct Hc as [i [<- Hi]].
    destruct (In_nth hist i [] Hi) as [b [Hb Eb]]. subst i.
    destruct (Hsum b Hb) as [E [H0 _]].
    exists (toQ (fsum (take w (nth b hist [])))). split; [exact E|exact H0].
  - destruct (In_nth df r r Hr) as [idx [Hidx Eidx]].
    assert (Hv : nth_error (map ln_length df) idx = Some (ln_length r)).
    { rewrite nth_error_map, (nth_error_nth' df r Hidx), Eidx. reflexivity. }
    destruct (bin_of_value_exists _ _ _ idx _ two_bins Hrun Hv Hnan)
      as [b [Hb Hin]].
    rewrite <- Hlen in Hb.
    exists (fsum (take w (nth b hist []))). split.
    + apply in_map_iff. exists (nth b hist []). split; [reflexivity|].
      apply nth_In. exact Hb.
    + destruct (Hsum b Hb) as [_ [H0 Hle]].
      assert (Hx : In (ln_length_count r) (take w (nth b hist []))).
      { unfold take. apply in_map_iff. exists idx. split; [|exact Hin].
        unfold w. rewrite (nth_map_in _ df idx NaN r) by exact Hidx.
        rewrite Eidx. reflexivity. }
      pose proof (Hle _ Hx) as H1.
      destruct (Hcnt r Hr) as [q [Eq Hq0]]. rewrite Eq in H1, Hnz.
      simpl in H1, Hnz. intro Hz. apply Hnz. lra.
Qed.

(** The length distribution of station 2 is a distribution as soon as one
    specimen has a length: one entry per length bin, every entry between
    0 and 1, and the entries add up to 1.  Specimens without a length are
    not counted. *)
Theorem station2_distribution_normalised (df : list specimen_row) :
  (exists r, In r df /\ isnan (sp_length r) = false) ->
  exists dist,
    _get_distribution_lengths_station_2 bio_hake_len_bin df = Ok dist
    /\ length dist = length bio_hake_len_bin
    /\ (forall x, In x dist -> exists q, x = Fin q /\ 0 <= q <= 1)
    /\ feq (fsum dist) (Fin 1).
Proof.
  intro Hex.
  unfold _get_distribution_lengths_station_2.
  destruct (get_bin_ind_ok (map sp_length df) bio_hake_len_bin two_bins)
    as [hist [Hrun Hlen]].
  rewrite Hrun. cbn [bind].
  eexists. split; [reflexivity|].
  split; [rewrite !length_map; exact Hlen|].
  destruct (station2_counts df hist Hrun Hex) as [Hfin Hnz].
  apply normalise_counts; assumption.
Qed.

(** The length distribution of station 1 is a distribution as soon as the
    counts are finite and not negative and one row with a length has a
    count that is not zero. *)
Theorem station1_distribution_normalised (df : list length_row) :
  (forall r, In r df -> exists q, ln_length_count r = Fin q /\ 0 <= q) ->
  (exists r, In r df /\ isnan (ln_length r) = false
             /\ ~ toQ (ln_length_count r) == 0) ->
  exists dist,
    _get_distribution_lengths_station_1 bio_hake_len_bin df = Ok dist
    /\ length dist = length bio_hake_len_bin
    /\ (forall x, In x dist -> exists q, x = Fin q /\ 0 <= q <= 1)
    /\ feq (fsum dist) (Fin 1).
Proof.
  intros Hcnt Hex.
  unfold _get_distribution_lengths_station_1.
  destruct (get_bin_ind_ok (map ln_length df) bio_hake_len_bin two_bins)
    as [hist [Hrun Hlen]].
  rewrite Hrun. cbn [bind].
  eexists. split; [reflexivity|].
  split; [rewrite !length_map; exact Hlen|].
  destruct (station1_counts df hist Hrun Hcnt Hex) as [Hfin Hnz].
  apply normalise_counts; assumption.
Qed.

End DistributionProofs.

Lemma station2_distribution_normalised_witness :
  exists dist,
    _get_distribution_lengths_station_2 [20; 30; 40] two_hauls_spec = Ok dist
    /\ feq (fsum dist) (Fin 1).
Proof.
  destruct (station2_distribution_normalised [20; 30; 40]
              ltac:(simpl; lia) two_hauls_spec)
    as [dist [E [_ [_ H]]]].
  - exists (specimen 1 30 1 1). split; [left; reflexivity|reflexivity].
  - exists dist. split; [exact E|exact H].
Defined.

Lemma station1_distribution_normalised_witness :
  exists dist,
    _get_distribution_lengths_station_1 [20; 30; 40] balanced_len = Ok dist
    /\ feq (fsum dist) (Fin 1).
Proof.
  destruct (station1_distribution_normalised [20; 30; 40]
              ltac:(simpl; lia) balanced_len)
    as [dist [E [_ [_ H]]]].
  - intros r Hin. simpl in Hin.
    destruct Hin as [<- | [<- | []]]; eexists; (split; [reflexivity|]);
      discriminate.
  - exists (measured 1 30 1 1). split; [left; reflexivity|].
    split; [reflexivity|]. simpl. intro Hc. discriminate Hc.
  - exists dist. split; [exact E|exact H].
Defined.

(** ** CompositionEstimator: proportions and averaged weight *)

Lemma fdiv_Fin (x y : Q) : ~ y == 0 -> fdiv (Fin x) (Fin y) = Fin (x / y).
Proof.
  intro H. simpl. destruct (Qeq_bool y 0) eqn:E; [|reflexivity].
  apply Qeq_bool_iff in E. contradiction.
Qed.

Lemma length_count_sum_view (df : list length_row) :
  (forall r, In r df -> exists q, ln_length_count r = Fin q /\ 0 <= q) ->
  length_count_sum df = Fin (toQ (length_count_sum df))
  /\ toQ (length_count_sum df)
     == Qsum_r (map (fun r => toQ (ln_length_count r)) df)
  /\ 0 <= toQ (length_count_sum df).
Proof.
  intro H. unfold length_count_sum.
  destruct (fnansum_view (map ln_length_count df)) as [E Hq].
  { intros x Hx. apply in_map_iff in Hx. destruct Hx as [r [<- Hr]].
    destruct (H r Hr) as [q [-> _]]. left. eexists. reflexivity. }
  split; [exact E|]. rewrite Hq, map_map. split; [reflexivity|].
  apply Qsum_r_nonneg. intros q Hq'. apply in_map_iff in Hq'.
  destruct Hq' as [r [<- Hr]]. destruct (H r Hr) as [q' [-> H']]. exact H'.
Qed.

Lemma Qnat_nonneg (n : nat) : 0 <= Qnat n.
Proof.
  unfold Qnat. change 0 with (inject_Z 0). rewrite <- Zle_Qle. lia.
Qed.

(** The proportions of one stratum.  [sm] and [sf] are the numbers of male
    and female specimens, [cl], [cm] and [cf] the station-1 counts of all
    fish, of males and of females. *)
Lemma compute_proportions_view
  (spec_strata_m spec_strata_f : list specimen_row)
  (len_strata len_strata_m len_strata_f : list length_row) :
  let sm := Qnat (length spec_strata_m) in
  let sf := Qnat (length spec_strata_f) in
  let cl := toQ (length_count_sum len_strata) in
  let cm := toQ (length_count_sum len_strata_m) in
  let cf := toQ (length_count_sum len_strata_f) in
  let p := _compute_proportions spec_strata_m spec_strata_f
                                len_strata len_strata_m len_strata_f in
  length_count_sum len_strata = Fin cl ->
  length_count_sum len_strata_m = Fin cm ->
  length_count_sum len_strata_f = Fin cf ->
  0 < sm + sf + cl ->
  exists gm gf a b,
    gender_prop p = (Fin gm, Fin gf)
    /\ tot_prop p = (Fin a, Fin b)
    /\ gm == (sm + cm) / (sm + sf + cl)
    /\ gf == (sf + cf) / (sm + sf + cl)
    /\ b == (sm + sf) / (sm + sf + cl)
    /\ a == 1 - b.
Proof.
  intros sm sf cl cm cf p El Em Ef HT.
  assert (HT0 : ~ sm + sf + cl == 0) by lra.
  unfold p, _compute_proportions, shape0.
  rewrite El, Em, Ef. fold sm sf.
  cbn [fadd fsub fopp fmul].
  rewrite !(fdiv_Fin _ (sm + sf + cl) HT0).
  cbn [fadd fsub fopp fmul gender_prop tot_prop].
  set (t2 := sm / (sm + sf + cl) + sf / (sm + sf + cl)).
  assert (E1 : 1 + - t2 + t2 == 1) by ring.
  assert (H1 : ~ (1 + - t2) + t2 == 0) by (rewrite E1; discriminate).
  rewrite (fdiv_Fin _ _ H1). cbn [fadd].
  assert (Ea : (1 + - t2) / (1 + - t2 + t2) == 1 - t2)
    by (rewrite E1; field).
  assert (E2 : (1 + - t2) / (1 + - t2 + t2) + t2 == 1)
    by (rewrite Ea; ring).
  assert (H2 : ~ (1 + - t2) / ((1 + - t2) + t2) + t2 == 0)
    by (rewrite E2; discriminate).
  rewrite (fdiv_Fin _ _ H2).
  assert (Eb : t2 / ((1 + - t2) / (1 + - t2 + t2) + t2) == t2)
    by (rewrite E2; field).
  assert (Et : t2 == (sm + sf) / (sm + sf + cl))
    by (unfold t2; field; exact HT0).
  eexists _, _, _, _. split; [reflexivity|]. split; [reflexivity|].
  split; [field; exact HT0|]. split; [field; exact HT0|].
  split; [rewrite Eb; exact Et|]. rewrite Eb, Ea. reflexivity.
Qed.

Lemma blend_dot_view (a b lo hi : Q) :
  0 <= a -> 0 <= b ->
  forall (conv x y : list float),
    length x = length conv -> length y = length conv ->
    (forall e, In e x -> exists q, e = Fin q /\ 0 <= q) ->
    (forall e, In e y -> exists q, e = Fin q /\ 0 <= q) ->
    (forall c, In c conv -> exists q, c = Fin q /\ lo <= q <= hi) ->
    let terms := map (fun p => fmul (fst p) (snd p))
                     (combine (blend (Fin a) x (Fin b) y) conv) in
    (forall t, In t terms -> exists q, t = Fin q)
    /\ lo * (a * Qsum_r (map toQ x) + b * Qsum_r (map toQ y))
       <= Qsum_r (map toQ terms)
    /\ Qsum_r (map toQ terms)
       <= hi * (a * Qsum_r (map toQ x) + b * Qsum_r (map toQ y)).
Proof.
  intros Ha Hb.
  induction conv as [|c conv IH]; intros x y Hx Hy Fx Fy Fc.
  - destruct x; [|discriminate]. destruct y; [|discriminate]. simpl.
    split; [intros t []|]. split; lra.
  - destruct x as [|ex x]; [discriminate|].
    destruct y as [|ey y]; [discriminate|].
    destruct (Fx ex (or_introl eq_refl)) as [qx [-> Hqx]].
    destruct (Fy ey (or_introl eq_refl)) as [qy [-> Hqy]].
    destruct (Fc c (or_introl eq_refl)) as [qc [-> [Hlo Hhi]]].
    destruct (IH x y) as [Hfin [Hl Hh]].
    + simpl in Hx. lia.
    + simpl in Hy. lia.
    + intros e He. apply Fx. right. exact He.
    + intros e He. apply Fy. right. exact He.
    + intros e He. apply Fc. right. exact He.
    + cbv zeta in *. unfold blend in *.
      cbn [combine map].
      set (tail := map (fun p : float * float => fmul (fst p) (snd p))
                       (combine
                          (map (fun p : float * float =>
                                  fadd (fmul (Fin a) (fst p))
                                       (fmul (Fin b) (snd p)))
                               (combine x y))
                          conv)) in *.
      cbn [fst snd fmul fadd toQ Qsum_r fold_right map].
      fold (Qsum_r (map toQ x)) (Qsum_r (map toQ y)) (Qsum_r (map toQ tail)).
      set (rest := Qsum_r (map toQ tail)) in *.
      split.
      * intros t [<- | Ht]; [eexists; reflexivity|]. apply Hfin. exact Ht.
      * set (sx := Qsum_r (map toQ x)) in *.
        set (sy := Qsum_r (map toQ y)) in *.
        assert (Hw : 0 <= a * qx + b * qy).
        { assert (0 <= a * qx) by (apply Qmult_le_0_compat; assumption).
          assert (0 <= b * qy) by (apply Qmult_le_0_compat; assumption).
          lra. }
        assert (H1 : 0 <= (a * qx + b * qy) * (qc - lo))
          by (apply Qmult_le_0_compat; [exact Hw|lra]).
        assert (H2 : 0 <= (a * qx + b * qy) * (hi - qc))
          by (apply Qmult_le_0_compat; [exact Hw|lra]).
        split; nra.
Qed.


Lemma station1_count_nonneg (rows : list length_row) :
  (forall r, In r rows -> exists q, ln_length_count r = Fin q /\ 0 <= q) ->
  0 <= station1_count rows.
Proof.
  intro H. unfold station1_count. apply Qsum_r_nonneg.
  intros q Hq. apply in_map_iff in Hq. destruct Hq as [r [<- Hr]].
  destruct (H r Hr) as [q' [-> H']]. exact H'.
Qed.

Section AveragedWeightProofs.

Variable bio_hake_len_bin : list Q.
Hypothesis two_bins : (2 <= length bio_hake_len_bin)%nat.

Lemma distribution_station_1_ok (df : list length_row) :
  exists hist,
    _get_bin_ind (map ln_length df) bio_hake_len_bin = Ok hist
    /\ length hist = length bio_hake_len_bin
    /\ _get_distribution_lengths_station_1 bio_hake_len_bin df
       = Ok (map (fun c => fdiv c (fsum (map (fun i => fsum (take (map ln_length_count df) i)) hist)))
                 (map (fun i => fsum (take (map ln_length_count df) i)) hist)).
Proof.
  destruct (get_bin_ind_ok (map ln_length df) bio_hake_len_bin two_bins)
    as [hist [Hrun Hlen]].
  exists hist. split; [exact Hrun|]. split; [exact Hlen|].
  unfold _get_distribution_lengths_station_1. rewrite Hrun. reflexivity.
Qed.

Lemma distribution_station_2_ok (df : list specimen_row) :
  exists hist,
    _get_bin_ind (map sp_length df) bio_hake_len_bin = Ok hist
    /\ length hist = length bio_hake_len_bin
    /\ _get_distribution_lengths_station_2 bio_hake_len_bin df
       = Ok (map (fun c => fdiv c (fsum (map (fun i : list nat => Fin (Qnat (length i))) hist)))
                 (map (fun i : list nat => Fin (Qnat (length i))) hist)).
Proof.
  destruct (get_bin_ind_ok (map sp_length df) bio_hake_len_bin two_bins)
    as [hist [Hrun Hlen]].
  exists hist. split; [exact Hrun|]. split; [exact Hlen|].
  unfold _get_distribution_lengths_station_2. rewrite Hrun. reflexivity.
Qed.

Lemma df_loc_cases {A : Type} (df : list (Z * A)) (label : Z) :
  ((2 <= length (stratum_rows df label))%nat ->
   df_loc df label = Ok (DataFrame (stratum_rows df label)))
  /\ (forall row, stratum_rows df label = [row] ->
                  df_loc df label = Ok (Series row))
  /\ (stratum_rows df label = [] -> df_loc df label = Raise KeyError).
Proof.
  unfold df_loc.
  destruct (stratum_rows df label) as [|r0 [|r1 t]]; simpl.
  - split; [lia|]. split; [discriminate|reflexivity].
  - split; [lia|]. split; [|discriminate]. intros row E.
    injection E as <-. reflexivity.
  - split; [reflexivity|]. split; discriminate.
Qed.


(** The averaged weight of a stratum is a weighted mean of the
    length-weight key.  When the stratum has at least two rows in the
    specimen table and in the length table, both stations have measured
    fish (a
    station-1 row with a length and a count that is not zero, a male or
    female specimen with a length), the counts are finite and not
    negative, and every entry of the key lies between [lo] and [hi], then
    [averaged_weight] is finite and lies between [lo] and [hi]. *)
Theorem averaged_weight_within_key_range (stratum : Z)
  (spec_drop_df : list (Z * specimen_row))
  (length_drop_df : list (Z * length_row))
  (length_to_weight_conversion : list float) (lo hi : Q) :
  let spec_stratum := stratum_rows spec_drop_df stratum in
  let len_strata := stratum_rows length_drop_df stratum in
  (2 <= length spec_stratum)%nat ->
  (2 <= length len_strata)%nat ->
  length length_to_weight_conversion = length bio_hake_len_bin ->
  (forall c, In c length_to_weight_conversion ->
             exists q, c = Fin q /\ lo <= q <= hi) ->
  (forall r, In r len_strata ->
             exists q, ln_length_count r = Fin q /\ 0 <= q) ->
  (exists r, In r len_strata /\ isnan (ln_length r) = false
             /\ ~ toQ (ln_length_count r) == 0) ->
  (exists r, In r spec_stratum /\ (sp_sex r = 1%Z \/ sp_sex r = 2%Z)
             /\ isnan (sp_length r) = false) ->
  exists bp w,
    _fill_averaged_weight bio_hake_len_bin stratum spec_drop_df
                          length_drop_df length_to_weight_conversion = Ok bp
    /\ averaged_weight bp = Fin w /\ lo <= w <= hi.
Proof.
  intros spec_stratum len_strata Hs2 Hl2 Hlc Hconv Hcnt Hex1
         [r2 [Hr2 [Hsex Hnan2]]].
  unfold _fill_averaged_weight.
  rewrite (proj1 (df_loc_cases spec_drop_df stratum) Hs2),
    (proj1 (df_loc_cases length_drop_df stratum) Hl2).
  cbn [bind where_eq rows_of]. fold spec_stratum len_strata.
  fold (specimens_of_sex 1 spec_stratum) (specimens_of_sex 2 spec_stratum)
       (rows_of_sex 1 len_strata) (rows_of_sex 2 len_strata).
  set (sm := specimens_of_sex 1 spec_stratum).
  set (sf := specimens_of_sex 2 spec_stratum).
  set (lm := rows_of_sex 1 len_strata).
  set (lf := rows_of_sex 2 len_strata).
  assert (Hin2 : In r2 (sm ++ sf)).
  { apply in_app_iff. unfold sm, sf, specimens_of_sex.
    destruct Hsex as [E | E]; [left|right]; apply filter_In;
      (split; [exact Hr2|rewrite E; reflexivity]). }
  destruct (distribution_station_1_ok len_strata) as [h1 [R1 [L1 ->]]].
  destruct (distribution_station_1_ok lm) as [h1m [_ [_ ->]]].
  destruct (distribution_station_1_ok lf) as [h1f [_ [_ ->]]].
  destruct (distribution_station_2_ok (sm ++ sf)) as [h2 [R2 [L2 ->]]].
  destruct (distribution_station_2_ok sm) as [h2m [_ [_ ->]]].
  destruct (distribution_station_2_ok sf) as [h2f [_ [_ ->]]].
  cbn [bind].
  (* the two distributions *)
  destruct (station1_counts bio_hake_len_bin two_bins len_strata h1 R1
              Hcnt Hex1) as [F1 N1].
  destruct (normalise_counts _ F1 N1) as [D1 S1].
  destruct (station2_counts bio_hake_len_bin two_bins (sm ++ sf) h2 R2)
    as [F2 N2].
  { exists r2. split; [exact Hin2|exact Hnan2]. }
  destruct (normalise_counts _ F2 N2) as [D2 S2].
  set (d1 := map (fun c => fdiv c (fsum (map (fun i => fsum (take (map ln_length_count len_strata) i)) h1)))
                 (map (fun i => fsum (take (map ln_length_count len_strata) i)) h1)) in *.
  set (d2 := map (fun c => fdiv c (fsum (map (fun i : list nat => Fin (Qnat (length i))) h2)))
                 (map (fun i : list nat => Fin (Qnat (length i))) h2)) in *.
  assert (Ld1 : length d1 = length length_to_weight_conversion).
  { unfold d1. rewrite !length_map. congruence. }
  assert (Ld2 : length d2 = length length_to_weight_conversion).
  { unfold d2. rewrite !length_map. congruence. }
  (* the proportions *)
  assert (Hm : forall r, In r lm -> exists q, ln_length_count r = Fin q /\ 0 <= q).
  { intros r Hr. apply Hcnt. unfold lm, rows_of_sex in Hr.
    apply filter_In in Hr. tauto. }
  assert (Hf : forall r, In r lf -> exists q, ln_length_count r = Fin q /\ 0 <= q).
  { intros r Hr. apply Hcnt. unfold lf, rows_of_sex in Hr.
    apply filter_In in Hr. tauto. }
  destruct (length_count_sum_view len_strata Hcnt) as [El [_ Pl]].
  destruct (length_count_sum_view lm Hm) as [Em _].
  destruct (length_count_sum_view lf Hf) as [Ef _].
  assert (Hspec : 1 <= Qnat (length sm) + Qnat (length sf)).
  { rewrite <- Qnat_add, <- length_app.
    destruct (sm ++ sf) as [|x t]; [destruct Hin2|].
    cbn [length]. rewrite Qnat_S. pose proof (Qnat_nonneg (length t)). lra. }
  assert (HT : 0 < Qnat (length sm) + Qnat (length sf)
                   + toQ (length_count_sum len_strata)) by lra.
  destruct (compute_proportions_view sm sf len_strata lm lf El Em Ef HT)
    as [gm [gf [a [b [_ [Et [_ [_ [Hb Ha]]]]]]]]].
  assert (Hb01 : 0 <= b <= 1).
  { rewrite Hb. split.
    - apply Qle_shift_div_l; [exact HT|]. lra.
    - apply Qle_shift_div_r; [exact HT|]. lra. }
  assert (Ha0 : 0 <= a) by (rewrite Ha; lra).
  (* the dot product *)
  assert (D1' : forall e, In e d1 -> exists q, e = Fin q /\ 0 <= q).
  { intros e He. destruct (D1 e He) as [q [-> [H0 _]]]. eauto. }
  assert (D2' : forall e, In e d2 -> exists q, e = Fin q /\ 0 <= q).
  { intros e He. destruct (D2 e He) as [q [-> [H0 _]]]. eauto. }
  destruct (blend_dot_view a b lo hi Ha0 (proj1 Hb01)
              length_to_weight_conversion d1 d2 Ld1 Ld2 D1' D2' Hconv)
    as [Tfin [Tlo Thi]].
  cbv zeta in Tfin, Tlo, Thi.
  destruct (fsum_view _ Tfin) as [Esum Qsum'].
  assert (Q1 : Qsum_r (map toQ d1) == 1).
  { destruct (fsum_view d1) as [E Hq].
    - intros x Hx. destruct (D1 x Hx) as [q [-> _]]. eauto.
    - rewrite E in S1. simpl in S1. rewrite <- Hq. exact S1. }
  assert (Q2 : Qsum_r (map toQ d2) == 1).
  { destruct (fsum_view d2) as [E Hq].
    - intros x Hx. destruct (D2 x Hx) as [q [-> _]]. eauto.
    - rewrite E in S2. simpl in S2. rewrite <- Hq. exact S2. }
  eexists _, _. split; [reflexivity|].
  cbn [averaged_weight]. rewrite Et. cbn [fst snd]. unfold np_dot.
  split; [exact Esum|].
  rewrite Qsum'. rewrite Q1, Q2 in Tlo, Thi.
  assert (Eab : a * 1 + b * 1 == 1) by (rewrite Ha; ring).
  rewrite Eab in Tlo, Thi.
  split; lra.
Qed.


End AveragedWeightProofs.

Lemma balanced_len_counts :
  forall r, In r balanced_len ->
            exists q, ln_length_count r = Fin q /\ 0 <= q.
Proof.
  intros r Hin. simpl in Hin.
  destruct Hin as [<- | [<- | []]]; eexists; (split; [reflexivity|]);
    discriminate.
Defined.


Lemma averaged_weight_within_key_range_witness :
  exists bp w,
    _fill_averaged_weight [20; 30; 40] 1
      (indexed_by 1 (balanced_spec_m ++ balanced_spec_f))
      (indexed_by 1 balanced_len) [Fin 1; Fin 2; Fin 3] = Ok bp
    /\ averaged_weight bp = Fin w /\ 1 <= w <= 3.
Proof.
  apply (averaged_weight_within_key_range [20; 30; 40] ltac:(simpl; lia) 1
           (indexed_by 1 (balanced_spec_m ++ balanced_spec_f))
           (indexed_by 1 balanced_len)).
  - apply le_n.
  - apply le_n.
  - reflexivity.
  - intros c Hin. simpl in Hin.
    destruct Hin as [<- | [<- | [<- | []]]]; eexists;
      (split; [reflexivity|]); split; discriminate.
  - exact balanced_len_counts.
  - exists (measured 1 30 1 1). split; [left; reflexivity|].
    split; [reflexivity|]. simpl. intro Hc. discriminate Hc.
  - exists (specimen 1 30 1 1). split; [left; reflexivity|].
    split; [left; reflexivity|reflexivity].
Defined.


(** ** Transect intervals *)

Lemma set_nth_nth {A : Type} (m : nat) (x d : A) (l : list A) :
  forall i, nth i (set_nth m x l) d
            = if Nat.eqb i m && Nat.ltb m (length l) then x else nth i l d.
Proof.
  revert m. induction l as [|h t IH]; intros m i.
  - destruct m; simpl; rewrite andb_false_r; reflexivity.
  - destruct m as [|m]; destruct i as [|i]; simpl; try reflexivity.
    rewrite IH. reflexivity.
Qed.

Lemma put_map_nth (f : nat -> float) (ind : list nat) :
  forall arr i,
    (forall j, In j ind -> (j < length arr)%nat) ->
    length (put arr ind (map f ind)) = length arr
    /\ nth i (put arr ind (map f ind)) NaN
       = if existsb (Nat.eqb i) ind then f i else nth i arr NaN.
Proof.
  unfold put. induction ind as [|m rest IH]; intros arr i Hb.
  - simpl. auto.
  - cbn [map combine fold_left fst snd].
    assert (Hm : (m < length arr)%nat) by (apply Hb; left; reflexivity).
    destruct (IH (set_nth m (f m) arr) i) as [Hl Hn].
    + intros j Hj. rewrite set_nth_length. apply Hb. right. exact Hj.
    + split; [rewrite Hl; apply set_nth_length|].
      rewrite Hn. cbn [existsb].
      destruct (existsb (Nat.eqb i) rest) eqn:Ex.
      * rewrite orb_true_r. reflexivity.
      * rewrite orb_false_r, set_nth_nth.
        destruct (Nat.eqb_spec i m) as [-> | Hne]; [|reflexivity].
        assert (E : Nat.ltb m (length arr) = true) by (apply Nat.ltb_lt; exact Hm).
        rewrite E. reflexivity.
Qed.

Lemma sub_arrays_length (a b : list float) :
  length (sub_arrays a b) = Nat.min (length a) (length b).
Proof. unfold sub_arrays. rewrite length_map. apply length_combine. Qed.

Lemma sub_arrays_nth (a b : list float) :
  forall i, (i < length a)%nat -> (i < length b)%nat ->
            nth i (sub_arrays a b) NaN = fsub (nth i a NaN) (nth i b NaN).
Proof.
  unfold sub_arrays. revert b.
  induction a as [|x a IH]; intros [|y b] i Ha Hb; simpl in *; try lia.
  destruct i as [|i]; [reflexivity|]. apply IH; lia.
Qed.

Lemma nth_tl {A : Type} (l : list A) (i : nat) (d : A) :
  nth i (tl l) d = nth (S i) l d.
Proof. destruct l; [destruct i; reflexivity|reflexivity]. Qed.

Lemma nth_removelast {A : Type} (l : list A) (d : A) :
  forall i, (S i < length l)%nat -> nth i (removelast l) d = nth i l d.
Proof.
  induction l as [|x t IH]; intros i Hi; [simpl in Hi; lia|].
  destruct t as [|y t']; [simpl in Hi; lia|].
  destruct i as [|i]; [reflexivity|].
  change (removelast (x :: y :: t')) with (x :: removelast (y :: t')).
  cbn [nth]. apply IH. simpl in *. lia.
Qed.

Lemma length_removelast {A : Type} (l : list A) :
  length (removelast l) = (length l - 1)%nat.
Proof.
  induction l as [|x t IH]; [reflexivity|].
  destruct t as [|y t']; [reflexivity|].
  change (removelast (x :: y :: t')) with (x :: removelast (y :: t')).
  cbn [length] in *. lia.
Qed.

Lemma last_nth {A : Type} (l : list A) (d : A) :
  last l d = nth (length l - 1) l d.
Proof.
  induction l as [|x t IH]; [reflexivity|].
  destruct t as [|y t']; [reflexivity|].
  change (last (x :: y :: t') d) with (last (y :: t') d).
  rewrite IH. cbn [length]. replace (S (S (length t')) - 1)%nat
    with (S (length t' - 0)) by lia.
  cbn [nth]. replace (S (length t') - 1)%nat with (length t' - 0)%nat by lia.
  reflexivity.
Qed.

Lemma raw_intervals_length (nasc_df : list nasc_row) :
  nasc_df <> [] -> length (raw_intervals nasc_df) = length nasc_df.
Proof.
  intro Hne. unfold raw_intervals.
  rewrite length_app, sub_arrays_length, length_removelast.
  destruct nasc_df as [|r t]; [congruence|].
  cbn [map tl length]. rewrite length_map. lia.
Qed.

Lemma raw_intervals_nth (nasc_df : list nasc_row) (i : nat) (r : nasc_row) :
  nth_error nasc_df i = Some r ->
  nth i (raw_intervals nasc_df) NaN
  = if Nat.ltb (S i) (length nasc_df) then step_to_next nasc_df i
    else own_length r.
Proof.
  intro Hr.
  assert (Hi : (i < length nasc_df)%nat).
  { apply nth_error_Some. congruence. }
  unfold raw_intervals.
  set (starts := map vessel_log_start nasc_df).
  set (ends := map vessel_log_end nasc_df).
  assert (Ls : length starts = length nasc_df) by apply length_map.
  assert (Le : length ends = length nasc_df) by apply length_map.
  assert (Lsub : length (sub_arrays (tl starts) (removelast starts))
                 = (length nasc_df - 1)%nat).
  { rewrite sub_arrays_length, length_removelast, Ls.
    destruct starts; simpl in *; lia. }
  destruct (Nat.ltb_spec (S i) (length nasc_df)) as [Hlt | Hge].
  - rewrite app_nth1 by lia.
    rewrite sub_arrays_nth.
    + rewrite nth_tl, nth_removelast by lia. reflexivity.
    + destruct starts; simpl in *; lia.
    + rewrite length_removelast. lia.
  - rewrite app_nth2 by lia. rewrite Lsub.
    replace (i - (length nasc_df - 1))%nat with 0%nat by lia.
    cbn [nth]. rewrite !last_nth, Ls, Le.
    replace (length nasc_df - 1)%nat with i by lia.
    unfold own_length, starts, ends.
    rewrite (nth_map_in _ nasc_df i NaN r) by exact Hi.
    rewrite (nth_map_in _ nasc_df i NaN r) by exact Hi.
    rewrite (nth_error_nth nasc_df i r Hr). reflexivity.
Qed.

(** The intervals, entry by entry. *)
Lemma get_interval_view (nasc_df : list nasc_row) :
  nasc_df <> [] ->
  exists interval,
    _get_interval nasc_df = Ok interval
    /\ length interval = length nasc_df
    /\ forall i r,
         nth_error nasc_df i = Some r ->
         nth i interval NaN
         = if is_outlier nasc_df i then own_length r
           else nth i (raw_intervals nasc_df) NaN.
Proof.
  intro Hne. unfold _get_interval.
  set (starts := map vessel_log_start nasc_df).
  set (ends := map vessel_log_end nasc_df).
  assert (E1 : iloc_last ends = Ok (last ends NaN)).
  { unfold ends. destruct nasc_df; [congruence|reflexivity]. }
  assert (E2 : iloc_last starts = Ok (last starts NaN)).
  { unfold starts. destruct nasc_df; [congruence|reflexivity]. }
  rewrite E1, E2. cbn [bind].
  change (sub_arrays (tl starts) (removelast starts)
          ++ [fsub (last ends NaN) (last starts NaN)])
    with (raw_intervals nasc_df).
  set (raw := raw_intervals nasc_df).
  set (ind := argwhere _).
  assert (Hvals : sub_arrays (take ends ind) (take starts ind)
                  = map (fun j => fsub (nth j ends NaN) (nth j starts NaN))
                        ind).
  { unfold sub_arrays, take.
    apply (map_combine_maps (fun j => nth j ends NaN)
                            (fun j => nth j starts NaN)
                            (fun p => fsub (fst p) (snd p)) ind). }
  rewrite Hvals.
  assert (Hind : forall j, In j ind
                           <-> (j < length raw)%nat
                               /\ is_outlier nasc_df j = true).
  { intro j. unfold ind. rewrite argwhere_map_spec. fold raw. split.
    - intros [v [Hv H]]. split.
      + apply nth_error_Some. congruence.
      + unfold is_outlier. fold raw.
        rewrite (nth_error_nth raw j NaN Hv). exact H.
    - intros [Hj H]. exists (nth j raw NaN). split.
      + apply nth_error_nth'. exact Hj.
      + exact H. }
  destruct (put_map_nth (fun j => fsub (nth j ends NaN) (nth j starts NaN))
                        ind raw 0) as [Hlen _].
  { intros j Hj. apply Hind in Hj. tauto. }
  eexists. split; [reflexivity|].
  split; [rewrite Hlen; apply raw_intervals_length; exact Hne|].
  intros i r Hr.
  assert (Hi : (i < length nasc_df)%nat).
  { apply nth_error_Some. congruence. }
  destruct (put_map_nth (fun j => fsub (nth j ends NaN) (nth j starts NaN))
                        ind raw i) as [_ Hn].
  { intros j Hj. apply Hind in Hj. tauto. }
  rewrite Hn.
  assert (Hex : existsb (Nat.eqb i) ind = is_outlier nasc_df i).
  { destruct (is_outlier nasc_df i) eqn:Eo.
    - apply existsb_exists. exists i. split; [|apply Nat.eqb_refl].
      apply Hind. split; [|exact Eo].
      unfold raw. rewrite raw_intervals_length by exact Hne. exact Hi.
    - destruct (existsb (Nat.eqb i) ind) eqn:Ex; [|reflexivity].
      apply existsb_exists in Ex. destruct Ex as [j [Hj Hij]].
      apply Nat.eqb_eq in Hij. subst j. apply Hind in Hj.
      destruct Hj as [_ Hj]. congruence. }
  rewrite Hex. destruct (is_outlier nasc_df i); [|reflexivity].
  unfold own_length, starts, ends.
  rewrite (nth_map_in _ nasc_df i NaN r) by exact Hi.
  rewrite (nth_map_in _ nasc_df i NaN r) by exact Hi.
  rewrite (nth_error_nth nasc_df i r Hr). reflexivity.
Qed.

(** One interval per row.  An empty table raises [IndexError]; otherwise
    the interval of a row is the step from its start to the start of the
    next row, unless that step is more than 0.05 away from the median of
    the raw intervals: then it is the length of the row itself, as it
    always is for the last row. *)
Theorem get_interval_cases (nasc_df : list nasc_row) :
  (nasc_df = [] -> _get_interval nasc_df = Raise IndexError)
  /\ (nasc_df <> [] ->
      exists interval,
        _get_interval nasc_df = Ok interval
        /\ length interval = length nasc_df
        /\ forall i r,
             nth_error nasc_df i = Some r ->
             nth i interval NaN
             = if is_outlier nasc_df i || Nat.eqb (S i) (length nasc_df)
               then own_length r
               else step_to_next nasc_df i).
Proof.
  split.
  - intros ->. reflexivity.
  - intro Hne.
    destruct (get_interval_view nasc_df Hne) as [interval [E [Hlen Hn]]].
    exists interval. split; [exact E|]. split; [exact Hlen|].
    intros i r Hr. rewrite (Hn i r Hr), (raw_intervals_nth nasc_df i r Hr).
    assert (Hi : (i < length nasc_df)%nat).
    { apply nth_error_Some. congruence. }
    destruct (is_outlier nasc_df i); [reflexivity|]. cbn [orb].
    destruct (Nat.ltb_spec (S i) (length nasc_df)) as [Hlt | Hge];
      destruct (Nat.eqb_spec (S i) (length nasc_df)) as [He | He];
      try reflexivity; lia.
Qed.

Lemma get_interval_contiguous (nasc_df : list nasc_row) :
  nasc_df <> [] ->
  (forall i r r', nth_error nasc_df i = Some r ->
                  nth_error nasc_df (S i) = Some r' ->
                  vessel_log_start r' = vessel_log_end r) ->
  _get_interval nasc_df = Ok (map own_length nasc_df).
Proof.
  intros Hne Hcont.
  destruct (get_interval_view nasc_df Hne) as [interval [E [Hlen Hn]]].
  rewrite E. f_equal.
  apply (nth_ext _ _ NaN NaN); [rewrite length_map; exact Hlen|].
  intros i Hi. rewrite Hlen in Hi.
  destruct (nth_error nasc_df i) as [r|] eqn:Hr;
    [|apply nth_error_None in Hr; lia].
  rewrite (Hn i r Hr).
  rewrite (nth_map_in _ nasc_df i NaN r) by exact Hi.
  rewrite (nth_error_nth nasc_df i r Hr).
  destruct (is_outlier nasc_df i); [reflexivity|].
  rewrite (raw_intervals_nth nasc_df i r Hr).
  destruct (Nat.ltb_spec (S i) (length nasc_df)) as [Hlt | Hge];
    [|reflexivity].
  destruct (nth_error nasc_df (S i)) as [r'|] eqn:Hr';
    [|apply nth_error_None in Hr'; lia].
  unfold step_to_next, own_length.
  rewrite (nth_map_in _ nasc_df (S i) NaN r') by exact Hlt.
  rewrite (nth_map_in _ nasc_df i NaN r) by exact Hi.
  rewrite (nth_error_nth nasc_df (S i) r' Hr').
  rewrite (nth_error_nth nasc_df i r Hr).
  rewrite (Hcont i r r' Hr Hr'). reflexivity.
Qed.

Lemma get_interval_cases_witness :
  exists interval,
    _get_interval gapped_log = Ok interval
    /\ length interval = 3%nat
    /\ nth 1 interval NaN = own_length (log_row (1 # 2) 1).
Proof.
  destruct (proj2 (get_interval_cases gapped_log)) as [interval [E [Hl Hn]]].
  - discriminate.
  - exists interval. split; [exact E|]. split; [exact Hl|].
    rewrite (Hn 1%nat (log_row (1 # 2) 1) eq_refl). reflexivity.
Defined.

(** On a contiguous log, where every row ends where the next one starts,
    the interval of every row is its own length, whatever the median, and
    every row of the biomass table holds the adult biomass density times
    the length of the row times the transect spacing.  A density array of
    another length than the table is refused. *)
Theorem contiguous_log_intervals (nasc_df : list nasc_row) :
  nasc_df <> [] ->
  (forall i r r', nth_error nasc_df i = Some r ->
                  nth_error nasc_df (S i) = Some r' ->
                  vessel_log_start r' = vessel_log_end r) ->
  _get_interval nasc_df = Ok (map own_length nasc_df)
  /\ forall density,
       (length density <> length nasc_df ->
        _construct_biomass_table nasc_df density = Raise ValueError)
       /\ (length density = length nasc_df ->
           _construct_biomass_table nasc_df density
           = Ok (map (fun p =>
                        {| biomass_density_adult := fst p;
                           interval_area_nmi2 :=
                             fmul (own_length (snd p))
                                  (transect_spacing (snd p));
                           biomass :=
                             fmul (fst p)
                                  (fmul (own_length (snd p))
                                        (transect_spacing (snd p))) |})
                     (combine density nasc_df))).
Proof.
  intros Hne Hcont.
  pose proof (get_interval_contiguous nasc_df Hne Hcont) as Hint.
  split; [exact Hint|].
  intro density. unfold _construct_biomass_table. split.
  - intro Hd. apply Nat.eqb_neq in Hd. rewrite Hd. reflexivity.
  - intro Hlen.
    rewrite (proj2 (Nat.eqb_eq _ _) Hlen). cbn [negb].
    rewrite Hint. cbn [bind].
    f_equal. clear Hne Hcont Hint. revert density Hlen.
    induction nasc_df as [|r t IH]; intros [|d ds] Hlen; simpl in *;
      try reflexivity; try discriminate.
    f_equal. apply IH. lia.
Qed.

Lemma contiguous_log_intervals_witness :
  _get_interval contiguous_log
  = Ok [own_length (log_row 0 (1 # 2)); own_length (log_row (1 # 2) 1);
        own_length (log_row 1 (3 # 2))].
Proof.
  apply (contiguous_log_intervals contiguous_log).
  - discriminate.
  - intros i r r' Hr Hr'.
    destruct i as [|[|[|i]]]; simpl in Hr, Hr';
      try discriminate; injection Hr as <-; injection Hr' as <-; reflexivity.
Defined.


(** ** Adult weight fraction *)

Lemma bin_of_value_unique (input_data : list float) (centered_bins : list Q)
  (hist_ind : list (list nat)) (idx : nat) (v : float) :
  (2 <= length centered_bins)%nat ->
  increasing centered_bins ->
  _get_bin_ind input_data centered_bins = Ok hist_ind ->
  nth_error input_data idx = Some v ->
  forall b b', in_bin hist_ind b idx -> in_bin hist_ind b' idx -> b = b'.
Proof.
  intros Hn Hinc Hrun Hv.
  destruct (get_bin_ind_shape input_data centered_bins Hn)
    as [hist [Hrun' [Hlen [_ [Hfirst [Hmid Hlast]]]]]].
  assert (E : hist = hist_ind) by congruence. subst hist.
  set (n := length centered_bins) in *.
  set (P := fun i => fle_b v (Fin (boundary centered_bins i))).
  assert (Hstep : forall i, (i < n - 2)%nat -> P i = true
                            -> P (S i) = true).
  { intros i Hi. unfold P. apply fle_b_mono. apply Qlt_le_weak.
    apply boundary_increasing; [exact Hinc|fold n; lia]. }
  assert (Hsel : forall b, in_bin hist_ind b idx -> selects P (n - 2) b).
  { intros b Hin.
    destruct (Nat.eq_dec b 0) as [-> | Hb0].
    { left. split; [reflexivity|]. apply Hfirst in Hin.
      destruct Hin as [v' [Hv' H]]. unfold P.
      replace v with v' by congruence. exact H. }
    destruct (Nat.lt_ge_cases b (n - 1)) as [Hb | Hb].
    { right. left. split; [lia|]. apply Hmid in Hin; [|lia].
      destruct Hin as [v' [Hv' [Ha Hc]]].
      assert (Ev : v' = v) by congruence. subst v'.
      assert (Hnan : isnan v = false) by (destruct v; [reflexivity..|discriminate Hc]).
      unfold P. split; [|exact Hc].
      rewrite flt_b_negb_fle_b in Ha by exact Hnan.
      apply negb_true_iff in Ha. exact Ha. }
    destruct (Nat.eq_dec b (n - 1)) as [-> | Hbn].
    { right. right. split; [lia|]. apply Hlast in Hin.
      destruct Hin as [v' [Hv' H]].
      assert (Ev : v' = v) by congruence. subst v'.
      assert (Hnan : isnan v = false) by (destruct v; [reflexivity..|discriminate H]).
      unfold P. rewrite flt_b_negb_fle_b in H by exact Hnan.
      apply negb_true_iff in H. exact H. }
    unfold in_bin in Hin. rewrite nth_overflow in Hin by lia.
    destruct Hin. }
  intros b b' Hb Hb'.
  apply (selects_unique P (n - 2) Hstep b b' (Hsel b Hb) (Hsel b' Hb')).
Qed.

Lemma in_concat_nth {A : Type} (L : list (list A)) (x : A) :
  In x (concat L) <-> exists b, In x (nth b L []).
Proof.
  rewrite in_concat. split.
  - intros [l [Hl Hx]]. destruct (In_nth L l [] Hl) as [b [_ Eb]].
    exists b. rewrite Eb. exact Hx.
  - intros [b Hx]. exists (nth b L []). split; [|exact Hx].
    destruct (Nat.lt_ge_cases b (length L)) as [Hb | Hb].
    + apply nth_In. exact Hb.
    + rewrite nth_overflow in Hx by exact Hb. destruct Hx.
Qed.

Lemma NoDup_app_disjoint {A : Type} (l1 l2 : list A) :
  NoDup l1 -> NoDup l2 -> (forall x, In x l1 -> ~ In x l2) ->
  NoDup (l1 ++ l2).
Proof.
  induction l1 as [|a t IH]; intros H1 H2 Hd; [exact H2|].
  inversion H1 as [|? ? Ha Ht]; subst. simpl. constructor.
  - intro Hin. apply in_app_iff in Hin. destruct Hin as [Hin | Hin].
    + exact (Ha Hin).
    + apply (Hd a); [left; reflexivity|exact Hin].
  - apply IH; [exact Ht|exact H2|].
    intros x Hx. apply Hd. right. exact Hx.
Qed.

Lemma NoDup_concat_bins {A : Type} (L : list (list A)) :
  (forall b, NoDup (nth b L [])) ->
  (forall b b' x, In x (nth b L []) -> In x (nth b' L []) -> b = b') ->
  NoDup (concat L).
Proof.
  induction L as [|h t IH]; intros Hnd Hdis; [constructor|].
  simpl. apply NoDup_app_disjoint.
  - apply (Hnd 0%nat).
  - apply IH.
    + intro b. apply (Hnd (S b)).
    + intros b b' x Hx Hx'.
      assert (E : S b = S b') by (apply (Hdis (S b) (S b') x); assumption).
      lia.
  - intros x Hx Hin. apply in_concat_nth in Hin. destruct Hin as [b Hb].
    assert (E : 0%nat = S b) by (apply (Hdis 0%nat (S b) x); assumption).
    discriminate.
Qed.

(** With increasing centers, the bins list every position of an input
    without NaN exactly once. *)
Lemma bins_partition_positions (input_data : list float)
  (centered_bins : list Q) (hist_ind : list (list nat)) :
  (2 <= length centered_bins)%nat ->
  increasing centered_bins ->
  _get_bin_ind input_data centered_bins = Ok hist_ind ->
  (forall v, In v input_data -> isnan v = false) ->
  Permutation (concat hist_ind) (seq 0 (length input_data)).
Proof.
  intros Hn Hinc Hrun Hnan.
  destruct (get_bin_ind_shape input_data centered_bins Hn)
    as [hist [Hrun' [Hlen [Hnd _]]]].
  assert (E : hist = hist_ind) by congruence. subst hist.
  apply NoDup_Permutation.
  - apply NoDup_concat_bins; [exact Hnd|].
    intros b b' x Hx Hx'.
    pose proof (get_bin_ind_bound _ _ _ Hn Hrun b x Hx) as Hlt.
    destruct (nth_error input_data x) as [v|] eqn:Hv;
      [|apply nth_error_None in Hv; lia].
    apply (bin_of_value_unique _ _ _ x v Hn Hinc Hrun Hv b b' Hx Hx').
  - apply seq_NoDup.
  - intro x. rewrite in_concat_nth, in_seq. split.
    + intros [b Hb]. split; [lia|].
      apply (get_bin_ind_bound _ _ _ Hn Hrun b x Hb).
    + intros [_ Hx].
      destruct (nth_error input_data x) as [v|] eqn:Hv;
        [|apply nth_error_None in Hv; lia].
      destruct (bin_of_value_exists _ _ _ x v Hn Hrun Hv) as [b [_ Hb]].
      * apply Hnan. apply (nth_error_In _ _ Hv).
      * exists b. exact Hb.
Qed.

Lemma Qsum_r_Permutation (l l' : list Q) :
  Permutation l l' -> Qsum_r l == Qsum_r l'.
Proof.
  induction 1 as [|x l l' _ IH|x y l|l l' l'' _ IH1 _ IH2]; simpl.
  - reflexivity.
  - rewrite IH. reflexivity.
  - ring.
  - rewrite IH1. exact IH2.
Qed.

Lemma Qsum_r_concat {A : Type} (f : A -> Q) (L : list (list A)) :
  Qsum_r (map f (concat L)) == Qsum_r (map (fun l => Qsum_r (map f l)) L).
Proof.
  induction L as [|h t IH]; simpl; [reflexivity|].
  rewrite map_app, Qsum_r_app, IH. reflexivity.
Qed.

Lemma map_nth_seq0 {A : Type} (l : list A) (d : A) :
  map (fun k => nth k l d) (seq 0 (length l)) = l.
Proof.
  apply (nth_ext _ _ d d).
  - rewrite length_map, length_seq. reflexivity.
  - intros i Hi. rewrite length_map, length_seq in Hi.
    rewrite (nth_map_in _ _ i d 0%nat) by (rewrite length_seq; exact Hi).
    rewrite seq_nth by exact Hi. reflexivity.
Qed.

Lemma take_argwhere_from {A : Type} (f : A -> float) (p : A -> bool)
  (l : list A) :
  forall pre,
    take (map f (pre ++ l)) (argwhere_from (length pre) (map p l))
    = map f (filter p l).
Proof.
  induction l as [|a t IH]; intro pre; [reflexivity|].
  cbn [map argwhere_from filter].
  assert (Hstep : take (map f (pre ++ a :: t))
                       (argwhere_from (S (length pre)) (map p t))
                  = map f (filter p t)).
  { replace (pre ++ a :: t) with ((pre ++ [a]) ++ t)
      by (rewrite <- app_assoc; reflexivity).
    replace (S (length pre)) with (length (pre ++ [a]))
      by (rewrite length_app; simpl; lia).
    apply IH. }
  destruct (p a).
  - unfold take in *. cbn [map]. rewrite Hstep. f_equal.
    rewrite map_app, app_nth2 by (rewrite length_map; lia).
    rewrite length_map, Nat.sub_diag. reflexivity.
  - exact Hstep.
Qed.

Lemma take_argwhere {A : Type} (f : A -> float) (p : A -> bool) (l : list A) :
  take (map f l) (argwhere (map p l)) = map f (filter p l).
Proof. apply (take_argwhere_from f p l []). Qed.

Section AgeWeightProofs.

Variable bio_hake_len_bin : list Q.
Variable bio_hake_age_bin : list Q.
Hypothesis two_len_bins : (2 <= length bio_hake_len_bin)%nat.
Hypothesis len_bins_increasing : increasing bio_hake_len_bin.
Hypothesis two_age_bins : (2 <= length bio_hake_age_bin)%nat.

Lemma age_weight_conversion_view (df : list specimen_row) :
  (forall r, In r df -> isnan (sp_length r) = false) ->
  (forall r, In r df -> exists q, sp_weight r = Fin q) ->
  exists c,
    _get_age_weight_conversion bio_hake_len_bin bio_hake_age_bin df = Ok c
    /\ feq c (fdiv (Fin (first_age_weight bio_hake_age_bin df))
                   (Fin (total_weight df))).
Proof.
  intros Hlen Hwgt.
  unfold _get_age_weight_conversion.
  rewrite (get_bin_ind_unfold (map sp_age df) bio_hake_age_bin two_age_bins).
  cbv zeta. cbn [bind nth].
  set (bound := getQ bio_hake_age_bin 0
                + getQ (map (fun d => d / 2) (np_diff bio_hake_age_bin)) 0).
  assert (Hbound : bound == boundary bio_hake_age_bin 0).
  { apply code_bound_is_boundary. lia. }
  rewrite map_map.
  set (p := fun r : specimen_row => fle_b (sp_age r) (Fin bound)).
  change (argwhere (map (fun x => fle_b (sp_age x) (Fin bound)) df))
    with (argwhere (map p df)).
  set (first := argwhere (map p df)).
  set (wgt := map sp_weight df).
  assert (Hfirst : forall j, In j first -> (j < length df)%nat).
  { intros j Hj. unfold first in Hj. apply argwhere_map_spec in Hj.
    destruct Hj as [v [Hv _]]. apply nth_error_Some. congruence. }
  set (sub := take (map sp_length df) first).
  assert (Hsub : forall v, In v sub -> isnan v = false).
  { intros v Hv. unfold sub, take in Hv. apply in_map_iff in Hv.
    destruct Hv as [j [<- Hj]].
    assert (Hin : In (nth j (map sp_length df) NaN) (map sp_length df)).
    { apply nth_In. rewrite length_map. apply Hfirst. exact Hj. }
    apply in_map_iff in Hin. destruct Hin as [r [<- Hr]].
    apply Hlen. exact Hr. }
  destruct (get_bin_ind_ok sub bio_hake_len_bin two_len_bins)
    as [hist [Hrun _]].
  rewrite Hrun. cbn [bind].
  pose proof (bins_partition_positions sub bio_hake_len_bin hist
                two_len_bins len_bins_increasing Hrun Hsub) as Hperm.
  assert (Lsub : length sub = length first).
  { unfold sub, take. apply length_map. }
  rewrite Lsub in Hperm.
  set (g := fun k => toQ (nth (nth k first O) wgt NaN)).
  assert (Hw : forall j, (j < length df)%nat ->
                         exists q, nth j wgt NaN = Fin q).
  { intros j Hj. unfold wgt.
    assert (Hin : In (nth j (map sp_weight df) NaN) (map sp_weight df)).
    { apply nth_In. rewrite length_map. exact Hj. }
    apply in_map_iff in Hin. destruct Hin as [r [<- Hr]].
    apply Hwgt. exact Hr. }
  assert (Hk : forall b k, In k (nth b hist []) -> (k < length first)%nat).
  { intros b k Hin. rewrite <- Lsub.
    apply (get_bin_ind_bound _ _ _ two_len_bins Hrun b k Hin). }
  assert (Hinner : forall i, In i hist ->
             fsum (take wgt (take_nat first i))
             = Fin (toQ (fsum (take wgt (take_nat first i))))
             /\ toQ (fsum (take wgt (take_nat first i)))
                == Qsum_r (map g i)).
  { intros i Hi. destruct (In_nth hist i [] Hi) as [b [_ Eb]]. subst i.
    destruct (fsum_view (take wgt (take_nat first (nth b hist []))))
      as [E Hq].
    - intros x Hx. unfold take, take_nat in Hx. rewrite map_map in Hx.
      apply in_map_iff in Hx. destruct Hx as [k [<- Hk']].
      apply Hw. apply Hfirst. apply nth_In. apply (Hk b). exact Hk'.
    - split; [exact E|]. rewrite Hq. unfold take, take_nat.
      rewrite !map_map. reflexivity. }
  destruct (fsum_view (map (fun i => fsum (take wgt (take_nat first i)))
                           hist)) as [Eout Qout].
  { intros x Hx. apply in_map_iff in Hx. destruct Hx as [i [<- Hi]].
    destruct (Hinner i Hi) as [E _]. rewrite E. eexists. reflexivity. }
  destruct (fsum_view wgt) as [Etot Qtot].
  { intros x Hx. unfold wgt in Hx. apply in_map_iff in Hx.
    destruct Hx as [r [<- Hr]]. apply Hwgt. exact Hr. }
  eexists. split; [reflexivity|].
  rewrite Eout, Etot.
  apply fdiv_Proper; simpl.
  - rewrite Qout, map_map.
    rewrite (Qsum_r_ext _ (fun i => Qsum_r (map g i))).
    + rewrite <- Qsum_r_concat.
      rewrite (Qsum_r_Permutation _ _ (Permutation_map g Hperm)).
      unfold g.
      rewrite <- (map_map (fun k => nth k first O)
                          (fun j => toQ (nth j wgt NaN))).
      rewrite map_nth_seq0.
      rewrite <- (map_map (fun j => nth j wgt NaN) toQ).
      change (map (fun j => nth j wgt NaN) first) with (take wgt first).
      unfold wgt, first. rewrite take_argwhere, map_map.
      unfold first_age_weight.
      rewrite (filter_ext_in_eq p
                 (fun r => fle_b (sp_age r)
                                 (Fin (boundary bio_hake_age_bin 0)))).
      * reflexivity.
      * intros r _. unfold p. apply fle_b_compat. exact Hbound.
    + intros i Hi. apply (proj2 (Hinner i Hi)).
  - rewrite Qtot. unfold wgt, total_weight. rewrite map_map. reflexivity.
Qed.

Lemma first_age_share_range (df : list specimen_row) :
  (forall r, In r df -> exists q, sp_weight r = Fin q /\ 0 <= q) ->
  0 < total_weight df ->
  fdiv (Fin (first_age_weight bio_hake_age_bin df)) (Fin (total_weight df))
  = Fin (first_age_weight bio_hake_age_bin df / total_weight df)
  /\ 0 <= first_age_weight bio_hake_age_bin df / total_weight df <= 1.
Proof.
  intros Hw HT. split.
  - apply fdiv_Fin. lra.
  - assert (Hnn : forall l : list specimen_row,
              (forall r, In r l -> In r df) ->
              0 <= Qsum_r (map (fun r => toQ (sp_weight r)) l)).
    { intros l Hl. apply Qsum_r_nonneg. intros q Hq.
      apply in_map_iff in Hq. destruct Hq as [r [<- Hr]].
      destruct (Hw r (Hl r Hr)) as [q' [-> H']]. exact H'. }
    assert (H0 : 0 <= first_age_weight bio_hake_age_bin df).
    { unfold first_age_weight. apply Hnn. intros r Hr.
      apply filter_In in Hr. tauto. }
    assert (H1 : first_age_weight bio_hake_age_bin df <= total_weight df).
    { unfold first_age_weight, total_weight.
      rewrite (Qsum_r_filter_split
                 (fun r => fle_b (sp_age r)
                                 (Fin (boundary bio_hake_age_bin 0)))
                 (fun r => toQ (sp_weight r)) df).
      assert (H2 : 0 <= Qsum_r (map (fun r => toQ (sp_weight r))
                     (filter (fun x => negb (fle_b (sp_age x)
                                (Fin (boundary bio_hake_age_bin 0)))) df))).
      { apply Hnn. intros r Hr. apply filter_In in Hr. tauto. }
      lra. }
    split.
    + apply Qle_shift_div_l; [exact HT|]. lra.
    + apply Qle_shift_div_r; [exact HT|]. lra.
Qed.

(** The weight of the first age bin.  For specimens with a length and a
    finite weight that is not negative, not all weights zero,
    [_get_age_weight_conversion] returns the weight of the specimens whose
    age falls into the first age bin, divided by the weight of all
    specimens, a number between 0 and 1: binning by length in between
    loses no fish and counts none twice. *)
Theorem age_weight_conversion_is_first_age_share (df : list specimen_row) :
  (forall r, In r df -> isnan (sp_length r) = false) ->
  (forall r, In r df -> exists q, sp_weight r = Fin q /\ 0 <= q) ->
  0 < total_weight df ->
  exists q,
    _get_age_weight_conversion bio_hake_len_bin bio_hake_age_bin df
    = Ok (Fin q)
    /\ q == first_age_weight bio_hake_age_bin df / total_weight df
    /\ 0 <= q <= 1.
Proof.
  intros Hlen Hw HT.
  destruct (age_weight_conversion_view df Hlen) as [c [E Hc]].
  { intros r Hr. destruct (Hw r Hr) as [q [-> _]]. eauto. }
  destruct (first_age_share_range df Hw HT) as [Ediv Hrange].
  rewrite Ediv in Hc. destruct c as [q| | |]; try contradiction.
  simpl in Hc. exists q. split; [exact E|]. split; [exact Hc|].
  rewrite Hc. exact Hrange.
Qed.

(** The adult weight fraction of every stratum.  Rows with a missing
    length, weight or age are dropped; when the remaining weights are
    finite and not negative and every stratum has some weight, the table
    has one row per stratum with specimens left, in order of first
    appearance, and its value is one minus the weight share of the first
    age bin, a number between 0 and 1. *)
Theorem weight_fraction_adult_share (specimen_df : list (Z * specimen_row)) :
  (forall p, In p (dropna_any specimen_df) ->
             exists q, sp_weight (snd p) = Fin q /\ 0 <= q) ->
  (forall i, In i (map fst (dropna_any specimen_df)) ->
             0 < total_weight (stratum_specimens specimen_df i)) ->
  exists tbl,
    _get_weight_fraction_adult bio_hake_len_bin bio_hake_age_bin specimen_df
    = Ok tbl
    /\ map fst tbl = unique (map fst (dropna_any specimen_df))
    /\ forall i v, In (i, v) tbl ->
         exists q, v = Fin q /\ 0 <= q <= 1
                   /\ q == 1 - first_age_weight bio_hake_age_bin
                                  (stratum_specimens specimen_df i)
                               / total_weight
                                   (stratum_specimens specimen_df i).
Proof.
  intros Hw HT.
  unfold _get_weight_fraction_adult.
  set (strata := unique (map fst (dropna_any specimen_df))).
  set (f := fun i =>
              bind (_get_age_weight_conversion bio_hake_len_bin
                      bio_hake_age_bin
                      (map snd (filter (fun p => Z.eqb (fst p) i)
                                       (dropna_any specimen_df))))
                   (fun c => Ok (i, fsub (Fin 1) c))).
  assert (Hf : forall i, In i strata ->
             exists q, f i = Ok (i, Fin q) /\ 0 <= q <= 1
                       /\ q == 1 - first_age_weight bio_hake_age_bin
                                      (stratum_specimens specimen_df i)
                                   / total_weight
                                       (stratum_specimens specimen_df i)).
  { intros i Hi. unfold strata in Hi. apply (proj1 (unique_In _ _)) in Hi.
    assert (Hrows : forall r, In r (stratum_specimens specimen_df i) ->
                              exists p, In p (dropna_any specimen_df)
                                        /\ snd p = r).
    { intros r Hr. unfold stratum_specimens in Hr.
      apply in_map_iff in Hr. destruct Hr as [p [<- Hp]].
      apply filter_In in Hp. exists p. tauto. }
    destruct (age_weight_conversion_view (stratum_specimens specimen_df i))
      as [c [E Hc]].
    - intros r Hr. destruct (Hrows r Hr) as [p [Hp <-]].
      unfold dropna_any in Hp. apply filter_In in Hp.
      destruct Hp as [_ Hp]. apply andb_true_iff in Hp.
      destruct Hp as [Hp _]. apply andb_true_iff in Hp.
      destruct Hp as [Hp _]. apply negb_true_iff in Hp. exact Hp.
    - intros r Hr. destruct (Hrows r Hr) as [p [Hp <-]].
      destruct (Hw p Hp) as [q [-> _]]. eauto.
    - destruct (first_age_share_range (stratum_specimens specimen_df i))
        as [Ediv [H0 H1]].
      + intros r Hr. destruct (Hrows r Hr) as [p [Hp <-]].
        apply Hw. exact Hp.
      + apply HT. exact Hi.
      + rewrite Ediv in Hc. destruct c as [q| | |]; try contradiction.
        simpl in Hc. exists (1 + - q). unfold f.
        fold (stratum_specimens specimen_df i). rewrite E. cbn [bind].
        split; [reflexivity|]. rewrite Hc. split; [lra|ring]. }
  destruct (mapM_ok f strata) as [tbl [E [Hlen Hnth]]].
  { intros i Hi. destruct (Hf i Hi) as [q [Eq _]]. eauto. }
  exists tbl. split; [exact E|]. split.
  - apply (nth_ext _ _ 0%Z 0%Z); [rewrite length_map; exact Hlen|].
    intros k Hk. rewrite length_map in Hk.
    destruct (nth_error tbl k) as [[i v]|] eqn:Ek;
      [|apply nth_error_None in Ek; lia].
    rewrite (nth_map_in _ tbl k 0%Z (i, v)) by exact Hk.
    rewrite (nth_error_nth tbl k (i, v) Ek). cbn [fst].
    destruct (Hnth k (i, v) Ek) as [a [Ha Efa]].
    rewrite (nth_error_nth strata k 0%Z Ha).
    destruct (Hf a (nth_error_In _ _ Ha)) as [q [Eq _]].
    rewrite Eq in Efa. congruence.
  - intros i v Hin. destruct (In_nth_error tbl (i, v) Hin) as [k Ek].
    destruct (Hnth k (i, v) Ek) as [a [Ha Efa]].
    destruct (Hf a (nth_error_In _ _ Ha)) as [q [Eq Hq]].
    rewrite Eq in Efa. injection Efa as <- <-.
    exists q. split; [reflexivity|exact Hq].
Qed.

End AgeWeightProofs.

Lemma young_and_old_weights :
  forall r, In r young_and_old -> exists q, sp_weight r = Fin q /\ 0 <= q.
Proof.
  intros r Hin. simpl in Hin.
  destruct Hin as [<- | [<- | []]]; eexists; (split; [reflexivity|]);
    discriminate.
Defined.

Lemma age_weight_conversion_is_first_age_share_witness :
  exists q,
    _get_age_weight_conversion [20; 30; 40] [1; 2; 3] young_and_old
    = Ok (Fin q)
    /\ q == first_age_weight [1; 2; 3] young_and_old
            / total_weight young_and_old
    /\ 0 <= q <= 1.
Proof.
  apply (age_weight_conversion_is_first_age_share [20; 30; 40] [1; 2; 3]).
  - simpl. lia.
  - simpl. repeat split; reflexivity.
  - simpl. lia.
  - intros r Hin. simpl in Hin.
    destruct Hin as [<- | [<- | []]]; reflexivity.
  - exact young_and_old_weights.
  - vm_compute. reflexivity.
Defined.

Lemma weight_fraction_adult_share_witness :
  exists tbl,
    _get_weight_fraction_adult [20; 30; 40] [1; 2; 3]
      [(7%Z, aged_specimen 25 1 1); (7%Z, aged_specimen 45 3 3)] = Ok tbl
    /\ map fst tbl = [7%Z].
Proof.
  destruct (weight_fraction_adult_share [20; 30; 40] [1; 2; 3]
              ltac:(simpl; lia) ltac:(simpl; repeat split; reflexivity)
              ltac:(simpl; lia)
              [(7%Z, aged_specimen 25 1 1); (7%Z, aged_specimen 45 3 3)])
    as [tbl [E [Hk _]]].
  - intros p Hin. simpl in Hin.
    destruct Hin as [<- | [<- | []]]; eexists; (split; [reflexivity|]);
      discriminate.
  - intros i Hin. simpl in Hin.
    destruct Hin as [<- | [<- | []]]; vm_compute; reflexivity.
  - exists tbl. split; [exact E|exact Hk].
Defined.

(** ** Survey: configuration and bins *)

Section ConfigurationProofs.

Variable value : Type.

Lemma dict_get_set (d : py_dict value) (k k' : string) (v : value) :
  dict_get value (dict_set value d k v) k'
  = if String.eqb k' k then Some v else dict_get value d k'.
Proof.
  induction d as [|[k0 v0] t IH]; simpl.
  - reflexivity.
  - destruct (String.eqb_spec k k0) as [-> | Hne]; simpl.
    + destruct (String.eqb k' k0); reflexivity.
    + rewrite IH.
      destruct (String.eqb_spec k' k0) as [-> | Hne'].
      * destruct (String.eqb_spec k0 k) as [E | _]; [congruence|reflexivity].
      * reflexivity.
Qed.

Lemma dict_keys_set (d : py_dict value) (k : string) (v : value) :
  dict_keys value (dict_set value d k v)
  = if mem_string k (dict_keys value d) then dict_keys value d
    else dict_keys value d ++ [k].
Proof.
  unfold dict_keys, mem_string.
  induction d as [|[k0 v0] t IH]; simpl; [reflexivity|].
  destruct (String.eqb k k0); simpl; [reflexivity|].
  rewrite IH. destruct (existsb (String.eqb k) (map fst t)); reflexivity.
Qed.

Lemma mem_string_In (k : string) (l : list string) :
  mem_string k l = true <-> In k l.
Proof.
  unfold mem_string. rewrite existsb_exists. split.
  - intros [x [Hx He]]. apply String.eqb_eq in He. subst x. exact Hx.
  - intro H. exists k. split; [exact H|apply String.eqb_refl].
Qed.

Lemma dict_get_None (d : py_dict value) (k : string) :
  dict_get value d k = None <-> ~ In k (dict_keys value d).
Proof.
  unfold dict_keys. induction d as [|[k0 v0] t IH]; simpl.
  - tauto.
  - destruct (String.eqb_spec k k0) as [-> | Hne].
    + split; [discriminate|]. intro H. exfalso. apply H. left. reflexivity.
    + rewrite IH. split.
      * intros H [Hc | Hc]; [congruence|exact (H Hc)].
      * intros H Hc. apply H. right. exact Hc.
Qed.

(** [{**a, **b}]: the items of [b] win, the keys of [a] come first. *)
Lemma dict_merge_view (b : py_dict value) :
  NoDup (dict_keys value b) ->
  forall a,
    (forall k, dict_get value (dict_merge value a b) k
               = match dict_get value b k with
                 | Some v => Some v
                 | None => dict_get value a k
                 end)
    /\ dict_keys value (dict_merge value a b)
       = dict_keys value a
         ++ filter (fun k => negb (mem_string k (dict_keys value a)))
                   (dict_keys value b).
Proof.
  unfold dict_merge.
  induction b as [|[k0 v0] t IH]; intros Hnd a.
  - simpl. split; [reflexivity|]. rewrite app_nil_r. reflexivity.
  - cbn [fold_left fst snd]. simpl in Hnd.
    inversion Hnd as [|? ? Hk0 Ht]; subst.
    destruct (IH Ht (dict_set value a k0 v0)) as [Hget Hkeys].
    split.
    + intro k. rewrite Hget. cbn [dict_get].
      destruct (dict_get value t k) as [v|] eqn:Et.
      * destruct (String.eqb_spec k k0) as [-> | Hne]; [|reflexivity].
        exfalso. apply Hk0.
        assert (Hn : dict_get value t k0 <> None) by congruence.
        destruct (in_dec string_dec k0 (dict_keys value t)) as [Hin | Hnin];
          [exact Hin|].
        apply dict_get_None in Hnin. congruence.
      * rewrite dict_get_set. destruct (String.eqb k k0); reflexivity.
    + rewrite Hkeys, dict_keys_set. cbn [dict_keys map fst filter].
      fold (dict_keys value t).
      destruct (mem_string k0 (dict_keys value a)) eqn:Em; cbn [negb].
      * reflexivity.
      * rewrite <- app_assoc. cbn [app]. f_equal. f_equal.
        apply filter_ext_in_eq. intros k Hk.
        unfold mem_string. rewrite existsb_app. cbn [existsb].
        rewrite orb_false_r.
        destruct (String.eqb_spec k k0) as [-> | _]; [|rewrite orb_false_r; reflexivity].
        contradiction.
Qed.

(** The three outcomes of [load_configuration].  A missing file is
    reported before any file is read; a key of both files is an error;
    otherwise the configuration holds every item of both files, those of
    the initialisation file first, and no value is overridden. *)
Theorem load_configuration_cases (path_exists : string -> bool)
  (safe_load : string -> py_dict value)
  (init_config_path survey_year_config_path : string) :
  let init := safe_load init_config_path in
  let year := safe_load survey_year_config_path in
  NoDup (dict_keys value year) ->
  (path_exists init_config_path && path_exists survey_year_config_path
   = false ->
   exists missing,
     load_configuration value path_exists safe_load init_config_path
                        survey_year_config_path
     = FileNotFoundError missing
     /\ missing <> []
     /\ forall p, In p missing
                  <-> (p = init_config_path \/ p = survey_year_config_path)
                      /\ path_exists p = false)
  /\ (path_exists init_config_path && path_exists survey_year_config_path
      = true ->
      (forall k, In k (dict_keys value init) ->
                 In k (dict_keys value year) ->
                 exists ks,
                   load_configuration value path_exists safe_load
                                      init_config_path survey_year_config_path
                   = RuntimeError ks
                   /\ In k ks)
      /\ ((forall k, In k (dict_keys value init) ->
                     ~ In k (dict_keys value year)) ->
          exists config,
            load_configuration value path_exists safe_load
                               init_config_path survey_year_config_path
            = Loaded config
            /\ dict_keys value config
               = dict_keys value init ++ dict_keys value year
            /\ (forall k v, dict_get value init k = Some v ->
                            dict_get value config k = Some v)
            /\ (forall k v, dict_get value year k = Some v ->
                            dict_get value config k = Some v))).
Proof.
  intros init year Hnd. unfold load_configuration. cbn [forallb].
  fold init year. rewrite andb_true_r. split.
  - intro Hex. rewrite Hex. cbn [negb].
    eexists. split; [reflexivity|]. cbn [combine filter snd].
    destruct (path_exists init_config_path) eqn:E1;
      destruct (path_exists survey_year_config_path) eqn:E2;
      cbn [negb map fst]; try discriminate Hex.
    + split; [discriminate|]. intro p. split.
      * intros [<- | []]. split; [right; reflexivity|exact E2].
      * intros [[-> | ->] Hp]; [congruence|left; reflexivity].
    + split; [discriminate|]. intro p. split.
      * intros [<- | []]. split; [left; reflexivity|exact E1].
      * intros [[-> | ->] Hp]; [left; reflexivity|congruence].
    + split; [discriminate|]. intro p. split.
      * intros [<- | [<- | []]]; split; auto.
      * intros [[-> | ->] _]; [left; reflexivity|right; left; reflexivity].
  - intro Hex. rewrite Hex. cbn [negb]. split.
    + intros k Hi Hy.
      assert (Hin : In k (filter (fun k => mem_string k (dict_keys value year))
                                 (dict_keys value init))).
      { apply filter_In. split; [exact Hi|]. apply mem_string_In. exact Hy. }
      destruct (filter _ (dict_keys value init)) as [|k1 ks] eqn:Ef;
        [destruct Hin|].
      eexists. split; [reflexivity|exact Hin].
    + intro Hdis.
      assert (Hnil : filter (fun k => mem_string k (dict_keys value year))
                            (dict_keys value init) = []).
      { apply existsb_false_filter.
        destruct (existsb _ (dict_keys value init)) eqn:Ex; [|reflexivity].
        apply existsb_exists in Ex. destruct Ex as [k [Hk Hm]].
        apply mem_string_In in Hm. exfalso. exact (Hdis k Hk Hm). }
      rewrite Hnil.
      destruct (dict_merge_view year Hnd init) as [Hget Hkeys].
      eexists. split; [reflexivity|]. split; [|split].
      * rewrite Hkeys. f_equal. apply filter_all.
        intros k Hk. apply negb_true_iff.
        destruct (mem_string k (dict_keys value init)) eqn:Em; [|reflexivity].
        apply mem_string_In in Em. exfalso. exact (Hdis k Em Hk).
      * intros k v Hk. rewrite Hget.
        destruct (dict_get value year k) as [v'|] eqn:Ey; [|exact Hk].
        exfalso. apply (Hdis k).
        -- destruct (in_dec string_dec k (dict_keys value init)) as [H | H];
             [exact H|]. apply dict_get_None in H. congruence.
        -- destruct (in_dec string_dec k (dict_keys value year)) as [H | H];
             [exact H|]. apply dict_get_None in H. congruence.
      * intros k v Hk. rewrite Hget, Hk. reflexivity.
Qed.

End ConfigurationProofs.

Lemma load_configuration_cases_witness :
  exists config,
    load_configuration Z (fun _ => true)
      (fun p => if String.eqb p "init.yml"
                then [("bio_hake_len_bin"%string, 1%Z)]
                else [("survey_year"%string, 2019%Z)])
      "init.yml" "year.yml"
    = Loaded config
    /\ dict_keys Z config = ["bio_hake_len_bin"%string; "survey_year"%string].
Proof.
  pose proof (load_configuration_cases Z (fun _ => true)
                (fun p => if String.eqb p "init.yml"
                          then [("bio_hake_len_bin"%string, 1%Z)]
                          else [("survey_year"%string, 2019%Z)])
                "init.yml" "year.yml") as H.
  cbv zeta in H.
  destruct H as [_ H].
  - simpl. constructor; [intros []|constructor].
  - destruct (H eq_refl) as [_ H'].
    destruct H' as [config [E [Hk _]]].
    + intros k Hin. simpl in Hin. destruct Hin as [<- | []].
      simpl. intros [Hc | []]. discriminate Hc.
    + exists config. split; [exact E|exact Hk].
Defined.

Lemma increasing_of_nth (l : list Q) :
  (forall i, (S i < length l)%nat -> nth i l 0 < nth (S i) l 0) ->
  increasing l.
Proof.
  induction l as [|a t IH]; intro H; [exact I|].
  destruct t as [|b t']; [exact I|].
  split.
  - apply (H 0%nat). simpl. lia.
  - apply IH. intros i Hi. apply (H (S i)). simpl in *. lia.
Qed.

Lemma Qnat_pos' (n : nat) : (0 < n)%nat -> 0 < Qnat n.
Proof.
  intro H. destruct n as [|n]; [lia|]. apply Qnat_pos.
Qed.

(** The grid of [np.linspace] for two points or more. *)
Lemma linspace_view (start stop : Q) (num : Z) :
  (2 <= num)%Z ->
  exists l,
    np_linspace start stop num = Ok l
    /\ length l = Z.to_nat num
    /\ (forall i, (i < Z.to_nat num)%nat ->
                  nth i l 0 == grid_point start stop num i)
    /\ last l 0 = stop.
Proof.
  intro Hnum. unfold np_linspace.
  destruct (Z.ltb_spec num 0) as [Hneg | _]; [lia|].
  set (n := Z.to_nat num).
  assert (Hn : (2 <= n)%nat) by (unfold n; lia).
  assert (E1 : Nat.ltb 0 (n - 1) = true) by (apply Nat.ltb_lt; lia).
  assert (E2 : Nat.ltb 1 n = true) by (apply Nat.ltb_lt; lia).
  rewrite E1, E2.
  set (delta := stop - start).
  set (g := if Qeq_bool (delta / Qnat (n - 1)) 0
            then fun v : Q => v / Qnat (n - 1) * delta
            else fun v : Q => v * (delta / Qnat (n - 1))).
  assert (Hy : (if Qeq_bool (delta / Qnat (n - 1)) 0
                then map (fun v : Q => v / Qnat (n - 1) * delta)
                         (map Qnat (seq 0 n))
                else map (fun v : Q => v * (delta / Qnat (n - 1)))
                         (map Qnat (seq 0 n)))
               = map g (map Qnat (seq 0 n))).
  { unfold g. destruct (Qeq_bool (delta / Qnat (n - 1)) 0); reflexivity. }
  rewrite Hy. rewrite !map_map.
  set (y := map (fun x => g (Qnat x) + start) (seq 0 n)).
  assert (Ly : length y = n).
  { unfold y. rewrite length_map, length_seq. reflexivity. }
  assert (Hdiv : ~ Qnat (n - 1) == 0).
  { pose proof (Qnat_pos' (n - 1) ltac:(lia)). lra. }
  assert (Hg : forall v, g v == v * (delta / Qnat (n - 1))).
  { intro v. unfold g.
    destruct (Qeq_bool (delta / Qnat (n - 1)) 0); [|reflexivity].
    field. exact Hdiv. }
  eexists. split; [reflexivity|].
  split; [rewrite length_app, length_removelast, Ly; simpl; lia|].
  split.
  - intros i Hi. unfold grid_point. fold n. fold delta.
    destruct (Nat.eq_dec i (n - 1)) as [-> | Hne].
    + rewrite app_nth2 by (rewrite length_removelast, Ly; lia).
      rewrite length_removelast, Ly, Nat.sub_diag. cbn [nth].
      unfold delta. field. exact Hdiv.
    + rewrite app_nth1 by (rewrite length_removelast, Ly; lia).
      rewrite nth_removelast by (rewrite Ly; lia).
      unfold y.
      rewrite (nth_map_in _ (seq 0 n) i 0 0%nat)
        by (rewrite length_seq; lia).
      rewrite seq_nth by lia. cbn [Nat.add]. rewrite Hg. ring.
  - apply last_last.
Qed.

Lemma grid_point_step (start stop : Q) (num : Z) (i : nat) :
  (2 <= num)%Z ->
  grid_point start stop num (S i) - grid_point start stop num i
  == (stop - start) / Qnat (Z.to_nat num - 1).
Proof.
  intro H. unfold grid_point. rewrite Qnat_S.
  assert (Hdiv : 0 < Qnat (Z.to_nat num - 1)) by (apply Qnat_pos'; lia).
  field. lra.
Qed.

Lemma linspace_increasing (start stop : Q) (num : Z) (l : list Q) :
  (2 <= num)%Z -> start < stop ->
  np_linspace start stop num = Ok l -> increasing l.
Proof.
  intros H Hlt E.
  destruct (linspace_view start stop num H) as [l' [E' [Hlen [Hnth _]]]].
  assert (El : l' = l) by congruence. subst l'.
  apply increasing_of_nth. intros i Hi. rewrite Hlen in Hi.
  rewrite (Hnth i) by lia. rewrite (Hnth (S i)) by lia.
  pose proof (grid_point_step start stop num i H) as Hs.
  assert (Hdiv : 0 < Qnat (Z.to_nat num - 1)) by (apply Qnat_pos'; lia).
  assert (Hstep : 0 < (stop - start) / Qnat (Z.to_nat num - 1)).
  { apply Qlt_shift_div_l; [exact Hdiv|]. lra. }
  lra.
Qed.

(** [np.linspace]: a negative number of points is refused; otherwise the
    array has [num] points; from two points on it starts at [start], ends
    at [stop] exactly, its points are equally spaced, and they increase
    strictly when [start < stop]. *)
Theorem linspace_grid (start stop : Q) (num : Z) :
  ((num < 0)%Z -> np_linspace start stop num = Raise ValueError)
  /\ ((0 <= num)%Z ->
      exists l, np_linspace start stop num = Ok l
                /\ length l = Z.to_nat num)
  /\ ((2 <= num)%Z ->
      exists l,
        np_linspace start stop num = Ok l
        /\ nth 0 l 0 == start
        /\ last l 0 = stop
        /\ (forall i, (i < Z.to_nat num)%nat ->
                      nth i l 0 == grid_point start stop num i)
        /\ (start < stop -> increasing l)).
Proof.
  split; [|split].
  - intro H. unfold np_linspace.
    destruct (Z.ltb_spec num 0) as [_ | Hc]; [reflexivity|lia].
  - intro H. unfold np_linspace.
    destruct (Z.ltb_spec num 0) as [Hc | _]; [lia|].
    eexists. split; [reflexivity|].
    set (n := Z.to_nat num).
    destruct (Nat.ltb 1 n) eqn:E1.
    + apply Nat.ltb_lt in E1.
      rewrite length_app, length_removelast, length_map.
      destruct (Nat.ltb 0 (n - 1));
        [destruct (Qeq_bool _ 0)|];
        rewrite !length_map, length_seq; simpl; lia.
    + rewrite length_map.
      destruct (Nat.ltb 0 (n - 1));
        [destruct (Qeq_bool _ 0)|];
        rewrite !length_map, length_seq; reflexivity.
  - intro H.
    destruct (linspace_view start stop num H) as [l [E [Hlen [Hnth Hlast]]]].
    exists l. split; [exact E|].
    assert (Hdiv : 0 < Qnat (Z.to_nat num - 1)).
    { apply Qnat_pos'. lia. }
    split.
    { rewrite (Hnth 0%nat) by lia. unfold grid_point.
      change (Qnat 0) with 0. field. lra. }
    split; [exact Hlast|]. split; [exact Hnth|].
    intro Hlt. apply (linspace_increasing start stop num l H Hlt E).
Qed.

Lemma linspace_grid_witness :
  np_linspace 1 3 3 = Ok [0 * ((3 - 1) / Qnat 2) + 1;
                          Qnat 1 * ((3 - 1) / Qnat 2) + 1; 3]
  /\ increasing [0 * ((3 - 1) / Qnat 2) + 1;
                 Qnat 1 * ((3 - 1) / Qnat 2) + 1; 3].
Proof.
  split; [reflexivity|].
  destruct (proj2 (proj2 (linspace_grid 1 3 3)) ltac:(lia))
    as [l [E [_ [_ [_ Hinc]]]]].
  injection E as <-. apply Hinc. reflexivity.
Defined.

(** The bins of the survey.  A negative number of bins is refused.  With
    two bins or more, the age bins are strictly increasing from
    [start] to [stop], as the bin indexer requires of its centers; the
    length bins are the points of the grid rounded down, and do not
    decrease. *)
Theorem biometric_distributions_bins (len_bin age_bin : bin_parameter) :
  ((bin_num len_bin < 0)%Z \/ (bin_num age_bin < 0)%Z ->
   biometric_distributions len_bin age_bin = Raise ValueError)
  /\ ((2 <= bin_num len_bin)%Z -> (2 <= bin_num age_bin)%Z ->
      bin_start len_bin <= bin_stop len_bin ->
      bin_start age_bin < bin_stop age_bin ->
      exists b,
        biometric_distributions len_bin age_bin = Ok b
        /\ length (age_bins_arr b) = Z.to_nat (bin_num age_bin)
        /\ (2 <= length (age_bins_arr b))%nat
        /\ increasing (age_bins_arr b)
        /\ length (length_bins_arr b) = Z.to_nat (bin_num len_bin)
        /\ (forall i, (i < Z.to_nat (bin_num len_bin))%nat ->
                      nth i (length_bins_arr b) 0%Z
                      = Qfloor (grid_point (bin_start len_bin)
                                           (bin_stop len_bin)
                                           (bin_num len_bin) i))
        /\ (forall i, (S i < Z.to_nat (bin_num len_bin))%nat ->
                      (nth i (length_bins_arr b) 0
                       <= nth (S i) (length_bins_arr b) 0)%Z)).
Proof.
  unfold biometric_distributions, np_linspace_int64. split.
  - intros [H | H].
    + unfold np_linspace at 1.
      destruct (Z.ltb_spec (bin_num len_bin) 0) as [_ | Hc]; [reflexivity|lia].
    + destruct (np_linspace (bin_start len_bin) (bin_stop len_bin)
                            (bin_num len_bin)) as [y|e] eqn:El.
      * cbn [bind]. unfold np_linspace.
        destruct (Z.ltb_spec (bin_num age_bin) 0) as [_ | Hc];
          [reflexivity|lia].
      * cbn [bind]. unfold np_linspace in El.
        destruct (Z.ltb (bin_num len_bin) 0); [congruence|discriminate].
  - intros Hl Ha Hls Has.
    destruct (linspace_view (bin_start len_bin) (bin_stop len_bin)
                            (bin_num len_bin) Hl)
      as [yl [El [Ll [Nl _]]]].
    destruct (linspace_view (bin_start age_bin) (bin_stop age_bin)
                            (bin_num age_bin) Ha)
      as [ya [Ea [La _]]].
    rewrite El. cbn [bind]. rewrite Ea. cbn [bind].
    eexists. split; [reflexivity|].
    cbn [age_bins_arr length_bins_arr].
    split; [exact La|]. split; [rewrite La; lia|].
    split; [apply (linspace_increasing _ _ _ ya Ha Has Ea)|].
    split; [rewrite length_map; exact Ll|].
    assert (Hfl : forall i, (i < Z.to_nat (bin_num len_bin))%nat ->
                nth i (map Qfloor yl) 0%Z
                = Qfloor (grid_point (bin_start len_bin) (bin_stop len_bin)
                                     (bin_num len_bin) i)).
    { intros i Hi.
      rewrite (nth_map_in _ yl i 0%Z 0) by (rewrite Ll; exact Hi).
      apply Qfloor_comp. apply Nl. exact Hi. }
    split; [exact Hfl|].
    intros i Hi. rewrite (Hfl i) by lia. rewrite (Hfl (S i)) by exact Hi.
    apply Qfloor_resp_le.
    pose proof (grid_point_step (bin_start len_bin) (bin_stop len_bin)
                                (bin_num len_bin) i Hl) as Hs.
    assert (Hdiv : 0 < Qnat (Z.to_nat (bin_num len_bin) - 1))
      by (apply Qnat_pos'; lia).
    assert (Hstep : 0 <= (bin_stop len_bin - bin_start len_bin)
                         / Qnat (Z.to_nat (bin_num len_bin) - 1)).
    { apply Qle_shift_div_l; [exact Hdiv|]. lra. }
    lra.
Qed.

Lemma biometric_distributions_bins_witness :
  exists b,
    biometric_distributions
      {| bin_start := 2; bin_stop := 80; bin_num := 40 |}
      {| bin_start := 1; bin_stop := 22; bin_num := 22 |} = Ok b
    /\ increasing (age_bins_arr b)
    /\ length (length_bins_arr b) = 40%nat.
Proof.
  destruct (proj2 (biometric_distributions_bins
                     {| bin_start := 2; bin_stop := 80; bin_num := 40 |}
                     {| bin_start := 1; bin_stop := 22; bin_num := 22 |}))
    as [b [E [_ [_ [Hinc [Hlen _]]]]]].
  - simpl. lia.
  - simpl. lia.
  - simpl. discriminate.
  - reflexivity.
  - exists b. split; [exact E|]. split; [exact Hinc|exact Hlen].
Defined.

(** ** Survey: haul means, stratum means and [transect_analysis] *)

Lemma mapM_raise {A B : Type} (f : A -> result B) (e : exn) (l : list A) :
  (forall a e', In a l -> f a = Raise e' -> e' = e) ->
  (mapM f l = Raise e <-> exists a, In a l /\ f a = Raise e)
  /\ ((exists bs, mapM f l = Ok bs) <-> forall a, In a l -> exists b, f a = Ok b).
Proof.
  induction l as [|a t IH]; intro He.
  - simpl. split; split.
    + discriminate.
    + intros [a [[] _]].
    + intros _ a [].
    + intros _. eexists. reflexivity.
  - destruct IH as [IHr IHo].
    { intros a' e' Ha'. apply He. right. exact Ha'. }
    cbn [mapM]. destruct (f a) as [b|e'] eqn:Ea; cbn [bind].
    + destruct (mapM f t) as [bs|e''] eqn:Et; cbn [bind].
      * split; split.
        -- discriminate.
        -- intros [a' [[<- | Ha'] Hr]]; [congruence|].
           assert (Hc : @Ok (list B) bs = Raise e) by (apply IHr; eauto).
           discriminate Hc.
        -- intros _ a' [<- | Ha']; [eauto|].
           apply (proj1 IHo); [eauto|exact Ha'].
        -- intros _. eexists. reflexivity.
      * split; split.
        -- intro H. injection H as ->.
           destruct (proj1 IHr eq_refl) as [a' [Ha' Hr]]. exists a'.
           split; [right; exact Ha'|exact Hr].
        -- intros [a' [[<- | Ha'] Hr]]; [congruence|].
           f_equal. symmetry.
           assert (Hx : @Raise (list B) e'' = Raise e) by (apply IHr; eauto).
           congruence.
        -- intros [bs H]. discriminate H.
        -- intro H.
           assert (Hc : exists bs : list B, Raise e'' = Ok bs).
           { apply IHo. intros a' Ha'. apply H. right. exact Ha'. }
           destruct Hc as [bs Hc]. discriminate Hc.
    + assert (Ee : e' = e) by (apply (He a e'); [left; reflexivity|exact Ea]).
      subst e'. split; split.
      * intros _. exists a. split; [left; reflexivity|exact Ea].
      * intros _. reflexivity.
      * intros [bs H]. discriminate H.
      * intro H. destruct (H a (or_introl eq_refl)) as [b Hb]. congruence.
Qed.

Lemma unique_key3_In_iff (l : list key3) (k : key3) :
  In k (unique_key3 l) <-> In k l.
Proof.
  induction l as [|a t IH]; simpl; [tauto|].
  rewrite filter_In, IH. split.
  - intros [H | [H _]]; [left; exact H|right; exact H].
  - intros [H | H]; [left; exact H|].
    destruct (key3_eqb k a) eqn:E.
    + left. destruct k as [[h s] g], a as [[h' s'] g'].
      unfold key3_eqb in E.
      apply andb_true_iff in E. destruct E as [E E3].
      apply andb_true_iff in E. destruct E as [E1 E2].
      apply Z.eqb_eq in E1, E2, E3. congruence.
    + right. split; [exact H|reflexivity].
Qed.

Lemma spec_groups_nil_iff (specimen_df : list specimen_row) :
  spec_groups specimen_df = []
  <-> forall r, In r specimen_df -> isnan (sp_length r) = true.
Proof.
  unfold spec_groups.
  set (rows := filter (fun r => negb (isnan (sp_length r))) specimen_df).
  assert (Hrows : rows = []
                  <-> forall r, In r specimen_df -> isnan (sp_length r) = true).
  { unfold rows. split.
    - intros E r Hr. destruct (isnan (sp_length r)) eqn:En; [reflexivity|].
      assert (Hin : In r (filter (fun r => negb (isnan (sp_length r)))
                                 specimen_df)).
      { apply filter_In. split; [exact Hr|]. rewrite En. reflexivity. }
      rewrite E in Hin. destruct Hin.
    - intro H. induction specimen_df as [|r t IH]; [reflexivity|].
      simpl. rewrite (H r (or_introl eq_refl)). simpl. apply IH.
      intros r' Hr'. apply H. right. exact Hr'. }
  rewrite <- Hrows. split.
  - intro E. destruct rows as [|r t]; [reflexivity|]. discriminate E.
  - intros ->. reflexivity.
Qed.

(** The three stages of [mean_haul_sigma_bs]. *)
Lemma mean_haul_unfold (sigma : Q -> Q)
  (specimen_df : list specimen_row) (length_df : list length_row)
  (species_id : Z) :
  let all_df := all_length_df (spec_groups specimen_df) length_df species_id in
  let keys := unique_key3 (map al_key all_df) in
  (spec_groups specimen_df = [] ->
   mean_haul_sigma_bs sigma specimen_df length_df species_id
   = Raise TypeError)
  /\ (spec_groups specimen_df <> [] -> all_df = [] ->
      mean_haul_sigma_bs sigma specimen_df length_df species_id
      = Raise AttributeError)
  /\ (spec_groups specimen_df <> [] -> all_df <> [] ->
      mean_haul_sigma_bs sigma specimen_df length_df species_id
      = mapM (fun k => bind (haul_mean sigma all_df k) (fun v => Ok (k, v)))
             keys).
Proof.
  intros all_df keys. unfold mean_haul_sigma_bs, spec_df_reframed.
  split; [|split].
  - intros ->. reflexivity.
  - intros Hg Ha. destruct (spec_groups specimen_df) as [|g t] eqn:Eg;
      [congruence|]. cbn [bind]. fold all_df. rewrite Ha. reflexivity.
  - intros Hg Ha. subst keys.
    destruct (spec_groups specimen_df) as [|g t] eqn:Eg; [congruence|].
    cbn [bind]. fold all_df.
    destruct all_df as [|a t']; [congruence|]. reflexivity.
Qed.

Lemma mean_haul_Ok_inv (sigma : Q -> Q)
  (specimen_df : list specimen_row) (length_df : list length_row)
  (species_id : Z) (hauls : list (key3 * float)) :
  let all_df := all_length_df (spec_groups specimen_df) length_df species_id in
  mean_haul_sigma_bs sigma specimen_df length_df species_id = Ok hauls ->
  spec_groups specimen_df <> [] /\ all_df <> []
  /\ mapM (fun k => bind (haul_mean sigma all_df k) (fun v => Ok (k, v)))
          (unique_key3 (map al_key all_df)) = Ok hauls.
Proof.
  intros all_df E.
  destruct (mean_haul_unfold sigma specimen_df length_df species_id)
    as [H1 [H2 H3]]. fold all_df in H2, H3.
  destruct (spec_groups specimen_df) as [|g t] eqn:Eg.
  - rewrite (H1 eq_refl) in E. discriminate E.
  - assert (Hg : g :: t <> []) by discriminate.
    destruct all_df as [|a t'] eqn:Ea.
    + rewrite (H2 Hg eq_refl) in E. discriminate E.
    + assert (Ha : a :: t' <> []) by discriminate.
      rewrite (H3 Hg Ha) in E. auto.
Qed.

Lemma haul_means_view (sigma : Q -> Q)
  (specimen_df : list specimen_row) (length_df : list length_row)
  (species_id : Z) :
  let all_df := all_length_df (spec_groups specimen_df) length_df species_id in
  let keys := unique_key3 (map al_key all_df) in
  spec_groups specimen_df <> [] ->
  all_df <> [] ->
  (mean_haul_sigma_bs sigma specimen_df length_df species_id
   = Raise ZeroDivisionError
   <-> exists k, In k keys /\ feq_b (group_count all_df k) (Fin 0) = true)
  /\ ((exists rows,
         mean_haul_sigma_bs sigma specimen_df length_df species_id = Ok rows)
      <-> forall k, In k keys -> feq_b (group_count all_df k) (Fin 0) = false)
  /\ (forall rows,
        mean_haul_sigma_bs sigma specimen_df length_df species_id = Ok rows ->
        map fst rows = keys).
Proof.
  intros all_df keys Hg Hne.
  rewrite (proj2 (proj2 (mean_haul_unfold sigma specimen_df length_df
                           species_id)) Hg Hne).
  fold all_df. fold keys.
  set (f := fun k => bind (haul_mean sigma all_df k) (fun v => Ok (k, v))).
  assert (Hf : forall k,
             (feq_b (group_count all_df k) (Fin 0) = true ->
              f k = Raise ZeroDivisionError)
             /\ (feq_b (group_count all_df k) (Fin 0) = false ->
                 exists v, f k = Ok (k, v))).
  { intro k. unfold f, haul_mean, np_average. cbv zeta.
    change (fsum (map al_length_count
                      (filter (fun r => key3_eqb (al_key r) k) all_df)))
      with (group_count all_df k).
    destruct (feq_b (group_count all_df k) (Fin 0)).
    - split; [reflexivity|discriminate].
    - split; [discriminate|]. intros _. cbn [bind]. eexists. reflexivity. }
  destruct (mapM_raise f ZeroDivisionError keys) as [Hr Ho].
  { intros k e' _ Hk.
    destruct (feq_b (group_count all_df k) (Fin 0)) eqn:E.
    - rewrite (proj1 (Hf k) E) in Hk. congruence.
    - destruct (proj2 (Hf k) E) as [v Hv]. congruence. }
  assert (Hnz : (exists rows, mapM f keys = Ok rows) ->
                forall k, In k keys ->
                          feq_b (group_count all_df k) (Fin 0) = false).
  { intros H k Hk. destruct (proj1 Ho H k Hk) as [b Hb].
    destruct (feq_b (group_count all_df k) (Fin 0)) eqn:E0; [|reflexivity].
    rewrite (proj1 (Hf k) E0) in Hb. discriminate Hb. }
  split; [|split].
  - rewrite Hr. split.
    + intros [k [Hk Hfk]]. exists k. split; [exact Hk|].
      destruct (feq_b (group_count all_df k) (Fin 0)) eqn:E; [reflexivity|].
      destruct (proj2 (Hf k) E) as [v Hv]. congruence.
    + intros [k [Hk E]]. exists k. split; [exact Hk|].
      apply (proj1 (Hf k) E).
  - split; [exact Hnz|].
    intro H. apply Ho. intros k Hk.
    destruct (proj2 (Hf k) (H k Hk)) as [v Hv]. eauto.
  - intros rows0 E0.
    assert (H := Hnz (ex_intro _ rows0 E0)).
    destruct (mapM_ok f keys) as [rows [E [Hlen Hnth]]].
    { intros k Hk. destruct (proj2 (Hf k) (H k Hk)) as [v Hv]. eauto. }
    assert (rows0 = rows) by congruence. subst rows0.
    apply (nth_ext _ _ (0, 0, 0)%Z (0, 0, 0)%Z);
      [rewrite length_map; exact Hlen|].
    intros i Hi. rewrite length_map in Hi.
    destruct (nth_error rows i) as [[k v]|] eqn:Ei;
      [|apply nth_error_None in Ei; lia].
    rewrite (nth_map_in _ rows i (0, 0, 0)%Z (k, v)) by exact Hi.
    rewrite (nth_error_nth rows i (k, v) Ei). cbn [fst].
    destruct (Hnth i (k, v) Ei) as [a [Ha Efa]].
    rewrite (nth_error_nth keys i _ Ha).
    destruct (proj2 (Hf a) (H a (nth_error_In _ _ Ha))) as [v' Hv'].
    congruence.
Qed.

(** The outcomes of the haul means.  When no specimen has a length the
    reframing of the specimen table raises [TypeError]; otherwise, when no
    row of either station is of the species, the haul means raise
    [AttributeError]; otherwise [np.average] refuses weights that sum to
    zero, so the haul means raise [ZeroDivisionError] exactly when the
    counts of one haul, specimens included, add up to zero, and else they
    hold a row for every haul of the species and for no other. *)
Theorem haul_means_raise_iff_zero_count (sigma : Q -> Q)
  (specimen_df : list specimen_row) (length_df : list length_row)
  (species_id : Z) :
  let all_df := all_length_df (spec_groups specimen_df) length_df species_id in
  let run := mean_haul_sigma_bs sigma specimen_df length_df species_id in
  ((forall r, In r specimen_df -> isnan (sp_length r) = true) ->
   run = Raise TypeError)
  /\ ((exists r, In r specimen_df /\ isnan (sp_length r) = false) ->
      (all_df = [] -> run = Raise AttributeError)
      /\ (all_df <> [] ->
          (run = Raise ZeroDivisionError
           <-> exists k, In k (map al_key all_df)
                         /\ feq_b (group_count all_df k) (Fin 0) = true)
          /\ ((exists rows,
                 run = Ok rows
                 /\ forall k, In k (map fst rows)
                              <-> In k (map al_key all_df))
              <-> forall k, In k (map al_key all_df) ->
                            feq_b (group_count all_df k) (Fin 0) = false))).
Proof.
  intros all_df run.
  destruct (mean_haul_unfold sigma specimen_df length_df species_id)
    as [U1 [U2 _]]. fold all_df in U2.
  split.
  - intro Hnan. apply U1. apply spec_groups_nil_iff. exact Hnan.
  - intros [r0 [Hr0 Hn0]].
    assert (Hg : spec_groups specimen_df <> []).
    { intro E. rewrite (proj1 (spec_groups_nil_iff specimen_df) E r0 Hr0)
        in Hn0. discriminate Hn0. }
    split; [exact (U2 Hg)|]. intro Ha.
    destruct (haul_means_view sigma specimen_df length_df species_id Hg Ha)
      as [H1 [H2 H3]].
    fold all_df in H1, H2, H3. fold run in H1, H2, H3.
    assert (Hkeys : forall k, In k (unique_key3 (map al_key all_df))
                              <-> In k (map al_key all_df)).
    { intro k. apply unique_key3_In_iff. }
    split.
    + rewrite H1. split; intros [k [Hk E]]; exists k;
        (split; [apply Hkeys; exact Hk|exact E]).
    + split.
      * intros [rows [E _]] k Hk.
        apply (proj1 H2); [exists rows; exact E|apply Hkeys; exact Hk].
      * intro H. destruct (proj2 H2) as [rows E].
        { intros k Hk. apply H. apply Hkeys. exact Hk. }
        exists rows. split; [exact E|]. intro k. rewrite (H3 rows E).
        apply Hkeys.
Qed.

Lemma haul_means_raise_iff_zero_count_witness :
  mean_haul_sigma_bs (fun len => len * len) [specimen 2 40 1 1]
    [measured 1 30 0 1; measured 2 40 3 1] 22500
  = Raise ZeroDivisionError.
Proof.
  destruct (haul_means_raise_iff_zero_count (fun len => len * len)
              [specimen 2 40 1 1]
              [measured 1 30 0 1; measured 2 40 3 1] 22500) as [_ H].
  destruct H as [_ H].
  - exists (specimen 2 40 1 1). split; [left; reflexivity|reflexivity].
  - destruct H as [H _]; [discriminate|].
    apply H. exists (1, 22500, 0)%Z.
    split; [right; left; reflexivity|reflexivity].
Defined.

Lemma mapM_Ok_In {A B : Type} (f : A -> result B) (l : list A)
  (bs : list B) :
  mapM f l = Ok bs ->
  forall b, In b bs -> exists a, In a l /\ f a = Ok b.
Proof.
  revert bs. induction l as [|a t IH]; intros bs E b Hb.
  - simpl in E. injection E as <-. destruct Hb.
  - cbn [mapM] in E. destruct (f a) as [b0|] eqn:Ea; [|discriminate].
    cbn [bind] in E. destruct (mapM f t) as [bs'|]; [|discriminate].
    cbn [bind] in E. injection E as <-. destruct Hb as [<- | Hb].
    + exists a. split; [left; reflexivity|exact Ea].
    + destruct (IH bs' eq_refl b Hb) as [a' [Ha' Hf]].
      exists a'. split; [right; exact Ha'|exact Hf].
Qed.

Lemma merged_rows_In (hauls : list (key3 * float))
  (strata_df : list strata_row) (st sp : Z) (v : float) :
  In ((st, sp), v) (merged_rows hauls strata_df)
  <-> exists haul region row,
        In ((haul, sp, region), v) hauls
        /\ In row strata_df
        /\ st_haul_num row = haul
        /\ st_stratum_num row = st.
Proof.
  unfold merged_rows, merge_strata. rewrite in_flat_map. split.
  - intros [[[[s'|] sp'] v'] [Hm Hr]]; [|destruct Hr].
    destruct Hr as [Hr|[]]. injection Hr as -> -> ->.
    apply in_flat_map in Hm.
    destruct Hm as [[[[haul species] region] v0] [Hh Hm]].
    destruct (filter (fun s => Z.eqb (st_haul_num s) haul) strata_df)
      as [|m ms] eqn:Ef.
    + destruct Hm as [Hm|[]]. discriminate Hm.
    + apply in_map_iff in Hm. destruct Hm as [row [Er Hrow]].
      injection Er as <- <- <-. rewrite <- Ef in Hrow.
      apply filter_In in Hrow. destruct Hrow as [Hrow Eh].
      apply Z.eqb_eq in Eh. exists haul, region, row. auto.
  - intros [haul [region [row [Hh [Hrow [Eh Es]]]]]].
    exists (Some st, sp, v). split; [|left; reflexivity].
    apply in_flat_map. exists ((haul, sp, region), v). split; [exact Hh|].
    assert (Hin : In row (filter (fun s => Z.eqb (st_haul_num s) haul)
                                 strata_df)).
    { apply filter_In. split; [exact Hrow|]. apply Z.eqb_eq. exact Eh. }
    destruct (filter (fun s => Z.eqb (st_haul_num s) haul) strata_df)
      as [|m ms]; [destruct Hin|].
    apply in_map_iff. exists row. split; [|exact Hin]. rewrite Es.
    reflexivity.
Qed.

Lemma mean_strata_keys (hauls : list (key3 * float))
  (strata_df : list strata_row) (r : strata_mean_row) :
  In r (mean_strata_sigma_bs hauls strata_df) ->
  exists v, In ((sm_stratum_num r, sm_species_id r), v)
               (merged_rows hauls strata_df).
Proof.
  unfold mean_strata_sigma_bs. cbv zeta. intro H.
  apply in_map_iff in H. destruct H as [k [<- Hk]]. cbn [sm_stratum_num sm_species_id].
  apply (Permutation_in k (sort_values_Permutation _ _)) in Hk.
  apply (Permutation_in k (sort_values_Permutation _ _)) in Hk.
  apply nodup_In in Hk. apply in_map_iff in Hk.
  destruct Hk as [[k' v] [<- Hkv]]. exists v. cbn [fst]. destruct k'. exact Hkv.
Qed.

Lemma mean_strata_present (hauls : list (key3 * float))
  (strata_df : list strata_row) (s : Z) :
  In s (map sm_stratum_num (mean_strata_sigma_bs hauls strata_df))
  <-> sampled hauls strata_df s.
Proof.
  split.
  - intro H. apply in_map_iff in H. destruct H as [r [<- Hr]].
    destruct (mean_strata_keys _ _ _ Hr) as [v Hv].
    apply merged_rows_In in Hv.
    destruct Hv as [haul [region [row [Hh [Hrow [Eh Es]]]]]].
    exists haul, (sm_species_id r), region, v, row. auto.
  - intros [haul [species [region [v [row [Hh [Hrow [Eh Es]]]]]]]].
    assert (Hin : In ((s, species), v) (merged_rows hauls strata_df)).
    { apply merged_rows_In. exists haul, region, row. auto. }
    unfold mean_strata_sigma_bs. cbv zeta. rewrite map_map.
    cbn [sm_stratum_num]. apply in_map_iff. exists (s, species).
    split; [reflexivity|].
    apply (Permutation_in _ (Permutation_sym (sort_values_Permutation _ _))).
    apply (Permutation_in _ (Permutation_sym (sort_values_Permutation _ _))).
    apply nodup_In. apply in_map_iff. exists ((s, species), v).
    split; [reflexivity|exact Hin].
Qed.

Lemma haul_means_species (sigma : Q -> Q) (specimen_df : list specimen_row)
  (length_df : list length_row) (species_id : Z)
  (hauls : list (key3 * float)) :
  mean_haul_sigma_bs sigma specimen_df length_df species_id = Ok hauls ->
  forall haul species region v,
    In ((haul, species, region), v) hauls -> species = species_id.
Proof.
  intro E0.
  destruct (mean_haul_Ok_inv sigma specimen_df length_df species_id hauls E0)
    as [_ [_ E]].
  set (all_df := all_length_df (spec_groups specimen_df) length_df
                               species_id) in *.
  set (f := fun k => bind (haul_mean sigma all_df k) (fun v => Ok (k, v)))
    in *.
  intros haul species region v Hin.
  destruct (mapM_Ok_In f _ _ E _ Hin) as [k [Hk Hf]].
  unfold f in Hf. destruct (haul_mean sigma all_df k); [|discriminate].
  cbn [bind] in Hf. injection Hf as -> _.
  apply (proj1 (unique_key3_In_iff _ _)) in Hk.
  apply in_map_iff in Hk. destruct Hk as [r [Er Hr]].
  unfold all_df, all_length_df in Hr. apply filter_In in Hr.
  destruct Hr as [_ Hs]. apply Z.eqb_eq in Hs.
  unfold al_key in Er. injection Er as _ <- _. exact Hs.
Qed.

Lemma assign_fold_length (f : list strata_mean_row -> Z -> float)
  (ms : list Z) (acc : list strata_mean_row) :
  length (fold_left (fun acc i => assign_where acc i (f acc i)) ms acc)
  = length acc.
Proof.
  revert acc. induction ms as [|i rest IH]; intro acc; [reflexivity|].
  cbn [fold_left]. rewrite IH. unfold assign_where. apply length_map.
Qed.

Lemma mean_strata_species (sigma : Q -> Q) (specimen_df : list specimen_row)
  (length_df : list length_row) (strata_df : list strata_row)
  (species_id : Z) (hauls : list (key3 * float)) :
  mean_haul_sigma_bs sigma specimen_df length_df species_id = Ok hauls ->
  length (np_unique (map sm_species_id (mean_strata_sigma_bs hauls strata_df)))
  = match mean_strata_sigma_bs hauls strata_df with
    | [] => 0%nat
    | _ :: _ => 1%nat
    end.
Proof.
  intro E. destruct (mean_strata_sigma_bs hauls strata_df) as [|r0 t] eqn:Em;
    [reflexivity|].
  rewrite np_unique_length.
  rewrite (nodup_constant _ species_id); [reflexivity|discriminate|].
  intros x Hx. apply in_map_iff in Hx. destruct Hx as [r [<- Hr]].
  rewrite <- Em in Hr. destruct (mean_strata_keys _ _ _ Hr) as [v Hv].
  apply merged_rows_In in Hv.
  destruct Hv as [haul [region [row [Hh _]]]].
  apply (haul_means_species sigma specimen_df length_df species_id hauls E
           haul (sm_species_id r) region v Hh).
Qed.

(** Strata without a haul of the species.  [transect_analysis] computes
    the stratum means of the hauls that have a mean and then imputes.  The
    strata it imputes are those of the stratification table none of whose
    hauls has a mean.  With none the stratum means are returned as they
    are; with two or more the call raises [ValueError], because the single
    species id cannot fill the column of the rows to add; with exactly one
    it raises only when no stratum has a mean at all. *)
Theorem transect_analysis_unsampled_strata (sigma : Q -> Q)
  (specimen_df : list specimen_row) (length_df : list length_row)
  (strata_df : list strata_row) (species_id : Z)
  (hauls : list (key3 * float)) :
  mean_haul_sigma_bs sigma specimen_df length_df species_id = Ok hauls ->
  hauls <> [] ->
  let strata_mean := mean_strata_sigma_bs hauls strata_df in
  let unsampled :=
    missing_strata_of (map st_stratum_num strata_df) strata_mean in
  let run :=
    transect_analysis sigma specimen_df length_df strata_df species_id in
  (forall s, In s unsampled
             <-> In s (map st_stratum_num strata_df)
                 /\ ~ sampled hauls strata_df s)
  /\ (unsampled = [] -> run = Ok strata_mean)
  /\ ((2 <= length unsampled)%nat -> run = Raise ValueError)
  /\ (length unsampled = 1%nat ->
      (run = Raise ValueError <-> strata_mean = [])
      /\ (strata_mean <> [] ->
          exists out, run = Ok out
                      /\ length out = S (length strata_mean))).
Proof.
  intros E _ strata_mean unsampled run.
  assert (Hrun : run = impute_missing_sigma_bs (map st_stratum_num strata_df)
                         strata_mean).
  { unfold run, transect_analysis. rewrite E. reflexivity. }
  pose proof (mean_strata_species sigma specimen_df length_df strata_df
                species_id hauls E) as Hsp.
  fold strata_mean in Hsp.
  rewrite Hrun, impute_missing_unfold. cbv zeta. fold unsampled.
  split; [|split; [|split]].
  - intro s. unfold unsampled, missing_strata_of. rewrite filter_In.
    rewrite np_unique_In, negb_true_iff.
    rewrite <- (mean_strata_present hauls strata_df s).
    fold strata_mean. split; intros [H1 H2]; (split; [exact H1|]).
    + intro Hin. apply np_unique_In in Hin. apply mem_Z_In in Hin.
      congruence.
    + destruct (mem_Z s (np_unique (map sm_stratum_num strata_mean))) eqn:Em;
        [|reflexivity].
      exfalso. apply H2. apply np_unique_In. apply mem_Z_In. exact Em.
  - intros ->. reflexivity.
  - intro H2. destruct unsampled as [|a [|b t]]; simpl in H2; [lia|lia|].
    cbn [length Nat.ltb Nat.leb]. rewrite Hsp.
    destruct strata_mean; reflexivity.
  - intro H1. destruct unsampled as [|a [|b t]] eqn:Eu; simpl in H1;
      [lia| |lia].
    cbn [length Nat.ltb Nat.leb]. rewrite Hsp.
    destruct strata_mean as [|r0 rest] eqn:Es.
    + split; [split; reflexivity|]. intro H. congruence.
    + cbn [Nat.eqb negb]. split; [split; discriminate|].
      intros _. eexists. split; [reflexivity|].
      rewrite (assign_fold_length
                 (impute_value (present_strata_of (r0 :: rest)))).
      rewrite (Permutation_length (sort_values_Permutation _ _)).
      rewrite length_app, length_map, length_combine.
      cbn [length]. rewrite Hsp. cbn [length]. lia.
Qed.

Lemma transect_analysis_unsampled_strata_witness :
  transect_analysis (fun len => len * len) [specimen 1 30 1 1]
    [measured 1 30 2 1; measured 2 40 3 1]
    [stratum_of_haul 1 1; stratum_of_haul 2 2; stratum_of_haul 3 3;
     stratum_of_haul 4 4]
    22500
  = Raise ValueError.
Proof.
  let r := eval vm_compute in
             (mean_haul_sigma_bs (fun len => len * len) [specimen 1 30 1 1]
                [measured 1 30 2 1; measured 2 40 3 1] 22500) in
  match r with
  | Ok ?hauls =>
      refine (proj1 (proj2 (proj2
                (transect_analysis_unsampled_strata (fun len => len * len)
                   [specimen 1 30 1 1]
                   [measured 1 30 2 1; measured 2 40 3 1]
                   [stratum_of_haul 1 1; stratum_of_haul 2 2;
                    stratum_of_haul 3 3; stratum_of_haul 4 4]
                   22500 hauls _ _))) _)
  end.
  - vm_compute. reflexivity.
  - discriminate.
  - vm_compute. apply le_n.
Defined.

(** ** DensityConverter: missing strata and the rounding residue *)

Lemma bio_param_loc_cases (bio_param_df : list (Z * bio_param)) (k : Z) :
  (In k (map fst bio_param_df) ->
   exists bc, bio_param_loc bio_param_df k = Ok bc /\ In (k, bc) bio_param_df)
  /\ (~ In k (map fst bio_param_df) ->
      bio_param_loc bio_param_df k = Raise KeyError).
Proof.
  induction bio_param_df as [|[k' v] t [IH1 IH2]]; simpl.
  - split; [intros []|reflexivity].
  - destruct (Z.eqb_spec k k') as [E | E].
    + subst k'. split.
      * intros _. exists v. split; [reflexivity|left; reflexivity].
      * intro H. exfalso. apply H. left. reflexivity.
    + split.
      * intros [H | H]; [congruence|].
        destruct (IH1 H) as [bc [Hbc Hin]]. exists bc.
        split; [exact Hbc|right; exact Hin].
      * intro H. apply IH2. intro Hin. apply H. right. exact Hin.
Qed.

Lemma mapM_Ok_length {A B : Type} (f : A -> result B) (l : list A)
  (bs : list B) :
  mapM f l = Ok bs -> length bs = length l.
Proof.
  revert bs. induction l as [|a t IH]; intros bs E.
  - simpl in E. injection E as <-. reflexivity.
  - cbn [mapM] in E. destruct (f a) as [b0|]; [|discriminate].
    cbn [bind] in E. destruct (mapM f t) as [bs'|]; [|discriminate].
    cbn [bind] in E. injection E as <-. simpl. rewrite (IH bs' eq_refl).
    reflexivity.
Qed.

(** An interval in a stratum without biological parameters.  For a density
    per interval, [_get_tot_biomass_density] raises [KeyError] exactly when
    the stratum of some interval has no row in the table of biological
    parameters; otherwise it returns one biomass density per interval. *)
Theorem tot_biomass_density_keyerror_iff
  (bio_param_df : list (Z * bio_param)) (nasc_stratum_num : list Z)
  (numerical_density : list float) :
  length numerical_density = length nasc_stratum_num ->
  let run :=
    _get_tot_biomass_density bio_param_df nasc_stratum_num numerical_density in
  (run = Raise KeyError
   <-> exists s, In s nasc_stratum_num /\ ~ In s (map fst bio_param_df))
  /\ ((forall s, In s nasc_stratum_num -> In s (map fst bio_param_df)) ->
      exists out, run = Ok out /\ length out = length nasc_stratum_num).
Proof.
  intros Hlen run. unfold run, _get_tot_biomass_density, interval_densities.
  destruct (mapM_raise (bio_param_loc bio_param_df) KeyError nasc_stratum_num)
    as [Hr Ho].
  { intros s e' _ Hs.
    destruct (in_dec Z.eq_dec s (map fst bio_param_df)) as [Hin | Hnin].
    - destruct (proj1 (bio_param_loc_cases bio_param_df s) Hin)
        as [bc [Hbc _]]. congruence.
    - rewrite (proj2 (bio_param_loc_cases bio_param_df s) Hnin) in Hs.
      congruence. }
  split.
  - destruct (mapM (bio_param_loc bio_param_df) nasc_stratum_num)
      as [bcs|e] eqn:Em; cbn [bind].
    + rewrite broadcast_same_length
        by (rewrite (mapM_Ok_length _ _ _ Em); exact Hlen).
      cbn [bind].
      split; [discriminate|]. intros [s [Hs Hnin]]. exfalso.
      assert (Hc : @Ok (list bio_param) bcs = Raise KeyError).
      { apply Hr. exists s. split; [exact Hs|].
        apply (bio_param_loc_cases bio_param_df s). exact Hnin. }
      discriminate Hc.
    + split.
      * intro H. injection H as ->.
        destruct (proj1 Hr eq_refl) as [s [Hs Hf]]. exists s.
        split; [exact Hs|]. intro Hin.
        destruct (proj1 (bio_param_loc_cases bio_param_df s) Hin)
          as [bc [Hbc _]]. congruence.
      * intros [s [Hs Hnin]].
        assert (Hc : @Raise (list bio_param) e = Raise KeyError).
        { apply Hr. exists s. split; [exact Hs|].
          apply (bio_param_loc_cases bio_param_df s). exact Hnin. }
        injection Hc as ->. reflexivity.
  - intro Hall.
    destruct (mapM_ok (bio_param_loc bio_param_df) nasc_stratum_num)
      as [bcs [Hrun [Hl _]]].
    { intros s Hs.
      destruct (proj1 (bio_param_loc_cases bio_param_df s) (Hall s Hs))
        as [bc [Hbc _]]. eauto. }
    rewrite Hrun. cbn [bind].
    rewrite broadcast_same_length by congruence. cbn [bind].
    eexists. split; [reflexivity|].
    rewrite !length_map, length_combine. lia.
Qed.

Lemma tot_biomass_density_keyerror_iff_witness :
  _get_tot_biomass_density [(1%Z, even_sexes)] [1; 2]%Z [Fin 3; Fin 4]
  = Raise KeyError.
Proof.
  apply (proj1 (tot_biomass_density_keyerror_iff [(1%Z, even_sexes)]
                  [1; 2]%Z [Fin 3; Fin 4] eq_refl)).
  exists 2%Z. split; [right; left; reflexivity|].
  intros [H | []]. discriminate H.
Defined.

Lemma round_half_even_near (q : Q) :
  q - (1 # 2) <= inject_Z (round_half_even q) <= q + (1 # 2).
Proof.
  unfold round_half_even. cbv zeta.
  pose proof (Qfloor_le q) as Hlo. pose proof (Qlt_floor q) as Hhi.
  rewrite inject_Z_plus in Hhi. change (inject_Z 1) with 1 in Hhi.
  destruct (q - inject_Z (Qfloor q) ?= 1 # 2) eqn:Ec.
  - apply Qeq_alt in Ec.
    destruct (Z.even (Qfloor q)).
    + split; lra.
    + rewrite inject_Z_plus. change (inject_Z 1) with 1. split; lra.
  - apply Qlt_alt in Ec. split; lra.
  - apply Qgt_alt in Ec. rewrite inject_Z_plus. change (inject_Z 1) with 1.
    split; lra.
Qed.

(** The rounding residue.  With a finite density and sex proportions that
    add up to one, what rounding leaves for the unsexed fish is an integer
    amount between -1 and 1; and when the three average weights agree the
    total biomass density is the density times that weight, whatever the
    rounding did. *)
Theorem unsexed_density_is_rounding_residue (t pm pf : Q) (bc : bio_param) :
  M_prop bc = Fin pm ->
  F_prop bc = Fin pf ->
  pm + pf == 1 ->
  let d := interval_biomass_density (Fin t) bc in
  (exists u, numerical_density_unsexed d = Fin u /\ - (1) <= u <= 1)
  /\ (forall w, averaged_weight_M bc = Fin w ->
                averaged_weight_F bc = Fin w ->
                averaged_weight bc = Fin w ->
                feq (biomass_density d) (Fin (t * w))).
Proof.
  intros Hm Hf Hsum d. unfold d, interval_biomass_density.
  cbn [numerical_density_unsexed biomass_density].
  rewrite Hm, Hf. cbn [fmul np_round fsub].
  pose proof (round_half_even_near (t * pm)) as Rm.
  pose proof (round_half_even_near (t * pf)) as Rf.
  assert (Et : t * pm + t * pf == t).
  { rewrite <- Qmult_plus_distr_r, Hsum. ring. }
  split.
  - eexists. split; [reflexivity|]. split; lra.
  - intros w -> -> ->. simpl. ring.
Qed.

Lemma unsexed_density_is_rounding_residue_witness :
  exists u,
    numerical_density_unsexed
      (interval_biomass_density (Fin 3) even_sexes) = Fin u
    /\ - (1) <= u <= 1.
Proof.
  apply (unsexed_density_is_rounding_residue 3 (1 # 2) (1 # 2) even_sexes);
    reflexivity.
Defined.

(** ** The length-to-value key *)

(** The length-to-value key, bin by bin.  With two or more bin centers and
    a regression curve that has one value per bin, the key has one value
    per bin: a bin with five or more samples holds the mean of the values
    of its samples, a bin with fewer than five, also an empty one, holds
    the value of the regression curve. *)
Theorem length_val_key_mean_or_regression
  (len_val_reg_of : list float -> list float -> list Q -> result (list float))
  (df : list (float * float)) (bio_hake_len_bin : list Q)
  (len_val_reg : list float) :
  let df_no_null :=
    filter (fun r => negb (isnan (fst r)) && negb (isnan (snd r))) df in
  let L := map fst df_no_null in
  let V := map snd df_no_null in
  (2 <= length bio_hake_len_bin)%nat ->
  len_val_reg_of L V bio_hake_len_bin = Ok len_val_reg ->
  length len_val_reg = length bio_hake_len_bin ->
  exists len_bin_ind len_val_key,
    _get_bin_ind L bio_hake_len_bin = Ok len_bin_ind
    /\ _generate_length_val_conversion len_val_reg_of df bio_hake_len_bin
       = Ok len_val_key
    /\ length len_val_key = length bio_hake_len_bin
    /\ forall b, (b < length bio_hake_len_bin)%nat ->
                 nth b len_val_key NaN
                 = if Nat.leb 5 (length (nth b len_bin_ind []))
                   then np_mean (take V (nth b len_bin_ind []))
                   else nth b len_val_reg NaN.
Proof.
  intros df_no_null L V Hn Hreg Hlen.
  destruct (get_bin_ind_ok L bio_hake_len_bin Hn) as [ind [Hind Hil]].
  assert (Hrun : _generate_length_val_conversion len_val_reg_of df
                   bio_hake_len_bin
                 = Ok (put (map (fun i : list nat =>
                                   if Nat.ltb 0 (length i)
                                   then np_mean (take V i) else Fin 0) ind)
                           (argwhere
                              (map (fun c => Nat.ltb c 5)
                                   (map (fun i : list nat => length i) ind)))
                           (take len_val_reg
                              (argwhere
                                 (map (fun c => Nat.ltb c 5)
                                      (map (fun i : list nat => length i)
                                           ind)))))).
  { unfold _generate_length_val_conversion. cbv zeta.
    fold df_no_null. fold L. fold V. rewrite Hind. cbn [bind].
    rewrite Hreg. reflexivity. }
  exists ind. eexists. split; [exact Hind|]. split; [exact Hrun|].
  set (key := map (fun i : list nat =>
                     if Nat.ltb 0 (length i) then np_mean (take V i)
                     else Fin 0) ind).
  set (less := argwhere (map (fun c => Nat.ltb c 5)
                             (map (fun i : list nat => length i) ind))).
  assert (Hless : forall j, In j less
                            <-> (j < length ind)%nat
                                /\ (length (nth j ind []) < 5)%nat).
  { intro j. unfold less. rewrite map_map, argwhere_map_spec. split.
    - intros [v [Hv Hc]]. apply Nat.ltb_lt in Hc. split.
      + apply nth_error_Some. congruence.
      + rewrite (nth_error_nth ind j [] Hv). exact Hc.
    - intros [Hj Hc]. exists (nth j ind []). split.
      + apply nth_error_nth'. exact Hj.
      + apply Nat.ltb_lt. exact Hc. }
  assert (Hkl : length key = length ind) by (unfold key; apply length_map).
  assert (Hb : forall j, In j less -> (j < length key)%nat).
  { intros j Hj. rewrite Hkl. apply Hless. exact Hj. }
  change (take len_val_reg less)
    with (map (fun i => nth i len_val_reg NaN) less).
  split.
  - rewrite (proj1 (put_map_nth _ less key 0%nat Hb)). lia.
  - intros b Hbn.
    rewrite (proj2 (put_map_nth _ less key b Hb)).
    destruct (existsb (Nat.eqb b) less) eqn:Ex.
    + apply existsb_exists in Ex. destruct Ex as [j [Hj Ej]].
      apply Nat.eqb_eq in Ej. subst j. apply Hless in Hj.
      destruct (Nat.leb_spec 5 (length (nth b ind []))); [lia|reflexivity].
    + assert (Hnl : ~ In b less).
      { intro Hin. assert (existsb (Nat.eqb b) less = true).
        { apply existsb_exists. exists b.
          split; [exact Hin|apply Nat.eqb_refl]. }
        congruence. }
      destruct (Nat.leb_spec 5 (length (nth b ind []))) as [H5 | H5].
      * unfold key.
        rewrite (nth_map_in _ ind b NaN []) by lia.
        destruct (Nat.ltb_spec 0 (length (nth b ind []))); [reflexivity|lia].
      * exfalso. apply Hnl. apply Hless. split; lia.
Qed.

Lemma length_val_key_mean_or_regression_witness :
  exists len_bin_ind len_val_key,
    _get_bin_ind (map fst (five_and_one 30 40)) [30; 40] = Ok len_bin_ind
    /\ _generate_length_val_conversion (flat_curve 7) (five_and_one 30 40)
         [30; 40]
       = Ok len_val_key
    /\ length len_val_key = 2%nat.
Proof.
  destruct (length_val_key_mean_or_regression (flat_curve 7)
              (five_and_one 30 40) [30; 40] [Fin 7; Fin 7])
    as [ind [key [H1 [H2 [H3 _]]]]].
  - apply le_n.
  - reflexivity.
  - reflexivity.
  - exists ind, key. split; [exact H1|]. split; [exact H2|exact H3].
Defined.

(** ** The bin indexer at its bounds *)

(** Fewer than two bin centers.  [_get_bin_ind] raises [IndexError]
    exactly when it is given fewer than two centers, whatever the data;
    and with two or more centers and no data every bin is empty. *)
Theorem bin_ind_needs_two_centers (input_data : list float)
  (centered_bins : list Q) :
  (_get_bin_ind input_data centered_bins = Raise IndexError
   <-> (length centered_bins < 2)%nat)
  /\ ((2 <= length centered_bins)%nat ->
      _get_bin_ind [] centered_bins
      = Ok (repeat [] (length centered_bins))).
Proof.
  split.
  - split.
    + intro H. destruct (Nat.lt_ge_cases (length centered_bins) 2)
        as [Hlt | Hge]; [exact Hlt|].
      destruct (get_bin_ind_ok input_data centered_bins Hge) as [h [Hh _]].
      congruence.
    + intro H. destruct centered_bins as [|c0 [|c1 t]]; simpl in H;
        [reflexivity|reflexivity|lia].
  - intro Hn. rewrite (get_bin_ind_unfold [] centered_bins Hn). cbv zeta.
    cbn [map argwhere argwhere_from]. f_equal.
    destruct centered_bins as [|c0 [|c1 t]]; simpl in Hn; [lia|lia|].
    cbn [length Nat.sub repeat]. f_equal.
    rewrite Nat.sub_0_r.
    assert (E : forall n (f : nat -> list nat),
               (forall i, f i = []) -> map f (seq 0 n) = repeat [] n).
    { intros n f Hf. generalize 0%nat. induction n as [|n IH]; intro k;
        [reflexivity|]. cbn [seq map repeat]. rewrite Hf, IH. reflexivity. }
    rewrite E by (intro i; reflexivity).
    clear E Hn. induction (length t) as [|n IH]; [reflexivity|].
    cbn [repeat app]. rewrite IH. reflexivity.
Qed.

(** ** Ratios with a zero count *)

Lemma length_count_sum_zero (df : list length_row) :
  (forall r, In r df -> feq (ln_length_count r) (Fin 0)) ->
  exists q, length_count_sum df = Fin q /\ q == 0.
Proof.
  intro H. unfold length_count_sum. apply fnansum_zero.
  intros x Hx. apply in_map_iff in Hx. destruct Hx as [r [<- Hr]].
  apply H. exact Hr.
Qed.

(** The female entries of [_compute_proportions] when no female fish was
    sampled and the stratum has fish. *)
Lemma proportions_without_females (spec_strata_m : list specimen_row)
  (len_strata len_strata_m len_strata_f : list length_row) (cl cf : Q) :
  let p := _compute_proportions spec_strata_m [] len_strata len_strata_m
                                len_strata_f in
  length_count_sum len_strata = Fin cl ->
  length_count_sum len_strata_f = Fin cf ->
  0 <= cl -> cf == 0 ->
  0 < Qnat (length spec_strata_m) + cl ->
  feq (snd (gender_prop p)) (Fin 0)
  /\ (0 < cl ->
      feq (snd (fac1 p)) (Fin 1) /\ feq (snd (fac2 p)) (Fin 0))
  /\ (cl == 0 -> snd (fac1 p) = NaN /\ snd (fac2 p) = NaN).
Proof.
  intros p El E0 Hcl Hc0 HT.
  set (sm := Qnat (length spec_strata_m)) in *.
  assert (HT0 : ~ sm + 0 + cl == 0) by lra.
  assert (HT1 : ~ sm + cl == 0) by lra.
  assert (Z0 : 0 / (sm + 0 + cl) == 0) by (unfold Qdiv; ring).
  unfold p, _compute_proportions, shape0. rewrite El, E0. fold sm.
  change (Qnat (length (@nil specimen_row))) with 0.
  cbn [fadd fsub fopp fmul].
  rewrite !(fdiv_Fin _ (sm + 0 + cl) HT0).
  cbn [fadd fsub fopp fmul gender_prop fac1 fac2 snd].
  set (t1 := (1 + - (sm / (sm + 0 + cl) + 0 / (sm + 0 + cl))) * 1).
  assert (Et1 : t1 == cl / (sm + 0 + cl))
    by (unfold t1; field; repeat split; try assumption; lra).
  split; [|split].
  - cbn [feq]. rewrite Hc0. field. repeat split; try assumption; lra.
  - intro Hpos.
    assert (Hcl' : 0 < cl / (sm + 0 + cl)).
    { apply Qlt_shift_div_l; lra. }
    assert (Hd : ~ t1 + 0 / (sm + 0 + cl) == 0) by (rewrite Et1, Z0; lra).
    rewrite (fdiv_Fin _ _ Hd). cbn [fadd].
    assert (E1 : t1 / (t1 + 0 / (sm + 0 + cl)) == 1).
    { rewrite Z0. setoid_replace (t1 + 0) with t1 by ring.
      field. rewrite Et1. lra. }
    assert (Hd2 : ~ t1 / (t1 + 0 / (sm + 0 + cl)) + 0 / (sm + 0 + cl) == 0)
      by (rewrite E1, Z0; lra).
    rewrite (fdiv_Fin _ _ Hd2). cbn [feq]. split; [exact E1|].
    rewrite Z0. unfold Qdiv. ring.
  - intro Hz.
    assert (Ea : t1 == 0) by (rewrite Et1, Hz; unfold Qdiv; ring).
    assert (Eb : t1 + 0 / (sm + 0 + cl) == 0) by (rewrite Ea, Z0; ring).
    rewrite (fdiv_zero_zero _ _ Ea Eb). cbn [fadd fdiv]. split; reflexivity.
Qed.

(** The male entries when no male fish was sampled. *)
Lemma proportions_without_males (spec_strata_f : list specimen_row)
  (len_strata len_strata_m len_strata_f : list length_row) (cl cm : Q) :
  let p := _compute_proportions [] spec_strata_f len_strata len_strata_m
                                len_strata_f in
  length_count_sum len_strata = Fin cl ->
  length_count_sum len_strata_m = Fin cm ->
  0 <= cl -> cm == 0 ->
  0 < Qnat (length spec_strata_f) + cl ->
  feq (fst (gender_prop p)) (Fin 0)
  /\ (0 < cl ->
      feq (fst (fac1 p)) (Fin 1) /\ feq (fst (fac2 p)) (Fin 0))
  /\ (cl == 0 -> fst (fac1 p) = NaN /\ fst (fac2 p) = NaN).
Proof.
  intros p El E0 Hcl Hc0 HT.
  set (sf := Qnat (length spec_strata_f)) in *.
  assert (HT0 : ~ 0 + sf + cl == 0) by lra.
  assert (HT1 : ~ sf + cl == 0) by lra.
  assert (Z0 : 0 / (0 + sf + cl) == 0) by (unfold Qdiv; ring).
  unfold p, _compute_proportions, shape0. rewrite El, E0. fold sf.
  change (Qnat (length (@nil specimen_row))) with 0.
  cbn [fadd fsub fopp fmul].
  rewrite !(fdiv_Fin _ (0 + sf + cl) HT0).
  cbn [fadd fsub fopp fmul gender_prop fac1 fac2 fst].
  set (t1 := (1 + - (0 / (0 + sf + cl) + sf / (0 + sf + cl))) * 1).
  assert (Et1 : t1 == cl / (0 + sf + cl))
    by (unfold t1; field; repeat split; try assumption; lra).
  split; [|split].
  - cbn [feq]. rewrite Hc0. field. repeat split; try assumption; lra.
  - intro Hpos.
    assert (Hcl' : 0 < cl / (0 + sf + cl)).
    { apply Qlt_shift_div_l; lra. }
    assert (Hd : ~ t1 + 0 / (0 + sf + cl) == 0) by (rewrite Et1, Z0; lra).
    rewrite (fdiv_Fin _ _ Hd). cbn [fadd].
    assert (E1 : t1 / (t1 + 0 / (0 + sf + cl)) == 1).
    { rewrite Z0. setoid_replace (t1 + 0) with t1 by ring.
      field. rewrite Et1. lra. }
    assert (Hd2 : ~ t1 / (t1 + 0 / (0 + sf + cl)) + 0 / (0 + sf + cl) == 0)
      by (rewrite E1, Z0; lra).
    rewrite (fdiv_Fin _ _ Hd2). cbn [feq]. split; [exact E1|].
    rewrite Z0. unfold Qdiv. ring.
  - intro Hz.
    assert (Ea : t1 == 0) by (rewrite Et1, Hz; unfold Qdiv; ring).
    assert (Eb : t1 + 0 / (0 + sf + cl) == 0) by (rewrite Ea, Z0; ring).
    rewrite (fdiv_zero_zero _ _ Ea Eb). cbn [fadd fdiv]. split; reflexivity.
Qed.

(** C9, as the code has it.  The ratios of the composition computations
    are plain divisions without a guard or a fallback, and with at least
    two length-bin centers none of them raises on a zero count.  The
    length distribution of a sample with zero count, the stratum's or one
    sex's, is NaN in every bin: at station 1 when all counts are zero, at
    station 2 when there is no specimen.  For a stratum whose total count
    is zero every sex and station proportion returned by
    [_compute_proportions] is NaN.  For a stratum with fish in which one
    sex has none, the proportion of that sex is the quotient of zero by
    the total, 0; its station fractions are 1 and 0 when station 1 has
    fish, and NaN when station 1 has none. *)
Theorem zero_count_ratios_are_nan (bio_hake_len_bin : list Q) :
  (2 <= length bio_hake_len_bin)%nat ->
  (forall df,
      (forall r, In r df -> feq (ln_length_count r) (Fin 0)) ->
      exists dist,
        _get_distribution_lengths_station_1 bio_hake_len_bin df = Ok dist
        /\ length dist = length bio_hake_len_bin
        /\ forall x, In x dist -> x = NaN)
  /\ (exists dist,
        _get_distribution_lengths_station_2 bio_hake_len_bin [] = Ok dist
        /\ length dist = length bio_hake_len_bin
        /\ forall x, In x dist -> x = NaN)
  /\ (forall len_strata len_strata_m len_strata_f,
        (forall r, In r len_strata -> feq (ln_length_count r) (Fin 0)) ->
        let p := _compute_proportions [] [] len_strata len_strata_m
                                      len_strata_f in
        gender_prop p = (NaN, NaN)
        /\ fac1 p = (NaN, NaN)
        /\ fac2 p = (NaN, NaN)
        /\ tot_prop p = (NaN, NaN))
  /\ (forall spec_strata_m len_strata len_strata_m len_strata_f,
        (forall r, In r len_strata ->
                   exists q, ln_length_count r = Fin q /\ 0 <= q) ->
        (forall r, In r len_strata_f -> feq (ln_length_count r) (Fin 0)) ->
        0 < Qnat (length spec_strata_m) + station1_count len_strata ->
        let p := _compute_proportions spec_strata_m [] len_strata
                                      len_strata_m len_strata_f in
        feq (snd (gender_prop p)) (Fin 0)
        /\ (0 < station1_count len_strata ->
            feq (snd (fac1 p)) (Fin 1) /\ feq (snd (fac2 p)) (Fin 0))
        /\ (station1_count len_strata == 0 ->
            snd (fac1 p) = NaN /\ snd (fac2 p) = NaN))
  /\ (forall spec_strata_f len_strata len_strata_m len_strata_f,
        (forall r, In r len_strata ->
                   exists q, ln_length_count r = Fin q /\ 0 <= q) ->
        (forall r, In r len_strata_m -> feq (ln_length_count r) (Fin 0)) ->
        0 < Qnat (length spec_strata_f) + station1_count len_strata ->
        let p := _compute_proportions [] spec_strata_f len_strata
                                      len_strata_m len_strata_f in
        feq (fst (gender_prop p)) (Fin 0)
        /\ (0 < station1_count len_strata ->
            feq (fst (fac1 p)) (Fin 1) /\ feq (fst (fac2 p)) (Fin 0))
        /\ (station1_count len_strata == 0 ->
            fst (fac1 p) = NaN /\ fst (fac2 p) = NaN)).
Proof.
  intro Hn. split; [|split; [|split; [|split]]].
  - intros df Hdf. unfold _get_distribution_lengths_station_1.
    destruct (get_bin_ind_ok (map ln_length df) bio_hake_len_bin Hn)
      as [h [Hrun Hlen]].
    pose proof (get_bin_ind_bound _ _ _ Hn Hrun) as Hbound.
    rewrite Hrun. simpl. eexists. split; [reflexivity|].
    split; [rewrite !length_map; exact Hlen|].
    apply zero_counts_distribution.
    intros c Hc. apply in_map_iff in Hc. destruct Hc as [ind [<- Hind]].
    destruct (fsum_zero (take (map ln_length_count df) ind))
      as [q [-> Hq]]; [|exact Hq].
    intros x Hx. unfold take in Hx. apply in_map_iff in Hx.
    destruct Hx as [i [<- Hi]].
    destruct (In_nth _ _ [] Hind) as [b [Hb Hnth]].
    assert (Hlt : (i < length df)%nat).
    { rewrite <- (length_map ln_length). apply (Hbound b i).
      unfold in_bin. rewrite Hnth. exact Hi. }
    destruct (nth_error df i) as [r|] eqn:Hr;
      [|apply nth_error_None in Hr; lia].
    rewrite (nth_map_in ln_length_count df i NaN r) by exact Hlt.
    apply Hdf. apply nth_In. exact Hlt.
  - unfold _get_distribution_lengths_station_2.
    destruct (get_bin_ind_ok (map sp_length []) bio_hake_len_bin Hn)
      as [h [Hrun Hlen]].
    pose proof (get_bin_ind_bound _ _ _ Hn Hrun) as Hbound.
    rewrite Hrun. simpl. eexists. split; [reflexivity|].
    split; [rewrite !length_map; exact Hlen|].
    apply zero_counts_distribution.
    intros c Hc. apply in_map_iff in Hc. destruct Hc as [ind [<- Hind]].
    destruct ind as [|i ind']; [simpl; reflexivity|].
    exfalso. destruct (In_nth _ _ [] Hind) as [b [Hb Hnth]].
    assert (Hlt : (i < length (map sp_length []))%nat).
    { apply (Hbound b i). unfold in_bin. rewrite Hnth. left. reflexivity. }
    simpl in Hlt. lia.
  - intros len_strata len_strata_m len_strata_f Hlen.
    unfold _compute_proportions, length_count_sum.
    destruct (fnansum_zero (map ln_length_count len_strata))
      as [q [-> Hq]].
    { intros x Hx. apply in_map_iff in Hx. destruct Hx as [r [<- Hr]].
      apply Hlen. exact Hr. }
    assert (Hz : fdiv (shape0 (@nil specimen_row))
                      (fadd (fadd (shape0 (@nil specimen_row))
                                  (shape0 (@nil specimen_row))) (Fin q))
                 = NaN).
    { unfold shape0. simpl length. cbn [fadd].
      apply fdiv_zero_zero; [reflexivity|]. rewrite Hq. reflexivity. }
    cbv zeta. rewrite Hz. cbn [gender_prop fac1 fac2 tot_prop].
    repeat split.
  - intros spec_strata_m len_strata len_strata_m len_strata_f Hfin Hzero HT.
    destruct (length_count_sum_view len_strata Hfin) as [El [Eq Hge]].
    destruct (length_count_sum_zero len_strata_f Hzero) as [cf [Ef Hcf]].
    unfold station1_count in *. rewrite <- Eq in HT. rewrite <- Eq.
    apply (proportions_without_females spec_strata_m len_strata len_strata_m
             len_strata_f _ cf El Ef Hge Hcf HT).
  - intros spec_strata_f len_strata len_strata_m len_strata_f Hfin Hzero HT.
    destruct (length_count_sum_view len_strata Hfin) as [El [Eq Hge]].
    destruct (length_count_sum_zero len_strata_m Hzero) as [cm [Em Hcm]].
    unfold station1_count in *. rewrite <- Eq in HT. rewrite <- Eq.
    apply (proportions_without_males spec_strata_f len_strata len_strata_m
             len_strata_f _ cm El Em Hge Hcm HT).
Qed.

Lemma zero_count_ratios_are_nan_witness :
  (exists dist,
     _get_distribution_lengths_station_2 [2; 4; 6] [] = Ok dist
     /\ length dist = 3%nat
     /\ forall x, In x dist -> x = NaN)
  /\ feq (snd (gender_prop
                 (_compute_proportions balanced_spec_m [] balanced_len_m
                                       balanced_len_m [])))
         (Fin 0).
Proof.
  destruct (zero_count_ratios_are_nan [2; 4; 6]) as [_ [H [_ [Hf _]]]].
  - simpl. lia.
  - split; [exact H|].
    refine (proj1 (Hf balanced_spec_m balanced_len_m balanced_len_m []
                      _ _ _)).
    + intros r [<- | []]. eexists. split; [reflexivity|]. vm_compute.
      discriminate.
    + intros r [].
    + reflexivity.
Defined.

(** ** The haul cross sections of [_get_strata_sig_b] *)

(** The outcomes of the loop.  It raises exactly when a haul with a
    specimen whose length and weight are recorded has exactly one
    station-1 row; otherwise every such haul receives one value, the
    sample mean over its fish, taken over its station-2 specimens alone
    when it has no station-1 row. *)
Lemma strata_sig_b_outcomes (sigma : Q -> Q)
  (specimen_df : list specimen_row) (length_df : list length_row) :
  let spec_df := spec_dropna specimen_df in
  let hauls := unique (map sp_haul_num spec_df) in
  let station1 h :=
    filter (fun r => Z.eqb (ln_haul_num r) h) length_df in
  (_get_strata_sig_b sigma specimen_df length_df = Raise AttributeError
   <-> exists h, In h hauls /\ length (station1 h) = 1%nat)
  /\ ((forall h, In h hauls -> length (station1 h) <> 1%nat) ->
      exists tbl,
        _get_strata_sig_b sigma specimen_df length_df = Ok tbl
        /\ map fst tbl = hauls
        /\ forall h v,
             In (h, v) tbl ->
             (forall r, In r length_df -> ln_haul_num r = h ->
                        is_count (ln_length_count r)) ->
             feq v (sample_mean (per_fish_sigma_bs sigma spec_df length_df h))
             /\ ((forall r, In r length_df -> ln_haul_num r <> h) ->
                 feq v (sample_mean
                          (map (fun r => sigma_bs_of sigma (sp_length r))
                               (filter (fun r => Z.eqb (sp_haul_num r) h)
                                       spec_df))))).
Proof.
  intros spec_df hauls station1. unfold _get_strata_sig_b.
  fold spec_df. fold hauls.
  set (f := fun haul_num =>
              bind (sig_bs_haul sigma spec_df length_df haul_num)
                   (fun v => Ok (haul_num, v))).
  assert (Hf1 : forall h, length (station1 h) = 1%nat ->
                          f h = Raise AttributeError).
  { intros h H1. unfold f.
    rewrite (proj1 (sig_bs_haul_cases sigma spec_df length_df h) H1).
    reflexivity. }
  assert (Hf2 : forall h, length (station1 h) <> 1%nat ->
                          exists v, f h = Ok (h, v)
                                    /\ sig_bs_haul sigma spec_df length_df h
                                       = Ok v).
  { intros h Hne. unfold f.
    destruct (proj2 (sig_bs_haul_cases sigma spec_df length_df h) Hne)
      as [v [Ev _]].
    exists v. rewrite Ev. split; reflexivity. }
  destruct (mapM_raise f AttributeError hauls) as [Hr Ho].
  { intros h e' _ Hh.
    destruct (Nat.eq_dec (length (station1 h)) 1) as [H1 | Hne].
    - rewrite (Hf1 h H1) in Hh. congruence.
    - destruct (Hf2 h Hne) as [v [Ev _]]. congruence. }
  split.
  - rewrite Hr. split.
    + intros [h [Hh Eh]]. exists h. split; [exact Hh|].
      destruct (Nat.eq_dec (length (station1 h)) 1) as [H1 | Hne];
        [exact H1|].
      destruct (Hf2 h Hne) as [v [Ev _]]. congruence.
    + intros [h [Hh H1]]. exists h. split; [exact Hh|exact (Hf1 h H1)].
  - intro Hall.
    destruct (mapM_ok f hauls) as [tbl [E [Hlen Hnth]]].
    { intros h Hh. destruct (Hf2 h (Hall h Hh)) as [v [Ev _]]. eauto. }
    exists tbl. split; [exact E|].
    assert (Hrow : forall h v, In (h, v) tbl ->
                               In h hauls
                               /\ sig_bs_haul sigma spec_df length_df h = Ok v).
    { intros h v Hin. destruct (mapM_Ok_In f _ _ E _ Hin) as [h' [Hh' Ef]].
      destruct (Hf2 h' (Hall h' Hh')) as [v' [Ev' Es]].
      rewrite Ev' in Ef. injection Ef as <- <-. auto. }
    split.
    + apply (nth_ext _ _ 0%Z 0%Z); [rewrite length_map; exact Hlen|].
      intros i Hi. rewrite length_map in Hi.
      destruct (nth_error tbl i) as [[h v]|] eqn:Ei;
        [|apply nth_error_None in Ei; lia].
      rewrite (nth_map_in _ tbl i 0%Z (h, v)) by exact Hi.
      rewrite (nth_error_nth tbl i (h, v) Ei). cbn [fst].
      destruct (Hnth i (h, v) Ei) as [h' [Hh' Ef]].
      rewrite (nth_error_nth hauls i _ Hh').
      destruct (Hf2 h' (Hall h' (nth_error_In _ _ Hh'))) as [v' [Ev' _]].
      congruence.
    + intros h v Hin Hcnt. destruct (Hrow h v Hin) as [Hh Es].
      destruct (proj2 (sig_bs_haul_cases sigma spec_df length_df h)
                  (Hall h Hh)) as [v' [Ev' Hmean]].
      assert (v' = v) by congruence. subst v'.
      split; [exact (Hmean Hcnt)|].
      intro Habs. rewrite (Hmean Hcnt). unfold per_fish_sigma_bs.
      assert (E0 : filter (fun r => Z.eqb (ln_haul_num r) h) length_df = []).
      { apply existsb_false_filter.
        destruct (existsb _ length_df) eqn:Ex; [|reflexivity].
        apply existsb_exists in Ex. destruct Ex as [r [Hin' He]].
        apply Z.eqb_eq in He. exfalso. exact (Habs r Hin' He). }
      rewrite E0. reflexivity.
Qed.

(** C6.  By the specification a haul with a qualifying observation
    receives the count-weighted mean over the fish of both stations.  In
    [_get_strata_sig_b] the qualifying observations are the specimens
    whose length and weight are both recorded, and a haul that has one
    and exactly one station-1 row receives nothing: [.loc] hands the
    single row over as a Series, its length is one cell, taking [values]
    of it raises [AttributeError], and the loop stops for every haul. *)
Theorem station1_single_row_raises (sigma : Q -> Q)
  (specimen_df : list specimen_row) (length_df : list length_row)
  (haul_num : Z) :
  In haul_num (map sp_haul_num (spec_dropna specimen_df)) ->
  length (filter (fun r => Z.eqb (ln_haul_num r) haul_num) length_df)
  = 1%nat ->
  _get_strata_sig_b sigma specimen_df length_df = Raise AttributeError.
Proof.
  intros Hq H1.
  apply (proj1 (strata_sig_b_outcomes sigma specimen_df length_df)).
  exists haul_num. split; [|exact H1].
  apply unique_In. exact Hq.
Qed.

Lemma station1_single_row_raises_witness :
  _get_strata_sig_b (fun q => q * q) two_hauls_spec two_hauls_len
  = Raise AttributeError.
Proof.
  apply (station1_single_row_raises (fun q => q * q) two_hauls_spec
           two_hauls_len 1%Z).
  - left. reflexivity.
  - reflexivity.
Defined.
